(** * Samurai Sudoku generator: a shallow embedding and its verification

    The Python package [samurai_sudoku] builds a solved five-board Samurai
    grid by composition, digs holes in it under a uniqueness check, and
    returns the (puzzle, solution) pair.  This file embeds the modules
    [geometry], [model], [solver], [dlx9] and [generator], and of [cli] the
    clue count and the schedule, and proves the properties stated about
    them.

    Conventions of the embedding
    - canvas and board coordinates are natural numbers (the code only ever
      produces them from [range]);
    - cell values are Python ints, modelled in [Z]; an empty cell is [None];
    - [l[i]] on a list is [nth] with a default and [l[i] = x] is [list_set];
      the theorems work on grids and boards of the declared sizes, where
      no index is out of range;
    - a Python [set] of ints is a duplicate-free list, iterated in insertion
      order (no proved property depends on the order);
    - a [random.Random] object is the sequence of answers to its successive
      [_randbelow] requests together with a cursor;
    - [time.time()] reads the next value of a sequence of clock readings. *)

From Stdlib Require Import Bool String Ascii List Arith NArith ZArith Lia Permutation.
Import ListNotations.

Local Open Scope nat_scope.

(* ================================================================== *)
(** * Python lists, sets, exceptions *)
(* ================================================================== *)

(** [l[i] = x]; an index out of range leaves the list as it is. *)
Fixpoint list_set {A : Type} (l : list A) (i : nat) (x : A) : list A :=
  match l, i with
  | [], _ => []
  | _ :: t, 0 => x :: t
  | h :: t, S i' => h :: list_set t i' x
  end.

(** [l[i]] and [l[i] = x] at an index kept in binary. *)
Definition idx {A : Type} (l : list A) (i : N) (d : A) : A := nth (N.to_nat i) l d.
Definition set_idx {A : Type} (l : list A) (i : N) (x : A) : list A :=
  list_set l (N.to_nat i) x.

(** [x in s], [s.add(x)] and [s.remove(x)] on a set of row or column ids. *)
Definition nmem (x : N) (s : list N) : bool := existsb (N.eqb x) s.
Definition nadd (x : N) (s : list N) : list N :=
  if nmem x s then s else s ++ [x].
Definition nremove (x : N) (s : list N) : list N :=
  filter (fun y => negb (y =? x)%N) s.

(** [range(n)] as binary numbers. *)
Definition range (n : nat) : list N := map N.of_nat (seq 0 n).

(** The same on a set of ints. *)
Definition zmem (x : Z) (s : list Z) : bool := existsb (Z.eqb x) s.
Definition zadd (x : Z) (s : list Z) : list Z :=
  if zmem x s then s else s ++ [x].
Definition zremove (x : Z) (s : list Z) : list Z :=
  filter (fun y => negb (y =? x)%Z) s.

(** The exceptions a call can end with.  [OutsideModel] marks an input the
    embedding does not cover (an index that Python would reject or wrap
    around); [NoFuel] marks the bound of a modelled loop or recursion, which
    the theorems show is never reached. *)
Inductive Exception : Type :=
| ValueError
| KeyError
| AssertionError
| OutsideModel
| NoFuel.

Inductive Result (A : Type) : Type :=
| Ok (a : A)
| Raise (e : Exception).
Arguments Ok {A} a.
Arguments Raise {A} e.

Definition bind {A B : Type} (m : Result A) (k : A -> Result B) : Result B :=
  match m with
  | Ok a => k a
  | Raise e => Raise e
  end.

Notation "x <- m ;; k" := (bind m (fun x => k))
  (at level 61, m at next level, right associativity).
Notation "' p <- m ;; k" := (bind m (fun x => let p := x in k))
  (at level 61, p pattern, m at next level, right associativity).

(* ================================================================== *)
(** * random.Random *)
(* ================================================================== *)

Module random.

(** A random source answers its [k]-th [_randbelow(n)] request with
    [draws k mod n]; [cursor] counts the requests made so far.  Every run
    of a real generator is one such sequence. *)
Record Random : Type := mkRandom { draws : nat -> nat; cursor : nat }.

Definition randbelow (rng : Random) (n : nat) : nat * Random :=
  (draws rng (cursor rng) mod n, mkRandom (draws rng) (S (cursor rng))).

Definition swap {A : Type} (x : list A) (i j : nat) : list A :=
  match nth_error x i, nth_error x j with
  | Some a, Some b => list_set (list_set x i b) j a
  | _, _ => x
  end.

(** [Random.shuffle(x)]:
    [for i in reversed(range(1, len(x))): j = randbelow(i + 1); swap]. *)
Definition shuffle {A : Type} (rng : Random) (x : list A) : list A * Random :=
  fold_left
    (fun (st : list A * Random) (i : nat) =>
       let '(x, rng) := st in
       let '(j, rng) := randbelow rng (i + 1) in
       (swap x i j, rng))
    (rev (seq 1 (length x - 1)))
    (x, rng).

(** [Random.sample(population, k)], the pool branch (taken whenever the
    population has at most 21 elements):
    [for i in range(k): j = randbelow(n - i); result[i] = pool[j];
     pool[j] = pool[n - i - 1]]. *)
Definition sample {A : Type} (rng : Random) (population : list A) (k : nat)
  : list A * Random :=
  let n := length population in
  let '(_, result, rng) :=
    fold_left
      (fun (st : list A * list A * Random) (i : nat) =>
         let '(pool, result, rng) := st in
         let '(j, rng) := randbelow rng (n - i) in
         match nth_error pool j, nth_error pool (n - i - 1) with
         | Some a, Some b => (list_set pool j b, result ++ [a], rng)
         | _, _ => (pool, result, rng)
         end)
      (seq 0 k)
      (population, [], rng) in
  (result, rng).

End random.

(* ================================================================== *)
(** * geometry.py *)
(* ================================================================== *)

Module geometry.

Definition BOARD_SIZE : nat := 21.

(** The five boards: name and origin (row, column) on the canvas. *)
Definition BOARDS : list (string * nat * nat) :=
  [ ("TL"%string, 0, 0);
    ("TR"%string, 0, 12);
    ("C"%string, 6, 6);
    ("BL"%string, 12, 0);
    ("BR"%string, 12, 12) ].

Definition in_board (r c r0 c0 : nat) : bool :=
  (r0 <=? r) && (r <? r0 + 9) && (c0 <=? c) && (c <? c0 + 9).

Definition is_active_cell (r c : nat) : bool :=
  existsb (fun b => let '(_, r0, c0) := b in in_board r c r0 c0) BOARDS.

Definition active_cells : list (nat * nat) :=
  flat_map (fun r =>
    flat_map (fun c => if is_active_cell r c then [(r, c)] else [])
             (seq 0 BOARD_SIZE))
    (seq 0 BOARD_SIZE).

Definition boards_covering_cell (r c : nat) : list (string * nat * nat) :=
  filter (fun b => let '(_, r0, c0) := b in in_board r c r0 c0) BOARDS.

(** The three generators, as the lists of the cells they yield. *)
Definition row_cells_in_board (r0 c0 rr : nat) : list (nat * nat) :=
  map (fun cc => (r0 + rr, c0 + cc)) (seq 0 9).

Definition col_cells_in_board (r0 c0 cc : nat) : list (nat * nat) :=
  map (fun rr => (r0 + rr, c0 + cc)) (seq 0 9).

Definition box_cells_in_board (r0 c0 br bc : nat) : list (nat * nat) :=
  flat_map (fun rr => map (fun cc => (r0 + rr, c0 + cc)) (seq (bc * 3) 3))
           (seq (br * 3) 3).

Definition subgrid_index (r c r0 c0 : nat) : nat * nat :=
  let rr := r - r0 in
  let cc := c - c0 in
  (rr / 3, cc / 3).

End geometry.

(* ================================================================== *)
(** * model.py *)
(* ================================================================== *)

Module model.
Import geometry.

Definition Value : Type := option Z.
Definition Grid : Type := list (list Value).

(** [g[r][c]] and [g[r][c] = v]. *)
Definition cell (g : Grid) (r c : nat) : Value := nth c (nth r g []) None.
Definition set_cell (g : Grid) (r c : nat) (v : Value) : Grid :=
  list_set g r (list_set (nth r g []) c v).

Definition empty_samurai_grid : Grid :=
  let g := repeat (repeat (@None Z) BOARD_SIZE) BOARD_SIZE in
  fold_left
    (fun g r =>
       fold_left
         (fun g c =>
            if is_active_cell r c then set_cell g r c None
            else set_cell g r c None)
         (seq 0 BOARD_SIZE) g)
    (seq 0 BOARD_SIZE) g.

(** [[row[:] for row in g]]: the rows are copied one by one. *)
Definition copy_grid (g : Grid) : Grid := map (fun row => row) g.

Definition is_cell_empty (g : Grid) (r c : nat) : bool :=
  match cell g r c with None => true | Some _ => false end.

Definition add_value (v : Value) (used : list Z) : list Z :=
  match v with
  | Some d => zadd d used
  | None => used
  end.

Definition candidates (g : Grid) (r c : nat) : list Z :=
  let used :=
    fold_left
      (fun used b =>
         let '(_, r0, c0) := b in
         (* row *)
         let rr := r - r0 in
         let used :=
           fold_left (fun used cc => add_value (cell g (r0 + rr) (c0 + cc)) used)
                     (seq 0 9) used in
         (* col *)
         let cc := c - c0 in
         let used :=
           fold_left (fun used rr2 => add_value (cell g (r0 + rr2) (c0 + cc)) used)
                     (seq 0 9) used in
         (* box *)
         let '(br, bc) := subgrid_index r c r0 c0 in
         fold_left
           (fun used rr3 =>
              fold_left
                (fun used cc3 => add_value (cell g (r0 + rr3) (c0 + cc3)) used)
                (seq (bc * 3) 3) used)
           (seq (br * 3) 3) used)
      (boards_covering_cell r c) [] in
  filter (fun d => negb (zmem d used)) (map Z.of_nat (seq 1 9)).

(** [g[R][C] == v] for an optional value against an int. *)
Definition holds (x : Value) (v : Z) : bool :=
  match x with
  | Some d => (d =? v)%Z
  | None => false
  end.

Definition is_valid_assignment (g : Grid) (r c : nat) (v : Z) : bool :=
  forallb
    (fun b =>
       let '(_, r0, c0) := b in
       let rr := r - r0 in
       let cc := c - c0 in
       (* row *)
       forallb (fun x => negb (negb (c0 + x =? c) && holds (cell g (r0 + rr) (c0 + x)) v))
               (seq 0 9)
       (* col *)
       && forallb (fun y => negb (negb (r0 + y =? r) && holds (cell g (r0 + y) (c0 + cc)) v))
                  (seq 0 9)
       (* box *)
       && (let br := (rr / 3) * 3 in
           let bc := (cc / 3) * 3 in
           forallb
             (fun y =>
                forallb
                  (fun x =>
                     let R := r0 + br + y in
                     let C := c0 + bc + x in
                     negb (negb ((R =? r) && (C =? c)) && holds (cell g R C) v))
                  (seq 0 3))
             (seq 0 3)))
    (boards_covering_cell r c).

End model.

(* ================================================================== *)
(** * solver.py *)
(* ================================================================== *)

Module solver.
Import geometry model random.

(** The loop of [find_next_cell] over the remaining active cells, with the
    best cell found so far. *)
Fixpoint find_next_cell_from (cells : list (nat * nat)) (g : Grid)
         (best : option (nat * nat * list Z)) : option (nat * nat * list Z) :=
  match cells with
  | [] => best
  | (r, c) :: rest =>
      match cell g r c with
      | None =>
          let cand := candidates g r c in
          match cand with
          | [] => None
          | _ :: _ =>
              let better :=
                match best with
                | None => true
                | Some (_, _, bc) => length cand <? length bc
                end in
              if better then
                if length cand =? 1 then Some (r, c, cand)
                else find_next_cell_from rest g (Some (r, c, cand))
              else find_next_cell_from rest g best
          end
      | Some _ => find_next_cell_from rest g best
      end
  end.

Definition find_next_cell (g : Grid) : option (nat * nat * list Z) :=
  find_next_cell_from active_cells g None.

(** The state of [solve_unique]'s closure: the counter, the grid it fills in
    place, and the module-level random generator its shuffles draw from. *)
Record Search : Type := mkSearch {
  count : Z;
  grid : Grid;
  grand : Random
}.

(** The [for v in cand] loop of [backtrack]; [rec] is the recursive call. *)
Fixpoint try_candidates (rec : Search -> option (bool * Search))
         (r c : nat) (cand : list Z) (s : Search) : option (bool * Search) :=
  match cand with
  | [] => Some (false, s)
  | v :: rest =>
      if is_valid_assignment (grid s) r c v then
        match rec (mkSearch (count s) (set_cell (grid s) r c (Some v)) (grand s)) with
        | None => None
        | Some (true, s') => Some (true, s')
        | Some (false, s') =>
            try_candidates rec r c rest
              (mkSearch (count s') (set_cell (grid s') r c None) (grand s'))
        end
      else try_candidates rec r c rest s
  end.

(** [backtrack()]; the recursion depth is bounded by [fuel]. *)
Fixpoint backtrack (fuel : nat) (limit_solutions : Z) (s : Search)
  : option (bool * Search) :=
  match fuel with
  | 0 => None
  | S fuel' =>
      match find_next_cell (grid s) with
      | None =>
          if existsb (fun rc => is_cell_empty (grid s) (fst rc) (snd rc)) active_cells
          then Some (false, s)
          else
            let count' := (count s + 1)%Z in
            Some ((limit_solutions <=? count')%Z, mkSearch count' (grid s) (grand s))
      | Some (r, c, cand) =>
          let '(cand, grand') := shuffle (grand s) cand in
          try_candidates (backtrack fuel' limit_solutions) r c cand
            (mkSearch (count s) (grid s) grand')
      end
  end.

(** [solve_unique(g, limit_solutions)]: the pair returned and the state in
    which the call leaves [g] and the module-level generator.  Each nested
    call of [backtrack] fills one more active cell, so the depth never
    exceeds the number of active cells plus one. *)
Definition solve_unique (grand : Random) (g : Grid) (limit_solutions : Z)
  : Result ((bool * Z) * Search) :=
  match backtrack (S (length active_cells)) limit_solutions (mkSearch 0 g grand) with
  | None => Raise NoFuel
  | Some (_, s) => Ok ((0 <? count s)%Z, count s, s)
  end.

End solver.

(* ================================================================== *)
(** * dlx9.py *)
(* ================================================================== *)

Module dlx9.
Import random.

Definition Board9 : Type := list (list Z).

(** [board[r][c]] and [board[r][c] = v] on a 9x9 board of ints. *)
Definition board_get (b : Board9) (r c : nat) : Z := nth c (nth r b []) 0%Z.
Definition board_set (b : Board9) (r c : nat) (v : Z) : Board9 :=
  list_set b r (list_set (nth r b []) c v).

Definition zero_board : Board9 := repeat (repeat 0%Z 9) 9.

Definition _box_index (r c : N) : N := ((r / 3) * 3 + c / 3)%N.

Definition _col_ids_for_candidate (r c d : N) : list N :=
  let ROW_O := 0%N in
  let COL_O := 81%N in
  let BOX_O := 162%N in
  let CEL_O := 243%N in
  [ ROW_O + r * 9 + d;
    COL_O + c * 9 + d;
    BOX_O + _box_index r c * 9 + d;
    CEL_O + r * 9 + c ]%N.

Definition row_id (r c d : N) : N := ((r * 9 + c) * 9 + d)%N.

(** The construction loops: [rows_for_col] (324 sets) and [cols_for_row]
    (729 lists of four columns). *)
Definition build_matrix : list (list N) * list (list N) :=
  fold_left
    (fun st r =>
       fold_left
         (fun st c =>
            fold_left
              (fun (st : list (list N) * list (list N)) d =>
                 let '(rows_for_col, cols_for_row) := st in
                 let rid := row_id r c d in
                 let cols := _col_ids_for_candidate r c d in
                 (fold_left
                    (fun rfc col => set_idx rfc col (nadd rid (idx rfc col [])))
                    cols rows_for_col,
                  cols_for_row ++ [cols]))
              (range 9) st)
         (range 9) st)
    (range 9) (repeat [] 324, []).

Definition cols_for_row : list (list N) := Eval vm_compute in snd build_matrix.

(** The mutable part of the exact-cover matrix. *)
Record Matrix : Type := mkMatrix {
  rows_for_col : list (list N);
  active_rows : list N;
  active_cols : list N
}.

Definition initial_rows_for_col : list (list N) :=
  Eval vm_compute in fst build_matrix.

Definition initial_matrix : Matrix :=
  mkMatrix initial_rows_for_col (range (9 * 9 * 9)) (range 324).

(** The inner loop of [cover]: drop [rid] from the set of each of its
    columns that is still active. *)
Definition drop_row (rid : N) (m : Matrix) : Matrix :=
  fold_left
    (fun m cc =>
       if nmem cc (active_cols m) && nmem rid (idx (rows_for_col m) cc [])
       then mkMatrix
              (set_idx (rows_for_col m) cc (nremove rid (idx (rows_for_col m) cc [])))
              (active_rows m) (active_cols m)
       else m)
    (idx cols_for_row rid []) m.

Definition cover (col : N) (m : Matrix) : Matrix :=
  let m :=
    fold_left
      (fun m rid =>
         if nmem rid (active_rows m)
         then drop_row rid
                (mkMatrix (rows_for_col m) (nremove rid (active_rows m)) (active_cols m))
         else m)
      (idx (rows_for_col m) col []) m in
  if nmem col (active_cols m)
  then mkMatrix (rows_for_col m) (active_rows m) (nremove col (active_cols m))
  else m.

(** Selecting a row: [for c in cols_hit: cover(c)]. *)
Definition cover_all (rid : N) (m : Matrix) : Matrix :=
  fold_left (fun m col => cover col m) (idx cols_for_row rid []) m.

(** The loop that applies the givens, on givens already within 0..8. *)
Definition apply_givens (givens : list (nat * nat * Z)) (m : Matrix)
  : Matrix * list N :=
  fold_left
    (fun (st : Matrix * list N) g =>
       let '(m, solution_rids) := st in
       let '(gr, gc, gd) := g in
       let rid := row_id (N.of_nat gr) (N.of_nat gc) (Z.to_N gd) in
       (cover_all rid m, solution_rids ++ [rid]))
    givens (m, []).

Definition rebuild (m : Matrix) (solution_rids : list N) : Matrix :=
  mkMatrix
    (map (fun s => filter (fun rid => nmem rid (active_rows m) || nmem rid solution_rids) s)
         (rows_for_col m))
    (active_rows m) (active_cols m).

Fixpoint choose_col_from (cols : list N) (rfc : list (list N))
         (best_col : option N) (best_len : Z) : option N :=
  match cols with
  | [] => best_col
  | col :: rest =>
      let cand := Z.of_nat (length (idx rfc col [])) in
      if (cand <? best_len)%Z then
        if (cand <=? 1)%Z then Some col
        else choose_col_from rest rfc (Some col) cand
      else choose_col_from rest rfc best_col best_len
  end.

Definition choose_col (m : Matrix) : option N :=
  choose_col_from (active_cols m) (rows_for_col m) None (10 ^ 9)%Z.

(** How the [while True] loop ends: every column is covered, or the search
    is stuck and the caller falls back to [_solve_from_scratch]. *)
Inductive SearchEnd : Type :=
| Covered (solution : list N) (rng : Random)
| Stuck (rng : Random)
| Exhausted.

(** The main loop.  The snapshots [saved_rows_for_col], [saved_active_cols]
    and [saved_active_rows] are never read and are left out; [stack] is only
    inspected for emptiness on the stuck branch, whose two exits are the
    same call. *)
Fixpoint search (fuel : nat) (m : Matrix) (solution : list N)
         (stack : list (N * list N)) (rng : Random) : SearchEnd :=
  match fuel with
  | 0 => Exhausted
  | S fuel' =>
      match active_cols m with
      | [] => Covered solution rng
      | _ :: _ =>
          let stuck :=
            match stack with
            | _ :: _ => Stuck rng
            | [] => Stuck rng
            end in
          match choose_col m with
          | None => stuck
          | Some col =>
              if length (idx (rows_for_col m) col []) =? 0 then stuck
              else
                let '(rids, rng) := shuffle rng (idx (rows_for_col m) col []) in
                let rid := nth 0 rids 0%N in
                search fuel' (cover_all rid m) (solution ++ [rid])
                       (stack ++ [(col, [rid])]) rng
          end
      end
  end.

Definition decode (solution : list N) : Board9 :=
  fold_left
    (fun board rid =>
       let r := ((rid / 9) / 9)%N in
       let c := ((rid / 9) mod 9)%N in
       let d := (rid mod 9)%N in
       board_set board (N.to_nat r) (N.to_nat c) (Z.of_N d + 1)%Z)
    solution zero_board.

(** ** [_solve_from_scratch] *)

Record Fill : Type := mkFill {
  rows : list (list Z);
  cols : list (list Z);
  boxs : list (list Z);
  board : Board9;
  rng : Random
}.

Definition place (f : Fill) (r c b : nat) (v : Z) : Fill :=
  mkFill (list_set (rows f) r (zadd v (nth r (rows f) [])))
         (list_set (cols f) c (zadd v (nth c (cols f) [])))
         (list_set (boxs f) b (zadd v (nth b (boxs f) [])))
         (board_set (board f) r c v)
         (rng f).

Definition unplace (f : Fill) (r c b : nat) (v : Z) : Fill :=
  mkFill (list_set (rows f) r (zremove v (nth r (rows f) [])))
         (list_set (cols f) c (zremove v (nth c (cols f) [])))
         (list_set (boxs f) b (zremove v (nth b (boxs f) [])))
         (board_set (board f) r c 0%Z)
         (rng f).

(** The [for v in cand] loop of the nested [backtrack]. *)
Fixpoint try_values (rec : Fill -> bool * Fill) (r c b : nat)
         (cand : list Z) (f : Fill) : bool * Fill :=
  match cand with
  | [] => (false, f)
  | v :: rest =>
      let '(ok, f') := rec (place f r c b v) in
      if ok then (true, f')
      else try_values rec r c b rest (unplace f' r c b v)
  end.

(** [backtrack(i)], on the cells [cells[i:]] still to fill. *)
Fixpoint backtrack (cells : list (nat * nat)) (f : Fill) : bool * Fill :=
  match cells with
  | [] => (true, f)
  | (r, c) :: rest =>
      let b := (r / 3) * 3 + c / 3 in
      let '(digits, rng') := sample (rng f) (map Z.of_nat (seq 1 9)) 9 in
      let cand :=
        filter (fun v => negb (zmem v (nth r (rows f) []))
                         && negb (zmem v (nth c (cols f) []))
                         && negb (zmem v (nth b (boxs f) [])))
               digits in
      try_values (backtrack rest) r c b cand
                 (mkFill (rows f) (cols f) (boxs f) (board f) rng')
  end.

Definition load_givens (givens : list (nat * nat * Z)) (rng : Random) : Fill :=
  fold_left
    (fun f g =>
       let '(r, c, d) := g in
       let v := (d + 1)%Z in
       let b := (r / 3) * 3 + c / 3 in
       place f r c b v)
    givens
    (mkFill (repeat [] 9) (repeat [] 9) (repeat [] 9) zero_board rng).

Definition empty_cells (b : Board9) : list (nat * nat) :=
  flat_map (fun r =>
    flat_map (fun c => if (board_get b r c =? 0)%Z then [(r, c)] else [])
             (seq 0 9))
    (seq 0 9).

Definition _solve_from_scratch (rng : Random) (givens : list (nat * nat * Z))
  : Result (Board9 * Random) :=
  let f := load_givens givens rng in
  let cells := empty_cells (board f) in
  let '(ok, f) := backtrack cells f in
  if ok then Ok (board f, dlx9.rng f) else Raise AssertionError.

(** ** [solve_random] *)

(** The givens the embedding covers: [r], [c] and [d] in 0..8, as the
    docstring of [solve_random] requires. *)
Definition in_domain (g : nat * nat * Z) : bool :=
  let '(r, c, d) := g in
  (r <? 9) && (c <? 9) && (0 <=? d)%Z && (d <? 9)%Z.

Definition solve_random (rng : Random) (givens : list (nat * nat * Z))
  : Result (Board9 * Random) :=
  if forallb in_domain givens then
    let '(m, solution_rids) := apply_givens givens initial_matrix in
    let m := rebuild m solution_rids in
    match search (S (length (active_cols m))) m solution_rids [] rng with
    | Covered solution rng => Ok (decode solution, rng)
    | Stuck rng => _solve_from_scratch rng givens
    | Exhausted => Raise NoFuel
    end
  else Raise OutsideModel.

End dlx9.

(* ================================================================== *)
(** * time.time() *)
(* ================================================================== *)

Module time.

(** The wall clock: its successive readings (in clock ticks) and the number
    of readings taken so far. *)
Record Clock : Type := mkClock { readings : nat -> Z; reads : nat }.

Definition time (c : Clock) : Z * Clock :=
  (readings c (reads c), mkClock (readings c) (S (reads c))).

End time.

(* ================================================================== *)
(** * generator.py *)
(* ================================================================== *)

Module generator.
Import geometry model random solver dlx9.

(** What the generator reads besides its arguments: the module-level
    generator of [random] (used by [solve_unique]) and the wall clock. *)
Record Ambient : Type := mkAmbient {
  global_random : Random;
  wall_clock : time.Clock
}.

Fixpoint lookup {A : Type} (k : string) (d : list (string * A)) : option A :=
  match d with
  | [] => None
  | (k', v) :: rest => if String.eqb k k' then Some v else lookup k rest
  end.

(** [str.lower()] on ASCII text. *)
Definition lower_ascii (a : ascii) : ascii :=
  let n := nat_of_ascii a in
  if (65 <=? n) && (n <=? 90) then ascii_of_nat (n + 32) else a.

Fixpoint lower (s : string) : string :=
  match s with
  | EmptyString => EmptyString
  | String a s' => String (lower_ascii a) (lower s')
  end.

Definition DIFFICULTY_CLUES : list (string * nat) :=
  [ ("easy"%string, 170);
    ("medium"%string, 140);
    ("hard"%string, 110);
    ("evil"%string, 80) ].

Definition _embed (board9 : Board9) (g : Grid) (r0 c0 : nat) : Grid :=
  fold_left
    (fun g r =>
       fold_left
         (fun g c => set_cell g (r0 + r) (c0 + c) (Some (board_get board9 r c)))
         (seq 0 9) g)
    (seq 0 9) g.

Definition _extract_overlap_givens (center9 : Board9) (corner : string)
  : Result (list (nat * nat * Z)) :=
  let m :=
    [ ("TL"%string, ((6, 6), (0, 0)));
      ("TR"%string, ((6, 12), (0, 6)));
      ("BL"%string, ((12, 6), (6, 0)));
      ("BR"%string, ((12, 12), (6, 6))) ] in
  match lookup corner m with
  | None => Raise KeyError
  | Some (_, (sr0, sc0)) =>
      let pos :=
        [ ("TL"%string, (6, 6));
          ("TR"%string, (6, 0));
          ("BL"%string, (0, 6));
          ("BR"%string, (0, 0)) ] in
      match lookup corner pos with
      | None => Raise KeyError
      | Some (pr0, pc0) =>
          Ok (flat_map
                (fun dr =>
                   map (fun dc =>
                          let v := board_get center9 (sr0 + dr) (sc0 + dc) in
                          (pr0 + dr, pc0 + dc, (v - 1)%Z))
                       (seq 0 3))
                (seq 0 3))
      end
  end.

Definition _solve_samurai_by_composition (rng : Random) : Result (Grid * Random) :=
  let g := empty_samurai_grid in
  '(center9, rng) <- solve_random rng [] ;;
  gtl <- _extract_overlap_givens center9 "TL" ;;
  '(tl, rng) <- solve_random rng gtl ;;
  gtr <- _extract_overlap_givens center9 "TR" ;;
  '(tr, rng) <- solve_random rng gtr ;;
  gbl <- _extract_overlap_givens center9 "BL" ;;
  '(bl, rng) <- solve_random rng gbl ;;
  gbr <- _extract_overlap_givens center9 "BR" ;;
  '(br, rng) <- solve_random rng gbr ;;
  let g := _embed tl g 0 0 in
  let g := _embed tr g 0 12 in
  let g := _embed center9 g 6 6 in
  let g := _embed bl g 12 0 in
  let g := _embed br g 12 12 in
  Ok (g, rng).

Definition count_clues (actives : list (nat * nat)) (g : Grid) : nat :=
  length (filter (fun rc => negb (is_cell_empty g (fst rc) (snd rc))) actives).

(** One pass of the body of the digging loop either leaves the loop or
    goes on with the next cell. *)
Inductive Step (A : Type) : Type :=
| Break
| Continue (a : A).
Arguments Break {A}.
Arguments Continue {A} a.

Definition dig_body (actives : list (nat * nat)) (target_clues : nat)
           (uniq_timeout_s : Z) (r c : nat) (st : Grid * Ambient)
  : Result (Step (Grid * Ambient)) :=
  let '(puzzle, amb) := st in
  if count_clues actives puzzle <=? target_clues then Ok Break
  else
    match cell puzzle r c with
    | None => Ok (Continue (puzzle, amb))
    | Some v =>
        let puzzle := set_cell puzzle r c None in
        let '(start, clk) := time.time (wall_clock amb) in
        '(has, nsol, s) <- solve_unique (global_random amb) (copy_grid puzzle) 2 ;;
        let '(now, clk) := time.time clk in
        let puzzle :=
          if (uniq_timeout_s <? now - start)%Z || (negb has || negb (nsol =? 1)%Z)
          then set_cell puzzle r c (Some v)
          else puzzle in
        Ok (Continue (puzzle, mkAmbient (grand s) clk))
    end.

Fixpoint dig_loop (actives : list (nat * nat)) (target_clues : nat)
         (uniq_timeout_s : Z) (cells : list (nat * nat)) (st : Grid * Ambient)
  : Result (Grid * Ambient) :=
  match cells with
  | [] => Ok st
  | (r, c) :: rest =>
      step <- dig_body actives target_clues uniq_timeout_s r c st ;;
      match step with
      | Break => Ok st
      | Continue st' => dig_loop actives target_clues uniq_timeout_s rest st'
      end
  end.

Definition _dig_holes_to_target (rng : Random) (solved : Grid) (target_clues : nat)
           (uniq_timeout_s : Z) (amb : Ambient)
  : Result (Grid * Random * Ambient) :=
  let puzzle := copy_grid solved in
  let '(actives, rng) := shuffle rng active_cells in
  '(puzzle, amb) <- dig_loop actives target_clues uniq_timeout_s actives (puzzle, amb) ;;
  Ok (puzzle, rng, amb).

(** The [for attempt in range(3)] loop: it ends with the puzzle to return,
    or without one when the fallback is to run. *)
Fixpoint attempts (todo : list nat) (rng : Random) (solved : Grid) (target : nat)
         (uniq_timeout_s : Z) (adapt : bool) (amb : Ambient)
  : Result (option Grid * Random * Ambient) :=
  match todo with
  | [] => Ok (None, rng, amb)
  | _ :: rest =>
      '(puzzle, rng, amb) <-
        _dig_holes_to_target rng solved target uniq_timeout_s amb ;;
      '(has, nsol, s) <- solve_unique (global_random amb) (copy_grid puzzle) 2 ;;
      let amb := mkAmbient (grand s) (wall_clock amb) in
      if has && (nsol =? 1)%Z then Ok (Some puzzle, rng, amb)
      else if negb adapt then Ok (None, rng, amb)
      else attempts rest rng solved (target + 10) uniq_timeout_s adapt amb
  end.

Definition generate_samurai (rng : Random) (difficulty : string)
           (uniq_timeout_s : Z) (adapt : bool) (amb : Ambient)
  : Result (Grid * Grid * Random * Ambient) :=
  let difficulty := lower difficulty in
  match lookup difficulty DIFFICULTY_CLUES with
  | None => Raise ValueError
  | Some base_target =>
      '(solved, rng) <- _solve_samurai_by_composition rng ;;
      '(found, rng, amb) <-
        attempts (seq 0 3) rng solved base_target uniq_timeout_s adapt amb ;;
      match found with
      | Some puzzle => Ok (puzzle, solved, rng, amb)
      | None =>
          '(puzzle, rng, amb) <-
            _dig_holes_to_target rng solved (Nat.max base_target 210)
                                 uniq_timeout_s amb ;;
          Ok (puzzle, solved, rng, amb)
      end
  end.

End generator.

(* ================================================================== *)
(** * generator.py with grids as objects *)
(* ================================================================== *)

(** The functions of [generator] once more, this time with every grid an
    object: a list of row objects that live in a heap and are updated in
    place.  [row[:]] allocates a new row object; [g[r][c] = v] updates the
    row object [g[r]], whoever else holds it.  The computations on the
    values are those of the modules above. *)
Module objects.
Import geometry model random solver dlx9 generator.

Definition Row : Type := list Value.
(** The row objects allocated so far, by address. *)
Definition Heap : Type := list Row.
(** A grid object: the addresses of its rows. *)
Definition GridRef : Type := list nat.

(** The value of a grid object in a heap. *)
Definition read (h : Heap) (g : GridRef) : Grid := map (fun a => nth a h []) g.

(** [g[r][c] = v]. *)
Definition store_cell (h : Heap) (g : GridRef) (r c : nat) (v : Value) : Heap :=
  match nth_error g r with
  | Some a => list_set h a (list_set (nth a h []) c v)
  | None => h
  end.

(** [[row[:] for row in g]]: fresh row objects with the same contents. *)
Definition copy_rows (h : Heap) (g : GridRef) : Heap * GridRef :=
  (h ++ read h g, seq (length h) (length g)).

(** The rows of [g] after a call that worked on them in place and left
    them with the contents [rows]. *)
Definition write_back (h : Heap) (g : GridRef) (rows : Grid) : Heap :=
  fold_left (fun h ar => list_set h (fst ar) (snd ar)) (combine g rows) h.

(** The state a call of the generator runs in: the heap, the state of the
    random source it was given, and what it reads from its surroundings. *)
Record World : Type := mkWorld {
  heap : Heap;
  source : Random;
  ambient : Ambient
}.

(** A call ends with a result or an exception, and a world.  When a call of
    a function of the modules above raises, the world is the one in which
    that call started. *)
Definition Run (A : Type) : Type := Result A * World.

(** Sequencing: an exception ends the run in the world it was raised in. *)
Definition and_then {A B : Type} (m : Run A) (k : A -> World -> Run B) : Run B :=
  match fst m with
  | Ok a => k a (snd m)
  | Raise e => (Raise e, snd m)
  end.

Definition empty_samurai_grid (h : Heap) : Heap * GridRef :=
  let g := seq (length h) BOARD_SIZE in
  let h := h ++ repeat (repeat None BOARD_SIZE) BOARD_SIZE in
  (fold_left
     (fun h r =>
        fold_left
          (fun h c =>
             if is_active_cell r c then store_cell h g r c None
             else store_cell h g r c None)
          (seq 0 BOARD_SIZE) h)
     (seq 0 BOARD_SIZE) h,
   g).

Definition _embed (board9 : Board9) (h : Heap) (g : GridRef) (r0 c0 : nat) : Heap :=
  fold_left
    (fun h r =>
       fold_left
         (fun h c => store_cell h g (r0 + r) (c0 + c) (Some (board_get board9 r c)))
         (seq 0 9) h)
    (seq 0 9) h.

(** A call of [solve_random] on the random source of the world. *)
Definition call_solve_random (givens : list (nat * nat * Z)) (w : World) : Run Board9 :=
  match solve_random (source w) givens with
  | Ok res => (Ok (fst res), mkWorld (heap w) (snd res) (ambient w))
  | Raise e => (Raise e, w)
  end.

Definition solve_corner (center9 : Board9) (corner : string) (w : World) : Run Board9 :=
  match _extract_overlap_givens center9 corner with
  | Ok givens => call_solve_random givens w
  | Raise e => (Raise e, w)
  end.

Definition _solve_samurai_by_composition (w : World) : Run GridRef :=
  let hg := empty_samurai_grid (heap w) in
  let g := snd hg in
  let w := mkWorld (fst hg) (source w) (ambient w) in
  and_then (call_solve_random [] w) (fun center9 w =>
  and_then (solve_corner center9 "TL" w) (fun tl w =>
  and_then (solve_corner center9 "TR" w) (fun tr w =>
  and_then (solve_corner center9 "BL" w) (fun bl w =>
  and_then (solve_corner center9 "BR" w) (fun br w =>
    let h := heap w in
    let h := _embed tl h g 0 0 in
    let h := _embed tr h g 0 12 in
    let h := _embed center9 h g 6 6 in
    let h := _embed bl h g 12 0 in
    let h := _embed br h g 12 12 in
    (Ok g, mkWorld h (source w) (ambient w))))))).

(** [solve_unique([row[:] for row in puzzle], limit_solutions=2)]: the copy
    is allocated, and the search leaves its rows as it leaves its grid. *)
Definition check_unique (puzzle : GridRef) (w : World) : Run (bool * Z) :=
  let ht := copy_rows (heap w) puzzle in
  match solve_unique (global_random (ambient w)) (read (fst ht) (snd ht)) 2 with
  | Raise e => (Raise e, w)
  | Ok res =>
      (Ok (fst res),
       mkWorld (write_back (fst ht) (snd ht) (grid (snd res))) (source w)
               (mkAmbient (grand (snd res)) (wall_clock (ambient w))))
  end.

Definition tick (w : World) : Z * World :=
  let tc := time.time (wall_clock (ambient w)) in
  (fst tc, mkWorld (heap w) (source w) (mkAmbient (global_random (ambient w)) (snd tc))).

Definition dig_body (actives : list (nat * nat)) (target_clues : nat)
           (uniq_timeout_s : Z) (puzzle : GridRef) (r c : nat) (w : World)
  : Run (Step unit) :=
  if count_clues actives (read (heap w) puzzle) <=? target_clues then (Ok Break, w)
  else
    match cell (read (heap w) puzzle) r c with
    | None => (Ok (Continue tt), w)
    | Some v =>
        let w := mkWorld (store_cell (heap w) puzzle r c None) (source w) (ambient w) in
        let start := fst (tick w) in
        let w := snd (tick w) in
        and_then (check_unique puzzle w) (fun answer w =>
          let now := fst (tick w) in
          let w := snd (tick w) in
          if (uniq_timeout_s <? now - start)%Z
             || (negb (fst answer) || negb (snd answer =? 1)%Z)
          then (Ok (Continue tt),
                mkWorld (store_cell (heap w) puzzle r c (Some v)) (source w) (ambient w))
          else (Ok (Continue tt), w))
    end.

Fixpoint dig_loop (actives : list (nat * nat)) (target_clues : nat)
         (uniq_timeout_s : Z) (puzzle : GridRef) (cells : list (nat * nat))
         (w : World) : Run unit :=
  match cells with
  | [] => (Ok tt, w)
  | rc :: rest =>
      and_then (dig_body actives target_clues uniq_timeout_s puzzle (fst rc) (snd rc) w)
        (fun step w =>
           match step with
           | Break => (Ok tt, w)
           | Continue _ => dig_loop actives target_clues uniq_timeout_s puzzle rest w
           end)
  end.

Definition _dig_holes_to_target (solved : GridRef) (target_clues : nat)
           (uniq_timeout_s : Z) (w : World) : Run GridRef :=
  let hp := copy_rows (heap w) solved in
  let puzzle := snd hp in
  let ar := shuffle (source w) active_cells in
  and_then (dig_loop (fst ar) target_clues uniq_timeout_s puzzle (fst ar)
                     (mkWorld (fst hp) (snd ar) (ambient w)))
    (fun _ w => (Ok puzzle, w)).

Fixpoint attempts (todo : list nat) (solved : GridRef) (target : nat)
         (uniq_timeout_s : Z) (adapt : bool) (w : World) : Run (option GridRef) :=
  match todo with
  | [] => (Ok None, w)
  | _ :: rest =>
      and_then (_dig_holes_to_target solved target uniq_timeout_s w) (fun puzzle w =>
      and_then (check_unique puzzle w) (fun answer w =>
        if fst answer && (snd answer =? 1)%Z then (Ok (Some puzzle), w)
        else if negb adapt then (Ok None, w)
        else attempts rest solved (target + 10) uniq_timeout_s adapt w))
  end.

Definition generate_samurai (difficulty : string) (uniq_timeout_s : Z)
           (adapt : bool) (w : World) : Run (GridRef * GridRef) :=
  let difficulty := lower difficulty in
  match lookup difficulty DIFFICULTY_CLUES with
  | None => (Raise ValueError, w)
  | Some base_target =>
      and_then (_solve_samurai_by_composition w) (fun solved w =>
      and_then (attempts (seq 0 3) solved base_target uniq_timeout_s adapt w)
        (fun found w =>
           match found with
           | Some puzzle => (Ok (puzzle, solved), w)
           | None =>
               and_then (_dig_holes_to_target solved (Nat.max base_target 210)
                                              uniq_timeout_s w)
                 (fun puzzle w => (Ok (puzzle, solved), w))
           end))
  end.

End objects.

(* ================================================================== *)
(** * cli.py *)
(* ================================================================== *)

Module cli.
Import model.

(** [sum(1 for row in grid for v in row if v is not None)]. *)
Definition _count_clues (grid : Grid) : nat :=
  list_sum
    (map (fun _ => 1)
         (flat_map
            (fun row => filter (fun v => match v with Some _ => true | None => false end) row)
            grid)).

(** [x or 0] on an optional int. *)
Definition or_zero (x : option Z) : Z :=
  match x with
  | Some v => if (v =? 0)%Z then 0%Z else v
  | None => 0%Z
  end.

(** The block of [main] that builds the schedule from the parsed
    arguments: the list of difficulties, one per page, and the value that
    [args.pages] has after it. *)
Definition build_schedule (pages : Z) (difficulty : string)
           (easy medium hard evil : option Z) : list string * Z :=
  let any_mix :=
    existsb (fun v => match v with Some _ => true | None => false end)
            [easy; medium; hard; evil] in
  if any_mix then
    let e := Z.max 0 (or_zero easy) in
    let m := Z.max 0 (or_zero medium) in
    let h := Z.max 0 (or_zero hard) in
    let v := Z.max 0 (or_zero evil) in
    let schedule :=
      repeat "easy"%string (Z.to_nat e) ++ repeat "medium"%string (Z.to_nat m)
      ++ repeat "hard"%string (Z.to_nat h) ++ repeat "evil"%string (Z.to_nat v) in
    let total_pages := Z.of_nat (length schedule) in
    (schedule, total_pages)
  else (repeat difficulty (Z.to_nat pages), pages).

End cli.
(* ================================================================== *)
(** * Specification vocabulary *)
(* ================================================================== *)

Import geometry model random solver dlx9 generator.

(** ** Topology *)

Definition board_name (b : string * nat * nat) : string := fst (fst b).
Definition board_r0 (b : string * nat * nat) : nat := snd (fst b).
Definition board_c0 (b : string * nat * nat) : nat := snd b.

Definition covers (b : string * nat * nat) (r c : nat) : bool :=
  in_board r c (board_r0 b) (board_c0 b).

Definition CENTER : string * nat * nat := ("C"%string, 6, 6).

Definition is_corner (b : string * nat * nat) : bool :=
  negb (String.eqb (board_name b) "C").

Definition CORNERS : list (string * nat * nat) := filter is_corner BOARDS.

(** The 3x3 block of the canvas with origin [(R, C)] is one box of board
    [b]: box [subgrid_index R C] of it, starting on that box's corner. *)
Definition box_of_board (b : string * nat * nat) (R C : nat) : Prop :=
  let ij := subgrid_index R C (board_r0 b) (board_c0 b) in
  fst ij < 3 /\ snd ij < 3
  /\ R = board_r0 b + 3 * fst ij /\ C = board_c0 b + 3 * snd ij.

(** The cells that boards [b1] and [b2] share are exactly the 3x3 block at
    [(R, C)], and that block is a box of either board. *)
Definition overlap_block (b1 b2 : string * nat * nat) (R C : nat) : Prop :=
  (forall r c, covers b1 r c && covers b2 r c = true
               <-> (R <= r < R + 3 /\ C <= c < C + 3))
  /\ box_of_board b1 R C /\ box_of_board b2 R C.

(** ** Lists of rows *)

(** [t[r][c]] and [t[r][c] = v] on any list of rows, and the shape of [n]
    rows of [n] cells. *)
Definition get2 {A : Type} (t : list (list A)) (r c : nat) (d : A) : A :=
  nth c (nth r t []) d.
Definition set2 {A : Type} (t : list (list A)) (r c : nat) (v : A) : list (list A) :=
  list_set t r (list_set (nth r t []) c v).
Definition square {A : Type} (n : nat) (t : list (list A)) : Prop :=
  length t = n /\ Forall (fun row => length row = n) t.

(** ** Grids *)

(** A grid of the declared shape: 21 rows of 21 cells. *)
Definition wf_grid (g : Grid) : Prop :=
  length g = BOARD_SIZE /\ Forall (fun row => length row = BOARD_SIZE) g.

Definition wf_gridb (g : Grid) : bool :=
  (length g =? BOARD_SIZE) && forallb (fun row => length row =? BOARD_SIZE) g.

(** The number of empty active cells. *)
Definition empties (g : Grid) : nat :=
  length (filter (fun rc => is_cell_empty g (fst rc) (snd rc)) active_cells).

(** Every active cell holds a value. *)
Definition full_grid (g : Grid) : Prop :=
  forall r c, In (r, c) active_cells -> cell g r c <> None.

(** ** Counting completions *)

(** The number of complete grids the search of [solve_unique] reaches from
    [g] when it is not cut short: one for a grid without empty active cell,
    none for a dead end, and otherwise the sum over the candidates of the
    cell that [find_next_cell] selects. *)
Fixpoint completions (fuel : nat) (g : Grid) : Z :=
  match fuel with
  | 0 => 0%Z
  | S fuel' =>
      match find_next_cell g with
      | None =>
          if existsb (fun rc => is_cell_empty g (fst rc) (snd rc)) active_cells
          then 0%Z else 1%Z
      | Some (r, c, cand) =>
          fold_right
            (fun v acc =>
               if is_valid_assignment g r c v
               then (completions fuel' (set_cell g r c (Some v)) + acc)%Z
               else acc)
            0%Z cand
      end
  end.

(** The same sum over an arbitrary list of values for the cell [(r, c)]. *)
Definition completions_over (fuel : nat) (g : Grid) (r c : nat) (vs : list Z) : Z :=
  fold_right
    (fun v acc =>
       if is_valid_assignment g r c v
       then (completions fuel (set_cell g r c (Some v)) + acc)%Z
       else acc)
    0%Z vs.

(** The depth bound used by [solve_unique]. *)
Definition search_depth : nat := S (length active_cells).

(** The answer of [solve_unique] read off the number of completions. *)
Definition unique_answer (g : Grid) (limit : Z) : bool * Z :=
  let n := Z.min (completions search_depth g) limit in
  ((0 <? n)%Z, n).

(** What a call of [backtrack] (or a run of its candidate loop) achieves
    from a counter [k] below the limit, when [n] completions lie below it:
    the counter ends at [min (k + n) limit], the call reports whether the
    limit was reached, and a call that did not reach it leaves the grid as
    it found it. *)
Definition search_outcome (limit k n : Z) (g : Grid)
           (res : option (bool * Search)) : Prop :=
  exists s, res = Some ((limit <=? Z.min (k + n) limit)%Z, s)
            /\ count s = Z.min (k + n) limit
            /\ ((count s < limit)%Z -> grid s = g).

(** ** The exact-cover matrix *)

(** Candidate row [rid] touches constraint column [col]. *)
Definition hits (rid col : N) : Prop := In col (idx cols_for_row rid []).

(** Two candidate rows share no constraint column. *)
Definition disjoint_rows (a b : N) : Prop := forall c, hits a c -> ~ hits b c.

(** The cell and the digit a row id stands for, as [solve_random] decodes
    them, and the four columns of a row id computed from them. *)
Definition rid_r (rid : N) : N := ((rid / 9) / 9)%N.
Definition rid_c (rid : N) : N := ((rid / 9) mod 9)%N.
Definition rid_d (rid : N) : N := (rid mod 9)%N.

Definition cols_of (rid : N) : list N :=
  _col_ids_for_candidate (rid_r rid) (rid_c rid) (rid_d rid).

(** The row id of a given. *)
Definition given_rid (g : nat * nat * Z) : N :=
  let '(gr, gc, gd) := g in row_id (N.of_nat gr) (N.of_nat gc) (Z.to_N gd).

Definition list_N_eqb (a b : list N) : bool :=
  if list_eq_dec N.eq_dec a b then true else false.

(** The layout of the matrix, checked row id by row id. *)
Definition row_layout_ok (rid : N) : bool :=
  list_N_eqb (idx cols_for_row rid []) (cols_of rid)
  && (rid_r rid <? 9)%N && (rid_c rid <? 9)%N && (rid_d rid <? 9)%N
  && (_box_index (rid_r rid) (rid_c rid) <? 9)%N
  && (row_id (rid_r rid) (rid_c rid) (rid_d rid) =? rid)%N.

Definition column_sets_ok (c : N) : bool :=
  forallb (fun r => (r <? 729)%N && nmem c (idx cols_for_row r []))
          (idx initial_rows_for_col c []).

Definition row_columns_ok (r : N) : bool :=
  forallb (fun c => (c <? 324)%N && nmem r (idx initial_rows_for_col c []))
          (idx cols_for_row r []).

(** The loops of [drop_row] and [cover] over an arbitrary list. *)
Definition drop_row_loop (l : list N) (rid : N) (m : Matrix) : Matrix :=
  fold_left
    (fun m cc =>
       if nmem cc (active_cols m) && nmem rid (idx (rows_for_col m) cc [])
       then mkMatrix
              (set_idx (rows_for_col m) cc (nremove rid (idx (rows_for_col m) cc [])))
              (active_rows m) (active_cols m)
       else m)
    l m.

Definition cover_loop (l : list N) (m : Matrix) : Matrix :=
  fold_left
    (fun m rid =>
       if nmem rid (active_rows m)
       then drop_row rid
              (mkMatrix (rows_for_col m) (nremove rid (active_rows m)) (active_cols m))
       else m)
    l m.

Definition cover_cols (l : list N) (m : Matrix) : Matrix :=
  fold_left (fun m col => cover col m) l m.

(** The invariant of the matrix: active rows touch only active columns, and
    the set of an active column holds exactly the active rows touching it. *)
Record matrix_inv (m : Matrix) : Prop := {
  inv_len : length (rows_for_col m) = 324;
  inv_nodup : NoDup (active_cols m);
  inv_cols : forall c, In c (active_cols m) -> (c < 324)%N;
  inv_rows : forall r, In r (active_rows m) ->
               (r < 729)%N /\ forall c, hits r c -> In c (active_cols m);
  inv_sets : forall c r, In r (idx (rows_for_col m) c []) -> hits r c;
  inv_sets_active : forall c r, In c (active_cols m) ->
               In r (idx (rows_for_col m) c []) -> In r (active_rows m);
  inv_active_sets : forall c r, In c (active_cols m) -> In r (active_rows m) ->
               hits r c -> In r (idx (rows_for_col m) c [])
}.

(** The selected rows [sol] account for the state of the matrix: they are
    pairwise disjoint, the active columns are those none of them touches and
    the active rows those disjoint from all of them. *)
Record selection_inv (m : Matrix) (sol : list N) : Prop := {
  sel_matrix : matrix_inv m;
  sel_range : forall s, In s sol -> (s < 729)%N;
  sel_disjoint : forall a b, In a sol -> In b sol -> a <> b -> disjoint_rows a b;
  sel_cols : forall c, (c < 324)%N ->
               (In c (active_cols m) <-> forall s, In s sol -> ~ hits s c);
  sel_rows : forall r, (r < 729)%N ->
               (In r (active_rows m) <-> forall s, In s sol -> disjoint_rows s r)
}.

(** ** 9x9 boards *)

Definition shape9 (b : Board9) : Prop :=
  length b = 9 /\ Forall (fun row => length row = 9) b.

(** Two cells of a board see each other: same row, same column or same box. *)
Definition peers (r1 c1 r2 c2 : nat) : bool :=
  (r1 =? r2) || (c1 =? c2) || ((r1 / 3 =? r2 / 3) && (c1 / 3 =? c2 / 3)).

(** Every cell holds a digit and no two distinct peers hold the same one. *)
Definition consistent (b : Board9) : Prop :=
  (forall r c, r < 9 -> c < 9 -> (1 <= board_get b r c <= 9)%Z)
  /\ (forall r1 c1 r2 c2, r1 < 9 -> c1 < 9 -> r2 < 9 -> c2 < 9 ->
        (r1, c1) <> (r2, c2) -> peers r1 c1 r2 c2 = true ->
        board_get b r1 c1 <> board_get b r2 c2).

Definition digits : list Z := map Z.of_nat (seq 1 9).

(** The 27 units of a board: 9 rows, 9 columns, 9 boxes, each a list of
    nine cells. *)
Definition row_unit (r : nat) : list (nat * nat) := map (fun c => (r, c)) (seq 0 9).
Definition col_unit (c : nat) : list (nat * nat) := map (fun r => (r, c)) (seq 0 9).
Definition box_unit (k : nat) : list (nat * nat) :=
  flat_map (fun i => map (fun j => (3 * (k / 3) + i, 3 * (k mod 3) + j)) (seq 0 3))
           (seq 0 3).
Definition units9 : list (list (nat * nat)) :=
  map row_unit (seq 0 9) ++ map col_unit (seq 0 9) ++ map box_unit (seq 0 9).

(** A list of nine values contains each digit 1..9 exactly once. *)
Definition complete_unit (vals : list Z) : bool :=
  forallb (fun d => count_occ Z.eq_dec vals d =? 1) digits.

Definition unit_values (b : Board9) (u : list (nat * nat)) : list Z :=
  map (fun rc => board_get b (fst rc) (snd rc)) u.

(** Every row, every column and every box of the board contains each digit
    exactly once. *)
Definition valid_board9 (b : Board9) : bool :=
  forallb (fun u => complete_unit (unit_values b u)) units9.

(** Every given cell [(r, c, d)] holds [d + 1]. *)
Definition honors (givens : list (nat * nat * Z)) (b : Board9) : Prop :=
  forall r c d, In (r, c, d) givens -> board_get b r c = (d + 1)%Z.

Fixpoint nodupb {A : Type} (eqb : A -> A -> bool) (l : list A) : bool :=
  match l with
  | [] => true
  | x :: t => negb (existsb (eqb x) t) && nodupb eqb t
  end.

Definition cell_eqb (a b : nat * nat) : bool :=
  (fst a =? fst b) && (snd a =? snd b).

Definition unit_ok (u : list (nat * nat)) : bool :=
  (length u =? 9)
  && nodupb cell_eqb u
  && forallb (fun a => (fst a <? 9) && (snd a <? 9)) u
  && forallb (fun a => forallb (fun b => peers (fst a) (snd a) (fst b) (snd b)) u) u.

(** One step of the decoding loop, and the cell a row id stands for. *)
Definition rid_cell (rid : N) : nat * nat :=
  (N.to_nat (rid_r rid), N.to_nat (rid_c rid)).

Definition decode_step (board : Board9) (rid : N) : Board9 :=
  board_set board (N.to_nat (rid_r rid)) (N.to_nat (rid_c rid))
            (Z.of_N (rid_d rid) + 1)%Z.

(** An exact cover: pairwise disjoint rows that touch every column. *)
Definition exact_cover (sol : list N) : Prop :=
  (forall s, In s sol -> (s < 729)%N)
  /\ (forall a b, In a sol -> In b sol -> a <> b -> disjoint_rows a b)
  /\ (forall c, (c < 324)%N -> exists s, In s sol /\ hits s c).

(** ** The fallback backtracker *)

Definition with_rng (f : Fill) (rng' : Random) : Fill :=
  mkFill (rows f) (cols f) (boxs f) (board f) rng'.

Definition box_of (r c : nat) : nat := (r / 3) * 3 + c / 3.

(** [b'] agrees with [b] on every cell that [b] has filled. *)
Definition extends (b b' : Board9) : Prop :=
  forall r c, r < 9 -> c < 9 -> board_get b r c <> 0%Z ->
    board_get b' r c = board_get b r c.

(** A partly filled board: cells hold 0 (empty) or a digit, and a filled
    cell differs from each of its peers. *)
Definition partial_consistent (b : Board9) : Prop :=
  (forall r c, r < 9 -> c < 9 -> (0 <= board_get b r c <= 9)%Z)
  /\ (forall r1 c1 r2 c2, r1 < 9 -> c1 < 9 -> r2 < 9 -> c2 < 9 ->
        (r1, c1) <> (r2, c2) -> peers r1 c1 r2 c2 = true ->
        board_get b r1 c1 <> 0%Z ->
        board_get b r1 c1 <> board_get b r2 c2).

(** The sets [sets] (one per row, column or box, as [key] tells) hold the
    values of the filled cells of their unit. *)
Definition tracks (sets : list (list Z)) (key : nat -> nat -> nat) (b : Board9) : Prop :=
  length sets = 9
  /\ forall k v, k < 9 ->
       (In v (nth k sets []) <->
        v <> 0%Z /\ exists r c, r < 9 /\ c < 9 /\ key r c = k /\ board_get b r c = v).

Record fill_inv (f : Fill) : Prop := {
  fi_shape : shape9 (board f);
  fi_partial : partial_consistent (board f);
  fi_rows : tracks (rows f) (fun r _ => r) (board f);
  fi_cols : tracks (cols f) (fun _ c => c) (board f);
  fi_boxs : tracks (boxs f) box_of (board f)
}.

(** The cells still to fill are exactly the empty cells of the board. *)
Definition cells_todo (cells : list (nat * nat)) (b : Board9) : Prop :=
  NoDup cells
  /\ (forall r c, In (r, c) cells -> r < 9 /\ c < 9)
  /\ (forall r c, r < 9 -> c < 9 -> (In (r, c) cells <-> board_get b r c = 0%Z)).

(** What a call of the nested [backtrack] (or a run of its loop) returns:
    on success a consistent board that extends the one it started from; on
    failure the state it started from (the random source apart), and no
    consistent board extends any of the boards in [tried]. *)
Definition fill_outcome (f : Fill) (tried : Board9 -> Prop) (res : bool * Fill) : Prop :=
  let '(ok, f') := res in
  if ok
  then shape9 (board f') /\ consistent (board f') /\ extends (board f) (board f')
  else (exists rng', f' = with_rng f rng')
       /\ forall b b', tried b -> consistent b' -> extends b b' -> False.

(** A value that may go into the empty cell [(r, c)] of the state [f]. *)
Definition fits (f : Fill) (r c : nat) (v : Z) : Prop :=
  (1 <= v <= 9)%Z
  /\ ~ In v (nth r (rows f) [])
  /\ ~ In v (nth c (cols f) [])
  /\ ~ In v (nth (box_of r c) (boxs f) []).

(** ** Givens *)

Definition given_cell (g : nat * nat * Z) : nat * nat := fst g.
Definition given_digit (g : nat * nat * Z) : Z := snd g.

Definition same_box (a b : nat * nat) : bool :=
  (fst a / 3 =? fst b / 3) && (snd a / 3 =? snd b / 3).

(** Topologically valid givens: coordinates and digits within 0..8, no cell
    given twice, no digit given twice, and all cells in one 3x3 box. *)
Definition valid_givens (givens : list (nat * nat * Z)) : bool :=
  forallb in_domain givens
  && nodupb cell_eqb (map given_cell givens)
  && nodupb Z.eqb (map given_digit givens)
  && forallb (fun a => forallb (fun b => same_box (given_cell a) (given_cell b)) givens)
             givens.

(** The properties of valid givens, as propositions over a list. *)
Record givens_ok (gs : list (nat * nat * Z)) : Prop := {
  go_domain : forall r c d, In (r, c, d) gs -> r < 9 /\ c < 9 /\ (0 <= d < 9)%Z;
  go_cells : NoDup (map given_cell gs);
  go_digits : NoDup (map given_digit gs);
  go_box : forall a b, In a gs -> In b gs -> same_box (given_cell a) (given_cell b) = true
}.

(** A solved board to start from, and its relabelling: the digits of the
    board are permuted, one transposition per given, until the board agrees
    with the givens. *)
Definition base_board : Board9 :=
  map (fun r =>
         map (fun c => (Z.of_nat ((3 * (r mod 3) + r / 3 + c) mod 9) + 1)%Z) (seq 0 9))
      (seq 0 9).

Definition all_cells9 : list (nat * nat) :=
  flat_map (fun r => map (fun c => (r, c)) (seq 0 9)) (seq 0 9).

Definition consistentb (b : Board9) : bool :=
  forallb
    (fun a =>
       (1 <=? board_get b (fst a) (snd a))%Z
       && (board_get b (fst a) (snd a) <=? 9)%Z
       && forallb
            (fun a' =>
               cell_eqb a a'
               || negb (peers (fst a) (snd a) (fst a') (snd a'))
               || negb (board_get b (fst a) (snd a) =? board_get b (fst a') (snd a'))%Z)
            all_cells9)
    all_cells9.

Definition swap_digits (x y v : Z) : Z :=
  if (v =? x)%Z then y else if (v =? y)%Z then x else v.

Fixpoint relabeling (givens : list (nat * nat * Z)) (pi : Z -> Z) : Z -> Z :=
  match givens with
  | [] => pi
  | (r, c, d) :: rest =>
      relabeling rest (fun v => swap_digits (pi (board_get base_board r c)) (d + 1) (pi v))
  end.

Definition relabel (pi : Z -> Z) (b : Board9) : Board9 := map (map pi) b.

(** A relabelling of the digits: injective on 1..9 and onto 1..9. *)
Definition digit_bijection (pi : Z -> Z) : Prop :=
  (forall v, (1 <= v <= 9)%Z -> (1 <= pi v <= 9)%Z)
  /\ (forall u v, (1 <= u <= 9)%Z -> (1 <= v <= 9)%Z -> pi u = pi v -> u = v).

(** The loop of [load_givens] from an arbitrary state. *)
Definition load_from (givens : list (nat * nat * Z)) (f : Fill) : Fill :=
  fold_left
    (fun f g =>
       let '(r, c, d) := g in
       let v := (d + 1)%Z in
       let b := (r / 3) * 3 + c / 3 in
       place f r c b v)
    givens f.

Definition empty_fill (rng : Random) : Fill :=
  mkFill (repeat [] 9) (repeat [] 9) (repeat [] 9) zero_board rng.

(** ** The composed grid *)

Definition value_or_zero (v : Value) : Z :=
  match v with Some d => d | None => 0%Z end.

(** The 9x9 board that the grid shows at origin [(r0, c0)]. *)
Definition window (g : Grid) (r0 c0 : nat) : Board9 :=
  map (fun r => map (fun c => value_or_zero (cell g (r0 + r) (c0 + c))) (seq 0 9))
      (seq 0 9).

(** Each of the five boards, read off the grid, is a valid Sudoku board. *)
Definition samurai_valid (g : Grid) : Prop :=
  forall b, In b BOARDS -> valid_board9 (window g (board_r0 b) (board_c0 b)) = true.

(** The loop of [_extract_overlap_givens]: the block of the center at
    [(sr0, sc0)] as givens of the corner's block at [(pr0, pc0)]. *)
Definition overlap_givens (center9 : Board9) (pr0 pc0 sr0 sc0 : nat)
  : list (nat * nat * Z) :=
  flat_map
    (fun dr =>
       map (fun dc =>
              let v := board_get center9 (sr0 + dr) (sc0 + dc) in
              (pr0 + dr, pc0 + dc, (v - 1)%Z))
           (seq 0 3))
    (seq 0 3).

(** The four overlaps: block origin in the corner, block origin in the center. *)
Definition OVERLAPS : list (nat * nat * nat * nat) :=
  [ (6, 6, 0, 0); (6, 0, 0, 6); (0, 6, 6, 0); (0, 0, 6, 6) ].

(** One row of [_embed], and its rows over an arbitrary list. *)
Definition embed_row (board9 : Board9) (r0 c0 r : nat) (cs : list nat) (g : Grid) : Grid :=
  fold_left
    (fun g c => set_cell g (r0 + r) (c0 + c) (Some (board_get board9 r c)))
    cs g.

Definition embed_rows (board9 : Board9) (r0 c0 : nat) (rs : list nat) (g : Grid) : Grid :=
  fold_left (fun g r => embed_row board9 r0 c0 r (seq 0 9) g) rs g.

(** ** Digging *)

(** The number of clues of a grid: its non-empty active cells. *)
Definition clue_count (g : Grid) : nat := count_clues active_cells g.

(** [solve_unique] with limit 2 certifies the grid: it answers (true, 1). *)
Definition certified (g : Grid) : Prop := unique_answer g 2 = (true, 1%Z).

(** Whether the check that starts at the next clock reading exceeds the
    time budget. *)
Definition timed_out (uniq_timeout_s : Z) (clk : time.Clock) : bool :=
  (uniq_timeout_s <? time.readings clk (S (time.reads clk))
                     - time.readings clk (time.reads clk))%Z.

Definition clock_after (n : nat) (clk : time.Clock) : time.Clock :=
  time.mkClock (time.readings clk) (n + time.reads clk).

(** [p'] comes from [p] by clearing cells one at a time, each time above the
    target and with the cleared grid certified. *)
Inductive dug (actives : list (nat * nat)) (target : nat) : Grid -> Grid -> Prop :=
| dug_done p : dug actives target p p
| dug_clear p r c p' :
    target < count_clues actives p ->
    certified (set_cell p r c None) ->
    dug actives target (set_cell p r c None) p' ->
    dug actives target p p'.

(** The puzzle is a subset of the solution. *)
Definition subset_of (puzzle solution : Grid) : Prop :=
  forall r c, cell puzzle r c = None \/ cell puzzle r c = cell solution r c.

(** The keys of [DIFFICULTY_CLUES]. *)
Definition DIFFICULTIES : list string := map fst DIFFICULTY_CLUES.

(** The puzzle and the clock that the digging loop ends with, read off the
    numbers of completions: what the loop computes once the answers of
    [solve_unique] are known not to depend on the shuffles. *)
Fixpoint dig_outcome (actives : list (nat * nat)) (target_clues : nat)
         (uniq_timeout_s : Z) (cells : list (nat * nat)) (puzzle : Grid)
         (clk : time.Clock) : Grid * time.Clock :=
  match cells with
  | [] => (puzzle, clk)
  | (r, c) :: rest =>
      if count_clues actives puzzle <=? target_clues then (puzzle, clk)
      else
        match cell puzzle r c with
        | None => dig_outcome actives target_clues uniq_timeout_s rest puzzle clk
        | Some v =>
            let cleared := set_cell puzzle r c None in
            let '(has, nsol) := unique_answer cleared 2 in
            let puzzle' :=
              if timed_out uniq_timeout_s clk || (negb has || negb (nsol =? 1)%Z)
              then puzzle else cleared in
            dig_outcome actives target_clues uniq_timeout_s rest puzzle'
                        (clock_after 2 clk)
        end
  end.

(** ** Grids as objects *)

(** A grid object of the heap: distinct rows, all allocated. *)
Definition valid_ref (h : objects.Heap) (g : objects.GridRef) : Prop :=
  NoDup g /\ forall a, In a g -> a < length h.

(** The heap [h'] extends [h] and agrees with it on the addresses below [n]. *)
Definition frame (n : nat) (h h' : objects.Heap) : Prop :=
  length h <= length h' /\ forall a, a < n -> nth a h' [] = nth a h [].

(** All rows of the grid object lie at address [n] or above. *)
Definition above (n : nat) (g : objects.GridRef) : Prop :=
  forall a, In a g -> n <= a.

(** The loop of [write_back] over an arbitrary list of rows to write. *)
Definition write_rows (ws : list (nat * objects.Row)) (h : objects.Heap) : objects.Heap :=
  fold_left (fun h ar => list_set h (fst ar) (snd ar)) ws h.

(** One row of the object-level [_embed], and its rows over a list. *)
Definition store_row (board9 : Board9) (g : objects.GridRef) (r0 c0 r : nat)
           (cs : list nat) (h : objects.Heap) : objects.Heap :=
  fold_left
    (fun h c => objects.store_cell h g (r0 + r) (c0 + c) (Some (board_get board9 r c)))
    cs h.

Definition store_rows (board9 : Board9) (g : objects.GridRef) (r0 c0 : nat)
           (rs : list nat) (h : objects.Heap) : objects.Heap :=
  fold_left (fun h r => store_row board9 g r0 c0 r (seq 0 9) h) rs h.

(** An object-level run started in [w] ended in [w'] with the grid object
    [puzzle] holding [P'] and the surroundings in state [amb']; the rows
    below address [n] are as they were. *)
Definition dig_result (n : nat) (puzzle : objects.GridRef) (w w' : objects.World)
           (P' : Grid) (amb' : Ambient) : Prop :=
  objects.read (objects.heap w') puzzle = P'
  /\ objects.ambient w' = amb'
  /\ objects.source w' = objects.source w
  /\ frame n (objects.heap w) (objects.heap w')
  /\ valid_ref (objects.heap w') puzzle.

(** An object-level run from [w] to [w'] that returned the grid object [g]
    matches a value-level run that returned the grid [G] and left the random
    source and the surroundings in the states [rng'] and [amb']: [g] is a
    fresh object holding [G], and the rows that existed in [w] are as they
    were. *)
Definition returns_fresh (w w' : objects.World) (g : objects.GridRef)
           (G : Grid) (rng' : Random) (amb' : Ambient) : Prop :=
  objects.read (objects.heap w') g = G
  /\ objects.source w' = rng'
  /\ objects.ambient w' = amb'
  /\ frame (length (objects.heap w)) (objects.heap w) (objects.heap w')
  /\ valid_ref (objects.heap w') g
  /\ above (length (objects.heap w)) g.

(** The same for the loop of attempts, which may end without a puzzle. *)
Definition found_fresh (w w' : objects.World) (fref : option objects.GridRef)
           (found : option Grid) (rng' : Random) (amb' : Ambient) : Prop :=
  objects.source w' = rng'
  /\ objects.ambient w' = amb'
  /\ frame (length (objects.heap w)) (objects.heap w) (objects.heap w')
  /\ match found, fref with
     | Some P, Some p =>
         objects.read (objects.heap w') p = P
         /\ valid_ref (objects.heap w') p
         /\ above (length (objects.heap w)) p
     | None, None => True
     | _, _ => False
     end.

(** What an object-level run of [generate_samurai] leaves behind: the
    solution object [sref] was returned by the composition in the world
    [wc], the puzzle object [pref] was allocated after that, and the final
    world [w'] holds in them the grids [P] and [S] of the value-level run;
    the rows that existed in [wc] are as they were. *)
Definition generated (wc w' : objects.World) (pref sref : objects.GridRef)
           (P S : Grid) (rng' : Random) (amb' : Ambient) : Prop :=
  objects.read (objects.heap w') pref = P
  /\ objects.read (objects.heap w') sref = S
  /\ objects.read (objects.heap wc) sref = S
  /\ objects.source w' = rng'
  /\ objects.ambient w' = amb'
  /\ frame (length (objects.heap wc)) (objects.heap wc) (objects.heap w')
  /\ valid_ref (objects.heap wc) sref
  /\ valid_ref (objects.heap w') pref
  /\ above (length (objects.heap wc)) pref.

(** ** Concrete inputs *)

(** A random source that answers 0 to every request, and two wall clocks:
    on the slow one every reading is 10 after the one before; on the other
    the first two readings coincide and the later ones are as slow. *)
Definition rng_zero : Random := mkRandom (fun _ => 0) 0.

Definition clock_slow : time.Clock :=
  time.mkClock (fun k => (10 * Z.of_nat k)%Z) 0.

Definition clock_fast_once : time.Clock :=
  time.mkClock (fun k => if k <? 2 then 0%Z else (10 * Z.of_nat k)%Z) 0.

Definition amb_slow : Ambient := mkAmbient rng_zero clock_slow.
Definition amb_fast_once : Ambient := mkAmbient rng_zero clock_fast_once.

Definition world_zero : objects.World := objects.mkWorld [] rng_zero amb_slow.

(** A grid with a 1 in every active cell, and the same with the last cell
    emptied. *)
Definition ones_grid : Grid :=
  fold_left (fun g rc => set_cell g (fst rc) (snd rc) (Some 1%Z))
            active_cells empty_samurai_grid.

Definition ones_with_hole : Grid := set_cell ones_grid 20 20 None.

(** The number of clues of the puzzle a run returned. *)
Definition clues_returned (res : Result (Grid * Grid * Random * Ambient)) : option nat :=
  match res with
  | Ok out => Some (clue_count (fst (fst (fst out))))
  | Raise _ => None
  end.

(** ** Cells that see each other *)

(** The cells of board [b] in the row, the column and the box of the cell
    [(r, c)], and the same over all boards covering the cell: the cells that
    [candidates] and [is_valid_assignment] look at. *)
Definition unit_cells (b : string * nat * nat) (r c : nat) : list (nat * nat) :=
  let r0 := board_r0 b in
  let c0 := board_c0 b in
  row_cells_in_board r0 c0 (r - r0)
  ++ col_cells_in_board r0 c0 (c - c0)
  ++ box_cells_in_board r0 c0 (fst (subgrid_index r c r0 c0))
                        (snd (subgrid_index r c r0 c0)).

Definition seen_from (r c : nat) : list (nat * nat) :=
  flat_map (fun b => unit_cells b r c) (boards_covering_cell r c).

(** The values collected from a list of cells, as the loops of
    [candidates] collect them. *)
Definition used_in (g : Grid) (cells : list (nat * nat)) (used : list Z) : list Z :=
  fold_left (fun used rc => add_value (cell g (fst rc) (snd rc)) used) cells used.

(** ** The cell that [find_next_cell] selects *)

(** Cell [(r, c)] with candidates [cand] is a fair choice among the cells
    [cells] of grid [g]: it is one of them, it is empty, [cand] is what
    [candidates] returns for it and is not empty, and every empty cell among
    them either has no candidate at all or has at least as many. *)
Definition fair_choice (g : Grid) (cells : list (nat * nat))
           (r c : nat) (cand : list Z) : Prop :=
  In (r, c) cells
  /\ cell g r c = None
  /\ cand = candidates g r c
  /\ cand <> []
  /\ forall rc, In rc cells -> cell g (fst rc) (snd rc) = None ->
        candidates g (fst rc) (snd rc) = []
        \/ length cand <= length (candidates g (fst rc) (snd rc)).

(** The scan over [cells] found nothing to select: no cell among them is
    empty, or one of the empty ones has no candidate. *)
Definition no_choice (g : Grid) (cells : list (nat * nat)) : Prop :=
  (forall rc, In rc cells -> cell g (fst rc) (snd rc) <> None)
  \/ exists rc, In rc cells /\ cell g (fst rc) (snd rc) = None
                /\ candidates g (fst rc) (snd rc) = [].

(** What the scan knows after the cells [seen], with [best] in hand. *)
Definition scan_inv (g : Grid) (seen : list (nat * nat))
           (best : option (nat * nat * list Z)) : Prop :=
  match best with
  | None => forall rc, In rc seen -> cell g (fst rc) (snd rc) <> None
  | Some (r, c, cand) =>
      In (r, c) seen /\ cell g r c = None /\ cand = candidates g r c /\ cand <> []
      /\ forall rc, In rc seen -> cell g (fst rc) (snd rc) = None ->
            length cand <= length (candidates g (fst rc) (snd rc))
  end.

(** ** The completions of a grid *)

(** The grids at which the search of [solve_unique] counts one, when it is
    not cut short: the recursion of [completions], collecting the grids. *)
Fixpoint leaves (fuel : nat) (g : Grid) : list Grid :=
  match fuel with
  | 0 => []
  | S fuel' =>
      match find_next_cell g with
      | None =>
          if existsb (fun rc => is_cell_empty g (fst rc) (snd rc)) active_cells
          then [] else [g]
      | Some (r, c, cand) =>
          flat_map
            (fun v =>
               if is_valid_assignment g r c v
               then leaves fuel' (set_cell g r c (Some v))
               else [])
            cand
      end
  end.

(** [g'] completes [g]: it is a 21x21 grid that agrees with [g] on every
    cell that is not an empty active cell of [g], and holds in every empty
    active cell of [g] a digit 1..9 that no other cell holds in the row, the
    column or the box of that cell, in any board covering it. *)
Definition completes (g g' : Grid) : Prop :=
  wf_grid g'
  /\ (forall r c, cell g r c <> None \/ ~ In (r, c) active_cells ->
        cell g' r c = cell g r c)
  /\ (forall r c, In (r, c) active_cells -> cell g r c = None ->
        exists v, cell g' r c = Some v /\ (1 <= v <= 9)%Z
                  /\ forall rc, In rc (seen_from r c) -> rc <> (r, c) ->
                                cell g' (fst rc) (snd rc) <> Some v).

(** A grid whose first cell sees all nine digits: 1..8 in its row and 9
    below it. *)
Definition dead_grid : Grid :=
  set_cell
    (fold_left (fun g c => set_cell g 0 c (Some (Z.of_nat c)))
               (seq 1 8) empty_samurai_grid)
    1 0 (Some 9%Z).

(** Any two cells of a board that see each other lie in one of its units. *)
Definition peers_share_unit : bool :=
  forallb
    (fun a =>
       forallb
         (fun b =>
            negb (peers (fst a) (snd a) (fst b) (snd b))
            || existsb (fun u => existsb (cell_eqb a) u && existsb (cell_eqb b) u) units9)
         all_cells9)
    all_cells9.
(* ================================================================== *)
(** * Lists, cells and shuffles *)
(* ================================================================== *)

Import geometry model random solver dlx9 generator.

Section ListSet.
Context {A : Type}.
Implicit Types (l : list A) (x y d : A).

Lemma list_set_length l i x : length (list_set l i x) = length l.
Proof.
  revert i; induction l as [|h t IH]; intros [|i]; simpl; auto.
Qed.

Lemma nth_list_set_same l i x d : i < length l -> nth i (list_set l i x) d = x.
Proof.
  revert i; induction l as [|h t IH]; intros [|i] H; simpl in *; try lia; auto.
  apply IH; lia.
Qed.

Lemma nth_list_set_other l i j x d : j <> i -> nth j (list_set l i x) d = nth j l d.
Proof.
  revert i j; induction l as [|h t IH]; intros [|i] [|j] H; simpl; auto; try lia.
Qed.

Lemma list_set_out l i x : length l <= i -> list_set l i x = l.
Proof.
  revert i; induction l as [|h t IH]; intros [|i] H; simpl in *; auto; try lia.
  f_equal; apply IH; lia.
Qed.

Lemma list_set_nth_id l i x d : nth i l d = x -> list_set l i x = l.
Proof.
  revert i; induction l as [|h t IH]; intros [|i] H; simpl in *; auto.
  - now subst.
  - f_equal; auto.
Qed.

Lemma list_set_twice l i x y : list_set (list_set l i x) i y = list_set l i y.
Proof.
  revert i; induction l as [|h t IH]; intros [|i]; simpl; auto.
  f_equal; auto.
Qed.

Lemma list_set_perm_head l j x y :
  nth_error l j = Some y -> Permutation (y :: list_set l j x) (x :: l).
Proof.
  revert j; induction l as [|h t IH]; intros [|j] H; simpl in *; try discriminate.
  - injection H as ->. apply perm_swap.
  - etransitivity; [apply perm_swap|].
    etransitivity; [apply perm_skip, IH, H|]. apply perm_swap.
Qed.

Lemma swap_perm l i j : Permutation (swap l i j) l.
Proof.
  unfold swap.
  destruct (nth_error l i) as [a|] eqn:Hi; [|reflexivity].
  destruct (nth_error l j) as [b|] eqn:Hj; [|reflexivity].
  revert i j Hi Hj; induction l as [|h t IH]; intros [|i] [|j] Hi Hj;
    simpl in *; try discriminate.
  - injection Hi as ->. reflexivity.
  - injection Hi as ->. now apply list_set_perm_head.
  - injection Hj as ->. now apply list_set_perm_head.
  - apply perm_skip. now apply IH.
Qed.

Lemma shuffle_loop_perm (ks : list nat) l (rng : Random) :
  Permutation
    (fst (fold_left
            (fun (st : list A * Random) (i : nat) =>
               let '(x, rng) := st in
               let '(j, rng) := randbelow rng (i + 1) in
               (swap x i j, rng))
            ks (l, rng)))
    l.
Proof.
  revert l rng; induction ks as [|i ks IH]; intros l rng; simpl; [reflexivity|].
  etransitivity; [apply IH|]. apply swap_perm.
Qed.

Lemma shuffle_perm (rng : Random) l : Permutation (fst (shuffle rng l)) l.
Proof. unfold shuffle. apply shuffle_loop_perm. Qed.

End ListSet.

(** ** Lists of rows *)

Section Table.
Context {A : Type}.
Implicit Types (t : list (list A)) (v d : A).

Lemma set2_square n t r c v : square n t -> square n (set2 t r c v).
Proof.
  intros [Hl Hr]. split; [unfold set2; now rewrite list_set_length|].
  unfold set2. rewrite Forall_forall in *. intros row Hin.
  apply In_nth with (d := []) in Hin. destruct Hin as (i & Hi & <-).
  rewrite list_set_length in Hi.
  destruct (Nat.eq_dec i r) as [->|Hne].
  - rewrite nth_list_set_same by assumption. rewrite list_set_length.
    apply Hr. now apply nth_In.
  - rewrite nth_list_set_other by assumption. apply Hr. now apply nth_In.
Qed.

Lemma square_row n t r : square n t -> r < n -> length (nth r t []) = n.
Proof.
  intros [Hl Hr] H. rewrite Forall_forall in Hr. apply Hr, nth_In. lia.
Qed.

Lemma get2_set2_same n t r c v d :
  square n t -> r < n -> c < n -> get2 (set2 t r c v) r c d = v.
Proof.
  intros Hsq Hr Hc. unfold get2, set2.
  rewrite nth_list_set_same by (destruct Hsq as [-> _]; exact Hr).
  apply nth_list_set_same. now rewrite (square_row n).
Qed.

Lemma get2_set2_other t r c v r' c' d :
  (r', c') <> (r, c) -> get2 (set2 t r c v) r' c' d = get2 t r' c' d.
Proof.
  intros Hne. unfold get2, set2.
  destruct (Nat.eq_dec r' r) as [->|Hr].
  - destruct (Nat.lt_ge_cases r (length t)) as [Hlt|Hge].
    + rewrite nth_list_set_same by assumption.
      apply nth_list_set_other. congruence.
    + now rewrite list_set_out.
  - now rewrite nth_list_set_other.
Qed.

Lemma set2_same_value t r c v : get2 t r c v = v -> set2 t r c v = t.
Proof.
  intros H. unfold set2.
  apply list_set_nth_id with (d := []). symmetry.
  apply list_set_nth_id with (d := v). exact H.
Qed.

Lemma set2_twice t r c v w : set2 (set2 t r c v) r c w = set2 t r c w.
Proof.
  unfold set2.
  destruct (Nat.lt_ge_cases r (length t)) as [Hlt|Hge].
  - rewrite nth_list_set_same by assumption.
    now rewrite list_set_twice, list_set_twice.
  - now rewrite !(list_set_out t r) by assumption.
Qed.

Lemma get2_repeat (x : A) n m r c : get2 (repeat (repeat x m) n) r c x = x.
Proof.
  unfold get2.
  destruct (Nat.lt_ge_cases r n) as [Hr|Hr].
  - rewrite (nth_indep _ [] (repeat x m)) by (rewrite repeat_length; exact Hr).
    rewrite nth_repeat. apply nth_repeat.
  - rewrite (nth_overflow (repeat (repeat x m) n)) by (rewrite repeat_length; exact Hr).
    now destruct c.
Qed.

Lemma set2_restore t r c v w : get2 t r c w = w -> set2 (set2 t r c v) r c w = t.
Proof. intros H. rewrite set2_twice. now apply set2_same_value. Qed.

End Table.

(** ** Cells of a grid *)

Lemma wf_grid_square g : wf_grid g <-> square 21 g.
Proof. reflexivity. Qed.

Lemma set_cell_length g r c v : length (set_cell g r c v) = length g.
Proof. unfold set_cell. apply list_set_length. Qed.

Lemma set_cell_wf g r c v : wf_grid g -> wf_grid (set_cell g r c v).
Proof. apply (set2_square 21). Qed.

Lemma cell_set_cell_same g r c v :
  wf_grid g -> r < 21 -> c < 21 -> cell (set_cell g r c v) r c = v.
Proof. apply (get2_set2_same 21). Qed.

Lemma cell_set_cell_other g r c v r' c' :
  (r', c') <> (r, c) -> cell (set_cell g r c v) r' c' = cell g r' c'.
Proof. apply get2_set2_other. Qed.

Lemma set_cell_restore g r c v :
  cell g r c = None -> set_cell (set_cell g r c v) r c None = g.
Proof. apply (set2_restore g r c v None). Qed.

Lemma set_cell_same_value g r c v : cell g r c = v -> set_cell g r c v = g.
Proof.
  intros H. unfold set_cell.
  apply list_set_nth_id with (d := []). symmetry.
  apply list_set_nth_id with (d := None). exact H.
Qed.

Lemma set_cell_twice g r c v w :
  set_cell (set_cell g r c v) r c w = set_cell g r c w.
Proof. apply set2_twice. Qed.

(** ** Cells of a 9x9 board *)

Lemma shape9_square b : shape9 b <-> square 9 b.
Proof. reflexivity. Qed.

Lemma board_set_shape b r c v : shape9 b -> shape9 (board_set b r c v).
Proof. apply (set2_square 9). Qed.

Lemma board_get_set_same b r c v :
  shape9 b -> r < 9 -> c < 9 -> board_get (board_set b r c v) r c = v.
Proof. apply (get2_set2_same 9). Qed.

Lemma board_get_set_other b r c v r' c' :
  (r', c') <> (r, c) -> board_get (board_set b r c v) r' c' = board_get b r' c'.
Proof. apply get2_set2_other. Qed.

Lemma board_set_restore b r c v :
  board_get b r c = 0%Z -> board_set (board_set b r c v) r c 0%Z = b.
Proof. apply (set2_restore b r c v 0%Z). Qed.

Lemma zero_board_shape : shape9 zero_board.
Proof. split; [reflexivity|]. repeat constructor. Qed.

Lemma copy_grid_id g : copy_grid g = g.
Proof. unfold copy_grid. apply map_id. Qed.

(** ** The active cells *)

Lemma active_cells_bound r c : In (r, c) active_cells -> r < 21 /\ c < 21.
Proof.
  unfold active_cells. rewrite in_flat_map. intros (r' & Hr & H).
  rewrite in_flat_map in H. destruct H as (c' & Hc & H).
  destruct (is_active_cell r' c'); [|contradiction].
  destruct H as [H|[]]. injection H as <- <-.
  apply in_seq in Hr, Hc. unfold BOARD_SIZE in *. lia.
Qed.

Lemma active_cells_length : length active_cells = 369.
Proof. reflexivity. Qed.

(** ** [Random.sample] draws a permutation *)

Section Sample.
Context {A : Type}.
Implicit Types (l pool result : list A).

Lemma firstn_snoc l m b :
  nth_error l m = Some b -> firstn (S m) l = firstn m l ++ [b].
Proof.
  revert m; induction l as [|h t IH]; intros [|m] H; simpl in *; try discriminate.
  - now injection H as ->.
  - f_equal. now apply IH.
Qed.

Lemma firstn_list_set l m j x :
  j < m -> firstn m (list_set l j x) = list_set (firstn m l) j x.
Proof.
  revert m j; induction l as [|h t IH]; intros [|m] [|j] H; simpl; try lia; auto.
  f_equal. apply IH. lia.
Qed.

Lemma firstn_list_set_beyond l m j x :
  m <= j -> firstn m (list_set l j x) = firstn m l.
Proof.
  revert m j; induction l as [|h t IH]; intros [|m] [|j] H; simpl; try lia; auto.
  f_equal. apply IH. lia.
Qed.

Lemma nth_error_firstn_lt l m j : j < m -> nth_error (firstn m l) j = nth_error l j.
Proof.
  revert m j; induction l as [|h t IH]; intros [|m] [|j] H; simpl; try lia; auto.
  apply IH. lia.
Qed.

Lemma sample_loop_perm (population : list A) cnt :
  forall i pool result (rng : Random),
    i + cnt = length population -> length pool = length population ->
    Permutation (result ++ firstn (length population - i) pool) population ->
    Permutation
      (snd (fst (fold_left
         (fun (st : list A * list A * Random) (i : nat) =>
            let '(pool, result, rng) := st in
            let '(j, rng) := randbelow rng (length population - i) in
            match nth_error pool j, nth_error pool (length population - i - 1) with
            | Some a, Some b => (list_set pool j b, result ++ [a], rng)
            | _, _ => (pool, result, rng)
            end)
         (seq i cnt) (pool, result, rng))))
      population.
Proof.
  set (n := length population).
  induction cnt as [|cnt IH]; intros i pool result rng Hi Hlen Hperm.
  - simpl. replace (n - i) with 0 in Hperm by lia.
    simpl in Hperm. now rewrite app_nil_r in Hperm.
  - cbn [seq fold_left].
    destruct (randbelow rng (n - i)) as [j rng1] eqn:Hrb.
    assert (Hj : j < n - i).
    { unfold randbelow in Hrb. injection Hrb as <- _.
      apply Nat.mod_upper_bound. lia. }
    destruct (nth_error pool j) as [a|] eqn:Ha.
    2:{ apply nth_error_None in Ha. lia. }
    destruct (nth_error pool (n - i - 1)) as [b|] eqn:Hb.
    2:{ apply nth_error_None in Hb. lia. }
    apply IH; [lia|now rewrite list_set_length|].
    replace (n - i) with (S (n - i - 1)) in Hperm by lia.
    rewrite (firstn_snoc pool _ b Hb) in Hperm.
    replace (n - S i) with (n - i - 1) by lia.
    rewrite <- app_assoc. etransitivity; [|exact Hperm].
    apply Permutation_app_head.
    destruct (Nat.eq_dec j (n - i - 1)) as [E|Hne].
    + rewrite E in Ha. rewrite Ha in Hb. injection Hb as ->.
      rewrite E, firstn_list_set_beyond by lia.
      apply Permutation_cons_append.
    + rewrite firstn_list_set by lia.
      etransitivity; [|apply Permutation_cons_append].
      apply list_set_perm_head. rewrite nth_error_firstn_lt by lia. exact Ha.
Qed.

Lemma sample_perm (rng : Random) (population : list A) :
  Permutation (fst (sample rng population (length population))) population.
Proof.
  unfold sample.
  pose proof (sample_loop_perm population (length population) 0 population [] rng
                eq_refl eq_refl) as H.
  destruct (fold_left _ (seq 0 (length population)) (population, [], rng))
    as [[pool result] rng'].
  apply H. simpl. rewrite Nat.sub_0_r, firstn_all. reflexivity.
Qed.

End Sample.
(* ================================================================== *)
(** * The five boards on the canvas *)
(* ================================================================== *)

Import geometry.

Lemma in_board_true r c r0 c0 :
  in_board r c r0 c0 = true <-> (r0 <= r < r0 + 9 /\ c0 <= c < c0 + 9).
Proof.
  unfold in_board. rewrite !andb_true_iff, !Nat.leb_le, !Nat.ltb_lt. lia.
Qed.

Lemma in_board_false r c r0 c0 :
  in_board r c r0 c0 = false <-> (r < r0 \/ r0 + 9 <= r \/ c < c0 \/ c0 + 9 <= c).
Proof.
  unfold in_board. rewrite !andb_false_iff, !Nat.leb_gt, !Nat.ltb_ge. lia.
Qed.

(** Decide the five membership tests of [boards_covering_cell], keeping what
    each answer says about the coordinates. *)
Ltac split_boards :=
  unfold boards_covering_cell, BOARDS; cbn [filter];
  repeat match goal with
         | |- context [in_board ?r ?c ?r0 ?c0] =>
             let E := fresh "E" in
             destruct (in_board r c r0 c0) eqn:E;
             [apply in_board_true in E|apply in_board_false in E]
         end.

Lemma covering_at_most_two r c : length (boards_covering_cell r c) <= 2.
Proof. split_boards; cbn [length]; lia. Qed.

Lemma covering_outside r c :
  21 <= r \/ 21 <= c -> boards_covering_cell r c = [].
Proof. intros H. split_boards; try reflexivity; exfalso; lia. Qed.

Lemma covers_iff b r c :
  covers b r c = true
  <-> (board_r0 b <= r < board_r0 b + 9 /\ board_c0 b <= c < board_c0 b + 9).
Proof. unfold covers. apply in_board_true. Qed.

Lemma corners_list :
  CORNERS = [("TL"%string, 0, 0); ("TR"%string, 0, 12);
             ("BL"%string, 12, 0); ("BR"%string, 12, 12)].
Proof. reflexivity. Qed.

Lemma overlap_block_at b R C :
  In (b, (R, C))
     [(("TL"%string, 0, 0), (6, 6)); (("TR"%string, 0, 12), (6, 12));
      (("BL"%string, 12, 0), (12, 6)); (("BR"%string, 12, 12), (12, 12))] ->
  overlap_block b CENTER R C.
Proof.
  intros H. cbn [In] in H.
  repeat (destruct H as [H|H]; [injection H as <- <- <-|]); try contradiction.
  all: split; [|split].
  all: try (intros r c; rewrite andb_true_iff, !covers_iff;
            cbn [board_r0 board_c0 CENTER fst snd]; lia).
  all: unfold box_of_board, subgrid_index;
       cbn [board_r0 board_c0 CENTER fst snd];
       repeat split; vm_compute; try reflexivity; lia.
Qed.

Lemma block_origin x k : 3 * k <= x < 3 * k + 3 -> 3 * (x / 3) = 3 * k.
Proof.
  intros H. assert (x / 3 = k) as ->; [|reflexivity].
  symmetry. apply Nat.div_unique with (r := x - 3 * k); lia.
Qed.

Lemma covering_two r c :
  length (boards_covering_cell r c) = 2 ->
  exists b, In b CORNERS
    /\ (boards_covering_cell r c = [b; CENTER] \/ boards_covering_cell r c = [CENTER; b])
    /\ overlap_block b CENTER (3 * (r / 3)) (3 * (c / 3)).
Proof.
  rewrite corners_list. unfold CENTER at 1 2.
  split_boards; cbn [length]; intros Hlen; try discriminate; try (exfalso; lia).
  - exists ("TL"%string, 0, 0). split; [cbn; auto|]. split; [now left|].
    apply overlap_block_at.
    rewrite (block_origin r 2), (block_origin c 2) by lia. cbn; auto.
  - exists ("TR"%string, 0, 12). split; [cbn; auto|]. split; [now left|].
    apply overlap_block_at.
    rewrite (block_origin r 2), (block_origin c 4) by lia. cbn; auto.
  - exists ("BL"%string, 12, 0). split; [cbn; auto 6|]. split; [now right|].
    apply overlap_block_at.
    rewrite (block_origin r 4), (block_origin c 2) by lia. cbn; auto 6.
  - exists ("BR"%string, 12, 12). split; [cbn; auto 6|]. split; [now right|].
    apply overlap_block_at.
    rewrite (block_origin r 4), (block_origin c 4) by lia. cbn; auto 6.
Qed.

Lemma corners_disjoint b1 b2 r c :
  In b1 CORNERS -> In b2 CORNERS -> b1 <> b2 ->
  covers b1 r c && covers b2 r c = false.
Proof.
  rewrite corners_list. cbn [In]. intros H1 H2 Hne.
  apply not_true_is_false. rewrite andb_true_iff, !covers_iff. intros [Ha Hb].
  repeat (destruct H1 as [H1|H1]; [subst b1|]); try contradiction;
    repeat (destruct H2 as [H2|H2]; [subst b2|]); try contradiction;
    try (apply Hne; reflexivity);
    cbn [board_r0 board_c0 fst snd] in Ha, Hb; lia.
Qed.
(* ================================================================== *)
(** * The solution-counting backtracker *)
(* ================================================================== *)

Import geometry model random solver dlx9 generator.

Lemma wf_gridb_wf g : wf_gridb g = true -> wf_grid g.
Proof.
  unfold wf_gridb, wf_grid. rewrite andb_true_iff, Nat.eqb_eq.
  intros [Hl Hr]. split; [exact Hl|].
  rewrite forallb_forall in Hr. apply Forall_forall.
  intros row Hin. apply Nat.eqb_eq. now apply Hr.
Qed.

Lemma find_next_cell_from_spec cells g best r c cand :
  (forall rc, In rc cells -> In rc active_cells) ->
  (forall r' c' cand', best = Some (r', c', cand') ->
     In (r', c') active_cells /\ cell g r' c' = None) ->
  find_next_cell_from cells g best = Some (r, c, cand) ->
  In (r, c) active_cells /\ cell g r c = None.
Proof.
  revert best. induction cells as [|[r0 c0] rest IH]; intros best Hin Hbest H; simpl in H.
  - exact (Hbest r c cand H).
  - assert (Hrest : forall rc, In rc rest -> In rc active_cells)
      by (intros; apply Hin; now right).
    destruct (cell g r0 c0) eqn:Hcell.
    + now apply (IH best).
    + destruct (candidates g r0 c0) as [|d ds] eqn:Hcand; [discriminate|].
      assert (Hnew : forall r' c' cand',
                 Some (r0, c0, d :: ds) = Some (r', c', cand') ->
                 In (r', c') active_cells /\ cell g r' c' = None).
      { intros r' c' cand' E. injection E as <- <- <-. split; [|exact Hcell].
        apply Hin. now left. }
      destruct (match best with
                | Some (_, _, bc) => length (d :: ds) <? length bc
                | None => true
                end).
      * destruct (length (d :: ds) =? 1).
        -- exact (Hnew r c cand H).
        -- now apply (IH (Some (r0, c0, d :: ds))).
      * now apply (IH best).
Qed.

Lemma find_next_cell_spec g r c cand :
  find_next_cell g = Some (r, c, cand) ->
  In (r, c) active_cells /\ cell g r c = None.
Proof.
  apply find_next_cell_from_spec; [auto|discriminate].
Qed.

Lemma filter_length_lt {A : Type} (f f' : A -> bool) (l : list A) (x : A) :
  (forall y, In y l -> f' y = true -> f y = true) ->
  In x l -> f x = true -> f' x = false ->
  length (filter f' l) < length (filter f l).
Proof.
  intros Himp Hin Hfx Hf'x.
  assert (Hle : forall l', (forall y, In y l' -> f' y = true -> f y = true) ->
                           length (filter f' l') <= length (filter f l')).
  { induction l' as [|h t IH]; intros Hl; simpl; [lia|].
    assert (IHt : length (filter f' t) <= length (filter f t))
      by (apply IH; intros; apply Hl; auto; now right).
    destruct (f' h) eqn:E.
    - rewrite (Hl h (or_introl eq_refl) E). simpl. lia.
    - destruct (f h); simpl; lia. }
  induction l as [|h t IH]; [contradiction|]. simpl.
  assert (Ht : forall y, In y t -> f' y = true -> f y = true)
    by (intros; apply Himp; auto; now right).
  destruct Hin as [->|Hin].
  - rewrite Hfx, Hf'x. simpl. specialize (Hle t Ht). lia.
  - specialize (IH Ht Hin).
    destruct (f' h) eqn:E.
    + rewrite (Himp h (or_introl eq_refl) E). simpl. lia.
    + destruct (f h); simpl; lia.
Qed.

Lemma empties_set_cell g r c v :
  wf_grid g -> In (r, c) active_cells -> cell g r c = None ->
  empties (set_cell g r c (Some v)) < empties g.
Proof.
  intros Hwf Hin Hnone. unfold empties.
  destruct (active_cells_bound _ _ Hin) as [Hr Hc].
  apply filter_length_lt with (x := (r, c)); [|exact Hin| |].
  - intros [r' c'] _. unfold is_cell_empty. simpl.
    destruct (Nat.eq_dec r' r) as [->|Hne1].
    + destruct (Nat.eq_dec c' c) as [->|Hne2].
      * now rewrite cell_set_cell_same.
      * rewrite cell_set_cell_other by congruence. auto.
    + rewrite cell_set_cell_other by congruence. auto.
  - unfold is_cell_empty. simpl. now rewrite Hnone.
  - unfold is_cell_empty. simpl. now rewrite cell_set_cell_same.
Qed.

Lemma empties_bound g : empties g <= length active_cells.
Proof. unfold empties. apply filter_length_le. Qed.

Lemma completions_over_nonneg fuel g r c vs :
  (forall g', 0 <= completions fuel g')%Z ->
  (0 <= completions_over fuel g r c vs)%Z.
Proof.
  intros H. induction vs as [|v vs IH]; simpl; [lia|].
  destruct (is_valid_assignment g r c v); [|exact IH].
  specialize (H (set_cell g r c (Some v))). lia.
Qed.

Lemma completions_nonneg fuel g : (0 <= completions fuel g)%Z.
Proof.
  revert g. induction fuel as [|fuel IH]; intros g; cbn [completions]; [lia|].
  destruct (find_next_cell g) as [[[r c] cand]|].
  - apply (completions_over_nonneg fuel g r c cand IH).
  - destruct (existsb (fun rc => is_cell_empty g (fst rc) (snd rc)) active_cells); lia.
Qed.

Lemma completions_over_perm fuel g r c vs ws :
  Permutation vs ws ->
  completions_over fuel g r c vs = completions_over fuel g r c ws.
Proof.
  induction 1 as [|x l l' _ IH|x y l|l l' l'' _ IH1 _ IH2]; simpl.
  - reflexivity.
  - now rewrite IH.
  - destruct (is_valid_assignment g r c x), (is_valid_assignment g r c y); lia.
  - congruence.
Qed.

Lemma completions_unfold fuel g r c cand :
  find_next_cell g = Some (r, c, cand) ->
  completions (S fuel) g = completions_over fuel g r c cand.
Proof. intros H. cbn [completions]. now rewrite H. Qed.

Lemma try_candidates_spec rec limit fuel g r c :
  wf_grid g -> In (r, c) active_cells -> cell g r c = None ->
  (forall v k grand, (k < limit)%Z ->
     search_outcome limit k (completions fuel (set_cell g r c (Some v)))
                    (set_cell g r c (Some v))
                    (rec (mkSearch k (set_cell g r c (Some v)) grand))) ->
  forall vs k grand, (k < limit)%Z ->
    search_outcome limit k (completions_over fuel g r c vs) g
                   (try_candidates rec r c vs (mkSearch k g grand)).
Proof.
  intros Hwf Hin Hnone Hrec vs.
  induction vs as [|v vs IH]; intros k grand Hk; simpl.
  - exists (mkSearch k g grand). simpl. rewrite Z.add_0_r, Z.min_l by lia.
    repeat split; auto. f_equal. f_equal. symmetry. apply Z.leb_gt. exact Hk.
  - destruct (is_valid_assignment g r c v) eqn:Hvalid; [|now apply IH].
    destruct (Hrec v k grand Hk) as (s1 & E1 & Hc1 & Hg1). rewrite E1.
    pose proof (completions_nonneg fuel (set_cell g r c (Some v))) as Hn1.
    assert (Hn2 : (0 <= completions_over fuel g r c vs)%Z)
      by (apply completions_over_nonneg; intros; apply completions_nonneg).
    destruct (Z.leb_spec limit (Z.min (k + completions fuel (set_cell g r c (Some v))) limit))
      as [Hreach|Hbelow].
    + exists s1. rewrite Hc1.
      replace (Z.min (k + (completions fuel (set_cell g r c (Some v))
                           + completions_over fuel g r c vs)) limit)
        with (Z.min (k + completions fuel (set_cell g r c (Some v))) limit) by lia.
      repeat split; [|lia].
      f_equal. f_equal. symmetry. apply Z.leb_le. lia.
    + rewrite Hg1 by lia. rewrite set_cell_restore by exact Hnone.
      destruct (IH (count s1) (solver.grand s1)) as (s2 & E2 & Hc2 & Hg2); [lia|].
      exists s2. rewrite E2, Hc2, Hc1.
      replace (Z.min (Z.min (k + completions fuel (set_cell g r c (Some v))) limit
                      + completions_over fuel g r c vs) limit)
        with (Z.min (k + (completions fuel (set_cell g r c (Some v))
                          + completions_over fuel g r c vs)) limit) by lia.
      repeat split. intros H. apply Hg2. lia.
Qed.

Lemma backtrack_spec limit fuel :
  forall g k grand,
    wf_grid g -> empties g < fuel -> (k < limit)%Z ->
    search_outcome limit k (completions fuel g) g
                   (solver.backtrack fuel limit (mkSearch k g grand)).
Proof.
  induction fuel as [|fuel IH]; intros g k grand Hwf Hfuel Hk; [lia|].
  cbn [solver.backtrack grid count solver.grand].
  destruct (find_next_cell g) as [[[r c] cand]|] eqn:Hnext.
  - destruct (find_next_cell_spec _ _ _ _ Hnext) as [Hin Hnone].
    rewrite (completions_unfold _ _ _ _ _ Hnext).
    destruct (shuffle grand cand) as [cand' grand'] eqn:Hsh.
    rewrite (completions_over_perm fuel g r c cand cand').
    2:{ symmetry. replace cand' with (fst (shuffle grand cand)) by now rewrite Hsh.
        apply shuffle_perm. }
    apply try_candidates_spec; auto.
    intros v k0 grand0 Hk0. apply IH; auto.
    + now apply set_cell_wf.
    + pose proof (empties_set_cell g r c v Hwf Hin Hnone). lia.
  - cbn [completions]. rewrite Hnext.
    destruct (existsb (fun rc => is_cell_empty g (fst rc) (snd rc)) active_cells).
    + exists (mkSearch k g grand). simpl. rewrite Z.add_0_r, Z.min_l by lia.
      repeat split; auto. f_equal. f_equal. symmetry. apply Z.leb_gt. exact Hk.
    + exists (mkSearch (k + 1) g grand). simpl. rewrite Z.min_l by lia.
      repeat split; auto.
Qed.

(** [solve_unique] never runs out of depth, answers with the number of
    completions capped at the limit, whatever the state of the module-level
    generator, and leaves the grid untouched unless the cap was reached. *)
Lemma solve_unique_fuel grand g limit fuel :
  wf_grid g -> (0 < limit)%Z -> empties g < fuel ->
  exists s,
    match solver.backtrack fuel limit (mkSearch 0 g grand) with
    | None => Raise NoFuel
    | Some (_, s) => Ok ((0 <? count s)%Z, count s, s)
    end
    = Ok ((0 <? Z.min (completions fuel g) limit)%Z,
          Z.min (completions fuel g) limit, s)
    /\ ((Z.min (completions fuel g) limit < limit)%Z -> grid s = g).
Proof.
  intros Hwf Hl Hfuel.
  destruct (backtrack_spec limit fuel g 0 grand Hwf Hfuel Hl) as (s & E & Hc & Hg).
  rewrite E. exists s. rewrite Z.add_0_l in Hc. rewrite Hc.
  split; [reflexivity|]. intros H. apply Hg. lia.
Qed.

Lemma solve_unique_spec grand g limit :
  wf_grid g -> (0 < limit)%Z ->
  exists s, solve_unique grand g limit = Ok (unique_answer g limit, s)
            /\ ((snd (unique_answer g limit) < limit)%Z -> grid s = g).
Proof.
  intros Hwf Hl. unfold solve_unique, unique_answer, search_depth.
  apply solve_unique_fuel; auto.
  apply Nat.lt_succ_r, empties_bound.
Qed.
(* ================================================================== *)
(** * Boards without conflicts are valid *)
(* ================================================================== *)

Import geometry model random solver dlx9 generator.

Lemma cell_eqb_eq a b : cell_eqb a b = true <-> a = b.
Proof.
  unfold cell_eqb. rewrite andb_true_iff, !Nat.eqb_eq.
  destruct a, b; simpl. split; [intros [-> ->]; reflexivity|].
  intros E; injection E; auto.
Qed.

Lemma nodupb_NoDup {A : Type} (eqb : A -> A -> bool) (l : list A) :
  (forall a b, eqb a b = true <-> a = b) ->
  nodupb eqb l = true -> NoDup l.
Proof.
  intros Heq. induction l as [|x t IH]; intros H; [constructor|].
  simpl in H. apply andb_true_iff in H. destruct H as [H1 H2].
  constructor; [|now apply IH].
  intros Hin. apply negb_true_iff in H1.
  assert (existsb (eqb x) t = true); [|congruence].
  apply existsb_exists. exists x. split; [exact Hin|]. now apply Heq.
Qed.

Lemma units_checked : forallb unit_ok units9 = true.
Proof. vm_compute. reflexivity. Qed.

Lemma unit_facts u :
  In u units9 ->
  length u = 9 /\ NoDup u
  /\ (forall a, In a u -> fst a < 9 /\ snd a < 9)
  /\ (forall a b, In a u -> In b u -> peers (fst a) (snd a) (fst b) (snd b) = true).
Proof.
  intros Hu. pose proof units_checked as H. rewrite forallb_forall in H.
  specialize (H u Hu). unfold unit_ok in H.
  rewrite !andb_true_iff in H. destruct H as [[[H1 H2] H3] H4].
  split; [now apply Nat.eqb_eq|].
  split; [apply (nodupb_NoDup cell_eqb); [apply cell_eqb_eq|exact H2]|].
  rewrite forallb_forall in H3, H4. split.
  - intros a Ha. specialize (H3 a Ha). apply andb_true_iff in H3.
    rewrite !Nat.ltb_lt in H3. exact H3.
  - intros a b Ha Hb. specialize (H4 a Ha). rewrite forallb_forall in H4.
    now apply H4.
Qed.

Lemma digits_In v : In v digits <-> (1 <= v <= 9)%Z.
Proof.
  unfold digits. rewrite in_map_iff. split.
  - intros (k & <- & Hk). apply in_seq in Hk. lia.
  - intros H. exists (Z.to_nat v). split; [lia|]. apply in_seq. lia.
Qed.

Lemma complete_unit_of_nodup vals :
  NoDup vals -> length vals = 9 -> (forall v, In v vals -> In v digits) ->
  complete_unit vals = true.
Proof.
  intros Hnd Hlen Hincl. unfold complete_unit. apply forallb_forall.
  intros d Hd. apply Nat.eqb_eq.
  assert (Hin : In d vals).
  { apply (NoDup_length_incl Hnd (l' := digits)); [|exact Hincl|exact Hd].
    rewrite Hlen. reflexivity. }
  now apply (proj1 (NoDup_count_occ' Z.eq_dec vals) Hnd).
Qed.

Lemma consistent_valid b : consistent b -> valid_board9 b = true.
Proof.
  intros [Hdig Hdiff]. unfold valid_board9. apply forallb_forall. intros u Hu.
  destruct (unit_facts u Hu) as (Hlen & Hnd & Hrange & Hpeers).
  apply complete_unit_of_nodup.
  - unfold unit_values. apply NoDup_map_NoDup_ForallPairs; [|exact Hnd].
    intros [r1 c1] [r2 c2] H1 H2 E.
    destruct (Hrange _ H1) as [Hr1 Hc1]. destruct (Hrange _ H2) as [Hr2 Hc2].
    simpl in *.
    destruct (cell_eqb (r1, c1) (r2, c2)) eqn:Hcell.
    + now apply cell_eqb_eq.
    + exfalso. apply (Hdiff r1 c1 r2 c2); auto.
      * intros E'. apply cell_eqb_eq in E'. congruence.
      * apply (Hpeers (r1, c1) (r2, c2)); assumption.
  - unfold unit_values. now rewrite length_map.
  - intros v Hv. unfold unit_values in Hv. apply in_map_iff in Hv.
    destruct Hv as ([r c] & <- & Hin). destruct (Hrange _ Hin).
    apply digits_In. now apply Hdig.
Qed.
(* ================================================================== *)
(** * The exact-cover search of [solve_random] *)
(* ================================================================== *)

Import geometry model random solver dlx9 generator.

Lemma nmem_In x s : nmem x s = true <-> In x s.
Proof.
  unfold nmem. rewrite existsb_exists. split.
  - intros (y & Hy & E). apply N.eqb_eq in E. now subst.
  - intros H. exists x. split; [exact H|apply N.eqb_refl].
Qed.

Lemma nmem_false x s : nmem x s = false <-> ~ In x s.
Proof.
  rewrite <- nmem_In. destruct (nmem x s); split; intros; congruence.
Qed.

Lemma nremove_In x y s : In y (nremove x s) <-> In y s /\ y <> x.
Proof.
  unfold nremove. rewrite filter_In, negb_true_iff, N.eqb_neq. tauto.
Qed.

Lemma nremove_nodup x s : NoDup s -> NoDup (nremove x s).
Proof. apply NoDup_filter. Qed.

Lemma idx_set_idx_same {A : Type} (l : list A) c x d :
  N.to_nat c < length l -> idx (set_idx l c x) c d = x.
Proof. intros H. unfold idx, set_idx. now apply nth_list_set_same. Qed.

Lemma idx_set_idx_other {A : Type} (l : list A) c c' x d :
  c' <> c -> idx (set_idx l c x) c' d = idx l c' d.
Proof.
  intros H. unfold idx, set_idx. apply nth_list_set_other. lia.
Qed.

Lemma set_idx_length {A : Type} (l : list A) c x :
  length (set_idx l c x) = length l.
Proof. apply list_set_length. Qed.

Lemma idx_nonempty_range {A : Type} (l : list (list A)) c x :
  In x (idx l c []) -> N.to_nat c < length l.
Proof.
  unfold idx. intros H.
  destruct (Nat.lt_ge_cases (N.to_nat c) (length l)) as [Hlt|Hge]; [exact Hlt|].
  rewrite nth_overflow in H by exact Hge. contradiction.
Qed.

(** ** [drop_row] *)

Lemma drop_row_loop_spec l rid m :
  let m' := drop_row_loop l rid m in
  active_rows m' = active_rows m
  /\ active_cols m' = active_cols m
  /\ length (rows_for_col m') = length (rows_for_col m)
  /\ forall c r, In r (idx (rows_for_col m') c []) <->
                 In r (idx (rows_for_col m) c [])
                 /\ ~ (r = rid /\ In c l /\ In c (active_cols m)).
Proof.
  revert m. induction l as [|cc l IH]; intros m; cbn zeta.
  - simpl. repeat split; auto; tauto.
  - change (drop_row_loop (cc :: l) rid m)
      with (drop_row_loop l rid
              (if nmem cc (active_cols m) && nmem rid (idx (rows_for_col m) cc [])
               then mkMatrix
                      (set_idx (rows_for_col m) cc
                               (nremove rid (idx (rows_for_col m) cc [])))
                      (active_rows m) (active_cols m)
               else m)).
    set (m1 := if nmem cc (active_cols m) && nmem rid (idx (rows_for_col m) cc [])
               then _ else m).
    assert (H1 : active_rows m1 = active_rows m
                 /\ active_cols m1 = active_cols m
                 /\ length (rows_for_col m1) = length (rows_for_col m)
                 /\ forall c r, In r (idx (rows_for_col m1) c []) <->
                      In r (idx (rows_for_col m) c [])
                      /\ ~ (r = rid /\ c = cc /\ In c (active_cols m))).
    { subst m1.
      destruct (nmem cc (active_cols m)) eqn:Hac;
        [destruct (nmem rid (idx (rows_for_col m) cc [])) eqn:Hrid|]; cbn [andb].
      - apply nmem_In in Hac, Hrid. cbn [active_rows active_cols rows_for_col].
        split; [reflexivity|]. split; [reflexivity|].
        split; [apply set_idx_length|].
        assert (Hcc : N.to_nat cc < length (rows_for_col m))
          by (eapply idx_nonempty_range; eauto).
        intros c r. destruct (N.eq_dec c cc) as [->|Hne].
        + rewrite idx_set_idx_same by exact Hcc. rewrite nremove_In.
          split; [intros [H1 H2]; split; [exact H1|tauto]|].
          intros [H1 H2]. split; [exact H1|]. intros ->. apply H2. auto.
        + rewrite idx_set_idx_other by exact Hne. tauto.
      - apply nmem_false in Hrid.
        split; [reflexivity|]. split; [reflexivity|]. split; [reflexivity|].
        intros c r. split; [|tauto]. intros H. split; [exact H|].
        intros (-> & -> & _). tauto.
      - apply nmem_false in Hac.
        split; [reflexivity|]. split; [reflexivity|]. split; [reflexivity|].
        intros c r. split; [|tauto]. intros H. split; [exact H|].
        intros (-> & -> & ?). tauto. }
    destruct H1 as (Har1 & Hac1 & Hlen1 & Hset1).
    destruct (IH m1) as (Har & Hac & Hlen & Hset).
    split; [congruence|]. split; [congruence|]. split; [congruence|].
    intros c r. rewrite Hset, Hset1, Hac1. cbn [In].
    split.
    + intros [[H1 H2] H3]. split; [exact H1|].
      intros (-> & [->|Hin] & Hc); tauto.
    + intros [H1 H2]. split; [split; [exact H1|]|].
      * intros (-> & -> & Hc). apply H2. auto.
      * intros (-> & Hl & Hc). apply H2. auto.
Qed.

Lemma drop_row_spec rid m :
  let m' := drop_row rid m in
  active_rows m' = active_rows m
  /\ active_cols m' = active_cols m
  /\ length (rows_for_col m') = length (rows_for_col m)
  /\ forall c r, In r (idx (rows_for_col m') c []) <->
                 In r (idx (rows_for_col m) c [])
                 /\ ~ (r = rid /\ hits rid c /\ In c (active_cols m)).
Proof. apply drop_row_loop_spec. Qed.

(** ** [cover] *)

Lemma cover_loop_spec l m :
  let m' := cover_loop l m in
  active_cols m' = active_cols m
  /\ length (rows_for_col m') = length (rows_for_col m)
  /\ (forall r, In r (active_rows m') <-> In r (active_rows m) /\ ~ In r l)
  /\ forall c r, In r (idx (rows_for_col m') c []) <->
                 In r (idx (rows_for_col m) c [])
                 /\ ~ (In r l /\ In r (active_rows m) /\ hits r c
                       /\ In c (active_cols m)).
Proof.
  revert m. induction l as [|rid l IH]; intros m; cbn zeta.
  - simpl. repeat split; auto; tauto.
  - change (cover_loop (rid :: l) m)
      with (cover_loop l
              (if nmem rid (active_rows m)
               then drop_row rid
                      (mkMatrix (rows_for_col m) (nremove rid (active_rows m))
                                (active_cols m))
               else m)).
    set (m1 := if nmem rid (active_rows m) then _ else m).
    assert (H1 : active_cols m1 = active_cols m
                 /\ length (rows_for_col m1) = length (rows_for_col m)
                 /\ (forall r, In r (active_rows m1) <->
                               In r (active_rows m) /\ (In rid (active_rows m) -> r <> rid))
                 /\ forall c r, In r (idx (rows_for_col m1) c []) <->
                      In r (idx (rows_for_col m) c [])
                      /\ ~ (r = rid /\ In rid (active_rows m) /\ hits rid c
                            /\ In c (active_cols m))).
    { subst m1. destruct (nmem rid (active_rows m)) eqn:Hrid.
      - apply nmem_In in Hrid.
        destruct (drop_row_spec rid
                    (mkMatrix (rows_for_col m) (nremove rid (active_rows m))
                              (active_cols m)))
          as (Har & Hac & Hlen & Hset).
        cbn [active_rows active_cols rows_for_col] in *.
        split; [exact Hac|]. split; [exact Hlen|]. split.
        + intros r. rewrite Har, nremove_In. tauto.
        + intros c r. rewrite Hset. tauto.
      - apply nmem_false in Hrid.
        split; [reflexivity|]. split; [reflexivity|]. split.
        + intros r. tauto.
        + intros c r. tauto. }
    destruct H1 as (Hac1 & Hlen1 & Har1 & Hset1).
    destruct (IH m1) as (Hac & Hlen & Har & Hset). clearbody m1.
    split; [congruence|]. split; [congruence|]. split.
    + intros r. rewrite Har, Har1. cbn [In].
      destruct (N.eq_dec r rid) as [->|Hne]; [tauto|].
      split; [intros [[H2 H3] H4]; split; [exact H2|]|intros [H2 H3]; tauto].
      intros [E|Hin]; [congruence|tauto].
    + intros c r. rewrite Hset, Hset1, Har1, Hac1. cbn [In].
      destruct (N.eq_dec r rid) as [->|Hne].
      * split.
        -- intros [[H2 H3] H4]. split; [exact H2|]. intros (_ & H5 & H6 & H7).
           apply H3. auto.
        -- intros [H2 H3]. split; [split; [exact H2|]|].
           ++ intros (_ & H5 & H6 & H7). apply H3. auto.
           ++ intros (H4 & [H5 H6] & _). now apply H6.
      * split.
        -- intros [[H2 H3] H4]. split; [exact H2|].
           intros ([E|H5] & H6 & H7 & H8); [congruence|]. apply H4. tauto.
        -- intros [H2 H3]. split; [split; [exact H2|]|].
           ++ intros (E & _). congruence.
           ++ intros (H4 & [H5 H6] & H7 & H8). apply H3. tauto.
Qed.

Lemma cover_unfold col m :
  cover col m =
  let m1 := cover_loop (idx (rows_for_col m) col []) m in
  if nmem col (active_cols m1)
  then mkMatrix (rows_for_col m1) (active_rows m1) (nremove col (active_cols m1))
  else m1.
Proof. reflexivity. Qed.

Lemma cover_spec col m :
  matrix_inv m ->
  matrix_inv (cover col m)
  /\ (forall c, In c (active_cols (cover col m)) <-> In c (active_cols m) /\ c <> col)
  /\ (forall r, In r (active_rows (cover col m)) <->
                In r (active_rows m) /\ ~ hits r col).
Proof.
  intros Hinv. rewrite cover_unfold. cbn zeta.
  destruct (cover_loop_spec (idx (rows_for_col m) col []) m)
    as (Hac & Hlen & Har & Hset).
  set (m1 := cover_loop (idx (rows_for_col m) col []) m) in *. clearbody m1.
  assert (Hrows : forall r, In r (active_rows m1) <->
                            In r (active_rows m) /\ ~ hits r col).
  { intros r. rewrite Har. split; intros [H1 H2]; (split; [exact H1|]).
    - intros Hh. apply H2. apply (inv_active_sets m Hinv); auto.
      now apply (inv_rows m Hinv r H1).
    - intros Hin. apply H2. now apply (inv_sets m Hinv col r). }
  set (ac' := if nmem col (active_cols m1) then nremove col (active_cols m1)
              else active_cols m1).
  assert (Hcols : forall c, In c ac' <-> In c (active_cols m) /\ c <> col).
  { intros c. subst ac'. destruct (nmem col (active_cols m1)) eqn:Hc.
    - rewrite nremove_In, Hac. tauto.
    - apply nmem_false in Hc. rewrite Hac in *. split; [|tauto].
      intros H. split; [exact H|]. intros ->. tauto. }
  assert (Hnd : NoDup ac').
  { subst ac'. destruct (nmem col (active_cols m1)).
    - apply nremove_nodup. rewrite Hac. apply (inv_nodup m Hinv).
    - rewrite Hac. apply (inv_nodup m Hinv). }
  assert (Hgoal : matrix_inv (mkMatrix (rows_for_col m1) (active_rows m1) ac')
                  /\ (forall c, In c ac' <-> In c (active_cols m) /\ c <> col)
                  /\ (forall r, In r (active_rows m1) <->
                                In r (active_rows m) /\ ~ hits r col)).
  { split; [|split; assumption].
    constructor; cbn [active_rows active_cols rows_for_col].
    - rewrite Hlen. apply (inv_len m Hinv).
    - exact Hnd.
    - intros c Hc. apply Hcols in Hc. apply (inv_cols m Hinv). tauto.
    - intros r Hr. apply Hrows in Hr. destruct Hr as [Hr Hnh].
      destruct (inv_rows m Hinv r Hr) as [Hlt Hall]. split; [exact Hlt|].
      intros c Hh. apply Hcols. split; [now apply Hall|]. intros ->. tauto.
    - intros c r Hr. apply Hset in Hr. apply (inv_sets m Hinv). tauto.
    - intros c r Hc Hr. apply Hcols in Hc. destruct Hc as [Hc Hne].
      apply Hset in Hr. destruct Hr as [Hr Hnot].
      pose proof (inv_sets_active m Hinv c r Hc Hr) as Hact.
      apply Har. split; [exact Hact|]. intros Hin. apply Hnot.
      repeat split; auto. now apply (inv_sets m Hinv c r).
    - intros c r Hc Hr Hh. apply Hcols in Hc. destruct Hc as [Hc Hne].
      apply Har in Hr. destruct Hr as [Hr Hnin].
      apply Hset. split; [now apply (inv_active_sets m Hinv)|]. tauto. }
  subst ac'. destruct (nmem col (active_cols m1)) eqn:Hc.
  - exact Hgoal.
  - destruct m1 as [rfc ar ac]. exact Hgoal.
Qed.

Lemma cover_cols_spec l m :
  matrix_inv m ->
  matrix_inv (cover_cols l m)
  /\ (forall c, In c (active_cols (cover_cols l m)) <->
                In c (active_cols m) /\ ~ In c l)
  /\ (forall r, In r (active_rows (cover_cols l m)) <->
                In r (active_rows m) /\ forall c, In c l -> ~ hits r c).
Proof.
  revert m. induction l as [|col l IH]; intros m Hinv.
  - simpl. split; [exact Hinv|]. split; intros; tauto.
  - change (cover_cols (col :: l) m) with (cover_cols l (cover col m)).
    destruct (cover_spec col m Hinv) as (Hinv1 & Hc1 & Hr1).
    destruct (IH _ Hinv1) as (Hinv2 & Hc2 & Hr2).
    split; [exact Hinv2|]. split.
    + intros c. rewrite Hc2, Hc1. cbn [In]. split.
      * intros [[H1 H2] H3]. split; [exact H1|]. intros [E|H4]; [congruence|tauto].
      * intros [H1 H2]. split; [split; [exact H1|]|]; intros H3; apply H2; auto.
    + intros r. rewrite Hr2, Hr1. cbn [In]. split.
      * intros [[H1 H2] H3]. split; [exact H1|].
        intros c [<-|H4]; [exact H2|now apply H3].
      * intros [H1 H2]. split; [split; [exact H1|]|].
        -- apply H2. auto.
        -- intros c H3. apply H2. auto.
Qed.

Lemma cover_all_spec rid m :
  matrix_inv m ->
  matrix_inv (cover_all rid m)
  /\ (forall c, In c (active_cols (cover_all rid m)) <->
                In c (active_cols m) /\ ~ hits rid c)
  /\ (forall r, In r (active_rows (cover_all rid m)) <->
                In r (active_rows m) /\ disjoint_rows rid r).
Proof. apply cover_cols_spec. Qed.

(** ** The layout of the matrix *)

Lemma range_In n x : In x (range n) <-> (x < N.of_nat n)%N.
Proof.
  unfold range. rewrite in_map_iff. split.
  - intros (k & <- & Hk). apply in_seq in Hk. lia.
  - intros H. exists (N.to_nat x). split; [lia|]. apply in_seq. lia.
Qed.

Lemma range_NoDup n : NoDup (range n).
Proof.
  unfold range. apply NoDup_map_NoDup_ForallPairs; [|apply seq_NoDup].
  intros a b _ _ H. lia.
Qed.

Lemma layout_checked : forallb row_layout_ok (range 729) = true.
Proof. vm_compute. reflexivity. Qed.

Lemma column_sets_checked : forallb column_sets_ok (range 324) = true.
Proof. vm_compute. reflexivity. Qed.

Lemma row_columns_checked : forallb row_columns_ok (range 729) = true.
Proof. vm_compute. reflexivity. Qed.

Lemma cols_for_row_length : length cols_for_row = 729.
Proof. reflexivity. Qed.

Lemma initial_rows_for_col_length : length initial_rows_for_col = 324.
Proof. reflexivity. Qed.

Lemma row_layout rid :
  (rid < 729)%N ->
  idx cols_for_row rid [] = cols_of rid
  /\ (rid_r rid < 9)%N /\ (rid_c rid < 9)%N /\ (rid_d rid < 9)%N
  /\ (_box_index (rid_r rid) (rid_c rid) < 9)%N
  /\ row_id (rid_r rid) (rid_c rid) (rid_d rid) = rid.
Proof.
  intros H. pose proof layout_checked as Hall. rewrite forallb_forall in Hall.
  specialize (Hall rid (proj2 (range_In 729 rid) H)). unfold row_layout_ok in Hall.
  rewrite !andb_true_iff, !N.ltb_lt, N.eqb_eq in Hall.
  destruct Hall as [[[[[H1 H2] H3] H4] H5] H6].
  unfold list_N_eqb in H1.
  destruct (list_eq_dec N.eq_dec (idx cols_for_row rid []) (cols_of rid));
    [|discriminate].
  repeat split; assumption.
Qed.

Lemma hits_row_range r c : hits r c -> (r < 729)%N.
Proof.
  unfold hits. intros H. apply idx_nonempty_range in H.
  rewrite cols_for_row_length in H. lia.
Qed.

Lemma hits_cols_of r c : hits r c <-> (r < 729)%N /\ In c (cols_of r).
Proof.
  split.
  - intros H. pose proof (hits_row_range _ _ H) as Hr. split; [exact Hr|].
    unfold hits in H. now rewrite (proj1 (row_layout r Hr)) in H.
  - intros [Hr H]. unfold hits. now rewrite (proj1 (row_layout r Hr)).
Qed.

Lemma hits_col_range r c : hits r c -> (c < 324)%N.
Proof.
  intros H. pose proof (hits_row_range _ _ H) as Hr.
  pose proof row_columns_checked as Hall. rewrite forallb_forall in Hall.
  specialize (Hall r (proj2 (range_In 729 r) Hr)).
  unfold row_columns_ok in Hall. rewrite forallb_forall in Hall.
  specialize (Hall c H). apply andb_true_iff in Hall.
  destruct Hall as [Hc _]. now apply N.ltb_lt in Hc.
Qed.

Lemma initial_sets_hit c r : In r (idx initial_rows_for_col c []) -> (r < 729)%N /\ hits r c.
Proof.
  intros H. pose proof (idx_nonempty_range _ _ _ H) as Hc.
  rewrite initial_rows_for_col_length in Hc.
  pose proof column_sets_checked as Hall. rewrite forallb_forall in Hall.
  specialize (Hall c). unfold column_sets_ok in Hall.
  rewrite forallb_forall in Hall.
  assert (Hin : In c (range 324)) by (apply range_In; lia).
  specialize (Hall Hin r H). apply andb_true_iff in Hall.
  destruct Hall as [H1 H2]. apply N.ltb_lt in H1. apply nmem_In in H2. auto.
Qed.

Lemma initial_hit_sets c r : hits r c -> In r (idx initial_rows_for_col c []).
Proof.
  intros H. pose proof (hits_row_range _ _ H) as Hr.
  pose proof row_columns_checked as Hall. rewrite forallb_forall in Hall.
  specialize (Hall r (proj2 (range_In 729 r) Hr)).
  unfold row_columns_ok in Hall. rewrite forallb_forall in Hall.
  specialize (Hall c H). apply andb_true_iff in Hall.
  destruct Hall as [_ H2]. now apply nmem_In in H2.
Qed.

Lemma initial_matrix_inv : matrix_inv initial_matrix.
Proof.
  constructor; cbn [initial_matrix rows_for_col active_rows active_cols].
  - apply initial_rows_for_col_length.
  - apply range_NoDup.
  - intros c H. apply range_In in H. exact H.
  - intros r H. apply range_In in H. split; [exact H|].
    intros c Hh. apply range_In. apply (hits_col_range _ _ Hh).
  - intros c r H. now apply initial_sets_hit.
  - intros c r _ H. apply range_In. change (N.of_nat (9*9*9)) with 729%N.
    now apply initial_sets_hit in H.
  - intros c r _ _ H. now apply initial_hit_sets.
Qed.

Lemma initial_selection_inv : selection_inv initial_matrix [].
Proof.
  constructor.
  - apply initial_matrix_inv.
  - intros s [].
  - intros a b [].
  - intros c Hc. cbn [initial_matrix active_cols]. rewrite range_In.
    split; [intros _ s []|intros _; exact Hc].
  - intros r Hr. cbn [initial_matrix active_rows]. rewrite range_In.
    split; [intros _ s []|intros _; exact Hr].
Qed.

(** ** Selecting rows *)

Lemma disjoint_rows_sym a b : disjoint_rows a b -> disjoint_rows b a.
Proof. intros H c Hb Ha. exact (H c Ha Hb). Qed.

Lemma hits_dec r c : {hits r c} + {~ hits r c}.
Proof. apply (In_dec N.eq_dec). Qed.

Lemma select_row m sol rid :
  selection_inv m sol -> In rid (active_rows m) ->
  selection_inv (cover_all rid m) (sol ++ [rid]).
Proof.
  intros Hsel Hrid.
  destruct (cover_all_spec rid m (sel_matrix _ _ Hsel)) as (Hinv & Hc & Hr).
  pose proof (inv_rows m (sel_matrix _ _ Hsel) rid Hrid) as [Hlt Hact].
  assert (Hdis : forall s, In s sol -> disjoint_rows s rid)
    by (apply (sel_rows _ _ Hsel); assumption).
  constructor.
  - exact Hinv.
  - intros s Hs. apply in_app_or in Hs. destruct Hs as [Hs|[<-|[]]]; [|exact Hlt].
    now apply (sel_range _ _ Hsel).
  - intros a b Ha Hb Hne. apply in_app_or in Ha, Hb.
    destruct Ha as [Ha|[<-|[]]], Hb as [Hb|[<-|[]]].
    + now apply (sel_disjoint _ _ Hsel).
    + now apply Hdis.
    + now apply disjoint_rows_sym, Hdis.
    + congruence.
  - intros c Hlt324. rewrite Hc, (sel_cols _ _ Hsel c Hlt324). split.
    + intros [H1 H2] s Hs. apply in_app_or in Hs.
      destruct Hs as [Hs|[<-|[]]]; auto.
    + intros H. split.
      * intros s Hs. apply H, in_or_app. now left.
      * apply H, in_or_app. right. now left.
  - intros r Hlt729. rewrite Hr, (sel_rows _ _ Hsel r Hlt729). split.
    + intros [H1 H2] s Hs. apply in_app_or in Hs.
      destruct Hs as [Hs|[<-|[]]]; auto.
    + intros H. split.
      * intros s Hs. apply H, in_or_app. now left.
      * apply H, in_or_app. right. now left.
Qed.

Lemma idx_map_filter (f : N -> bool) (l : list (list N)) c :
  idx (map (filter f) l) c [] = filter f (idx l c []).
Proof.
  unfold idx. change (@nil N) with (filter f []) at 1. apply map_nth.
Qed.

Lemma rebuild_inv m sol sr :
  selection_inv m sol -> selection_inv (rebuild m sr) sol.
Proof.
  intros Hsel. pose proof (sel_matrix _ _ Hsel) as Hinv.
  constructor; try (destruct Hsel; assumption).
  unfold rebuild.
  constructor; cbn [rows_for_col active_rows active_cols].
  - rewrite length_map. apply (inv_len m Hinv).
  - apply (inv_nodup m Hinv).
  - apply (inv_cols m Hinv).
  - apply (inv_rows m Hinv).
  - intros c r H. rewrite idx_map_filter in H. apply filter_In in H.
    apply (inv_sets m Hinv). tauto.
  - intros c r Hc H. rewrite idx_map_filter in H. apply filter_In in H.
    apply (inv_sets_active m Hinv c); tauto.
  - intros c r Hc Hr Hh. rewrite idx_map_filter. apply filter_In. split.
    + now apply (inv_active_sets m Hinv).
    + apply orb_true_iff. left. now apply nmem_In.
Qed.

Lemma apply_givens_from givens m sol :
  selection_inv m sol ->
  Forall (fun g => (given_rid g < 729)%N) givens ->
  Forall (fun g => forall s, In s sol -> disjoint_rows s (given_rid g)) givens ->
  ForallOrdPairs (fun a b => disjoint_rows (given_rid a) (given_rid b)) givens ->
  let '(m', sol') :=
    fold_left
      (fun (st : Matrix * list N) g =>
         let '(m, solution_rids) := st in
         let '(gr, gc, gd) := g in
         let rid := row_id (N.of_nat gr) (N.of_nat gc) (Z.to_N gd) in
         (cover_all rid m, solution_rids ++ [rid]))
      givens (m, sol) in
  selection_inv m' sol' /\ sol' = sol ++ map given_rid givens.
Proof.
  revert m sol. induction givens as [|g gs IH]; intros m sol Hsel Hlt Hsol Hpair.
  - simpl. split; [exact Hsel|now rewrite app_nil_r].
  - cbn [fold_left]. destruct g as [[gr gc] gd].
    inversion Hlt as [|? ? Hlt1 Hlt2]; subst.
    inversion Hsol as [|? ? Hsol1 Hsol2]; subst.
    inversion Hpair as [|? ? Hp1 Hp2]; subst.
    set (rid := row_id (N.of_nat gr) (N.of_nat gc) (Z.to_N gd)) in *.
    assert (Hact : In rid (active_rows m))
      by (apply (sel_rows _ _ Hsel); assumption).
    specialize (IH (cover_all rid m) (sol ++ [rid]) (select_row _ _ _ Hsel Hact) Hlt2).
    destruct (fold_left _ gs (cover_all rid m, sol ++ [rid])) as [m' sol'].
    destruct IH as [H1 H2].
    + rewrite Forall_forall in *. intros g Hg s Hs. apply in_app_or in Hs.
      destruct Hs as [Hs|[<-|[]]]; [now apply Hsol2|now apply Hp1].
    + exact Hp2.
    + split; [exact H1|]. rewrite H2. cbn [map]. fold rid.
      now rewrite <- app_assoc.
Qed.

Lemma apply_givens_spec givens :
  Forall (fun g => (given_rid g < 729)%N) givens ->
  ForallOrdPairs (fun a b => disjoint_rows (given_rid a) (given_rid b)) givens ->
  selection_inv (fst (apply_givens givens initial_matrix))
                (snd (apply_givens givens initial_matrix))
  /\ snd (apply_givens givens initial_matrix) = map given_rid givens.
Proof.
  intros Hlt Hpair. unfold apply_givens.
  pose proof (apply_givens_from givens initial_matrix [] initial_selection_inv Hlt) as H.
  destruct (fold_left _ givens (initial_matrix, [])) as [m' sol'].
  apply H; [|exact Hpair].
  apply Forall_forall. intros g _ s [].
Qed.

(** ** The main loop *)

Lemma choose_col_from_In cols rfc best best_len col :
  choose_col_from cols rfc best best_len = Some col ->
  In col cols \/ best = Some col.
Proof.
  revert best best_len. induction cols as [|c cols IH]; intros best best_len H; simpl in H.
  - now right.
  - destruct (Z.of_nat (length (idx rfc c [])) <? best_len)%Z.
    + destruct (Z.of_nat (length (idx rfc c [])) <=? 1)%Z.
      * injection H as ->. left. now left.
      * apply IH in H. destruct H as [H|H]; [left; now right|].
        injection H as ->. left. now left.
    + apply IH in H. destruct H as [H|H]; [left; now right|now right].
Qed.

Lemma choose_col_In m col : choose_col m = Some col -> In col (active_cols m).
Proof.
  unfold choose_col. intros H. apply choose_col_from_In in H.
  destruct H as [H|H]; [exact H|discriminate].
Qed.

Lemma NoDup_strict_length (l l' : list N) x :
  NoDup l' -> (forall y, In y l' -> In y l /\ y <> x) -> In x l ->
  length l' < length l.
Proof.
  intros Hnd Hsub Hx.
  assert (Hnd' : NoDup (x :: l')).
  { constructor; [|exact Hnd]. intros H. apply Hsub in H. tauto. }
  assert (Hincl : incl (x :: l') l).
  { intros y [<-|Hy]; [exact Hx|]. now apply Hsub. }
  pose proof (NoDup_incl_length Hnd' Hincl) as Hlen. simpl in Hlen. lia.
Qed.

Lemma search_spec fuel :
  forall m sol stack rng,
    selection_inv m sol -> length (active_cols m) < fuel ->
    match search fuel m sol stack rng with
    | Covered sol' _ =>
        (exists m', selection_inv m' sol' /\ active_cols m' = [])
        /\ (forall s, In s sol -> In s sol')
    | Stuck _ => True
    | Exhausted => False
    end.
Proof.
  induction fuel as [|fuel IH]; intros m sol stack rng Hsel Hfuel; [lia|].
  cbn [search].
  destruct (active_cols m) as [|c0 cs] eqn:Hac.
  - split; [|auto]. exists m. auto.
  - assert (Hstuck : match (match stack with _ :: _ => Stuck rng | [] => Stuck rng end) with
                     | Covered sol' _ =>
                         (exists m', selection_inv m' sol' /\ active_cols m' = [])
                         /\ (forall s, In s sol -> In s sol')
                     | Stuck _ => True
                     | Exhausted => False
                     end) by (destruct stack; exact I).
    destruct (choose_col m) as [col|] eqn:Hcol; [|exact Hstuck].
    destruct (length (idx (rows_for_col m) col []) =? 0) eqn:Hlen; [exact Hstuck|].
    apply Nat.eqb_neq in Hlen.
    destruct (shuffle rng (idx (rows_for_col m) col [])) as [rids rng'] eqn:Hsh.
    assert (Hperm : Permutation rids (idx (rows_for_col m) col [])).
    { replace rids with (fst (shuffle rng (idx (rows_for_col m) col [])))
        by now rewrite Hsh. apply shuffle_perm. }
    assert (Hrid : In (nth 0 rids 0%N) (idx (rows_for_col m) col [])).
    { apply (Permutation_in _ Hperm). apply nth_In.
      rewrite (Permutation_length Hperm). lia. }
    set (rid := nth 0 rids 0%N) in *.
    pose proof (sel_matrix _ _ Hsel) as Hinv.
    pose proof (choose_col_In _ _ Hcol) as Hcolin.
    assert (Hact : In rid (active_rows m))
      by (apply (inv_sets_active m Hinv col); assumption).
    assert (Hhit : hits rid col) by (apply (inv_sets m Hinv col); assumption).
    pose proof (select_row _ _ _ Hsel Hact) as Hsel'.
    destruct (cover_all_spec rid m Hinv) as (Hinv' & Hc' & _).
    specialize (IH (cover_all rid m) (sol ++ [rid]) (stack ++ [(col, [rid])]) rng' Hsel').
    assert (Hshrink : length (active_cols (cover_all rid m)) < length (active_cols m)).
    { apply NoDup_strict_length with (x := col).
      - apply (inv_nodup _ Hinv').
      - intros y Hy. apply Hc' in Hy. destruct Hy as [Hy Hnh].
        split; [exact Hy|]. intros ->. tauto.
      - exact Hcolin. }
    rewrite Hac in Hshrink. specialize (IH ltac:(simpl in *; lia)).
    destruct (search fuel (cover_all rid m) (sol ++ [rid]) (stack ++ [(col, [rid])]) rng')
      as [sol' rng''| |]; auto.
    destruct IH as [H1 H2]. split; [exact H1|].
    intros s Hs. apply H2, in_or_app. now left.
Qed.

(** ** Decoding an exact cover *)

Lemma decode_fold sol : decode sol = fold_left decode_step sol zero_board.
Proof. reflexivity. Qed.

Lemma decode_from_shape sol b : shape9 b -> shape9 (fold_left decode_step sol b).
Proof.
  revert b. induction sol as [|x t IH]; intros b Hb; simpl; [exact Hb|].
  apply IH. now apply board_set_shape.
Qed.

Lemma decode_from_untouched sol b r c :
  (forall s, In s sol -> rid_cell s <> (r, c)) ->
  board_get (fold_left decode_step sol b) r c = board_get b r c.
Proof.
  revert b. induction sol as [|x t IH]; intros b H; simpl; [reflexivity|].
  rewrite IH by (intros s Hs; apply H; now right).
  unfold decode_step. apply board_get_set_other.
  intros E. apply (H x (or_introl eq_refl)). unfold rid_cell. now symmetry.
Qed.

Lemma decode_from_get sol b r c s :
  shape9 b -> r < 9 -> c < 9 ->
  In s sol -> rid_cell s = (r, c) ->
  (forall s', In s' sol -> rid_cell s' = (r, c) -> s' = s) ->
  board_get (fold_left decode_step sol b) r c = (Z.of_N (rid_d s) + 1)%Z.
Proof.
  revert b. induction sol as [|x t IH]; intros b Hb Hr Hc Hin Hcell Huniq;
    [contradiction|].
  cbn [fold_left].
  destruct (In_dec N.eq_dec s t) as [Ht|Hnt].
  - apply IH; auto.
    + now apply board_set_shape.
    + intros s' Hs'. apply Huniq. now right.
  - destruct Hin as [->|Hin]; [|contradiction].
    rewrite decode_from_untouched.
    + unfold decode_step. unfold rid_cell in Hcell. injection Hcell as -> ->.
      now apply board_get_set_same.
    + intros s' Hs' E. apply Hnt. rewrite <- (Huniq s'); auto. now right.
Qed.

Lemma cols_of_In s c :
  In c (cols_of s) <->
  (c = rid_r s * 9 + rid_d s
   \/ c = 81 + rid_c s * 9 + rid_d s
   \/ c = 162 + _box_index (rid_r s) (rid_c s) * 9 + rid_d s
   \/ c = 243 + rid_r s * 9 + rid_c s)%N.
Proof.
  unfold cols_of, _col_ids_for_candidate. cbn [In].
  rewrite !N.add_0_l. intuition congruence.
Qed.

Lemma exists_hit sol c :
  ~ (forall s, In s sol -> ~ hits s c) -> exists s, In s sol /\ hits s c.
Proof.
  intros H. induction sol as [|x t IH].
  - exfalso. apply H. intros s [].
  - destruct (hits_dec x c) as [Hx|Hx].
    + exists x. split; [now left|exact Hx].
    + destruct IH as (s & Hs & Hh).
      * intros Hall. apply H. intros s [<-|Hs]; auto.
      * exists s. split; [now right|exact Hh].
Qed.

Lemma selection_exact_cover m sol :
  selection_inv m sol -> active_cols m = [] -> exact_cover sol.
Proof.
  intros Hsel Hac. split; [apply (sel_range _ _ Hsel)|].
  split; [apply (sel_disjoint _ _ Hsel)|].
  intros c Hc. apply exists_hit. intros Hall.
  apply (sel_cols _ _ Hsel c Hc) in Hall. rewrite Hac in Hall. contradiction.
Qed.

Lemma same_cell_same_row sol a b :
  exact_cover sol -> In a sol -> In b sol -> rid_cell a = rid_cell b -> a = b.
Proof.
  intros (Hrange & Hdis & _) Ha Hb Hcell.
  destruct (N.eq_dec a b) as [E|Hne]; [exact E|exfalso].
  unfold rid_cell in Hcell. injection Hcell as Hr Hc.
  apply (Hdis a b Ha Hb Hne (243 + rid_r a * 9 + rid_c a)%N).
  - apply hits_cols_of. split; [now apply Hrange|]. apply cols_of_In. tauto.
  - apply hits_cols_of. split; [now apply Hrange|]. apply cols_of_In.
    right. right. right.
    assert (rid_r a = rid_r b) by lia. assert (rid_c a = rid_c b) by lia.
    congruence.
Qed.

Lemma cover_cell sol r c :
  exact_cover sol -> r < 9 -> c < 9 ->
  exists s, In s sol /\ rid_cell s = (r, c).
Proof.
  intros (Hrange & _ & Hcov) Hr Hc.
  destruct (Hcov (243 + N.of_nat r * 9 + N.of_nat c)%N) as (s & Hs & Hh); [lia|].
  exists s. split; [exact Hs|].
  apply hits_cols_of in Hh. destruct Hh as [Hlt Hin].
  destruct (row_layout s Hlt) as (_ & Hr' & Hc' & Hd' & Hb' & _).
  apply cols_of_In in Hin. unfold rid_cell.
  destruct Hin as [H|[H|[H|H]]]; try lia.
  f_equal; lia.
Qed.

Lemma decode_selected sol s :
  exact_cover sol -> In s sol ->
  board_get (decode sol) (N.to_nat (rid_r s)) (N.to_nat (rid_c s))
  = (Z.of_N (rid_d s) + 1)%Z.
Proof.
  intros Hex Hs. rewrite decode_fold.
  destruct (row_layout s (proj1 Hex s Hs)) as (_ & Hr & Hc & _).
  apply decode_from_get; auto; try lia.
  - apply zero_board_shape.
  - intros s' Hs' E. now apply (same_cell_same_row sol).
Qed.

Lemma box_index_nat r c :
  _box_index (N.of_nat r) (N.of_nat c) = N.of_nat ((r / 3) * 3 + c / 3).
Proof.
  unfold _box_index.
  rewrite Nat2N.inj_add, Nat2N.inj_mul, !Nat2N.inj_div. reflexivity.
Qed.

Lemma exact_cover_consistent sol : exact_cover sol -> consistent (decode sol).
Proof.
  intros Hex. split.
  - intros r c Hr Hc. destruct (cover_cell sol r c Hex Hr Hc) as (s & Hs & Hcell).
    pose proof (decode_selected sol s Hex Hs) as Hget.
    unfold rid_cell in Hcell. injection Hcell as E1 E2. rewrite E1, E2 in Hget.
    rewrite Hget.
    destruct (row_layout s (proj1 Hex s Hs)) as (_ & _ & _ & Hd & _). lia.
  - intros r1 c1 r2 c2 Hr1 Hc1 Hr2 Hc2 Hne Hpeers Heq.
    destruct (cover_cell sol r1 c1 Hex Hr1 Hc1) as (s1 & Hs1 & Hcell1).
    destruct (cover_cell sol r2 c2 Hex Hr2 Hc2) as (s2 & Hs2 & Hcell2).
    pose proof (decode_selected sol s1 Hex Hs1) as Hg1.
    pose proof (decode_selected sol s2 Hex Hs2) as Hg2.
    unfold rid_cell in Hcell1, Hcell2.
    injection Hcell1 as E1 E2. injection Hcell2 as E3 E4.
    rewrite E1, E2 in Hg1. rewrite E3, E4 in Hg2.
    assert (Hd : rid_d s1 = rid_d s2) by lia.
    assert (Hs12 : s1 <> s2) by (intros ->; apply Hne; congruence).
    destruct Hex as (Hrange & Hdis & _).
    pose proof (Hdis s1 s2 Hs1 Hs2 Hs12) as Hdisj.
    assert (Hshare : forall col, In col (cols_of s1) -> In col (cols_of s2) -> False).
    { intros col H1 H2. apply (Hdisj col); apply hits_cols_of; auto. }
    assert (Ern1 : rid_r s1 = N.of_nat r1) by lia.
    assert (Ecn1 : rid_c s1 = N.of_nat c1) by lia.
    assert (Ern2 : rid_r s2 = N.of_nat r2) by lia.
    assert (Ecn2 : rid_c s2 = N.of_nat c2) by lia.
    unfold peers in Hpeers.
    apply orb_true_iff in Hpeers. destruct Hpeers as [Hpeers|Hbox].
    + apply orb_true_iff in Hpeers. destruct Hpeers as [Hrow|Hcol].
      * apply Nat.eqb_eq in Hrow.
        apply (Hshare (rid_r s1 * 9 + rid_d s1)%N); apply cols_of_In; [tauto|].
        left. rewrite Ern1, Ern2, Hd, Hrow. reflexivity.
      * apply Nat.eqb_eq in Hcol.
        apply (Hshare (81 + rid_c s1 * 9 + rid_d s1)%N); apply cols_of_In; [tauto|].
        right. left. rewrite Ecn1, Ecn2, Hd, Hcol. reflexivity.
    + apply andb_true_iff in Hbox. destruct Hbox as [Hb1 Hb2].
      apply Nat.eqb_eq in Hb1, Hb2.
      apply (Hshare (162 + _box_index (rid_r s1) (rid_c s1) * 9 + rid_d s1)%N);
        apply cols_of_In; [tauto|].
      right. right. left. rewrite Ern1, Ecn1, Ern2, Ecn2, Hd, !box_index_nat.
      rewrite Hb1, Hb2. reflexivity.
Qed.
(* ================================================================== *)
(** * The fallback backtracker [_solve_from_scratch] *)
(* ================================================================== *)

Import geometry model random solver dlx9 generator.

Lemma zmem_In x s : zmem x s = true <-> In x s.
Proof.
  unfold zmem. rewrite existsb_exists. split.
  - intros (y & Hy & E). apply Z.eqb_eq in E. now subst.
  - intros H. exists x. split; [exact H|apply Z.eqb_refl].
Qed.

Lemma zmem_false x s : zmem x s = false <-> ~ In x s.
Proof.
  rewrite <- zmem_In. destruct (zmem x s); split; intros; congruence.
Qed.

Lemma zadd_In x v s : In x (zadd v s) <-> x = v \/ In x s.
Proof.
  unfold zadd. destruct (zmem v s) eqn:E.
  - apply zmem_In in E. split; [auto|]. intros [->|H]; auto.
  - rewrite in_app_iff. cbn [In]. intuition congruence.
Qed.

Lemma zremove_zadd v s : ~ In v s -> zremove v (zadd v s) = s.
Proof.
  intros H. unfold zadd. rewrite (proj2 (zmem_false v s) H).
  unfold zremove. rewrite filter_app. cbn [filter].
  rewrite Z.eqb_refl. cbn [negb]. rewrite app_nil_r.
  apply forallb_filter_id. apply forallb_forall. intros y Hy.
  apply negb_true_iff, Z.eqb_neq. intros ->. contradiction.
Qed.

Lemma peers_sym r1 c1 r2 c2 : peers r1 c1 r2 c2 = peers r2 c2 r1 c1.
Proof.
  unfold peers.
  now rewrite (Nat.eqb_sym r1 r2), (Nat.eqb_sym c1 c2),
    (Nat.eqb_sym (r1 / 3)), (Nat.eqb_sym (c1 / 3)).
Qed.

Lemma box_of_bound r c : r < 9 -> c < 9 -> box_of r c < 9.
Proof.
  intros Hr Hc. unfold box_of.
  pose proof (Nat.Div0.div_lt_upper_bound r 3 3 ltac:(lia)).
  pose proof (Nat.Div0.div_lt_upper_bound c 3 3 ltac:(lia)). lia.
Qed.

Lemma box_of_peers r1 c1 r2 c2 :
  r1 < 9 -> c1 < 9 -> r2 < 9 -> c2 < 9 ->
  (box_of r1 c1 = box_of r2 c2 <-> (r1 / 3 = r2 / 3 /\ c1 / 3 = c2 / 3)).
Proof.
  intros Hr1 Hc1 Hr2 Hc2. unfold box_of.
  pose proof (Nat.Div0.div_lt_upper_bound c1 3 3 ltac:(lia)).
  pose proof (Nat.Div0.div_lt_upper_bound c2 3 3 ltac:(lia)). lia.
Qed.

(** ** Placing a value *)

Lemma tracks_place sets key b r c v :
  tracks sets key b -> shape9 b -> r < 9 -> c < 9 -> key r c < 9 ->
  board_get b r c = 0%Z -> v <> 0%Z ->
  tracks (list_set sets (key r c) (zadd v (nth (key r c) sets [])))
         key (board_set b r c v).
Proof.
  intros [Hlen Hsets] Hshape Hr Hc Hk Hzero Hv.
  split; [now rewrite list_set_length|].
  intros k v' Hk'.
  destruct (Nat.eq_dec k (key r c)) as [->|Hne].
  - rewrite nth_list_set_same by lia. rewrite zadd_In, (Hsets _ v' Hk). split.
    + intros [->|[Hv' (r' & c' & Hr' & Hc' & Hkey & Hget)]].
      * split; [exact Hv|]. exists r, c. repeat split; auto.
        now apply board_get_set_same.
      * split; [exact Hv'|]. exists r', c'. repeat split; auto.
        rewrite board_get_set_other; [exact Hget|].
        intros E. injection E as -> ->. congruence.
    + intros [Hv' (r' & c' & Hr' & Hc' & Hkey & Hget)].
      destruct (cell_eqb (r', c') (r, c)) eqn:E.
      * apply cell_eqb_eq in E. injection E as -> ->.
        rewrite board_get_set_same in Hget by assumption. now left.
      * right. split; [exact Hv'|]. exists r', c'. repeat split; auto.
        rewrite board_get_set_other in Hget; [exact Hget|].
        intros E'. apply cell_eqb_eq in E'. congruence.
  - rewrite nth_list_set_other by exact Hne. rewrite (Hsets _ v' Hk').
    split; intros [Hv' (r' & c' & Hr' & Hc' & Hkey & Hget)];
      (split; [exact Hv'|]); exists r', c'; repeat split; auto.
    + rewrite board_get_set_other; [exact Hget|].
      intros E. injection E as -> ->. congruence.
    + rewrite board_get_set_other in Hget; [exact Hget|].
      intros E. injection E as -> ->. congruence.
Qed.

Lemma place_inv f r c v :
  fill_inv f -> r < 9 -> c < 9 -> board_get (board f) r c = 0%Z ->
  (1 <= v <= 9)%Z ->
  ~ In v (nth r (rows f) []) -> ~ In v (nth c (cols f) []) ->
  ~ In v (nth (box_of r c) (boxs f) []) ->
  fill_inv (place f r c (box_of r c) v).
Proof.
  intros Hinv Hr Hc Hzero Hv Hrow Hcol Hbox.
  destruct Hinv as [Hshape [Hrange Hdiff] Hrows Hcols Hboxs].
  constructor; cbn [place board rows cols boxs].
  - now apply board_set_shape.
  - split.
    + intros r' c' Hr' Hc'.
      destruct (cell_eqb (r', c') (r, c)) eqn:E.
      * apply cell_eqb_eq in E. injection E as -> ->.
        rewrite board_get_set_same by assumption. lia.
      * rewrite board_get_set_other; [now apply Hrange|].
        intros E'. apply cell_eqb_eq in E'. congruence.
    + assert (Hnew : forall r2 c2, r2 < 9 -> c2 < 9 -> (r2, c2) <> (r, c) ->
                       peers r c r2 c2 = true -> board_get (board f) r2 c2 <> v).
      { intros r2 c2 Hr2 Hc2 Hne Hp Hget. unfold peers in Hp.
        apply orb_true_iff in Hp. destruct Hp as [Hp|Hp];
          [apply orb_true_iff in Hp; destruct Hp as [Hp|Hp]|].
        - apply Nat.eqb_eq in Hp. subst r2. apply Hrow.
          apply (proj2 Hrows); [exact Hr|]. split; [lia|].
          exists r, c2. auto.
        - apply Nat.eqb_eq in Hp. subst c2. apply Hcol.
          apply (proj2 Hcols); [exact Hc|]. split; [lia|].
          exists r2, c. auto.
        - apply andb_true_iff in Hp. rewrite !Nat.eqb_eq in Hp.
          apply Hbox. apply (proj2 Hboxs); [now apply box_of_bound|].
          split; [lia|]. exists r2, c2. repeat split; auto.
          symmetry. now apply box_of_peers. }
      intros r1 c1 r2 c2 Hr1 Hc1 Hr2 Hc2 Hne Hp Hnz.
      destruct (cell_eqb (r1, c1) (r, c)) eqn:E1.
      * apply cell_eqb_eq in E1. injection E1 as -> ->.
        rewrite board_get_set_same by assumption.
        rewrite board_get_set_other by congruence.
        intros E. symmetry in E. revert E. apply Hnew; auto.
      * assert (Hne1 : (r1, c1) <> (r, c))
          by (intros E'; apply cell_eqb_eq in E'; congruence).
        rewrite board_get_set_other in Hnz |- * by exact Hne1.
        destruct (cell_eqb (r2, c2) (r, c)) eqn:E2.
        -- apply cell_eqb_eq in E2. injection E2 as -> ->.
           rewrite board_get_set_same by assumption.
           apply Hnew; auto. now rewrite peers_sym.
        -- rewrite board_get_set_other;
             [|intros E'; apply cell_eqb_eq in E'; congruence].
           now apply Hdiff.
  - apply (tracks_place (rows f) (fun r _ => r)); auto. lia.
  - apply (tracks_place (cols f) (fun _ c => c)); auto. lia.
  - apply (tracks_place (boxs f) box_of); auto. now apply box_of_bound. lia.
Qed.

Lemma unplace_place f r c k v rng' :
  fill_inv f -> r < 9 -> c < 9 -> k < 9 -> board_get (board f) r c = 0%Z ->
  ~ In v (nth r (rows f) []) -> ~ In v (nth c (cols f) []) ->
  ~ In v (nth k (boxs f) []) ->
  unplace (with_rng (place f r c k v) rng') r c k v = with_rng f rng'.
Proof.
  intros Hinv Hr Hc Hk Hzero Hrow Hcol Hbox.
  destruct Hinv as [Hshape _ [Hlr _] [Hlc _] [Hlb _]].
  unfold unplace, with_rng, place. cbn [rows cols boxs board rng].
  assert (Hset : forall (sets : list (list Z)) i,
             i < length sets -> ~ In v (nth i sets []) ->
             list_set (list_set sets i (zadd v (nth i sets []))) i
               (zremove v (nth i (list_set sets i (zadd v (nth i sets []))) []))
             = sets).
  { intros sets i Hi Hnin. rewrite nth_list_set_same by exact Hi.
    rewrite zremove_zadd by exact Hnin. rewrite list_set_twice.
    now apply list_set_nth_id with (d := []). }
  rewrite !Hset by (auto; lia).
  now rewrite board_set_restore.
Qed.

(** ** The search *)

Lemma fill_inv_with_rng f rng' : fill_inv f -> fill_inv (with_rng f rng').
Proof. intros [H1 H2 H3 H4 H5]. constructor; assumption. Qed.

Lemma extends_refl b : extends b b.
Proof. intros r c _ _ _. reflexivity. Qed.

Lemma extends_board_set b b' r c v :
  board_get b r c = 0%Z -> extends (board_set b r c v) b' -> extends b b'.
Proof.
  intros Hzero H r' c' Hr' Hc' Hnz.
  assert (Hne : (r', c') <> (r, c)) by (intros E; injection E as -> ->; congruence).
  rewrite <- (board_get_set_other b r c v r' c' Hne). apply H; auto.
  now rewrite board_get_set_other.
Qed.

Lemma try_values_spec (rec : Fill -> bool * Fill) r c f :
  fill_inv f -> r < 9 -> c < 9 -> board_get (board f) r c = 0%Z ->
  (forall v rng1, fits f r c v ->
     fill_outcome (with_rng (place f r c (box_of r c) v) rng1)
                  (eq (board_set (board f) r c v))
                  (rec (place (with_rng f rng1) r c (box_of r c) v))) ->
  forall cand rng1,
    (forall v, In v cand -> fits f r c v) ->
    fill_outcome (with_rng f rng1)
                 (fun b => exists v, In v cand /\ b = board_set (board f) r c v)
                 (try_values rec r c (box_of r c) cand (with_rng f rng1)).
Proof.
  intros Hinv Hr Hc Hzero Hrec cand.
  induction cand as [|v cand IH]; intros rng1 Hfits.
  - simpl. split; [now exists rng1|]. intros b b' (v & [] & _).
  - cbn [try_values].
    assert (Hv : fits f r c v) by (apply Hfits; now left).
    specialize (Hrec v rng1 Hv).
    destruct (rec (place (with_rng f rng1) r c (box_of r c) v)) as [ok f1].
    unfold fill_outcome in Hrec. destruct ok.
    + destruct Hrec as (Hs & Hcons & Hext). cbn [fill_outcome].
      split; [exact Hs|]. split; [exact Hcons|].
      cbn [with_rng board] in *. apply (extends_board_set _ _ r c v); assumption.
    + destruct Hrec as ((rng2 & ->) & Hnone).
      destruct Hv as (Hv1 & Hv2 & Hv3 & Hv4).
      replace (with_rng (with_rng (place f r c (box_of r c) v) rng1) rng2)
        with (with_rng (place f r c (box_of r c) v) rng2) by reflexivity.
      rewrite unplace_place; auto; [|now apply box_of_bound].
      specialize (IH rng2 (fun v' Hv' => Hfits v' (or_intror Hv'))).
      destruct (try_values rec r c (box_of r c) cand (with_rng f rng2)) as [ok f2].
      unfold fill_outcome in *. destruct ok; [exact IH|].
      destruct IH as [Hsame Hnone']. split; [exact Hsame|].
      intros b b' (v' & [<-|Hin] & ->) Hcons Hext.
      * apply (Hnone _ b' eq_refl Hcons Hext).
      * apply (Hnone' _ b' (ex_intro _ v' (conj Hin eq_refl)) Hcons Hext).
Qed.

Lemma partial_full_consistent b :
  partial_consistent b ->
  (forall r c, r < 9 -> c < 9 -> board_get b r c <> 0%Z) ->
  consistent b.
Proof.
  intros [Hrange Hdiff] Hfull. split.
  - intros r c Hr Hc. specialize (Hrange r c Hr Hc). specialize (Hfull r c Hr Hc). lia.
  - intros r1 c1 r2 c2 Hr1 Hc1 Hr2 Hc2 Hne Hp. apply Hdiff; auto.
Qed.

Lemma solution_value_fits f r c b' :
  fill_inv f -> r < 9 -> c < 9 -> board_get (board f) r c = 0%Z ->
  consistent b' -> extends (board f) b' ->
  fits f r c (board_get b' r c).
Proof.
  intros Hinv Hr Hc Hzero [Hdig Hdiff] Hext.
  destruct Hinv as [_ _ Hrows Hcols Hboxs].
  assert (Hclash : forall r2 c2, r2 < 9 -> c2 < 9 -> peers r c r2 c2 = true ->
                     board_get (board f) r2 c2 = board_get b' r c ->
                     board_get b' r c <> 0%Z -> False).
  { intros r2 c2 Hr2 Hc2 Hp E Hnz.
    assert (Hne : (r, c) <> (r2, c2)) by (intros E'; injection E' as <- <-; congruence).
    apply (Hdiff r c r2 c2); auto.
    rewrite (Hext r2 c2) by (auto; congruence). now symmetry. }
  split; [now apply Hdig|]. unfold peers in Hclash. repeat split.
  - intros Hin. apply (proj2 Hrows) in Hin; [|exact Hr].
    destruct Hin as (Hnz & r2 & c2 & Hr2 & Hc2 & <- & E).
    apply (Hclash r2 c2); auto. now rewrite Nat.eqb_refl.
  - intros Hin. apply (proj2 Hcols) in Hin; [|exact Hc].
    destruct Hin as (Hnz & r2 & c2 & Hr2 & Hc2 & <- & E).
    apply (Hclash r2 c2); auto. rewrite Nat.eqb_refl. now rewrite orb_true_r.
  - intros Hin. apply (proj2 Hboxs) in Hin; [|now apply box_of_bound].
    destruct Hin as (Hnz & r2 & c2 & Hr2 & Hc2 & Hk & E).
    apply (Hclash r2 c2); auto.
    apply box_of_peers in Hk; auto. destruct Hk as [-> ->].
    rewrite !Nat.eqb_refl. now rewrite orb_true_r.
Qed.

Lemma backtrack_fill_spec cells :
  forall f, fill_inv f -> cells_todo cells (board f) ->
    fill_outcome f (eq (board f)) (dlx9.backtrack cells f).
Proof.
  induction cells as [|[r c] rest IH]; intros f Hinv (Hnd & Hrange & Hiff).
  - cbn [dlx9.backtrack fill_outcome].
    split; [apply (fi_shape f Hinv)|]. split; [|apply extends_refl].
    apply partial_full_consistent; [apply (fi_partial f Hinv)|].
    intros r c Hr Hc E. apply (Hiff r c Hr Hc) in E. contradiction.
  - cbn [dlx9.backtrack].
    destruct (Hrange r c (or_introl eq_refl)) as [Hr Hc].
    assert (Hzero : board_get (board f) r c = 0%Z)
      by (apply (Hiff r c Hr Hc); now left).
    destruct (sample (rng f) (map Z.of_nat (seq 1 9)) 9) as [smp rng'] eqn:Hsmp.
    assert (Hperm : Permutation smp digits).
    { replace smp with (fst (sample (rng f) digits (length digits)))
        by (unfold digits at 1 2; simpl length; now rewrite Hsmp).
      apply sample_perm. }
    set (cand := filter _ smp).
    change (mkFill (rows f) (cols f) (boxs f) (board f) rng') with (with_rng f rng').
    change (r / 3 * 3 + c / 3) with (box_of r c).
    assert (Hcand : forall v, In v cand <-> fits f r c v).
    { intros v. subst cand. rewrite filter_In, !andb_true_iff, !negb_true_iff,
        !zmem_false. unfold fits.
      change (r / 3 * 3 + c / 3) with (box_of r c).
      split.
      - intros (Hin & (H1 & H2) & H3). split; [|tauto].
        apply digits_In. now apply (Permutation_in _ Hperm).
      - intros (H0 & H1 & H2 & H3). split; [|tauto].
        apply (Permutation_in _ (Permutation_sym Hperm)). now apply digits_In. }
    inversion Hnd as [|? ? Hnotin Hnd']; subst.
    pose proof (try_values_spec (dlx9.backtrack rest) r c f Hinv Hr Hc Hzero) as Hloop.
    assert (Hrec : forall v rng1, fits f r c v ->
              fill_outcome (with_rng (place f r c (box_of r c) v) rng1)
                (eq (board_set (board f) r c v))
                (dlx9.backtrack rest (place (with_rng f rng1) r c (box_of r c) v))).
    { intros v rng1 (Hv1 & Hv2 & Hv3 & Hv4).
      change (place (with_rng f rng1) r c (box_of r c) v)
        with (with_rng (place f r c (box_of r c) v) rng1).
      apply (IH (with_rng (place f r c (box_of r c) v) rng1)).
      - apply fill_inv_with_rng. now apply place_inv.
      - cbn [with_rng place board]. split; [exact Hnd'|]. split.
        + intros r' c' Hin. apply Hrange. now right.
        + intros r' c' Hr' Hc'.
          destruct (cell_eqb (r', c') (r, c)) eqn:E.
          * apply cell_eqb_eq in E. injection E as -> ->.
            rewrite board_get_set_same by (auto; apply (fi_shape f Hinv)).
            split; [intros; contradiction|lia].
          * assert (Hne : (r', c') <> (r, c))
              by (intros E'; apply cell_eqb_eq in E'; congruence).
            rewrite board_get_set_other by exact Hne.
            rewrite <- (Hiff r' c' Hr' Hc'). cbn [In].
            split; [auto|]. intros [E'|H]; [congruence|exact H]. }
    specialize (Hloop Hrec cand rng' (fun v Hv => proj1 (Hcand v) Hv)).
    destruct (try_values (dlx9.backtrack rest) r c (box_of r c) cand (with_rng f rng'))
      as [ok f'].
    unfold fill_outcome in *. destruct ok; [exact Hloop|].
    destruct Hloop as [(rng2 & ->) Hnone].
    split; [now exists rng2|].
    intros b b' <- Hcons Hext.
    apply (Hnone (board_set (board f) r c (board_get b' r c)) b'); auto.
    + exists (board_get b' r c). split; [|reflexivity].
      apply Hcand. now apply solution_value_fits.
    + intros r' c' Hr' Hc' Hnz.
      destruct (cell_eqb (r', c') (r, c)) eqn:E.
      * apply cell_eqb_eq in E. injection E as -> ->.
        now rewrite board_get_set_same by (auto; apply (fi_shape f Hinv)).
      * assert (Hne : (r', c') <> (r, c))
          by (intros E'; apply cell_eqb_eq in E'; congruence).
        rewrite board_get_set_other in Hnz |- * by exact Hne.
        now apply Hext.
Qed.
(* ================================================================== *)
(** * Givens in one box can always be completed *)
(* ================================================================== *)

Import geometry model random solver dlx9 generator.

Lemma all_cells9_In r c : In (r, c) all_cells9 <-> r < 9 /\ c < 9.
Proof.
  unfold all_cells9. rewrite in_flat_map. split.
  - intros (r' & Hr & H). apply in_map_iff in H. destruct H as (c' & E & Hc).
    injection E as <- <-. apply in_seq in Hr, Hc. lia.
  - intros [Hr Hc]. exists r. split; [apply in_seq; lia|].
    apply in_map_iff. exists c. split; [reflexivity|apply in_seq; lia].
Qed.

Lemma consistentb_consistent b : consistentb b = true -> consistent b.
Proof.
  unfold consistentb. rewrite forallb_forall. intros H. split.
  - intros r c Hr Hc.
    specialize (H (r, c) (proj2 (all_cells9_In r c) (conj Hr Hc))).
    cbn [fst snd] in H. rewrite !andb_true_iff in H. lia.
  - intros r1 c1 r2 c2 Hr1 Hc1 Hr2 Hc2 Hne Hp E.
    specialize (H (r1, c1) (proj2 (all_cells9_In r1 c1) (conj Hr1 Hc1))).
    cbn [fst snd] in H. rewrite !andb_true_iff in H. destruct H as [_ H].
    rewrite forallb_forall in H.
    specialize (H (r2, c2) (proj2 (all_cells9_In r2 c2) (conj Hr2 Hc2))).
    cbn [fst snd] in H. rewrite Hp, E, Z.eqb_refl in H. cbn in H.
    rewrite !orb_false_r in H. apply cell_eqb_eq in H. contradiction.
Qed.

Lemma base_board_consistent : consistent base_board.
Proof. apply consistentb_consistent. vm_compute. reflexivity. Qed.

Lemma base_board_shape : shape9 base_board.
Proof. split; [reflexivity|]. repeat constructor. Qed.

(** ** Relabelling *)

Lemma swap_digits_left x y : swap_digits x y x = y.
Proof. unfold swap_digits. now rewrite Z.eqb_refl. Qed.

Lemma swap_digits_other x y v : v <> x -> v <> y -> swap_digits x y v = v.
Proof.
  intros Hx Hy. unfold swap_digits.
  now rewrite (proj2 (Z.eqb_neq v x) Hx), (proj2 (Z.eqb_neq v y) Hy).
Qed.

Lemma swap_digits_inj x y u v : swap_digits x y u = swap_digits x y v -> u = v.
Proof.
  unfold swap_digits.
  destruct (Z.eqb_spec u x), (Z.eqb_spec u y), (Z.eqb_spec v x), (Z.eqb_spec v y);
    intros; subst; congruence.
Qed.

Lemma swap_digits_range x y v :
  (1 <= x <= 9)%Z -> (1 <= y <= 9)%Z -> (1 <= v <= 9)%Z ->
  (1 <= swap_digits x y v <= 9)%Z.
Proof.
  intros. unfold swap_digits.
  destruct (v =? x)%Z; [assumption|]. destruct (v =? y)%Z; assumption.
Qed.

Lemma same_box_peers a b : same_box a b = true -> peers (fst a) (snd a) (fst b) (snd b) = true.
Proof.
  unfold same_box, peers. intros ->. apply orb_true_r.
Qed.

Lemma in_domain_spec r c d :
  in_domain (r, c, d) = true <-> r < 9 /\ c < 9 /\ (0 <= d < 9)%Z.
Proof.
  unfold in_domain. rewrite !andb_true_iff, !Nat.ltb_lt, Z.leb_le, Z.ltb_lt. tauto.
Qed.

Lemma valid_givens_ok gs : valid_givens gs = true -> givens_ok gs.
Proof.
  unfold valid_givens. rewrite !andb_true_iff. intros [[[H1 H2] H3] H4].
  constructor.
  - intros r c d Hin. rewrite forallb_forall in H1. apply in_domain_spec. now apply H1.
  - apply (nodupb_NoDup cell_eqb); [apply cell_eqb_eq|exact H2].
  - apply (nodupb_NoDup Z.eqb); [apply Z.eqb_eq|exact H3].
  - intros a b Ha Hb. rewrite forallb_forall in H4. specialize (H4 a Ha).
    rewrite forallb_forall in H4. now apply H4.
Qed.

Lemma relabeling_spec gs :
  forall done pi,
    digit_bijection pi ->
    (forall r c d, In (r, c, d) done -> pi (board_get base_board r c) = (d + 1)%Z) ->
    givens_ok (done ++ gs) ->
    digit_bijection (relabeling gs pi)
    /\ forall r c d, In (r, c, d) (done ++ gs) ->
         relabeling gs pi (board_get base_board r c) = (d + 1)%Z.
Proof.
  induction gs as [|[[r c] d] gs IH]; intros done pi Hpi Hdone Hok.
  - simpl. rewrite app_nil_r. auto.
  - cbn [relabeling].
    destruct Hpi as [Hrange Hinj].
    destruct base_board_consistent as [Hbdig Hbdiff].
    assert (Hg : r < 9 /\ c < 9 /\ (0 <= d < 9)%Z).
    { apply (go_domain _ Hok). apply in_or_app. right. now left. }
    destruct Hg as (Hr & Hc & Hd).
    set (x := pi (board_get base_board r c)).
    assert (Hx : (1 <= x <= 9)%Z) by (apply Hrange; now apply Hbdig).
    set (pi' := fun v => swap_digits x (d + 1) (pi v)).
    replace (done ++ (r, c, d) :: gs) with ((done ++ [(r, c, d)]) ++ gs) in *
      by (now rewrite <- app_assoc).
    apply (IH (done ++ [(r, c, d)]) pi').
    + split.
      * intros v Hv. unfold pi'. apply swap_digits_range; auto. lia.
      * intros u v Hu Hv E. unfold pi' in E. apply swap_digits_inj in E. auto.
    + intros r' c' d' Hin. apply in_app_or in Hin.
      destruct Hin as [Hin|[E|[]]].
      * unfold pi'. rewrite (Hdone r' c' d' Hin).
        assert (Hg' : r' < 9 /\ c' < 9 /\ (0 <= d' < 9)%Z).
        { apply (go_domain _ Hok). apply in_or_app. left. apply in_or_app. now left. }
        destruct Hg' as (Hr' & Hc' & Hd').
        pose proof (go_cells _ Hok) as Hnc. pose proof (go_digits _ Hok) as Hnd.
        rewrite <- app_assoc in Hnc, Hnd. cbn [app] in Hnc, Hnd.
        rewrite map_app in Hnc, Hnd. cbn [map] in Hnc, Hnd.
        apply NoDup_remove_2 in Hnc, Hnd.
        assert (Hcell : (r', c') <> (r, c)).
        { intros E. apply Hnc. apply in_or_app. left.
          apply in_map_iff. exists (r', c', d'). split; [|exact Hin].
          unfold given_cell. simpl. now symmetry. }
        assert (Hdig : d' <> d).
        { intros E. apply Hnd. apply in_or_app. left.
          apply in_map_iff. exists (r', c', d'). split; [|exact Hin].
          unfold given_digit. simpl. exact E. }
        apply swap_digits_other; [|lia].
        rewrite <- (Hdone r' c' d' Hin). unfold x. intros E.
        apply Hinj in E; [|now apply Hbdig|now apply Hbdig].
        revert E. apply Hbdiff; auto.
        apply (same_box_peers (r', c') (r, c)).
        apply (go_box _ Hok (r', c', d') (r, c, d)).
        -- apply in_or_app. left. apply in_or_app. now left.
        -- apply in_or_app. left. apply in_or_app. right. now left.
      * injection E as <- <- <-. unfold pi'. fold x. apply swap_digits_left.
    + exact Hok.
Qed.

Lemma relabel_get pi b r c :
  shape9 b -> r < 9 -> c < 9 ->
  board_get (relabel pi b) r c = pi (board_get b r c).
Proof.
  intros [Hl Hrows] Hr Hc. unfold board_get, relabel.
  change (@nil Z) with (map pi []) at 1. rewrite map_nth.
  assert (Hlen : length (nth r b []) = 9).
  { rewrite Forall_forall in Hrows. apply Hrows, nth_In. lia. }
  rewrite (nth_indep _ 0%Z (pi 0%Z)) by (rewrite length_map; lia).
  apply map_nth.
Qed.

Lemma relabel_shape pi b : shape9 b -> shape9 (relabel pi b).
Proof.
  intros [Hl Hrows]. split; [unfold relabel; now rewrite length_map|].
  unfold relabel. rewrite Forall_forall in *. intros row Hin.
  apply in_map_iff in Hin. destruct Hin as (row' & <- & Hin').
  rewrite length_map. now apply Hrows.
Qed.

Lemma relabel_consistent pi b :
  digit_bijection pi -> shape9 b -> consistent b -> consistent (relabel pi b).
Proof.
  intros [Hrange Hinj] Hshape [Hdig Hdiff]. split.
  - intros r c Hr Hc. rewrite relabel_get by assumption. apply Hrange. now apply Hdig.
  - intros r1 c1 r2 c2 Hr1 Hc1 Hr2 Hc2 Hne Hp.
    rewrite !relabel_get by assumption. intros E.
    apply Hinj in E; [|now apply Hdig|now apply Hdig].
    revert E. now apply Hdiff.
Qed.

(** Valid givens have a solution. *)
Lemma givens_completable gs :
  givens_ok gs ->
  exists b, shape9 b /\ consistent b /\ honors gs b.
Proof.
  intros Hok.
  destruct (relabeling_spec gs [] (fun v => v)) as [Hbij Hfix].
  - split; auto.
  - intros r c d [].
  - exact Hok.
  - exists (relabel (relabeling gs (fun v => v)) base_board).
    split; [apply relabel_shape, base_board_shape|].
    split; [apply relabel_consistent; auto using base_board_shape, base_board_consistent|].
    intros r c d Hin. destruct (go_domain _ Hok r c d Hin) as (Hr & Hc & _).
    rewrite relabel_get by (auto using base_board_shape).
    now apply Hfix.
Qed.

(** ** Loading the givens *)

Lemma zero_board_get r c : board_get zero_board r c = 0%Z.
Proof. exact (get2_repeat 0%Z 9 9 r c). Qed.

Lemma empty_fill_inv rng : fill_inv (empty_fill rng).
Proof.
  assert (Hempty : forall key, tracks (repeat [] 9) key zero_board).
  { intros key. split; [reflexivity|]. intros k v Hk. split.
    - intros Hin. exfalso.
      rewrite nth_repeat in Hin. contradiction.
    - intros [Hv (r & c & _ & _ & _ & E)]. rewrite zero_board_get in E. congruence. }
  constructor; cbn [empty_fill board rows cols boxs]; auto.
  - apply zero_board_shape.
  - split.
    + intros r c _ _. rewrite zero_board_get. lia.
    + intros r1 c1 r2 c2 _ _ _ _ _ _ H. rewrite zero_board_get in H. congruence.
Qed.

Lemma load_from_spec gs :
  forall f,
    fill_inv f ->
    (forall r c d, In (r, c, d) gs -> r < 9 /\ c < 9 /\ (0 <= d < 9)%Z) ->
    NoDup (map given_cell gs) -> NoDup (map given_digit gs) ->
    (forall r c d, In (r, c, d) gs -> board_get (board f) r c = 0%Z) ->
    (forall r c d, In (r, c, d) gs ->
       forall r' c', r' < 9 -> c' < 9 -> board_get (board f) r' c' <> (d + 1)%Z) ->
    fill_inv (load_from gs f)
    /\ (forall r c d, In (r, c, d) gs -> board_get (board (load_from gs f)) r c = (d + 1)%Z)
    /\ (forall r c, ~ In (r, c) (map given_cell gs) ->
          board_get (board (load_from gs f)) r c = board_get (board f) r c)
    /\ rng (load_from gs f) = rng f.
Proof.
  induction gs as [|[[r c] d] gs IH]; intros f Hinv Hdom Hnc Hnd Hzero Hfresh.
  - simpl. split; [exact Hinv|]. split; [intros r c d []|]. split; reflexivity.
  - change (load_from (((r, c), d) :: gs) f)
      with (load_from gs (place f r c (box_of r c) (d + 1)%Z)).
    destruct (Hdom r c d (or_introl eq_refl)) as (Hr & Hc & Hd).
    cbn [map] in Hnc, Hnd. inversion Hnc as [|? ? Hc1 Hc2]; subst.
    inversion Hnd as [|? ? Hd1 Hd2]; subst.
    assert (Hnone : forall key k, tracks k key (board f) -> key r c < 9 ->
                      ~ In (d + 1)%Z (nth (key r c) k [])).
    { intros key k [_ Hk] Hlt Hin. apply Hk in Hin; [|exact Hlt].
      destruct Hin as (_ & r' & c' & Hr' & Hc' & _ & E).
      apply (Hfresh r c d (or_introl eq_refl) r' c' Hr' Hc' E). }
    assert (Hplace : fill_inv (place f r c (box_of r c) (d + 1)%Z)).
    { apply place_inv; auto.
      - apply (Hzero r c d). now left.
      - lia.
      - apply (Hnone (fun r _ => r)); [apply (fi_rows f Hinv)|exact Hr].
      - apply (Hnone (fun _ c => c)); [apply (fi_cols f Hinv)|exact Hc].
      - apply (Hnone box_of); [apply (fi_boxs f Hinv)|now apply box_of_bound]. }
    destruct (IH (place f r c (box_of r c) (d + 1)%Z) Hplace) as (H1 & H2 & H3 & H4).
    + intros r' c' d' Hin. apply (Hdom r' c' d'). now right.
    + exact Hc2.
    + exact Hd2.
    + intros r' c' d' Hin. cbn [place board].
      rewrite board_get_set_other; [apply (Hzero r' c' d'); now right|].
      intros E. injection E as -> ->. apply Hc1.
      apply in_map_iff. exists (r, c, d'). auto.
    + intros r' c' d' Hin r2 c2 Hr2 Hcc2. cbn [place board].
      destruct (cell_eqb (r2, c2) (r, c)) eqn:E.
      * apply cell_eqb_eq in E. injection E as -> ->.
        rewrite board_get_set_same by (auto; apply (fi_shape f Hinv)).
        intros E. apply Hd1. apply in_map_iff. exists (r', c', d').
        split; [unfold given_digit; simpl; lia|exact Hin].
      * rewrite board_get_set_other
          by (intros E'; apply cell_eqb_eq in E'; congruence).
        apply (Hfresh r' c' d'); auto. now right.
    + split; [exact H1|]. split; [|split].
      * intros r' c' d' [E|Hin]; [|now apply H2].
        injection E as <- <- <-. rewrite H3 by exact Hc1.
        cbn [place board]. apply board_get_set_same; auto. apply (fi_shape f Hinv).
      * intros r' c' Hnin. cbn [map In] in Hnin.
        rewrite H3 by tauto. cbn [place board].
        apply board_get_set_other. intros E. apply Hnin. left.
        unfold given_cell. simpl. now symmetry.
      * rewrite H4. reflexivity.
Qed.

Lemma cell_eq_dec (a b : nat * nat) : {a = b} + {a <> b}.
Proof. decide equality; apply Nat.eq_dec. Qed.

Lemma load_givens_spec gs rng0 :
  givens_ok gs ->
  fill_inv (load_givens gs rng0)
  /\ honors gs (board (load_givens gs rng0))
  /\ (forall r c, board_get (board (load_givens gs rng0)) r c <> 0%Z ->
        exists d, In (r, c, d) gs)
  /\ rng (load_givens gs rng0) = rng0.
Proof.
  intros Hok.
  change (load_givens gs rng0) with (load_from gs (empty_fill rng0)).
  destruct (load_from_spec gs (empty_fill rng0) (empty_fill_inv rng0)
              (go_domain _ Hok) (go_cells _ Hok) (go_digits _ Hok))
    as (H1 & H2 & H3 & H4).
  - intros r c d _. apply zero_board_get.
  - intros r c d Hin r' c' _ _. cbn [empty_fill board]. rewrite zero_board_get.
    destruct (go_domain _ Hok r c d Hin) as (_ & _ & Hd). lia.
  - split; [exact H1|]. split; [exact H2|]. split; [|exact H4].
    intros r c Hnz.
    destruct (In_dec cell_eq_dec (r, c) (map given_cell gs)) as [Hin|Hnin].
    + apply in_map_iff in Hin. destruct Hin as ([[r' c'] d] & E & Hin).
      unfold given_cell in E. simpl in E. injection E as -> ->. now exists d.
    + rewrite H3 in Hnz by exact Hnin. cbn [empty_fill board] in Hnz.
      now rewrite zero_board_get in Hnz.
Qed.

(** ** The cells to fill *)

Lemma flat_cells_filter (p : nat * nat -> bool) (rs cs : list nat) :
  flat_map (fun r => flat_map (fun c => if p (r, c) then [(r, c)] else []) cs) rs
  = filter p (flat_map (fun r => map (fun c => (r, c)) cs) rs).
Proof.
  induction rs as [|r rs IH]; [reflexivity|].
  cbn [flat_map]. rewrite filter_app, IH. f_equal. clear IH.
  induction cs as [|c cs IHc]; [reflexivity|].
  cbn [flat_map map filter]. rewrite IHc.
  destruct (p (r, c)); reflexivity.
Qed.

Lemma empty_cells_filter b :
  empty_cells b
  = filter (fun rc => (board_get b (fst rc) (snd rc) =? 0)%Z) all_cells9.
Proof.
  exact (flat_cells_filter (fun rc => (board_get b (fst rc) (snd rc) =? 0)%Z)
                           (seq 0 9) (seq 0 9)).
Qed.

Lemma all_cells9_NoDup : NoDup all_cells9.
Proof.
  apply (nodupb_NoDup cell_eqb); [apply cell_eqb_eq|]. vm_compute. reflexivity.
Qed.

Lemma empty_cells_todo b : cells_todo (empty_cells b) b.
Proof.
  rewrite empty_cells_filter. split; [apply NoDup_filter, all_cells9_NoDup|].
  split.
  - intros r c H. apply filter_In in H. now apply all_cells9_In.
  - intros r c Hr Hc. rewrite filter_In, all_cells9_In. cbn [fst snd].
    rewrite Z.eqb_eq. tauto.
Qed.

(** ** [_solve_from_scratch] always succeeds on valid givens *)

Lemma solve_from_scratch_spec rng0 gs :
  givens_ok gs ->
  exists b rng', _solve_from_scratch rng0 gs = Ok (b, rng')
                 /\ shape9 b /\ consistent b /\ honors gs b.
Proof.
  intros Hok. unfold _solve_from_scratch.
  destruct (load_givens_spec gs rng0 Hok) as (Hinv & Hhon & Hgiven & _).
  pose proof (backtrack_fill_spec (empty_cells (board (load_givens gs rng0)))
                (load_givens gs rng0) Hinv (empty_cells_todo _)) as Hout.
  destruct (dlx9.backtrack (empty_cells (board (load_givens gs rng0)))
                           (load_givens gs rng0)) as [ok f'].
  unfold fill_outcome in Hout. destruct ok.
  - destruct Hout as (Hs & Hc & He). exists (board f'), (rng f').
    split; [reflexivity|]. split; [exact Hs|]. split; [exact Hc|].
    intros r c d Hin.
    destruct (go_domain _ Hok r c d Hin) as (Hr & Hc' & Hd).
    rewrite (He r c Hr Hc'); [apply (Hhon r c d Hin)|].
    rewrite (Hhon r c d Hin). lia.
  - exfalso. destruct Hout as [_ Hnone].
    destruct (givens_completable gs Hok) as (b' & _ & Hcons & Hhon').
    apply (Hnone _ b' eq_refl Hcons).
    intros r c Hr Hc Hnz. destruct (Hgiven r c Hnz) as (d & Hin).
    now rewrite (Hhon r c d Hin), (Hhon' r c d Hin).
Qed.
(* ================================================================== *)
(** * [solve_random] returns a valid board that honors its givens *)
(* ================================================================== *)

Import geometry model random solver dlx9 generator.

Lemma rid_decode r c d :
  (r < 9)%N -> (c < 9)%N -> (d < 9)%N ->
  (row_id r c d < 729)%N
  /\ rid_r (row_id r c d) = r /\ rid_c (row_id r c d) = c /\ rid_d (row_id r c d) = d.
Proof.
  intros Hr Hc Hd.
  assert (Hlt : (row_id r c d < 729)%N) by (unfold row_id; lia).
  split; [exact Hlt|].
  destruct (row_layout _ Hlt) as (_ & Hr' & Hc' & Hd' & _ & E).
  revert Hr' Hc' Hd' E.
  generalize (rid_r (row_id r c d)) (rid_c (row_id r c d)) (rid_d (row_id r c d)).
  intros r' c' d' Hr' Hc' Hd' E. unfold row_id in E.
  repeat split; lia.
Qed.

Lemma given_rid_decode r c d :
  r < 9 -> c < 9 -> (0 <= d < 9)%Z ->
  (given_rid (r, c, d) < 729)%N
  /\ rid_r (given_rid (r, c, d)) = N.of_nat r
  /\ rid_c (given_rid (r, c, d)) = N.of_nat c
  /\ rid_d (given_rid (r, c, d)) = Z.to_N d.
Proof.
  intros Hr Hc Hd. unfold given_rid. apply rid_decode; lia.
Qed.

Lemma givens_disjoint r1 c1 d1 r2 c2 d2 :
  r1 < 9 -> c1 < 9 -> (0 <= d1 < 9)%Z ->
  r2 < 9 -> c2 < 9 -> (0 <= d2 < 9)%Z ->
  (r1, c1) <> (r2, c2) -> d1 <> d2 ->
  disjoint_rows (given_rid (r1, c1, d1)) (given_rid (r2, c2, d2)).
Proof.
  intros Hr1 Hc1 Hd1 Hr2 Hc2 Hd2 Hcell Hdig col H1 H2.
  apply hits_cols_of in H1, H2. destruct H1 as [Hlt1 H1]. destruct H2 as [Hlt2 H2].
  destruct (given_rid_decode r1 c1 d1 Hr1 Hc1 Hd1) as (_ & Er1 & Ec1 & Ed1).
  destruct (given_rid_decode r2 c2 d2 Hr2 Hc2 Hd2) as (_ & Er2 & Ec2 & Ed2).
  destruct (row_layout _ Hlt1) as (_ & _ & _ & _ & Hb1 & _).
  destruct (row_layout _ Hlt2) as (_ & _ & _ & _ & Hb2 & _).
  apply cols_of_In in H1, H2.
  rewrite Er1, Ec1, Ed1 in H1. rewrite Er1, Ec1 in Hb1.
  rewrite Er2, Ec2, Ed2 in H2. rewrite Er2, Ec2 in Hb2.
  assert (Hne : r1 <> r2 \/ c1 <> c2).
  { destruct (Nat.eq_dec r1 r2) as [->|]; [|now left].
    destruct (Nat.eq_dec c1 c2) as [->|]; [|now right]. congruence. }
  set (b1 := _box_index (N.of_nat r1) (N.of_nat c1)) in *.
  set (b2 := _box_index (N.of_nat r2) (N.of_nat c2)) in *.
  clearbody b1 b2.
  destruct H1 as [H1|[H1|[H1|H1]]], H2 as [H2|[H2|[H2|H2]]]; lia.
Qed.

Lemma givens_ok_rids gs :
  givens_ok gs ->
  Forall (fun g => (given_rid g < 729)%N) gs
  /\ ForallOrdPairs (fun a b => disjoint_rows (given_rid a) (given_rid b)) gs.
Proof.
  intros [Hdom Hcells Hdigits _]. split.
  - apply Forall_forall. intros [[r c] d] Hin.
    destruct (Hdom r c d Hin) as (Hr & Hc & Hd).
    apply (given_rid_decode r c d Hr Hc Hd).
  - induction gs as [|[[r c] d] gs IH]; [constructor|].
    cbn [map] in Hcells, Hdigits.
    inversion Hcells as [|? ? Hc1 Hc2]; subst.
    inversion Hdigits as [|? ? Hd1 Hd2]; subst.
    destruct (Hdom r c d (or_introl eq_refl)) as (Hr & Hc & Hd).
    constructor.
    + apply Forall_forall. intros [[r' c'] d'] Hin.
      destruct (Hdom r' c' d' (or_intror Hin)) as (Hr' & Hc' & Hd').
      apply givens_disjoint; auto.
      * intros E. apply Hc1. apply in_map_iff. exists (r', c', d').
        split; [unfold given_cell; simpl; now symmetry|exact Hin].
      * intros E. apply Hd1. apply in_map_iff. exists (r', c', d').
        split; [unfold given_digit; simpl; now symmetry|exact Hin].
    + apply IH; auto. intros r' c' d' Hin. apply Hdom. now right.
Qed.

Lemma decode_shape sol : shape9 (decode sol).
Proof. rewrite decode_fold. apply decode_from_shape, zero_board_shape. Qed.

(** The two ways out of [solve_random] meet the same contract. *)
Lemma solve_random_spec rng0 gs :
  givens_ok gs ->
  exists b rng', solve_random rng0 gs = Ok (b, rng')
                 /\ shape9 b /\ consistent b /\ honors gs b.
Proof.
  intros Hok. unfold solve_random.
  assert (Hdomain : forallb in_domain gs = true).
  { apply forallb_forall. intros [[r c] d] Hin. apply in_domain_spec.
    now apply (go_domain _ Hok). }
  rewrite Hdomain.
  destruct (givens_ok_rids gs Hok) as [Hlt Hpair].
  destruct (apply_givens_spec gs Hlt Hpair) as [Hsel Hrids].
  destruct (apply_givens gs initial_matrix) as [m solution_rids].
  cbn [fst snd] in Hsel, Hrids.
  pose proof (rebuild_inv m solution_rids solution_rids Hsel) as Hsel'.
  pose proof (search_spec (S (length (active_cols (rebuild m solution_rids))))
                (rebuild m solution_rids) solution_rids [] rng0 Hsel'
                (Nat.lt_succ_diag_r _)) as Hsearch.
  destruct (search _ (rebuild m solution_rids) solution_rids [] rng0)
    as [sol rng'|rng'|].
  - destruct Hsearch as [(m' & Hsel'' & Hac) Hkeep].
    pose proof (selection_exact_cover m' sol Hsel'' Hac) as Hex.
    exists (decode sol), rng'. split; [reflexivity|].
    split; [apply decode_shape|]. split; [now apply exact_cover_consistent|].
    intros r c d Hin. destruct (go_domain _ Hok r c d Hin) as (Hr & Hc & Hd).
    destruct (given_rid_decode r c d Hr Hc Hd) as (_ & Er & Ec & Ed).
    assert (Hsol : In (given_rid (r, c, d)) sol).
    { apply Hkeep. rewrite Hrids. apply in_map_iff. now exists (r, c, d). }
    pose proof (decode_selected sol _ Hex Hsol) as Hget.
    rewrite Er, Ec, Ed, !Nat2N.id in Hget. rewrite Hget. lia.
  - now apply solve_from_scratch_spec.
  - contradiction.
Qed.
(* ================================================================== *)
(** * The composed solution *)
(* ================================================================== *)

Import geometry model random solver dlx9 generator.

(** ** [_embed] *)

Lemma embed_row_spec b r0 c0 r cs :
  forall g, wf_grid g -> r0 + r < 21 -> (forall c, In c cs -> c0 + c < 21) ->
    wf_grid (embed_row b r0 c0 r cs g)
    /\ forall r' c',
         cell (embed_row b r0 c0 r cs g) r' c'
         = if (r' =? r0 + r) && existsb (fun c => c' =? c0 + c) cs
           then Some (board_get b r (c' - c0))
           else cell g r' c'.
Proof.
  induction cs as [|c cs IH]; intros g Hwf Hr Hcs.
  - simpl. split; [exact Hwf|]. intros r' c'. now rewrite andb_false_r.
  - change (embed_row b r0 c0 r (c :: cs) g)
      with (embed_row b r0 c0 r cs (set_cell g (r0 + r) (c0 + c) (Some (board_get b r c)))).
    destruct (IH (set_cell g (r0 + r) (c0 + c) (Some (board_get b r c))))
      as [Hwf' Hcell].
    + now apply set_cell_wf.
    + exact Hr.
    + intros c1 H1. apply Hcs. now right.
    + split; [exact Hwf'|]. intros r' c'. rewrite Hcell. cbn [existsb].
      destruct (r' =? r0 + r) eqn:Er; cbn [andb].
      * apply Nat.eqb_eq in Er. subst r'.
        destruct (existsb (fun c1 => c' =? c0 + c1) cs) eqn:Ex.
        -- now rewrite orb_true_r.
        -- rewrite orb_false_r. destruct (c' =? c0 + c) eqn:Ec.
           ++ apply Nat.eqb_eq in Ec. subst c'.
              rewrite cell_set_cell_same; auto.
              ** f_equal. f_equal. lia.
              ** apply Hcs. now left.
           ++ apply Nat.eqb_neq in Ec. apply cell_set_cell_other. congruence.
      * apply Nat.eqb_neq in Er. apply cell_set_cell_other. congruence.
Qed.

Lemma embed_rows_spec b r0 c0 rs :
  forall g, wf_grid g -> c0 + 9 <= 21 -> (forall r, In r rs -> r0 + r < 21) ->
    wf_grid (embed_rows b r0 c0 rs g)
    /\ forall r' c',
         cell (embed_rows b r0 c0 rs g) r' c'
         = if existsb (fun r => r' =? r0 + r) rs
              && existsb (fun c => c' =? c0 + c) (seq 0 9)
           then Some (board_get b (r' - r0) (c' - c0))
           else cell g r' c'.
Proof.
  induction rs as [|r rs IH]; intros g Hwf Hc Hrs.
  - simpl. auto.
  - change (embed_rows b r0 c0 (r :: rs) g)
      with (embed_rows b r0 c0 rs (embed_row b r0 c0 r (seq 0 9) g)).
    destruct (embed_row_spec b r0 c0 r (seq 0 9) g Hwf) as [Hwf1 Hcell1].
    + apply Hrs. now left.
    + intros c Hin. apply in_seq in Hin. lia.
    + destruct (IH (embed_row b r0 c0 r (seq 0 9) g) Hwf1 Hc) as [Hwf2 Hcell2].
      * intros r1 H1. apply Hrs. now right.
      * split; [exact Hwf2|]. intros r' c'. rewrite Hcell2, Hcell1. cbn [existsb].
        destruct (existsb (fun c => c' =? c0 + c) (seq 0 9)); [|now rewrite !andb_false_r].
        rewrite !andb_true_r.
        destruct (existsb (fun r1 => r' =? r0 + r1) rs); [now rewrite orb_true_r|].
        rewrite orb_false_r. destruct (r' =? r0 + r) eqn:Er; [|reflexivity].
        apply Nat.eqb_eq in Er. subst r'. f_equal. f_equal. lia.
Qed.

Lemma existsb_offset x x0 :
  existsb (fun k => x =? x0 + k) (seq 0 9) = (x0 <=? x) && (x <? x0 + 9).
Proof.
  destruct ((x0 <=? x) && (x <? x0 + 9)) eqn:E.
  - apply andb_true_iff in E. rewrite Nat.leb_le, Nat.ltb_lt in E.
    apply existsb_exists. exists (x - x0). split; [apply in_seq; lia|].
    apply Nat.eqb_eq. lia.
  - apply andb_false_iff in E. rewrite Nat.leb_gt, Nat.ltb_ge in E.
    destruct (existsb (fun k => x =? x0 + k) (seq 0 9)) eqn:Ex; [|reflexivity].
    apply existsb_exists in Ex. destruct Ex as (k & Hk & Ek).
    apply in_seq in Hk. apply Nat.eqb_eq in Ek. lia.
Qed.

Lemma embed_unfold b g r0 c0 : _embed b g r0 c0 = embed_rows b r0 c0 (seq 0 9) g.
Proof. unfold _embed, embed_rows, embed_row. reflexivity. Qed.

Lemma embed_spec b g r0 c0 :
  wf_grid g -> r0 + 9 <= 21 -> c0 + 9 <= 21 ->
  wf_grid (_embed b g r0 c0)
  /\ forall r c,
       cell (_embed b g r0 c0) r c
       = if in_board r c r0 c0
         then Some (board_get b (r - r0) (c - c0))
         else cell g r c.
Proof.
  intros Hwf Hr Hc.
  rewrite embed_unfold.
  destruct (embed_rows_spec b r0 c0 (seq 0 9) g Hwf Hc) as [Hwf' Hcell].
  - intros r Hin. apply in_seq in Hin. lia.
  - split; [exact Hwf'|]. intros r c. rewrite Hcell, !existsb_offset.
    unfold in_board. now rewrite andb_assoc.
Qed.

Lemma empty_samurai_grid_eq : empty_samurai_grid = repeat (repeat None 21) 21.
Proof. vm_compute. reflexivity. Qed.

Lemma empty_samurai_grid_wf : wf_grid empty_samurai_grid.
Proof. apply wf_gridb_wf. vm_compute. reflexivity. Qed.

Lemma empty_samurai_grid_cell r c : cell empty_samurai_grid r c = None.
Proof.
  rewrite empty_samurai_grid_eq. exact (get2_repeat (@None Z) 21 21 r c).
Qed.

(** ** Windows *)

Lemma window_get g r0 c0 r c :
  r < 9 -> c < 9 ->
  board_get (window g r0 c0) r c = value_or_zero (cell g (r0 + r) (c0 + c)).
Proof.
  intros Hr Hc. unfold board_get, window.
  rewrite (nth_indep _ [] (map (fun c => value_or_zero (cell g (r0 + 0) (c0 + c))) (seq 0 9)))
    by (rewrite length_map, length_seq; exact Hr).
  rewrite (map_nth (fun r => map (fun c => value_or_zero (cell g (r0 + r) (c0 + c))) (seq 0 9))
                   (seq 0 9) 0 r).
  rewrite seq_nth by exact Hr.
  rewrite (nth_indep _ 0%Z (value_or_zero (cell g (r0 + (0 + r)) (c0 + 0))))
    by (rewrite length_map, length_seq; exact Hc).
  rewrite (map_nth (fun c => value_or_zero (cell g (r0 + (0 + r)) (c0 + c))) (seq 0 9) 0 c).
  now rewrite seq_nth by exact Hc.
Qed.

Lemma consistent_pointwise b b' :
  (forall r c, r < 9 -> c < 9 -> board_get b' r c = board_get b r c) ->
  consistent b -> consistent b'.
Proof.
  intros Heq [Hdig Hdiff]. split.
  - intros r c Hr Hc. rewrite Heq by assumption. now apply Hdig.
  - intros r1 c1 r2 c2 Hr1 Hc1 Hr2 Hc2 Hne Hp. rewrite !Heq by assumption.
    now apply Hdiff.
Qed.

(** ** The overlap givens *)

Lemma extract_overlap_givens_eq center :
  _extract_overlap_givens center "TL" = Ok (overlap_givens center 6 6 0 0)
  /\ _extract_overlap_givens center "TR" = Ok (overlap_givens center 6 0 0 6)
  /\ _extract_overlap_givens center "BL" = Ok (overlap_givens center 0 6 6 0)
  /\ _extract_overlap_givens center "BR" = Ok (overlap_givens center 0 0 6 6).
Proof. repeat split; reflexivity. Qed.

Lemma overlap_givens_In center pr0 pc0 sr0 sc0 dr dc :
  dr < 3 -> dc < 3 ->
  In (pr0 + dr, pc0 + dc, (board_get center (sr0 + dr) (sc0 + dc) - 1)%Z)
     (overlap_givens center pr0 pc0 sr0 sc0).
Proof.
  intros Hdr Hdc. unfold overlap_givens. apply in_flat_map.
  exists dr. split; [apply in_seq; lia|].
  apply in_map_iff. exists dc. split; [reflexivity|apply in_seq; lia].
Qed.

Ltac distinct_digits Hdiff :=
  repeat constructor; cbn [In]; intros H;
  repeat (destruct H as [H|H]); try contradiction;
  match type of H with
  | (board_get _ ?r1 ?c1 - 1)%Z = (board_get _ ?r2 ?c2 - 1)%Z =>
      apply (Hdiff r1 c1 r2 c2); [lia|lia|lia|lia|congruence|reflexivity|lia]
  end.

Ltac digits_in_domain Hdig :=
  intros r c d Hin; cbn in Hin;
  repeat (destruct Hin as [Hin|Hin]); try contradiction;
  injection Hin as <- <- <-;
  match goal with
  | |- context [board_get ?b ?r1 ?c1] =>
      pose proof (Hdig r1 c1 ltac:(lia) ltac:(lia))
  end; lia.

Lemma overlap_givens_ok center pr0 pc0 sr0 sc0 :
  consistent center -> In (pr0, pc0, sr0, sc0) OVERLAPS ->
  givens_ok (overlap_givens center pr0 pc0 sr0 sc0).
Proof.
  intros [Hdig Hdiff] Hin.
  assert (Hbox : forall gs,
            forallb (fun a => forallb (fun b => same_box (given_cell a) (given_cell b)) gs) gs
            = true ->
            forall a b, In a gs -> In b gs -> same_box (given_cell a) (given_cell b) = true).
  { intros gs H a b Ha Hb. rewrite forallb_forall in H. specialize (H a Ha).
    rewrite forallb_forall in H. now apply H. }
  cbn [OVERLAPS In] in Hin.
  destruct Hin as [E|[E|[E|[E|[]]]]]; injection E as <- <- <- <-.
  - constructor.
    + digits_in_domain Hdig.
    + apply (nodupb_NoDup cell_eqb); [apply cell_eqb_eq|reflexivity].
    + cbn. distinct_digits Hdiff.
    + apply Hbox. reflexivity.
  - constructor.
    + digits_in_domain Hdig.
    + apply (nodupb_NoDup cell_eqb); [apply cell_eqb_eq|reflexivity].
    + cbn. distinct_digits Hdiff.
    + apply Hbox. reflexivity.
  - constructor.
    + digits_in_domain Hdig.
    + apply (nodupb_NoDup cell_eqb); [apply cell_eqb_eq|reflexivity].
    + cbn. distinct_digits Hdiff.
    + apply Hbox. reflexivity.
  - constructor.
    + digits_in_domain Hdig.
    + apply (nodupb_NoDup cell_eqb); [apply cell_eqb_eq|reflexivity].
    + cbn. distinct_digits Hdiff.
    + apply Hbox. reflexivity.
Qed.

Lemma corner_agrees center corner pr0 pc0 sr0 sc0 dr dc :
  honors (overlap_givens center pr0 pc0 sr0 sc0) corner -> dr < 3 -> dc < 3 ->
  board_get corner (pr0 + dr) (pc0 + dc) = board_get center (sr0 + dr) (sc0 + dc).
Proof.
  intros Hhon Hdr Hdc.
  rewrite (Hhon _ _ _ (overlap_givens_In center pr0 pc0 sr0 sc0 dr dc Hdr Hdc)). lia.
Qed.

Lemma no_givens_ok : givens_ok [].
Proof.
  constructor; [intros r c d []|constructor|constructor|intros a b []].
Qed.

(** ** [_solve_samurai_by_composition] *)

Lemma active_cells_In r c :
  In (r, c) active_cells <-> r < 21 /\ c < 21 /\ is_active_cell r c = true.
Proof.
  unfold active_cells, BOARD_SIZE. rewrite in_flat_map. split.
  - intros (r' & Hr & H). rewrite in_flat_map in H. destruct H as (c' & Hc & H).
    destruct (is_active_cell r' c') eqn:E; [|contradiction].
    destruct H as [H|[]]. injection H as <- <-.
    apply in_seq in Hr, Hc. repeat split; auto; lia.
  - intros (Hr & Hc & Hact). exists r. split; [apply in_seq; lia|].
    apply in_flat_map. exists c. split; [apply in_seq; lia|].
    rewrite Hact. now left.
Qed.

Ltac board_cases :=
  repeat match goal with
  | |- context [in_board ?r ?c ?r0 ?c0] =>
      let E := fresh "E" in
      destruct (in_board r c r0 c0) eqn:E;
      [apply in_board_true in E|apply in_board_false in E]
  end.

(** Close [board_get x .. = board_get y ..] through the equation [H] between
    a corner and the center. *)
Ltac by_agreement H :=
  match type of H with
  | ?a = ?b =>
      first [ transitivity a; [f_equal; lia|transitivity b; [exact H|f_equal; lia]]
            | transitivity b; [f_equal; lia|transitivity a; [symmetry; exact H|f_equal; lia]] ]
  end.

(** The grid that the five boards make once embedded, cell by cell. *)
Lemma stitched_cell tl tr center bl br :
  let g := _embed br (_embed bl (_embed center (_embed tr
             (_embed tl empty_samurai_grid 0 0) 0 12) 6 6) 12 0) 12 12 in
  wf_grid g
  /\ forall r c,
       cell g r c
       = if in_board r c 12 12 then Some (board_get br (r - 12) (c - 12))
         else if in_board r c 12 0 then Some (board_get bl (r - 12) (c - 0))
         else if in_board r c 6 6 then Some (board_get center (r - 6) (c - 6))
         else if in_board r c 0 12 then Some (board_get tr (r - 0) (c - 12))
         else if in_board r c 0 0 then Some (board_get tl (r - 0) (c - 0))
         else None.
Proof.
  cbn zeta.
  destruct (embed_spec tl empty_samurai_grid 0 0 empty_samurai_grid_wf)
    as [W1 C1]; [lia|lia|].
  destruct (embed_spec tr _ 0 12 W1) as [W2 C2]; [lia|lia|].
  destruct (embed_spec center _ 6 6 W2) as [W3 C3]; [lia|lia|].
  destruct (embed_spec bl _ 12 0 W3) as [W4 C4]; [lia|lia|].
  destruct (embed_spec br _ 12 12 W4) as [W5 C5]; [lia|lia|].
  split; [exact W5|]. intros r c.
  now rewrite C5, C4, C3, C2, C1, empty_samurai_grid_cell.
Qed.

Lemma composition_spec rng0 :
  exists g rng',
    _solve_samurai_by_composition rng0 = Ok (g, rng')
    /\ wf_grid g /\ full_grid g /\ samurai_valid g
    /\ (forall r c, is_active_cell r c = false -> cell g r c = None).
Proof.
  unfold _solve_samurai_by_composition.
  destruct (solve_random_spec rng0 [] no_givens_ok) as (center & rng1 & E1 & _ & Hc & _).
  rewrite E1. cbn [bind].
  destruct (extract_overlap_givens_eq center) as (Etl & Etr & Ebl & Ebr).
  assert (Hov : forall o, In o OVERLAPS -> In o OVERLAPS) by auto.
  rewrite Etl. cbn [bind].
  destruct (solve_random_spec rng1 _ (overlap_givens_ok center 6 6 0 0 Hc
              ltac:(cbn; tauto))) as (tl & rng2 & E2 & _ & Hctl & Hhtl).
  rewrite E2. cbn [bind]. rewrite Etr. cbn [bind].
  destruct (solve_random_spec rng2 _ (overlap_givens_ok center 6 0 0 6 Hc
              ltac:(cbn; tauto))) as (tr & rng3 & E3 & _ & Hctr & Hhtr).
  rewrite E3. cbn [bind]. rewrite Ebl. cbn [bind].
  destruct (solve_random_spec rng3 _ (overlap_givens_ok center 0 6 6 0 Hc
              ltac:(cbn; tauto))) as (bl & rng4 & E4 & _ & Hcbl & Hhbl).
  rewrite E4. cbn [bind]. rewrite Ebr. cbn [bind].
  destruct (solve_random_spec rng4 _ (overlap_givens_ok center 0 0 6 6 Hc
              ltac:(cbn; tauto))) as (br & rng5 & E5 & _ & Hcbr & Hhbr).
  rewrite E5. cbn [bind].
  destruct (stitched_cell tl tr center bl br) as [Hwf Hcell].
  set (g := _embed br _ 12 12) in *. clearbody g.
  exists g, rng5. split; [reflexivity|]. split; [exact Hwf|].
  split; [|split].
  - intros r c Hin. apply active_cells_In in Hin. destruct Hin as (_ & _ & Hact).
    unfold is_active_cell in Hact. cbn [existsb BOARDS] in Hact.
    rewrite Hcell.
    destruct (in_board r c 12 12); [discriminate|].
    destruct (in_board r c 12 0); [discriminate|].
    destruct (in_board r c 6 6); [discriminate|].
    destruct (in_board r c 0 12); [discriminate|].
    destruct (in_board r c 0 0); [discriminate|].
    discriminate.
  - intros b Hb. apply consistent_valid.
    cbn [BOARDS In] in Hb.
    destruct Hb as [<-|[<-|[<-|[<-|[<-|[]]]]]]; cbn [board_r0 board_c0 fst snd].
    + apply (consistent_pointwise tl); [|exact Hctl]. intros r c Hr Hc'.
      rewrite window_get, Hcell by assumption.
      board_cases; try (exfalso; lia); cbn [value_or_zero];
        first [ f_equal; lia
              | by_agreement (corner_agrees center tl 6 6 0 0 (r - 6) (c - 6) Hhtl
                                ltac:(lia) ltac:(lia)) ].
    + apply (consistent_pointwise tr); [|exact Hctr]. intros r c Hr Hc'.
      rewrite window_get, Hcell by assumption.
      board_cases; try (exfalso; lia); cbn [value_or_zero];
        first [ f_equal; lia
              | by_agreement (corner_agrees center tr 6 0 0 6 (r - 6) c Hhtr
                                ltac:(lia) ltac:(lia)) ].
    + apply (consistent_pointwise center); [|exact Hc]. intros r c Hr Hc'.
      rewrite window_get, Hcell by assumption.
      board_cases; try (exfalso; lia); cbn [value_or_zero];
        first [ f_equal; lia
              | by_agreement (corner_agrees center bl 0 6 6 0 (r - 6) c Hhbl
                                ltac:(lia) ltac:(lia))
              | by_agreement (corner_agrees center br 0 0 6 6 (r - 6) (c - 6) Hhbr
                                ltac:(lia) ltac:(lia)) ].
    + apply (consistent_pointwise bl); [|exact Hcbl]. intros r c Hr Hc'.
      rewrite window_get, Hcell by assumption.
      board_cases; try (exfalso; lia); cbn [value_or_zero]; f_equal; lia.
    + apply (consistent_pointwise br); [|exact Hcbr]. intros r c Hr Hc'.
      rewrite window_get, Hcell by assumption.
      board_cases; try (exfalso; lia); cbn [value_or_zero]; f_equal; lia.
  - intros r c Hact. unfold is_active_cell in Hact. cbn [existsb BOARDS] in Hact.
    rewrite Hcell.
    destruct (in_board r c 0 0); [discriminate|].
    destruct (in_board r c 0 12); [discriminate|].
    destruct (in_board r c 6 6); [discriminate|].
    destruct (in_board r c 12 0); [discriminate|].
    destruct (in_board r c 12 12); [discriminate|].
    reflexivity.
Qed.
(* ================================================================== *)
(** * The digger and [generate_samurai] *)
(* ================================================================== *)

Import geometry model random solver dlx9 generator.

(** ** Certified grids *)

Lemma find_next_cell_from_full cells g :
  (forall r c, In (r, c) cells -> cell g r c <> None) ->
  find_next_cell_from cells g None = None.
Proof.
  induction cells as [|[r c] rest IH]; intros H; [reflexivity|].
  simpl. destruct (cell g r c) eqn:E.
  - apply IH. intros r' c' Hin. apply H. now right.
  - exfalso. apply (H r c); [now left|exact E].
Qed.

Lemma full_grid_no_empty g :
  full_grid g ->
  existsb (fun rc => is_cell_empty g (fst rc) (snd rc)) active_cells = false.
Proof.
  intros H. destruct (existsb _ active_cells) eqn:E; [|reflexivity].
  apply existsb_exists in E. destruct E as ([r c] & Hin & Hempty).
  unfold is_cell_empty in Hempty. simpl in Hempty.
  specialize (H r c Hin). destruct (cell g r c); [discriminate|contradiction].
Qed.

Lemma full_grid_certified g : full_grid g -> certified g.
Proof.
  intros H. unfold certified, unique_answer, search_depth.
  cbn [completions]. unfold find_next_cell.
  rewrite (find_next_cell_from_full active_cells g H).
  now rewrite (full_grid_no_empty g H).
Qed.

Lemma certified_answer grand g :
  wf_grid g -> certified g ->
  exists s, solve_unique grand g 2 = Ok (true, 1%Z, s).
Proof.
  intros Hwf Hcert. destruct (solve_unique_spec grand g 2 Hwf) as (s & E & _); [lia|].
  exists s. now rewrite E, Hcert.
Qed.

(** ** Counting clues *)

Lemma filter_perm {A : Type} (f : A -> bool) (l l' : list A) :
  Permutation l l' -> Permutation (filter f l) (filter f l').
Proof.
  induction 1 as [|x l l' _ IH|x y l|l l' l'' _ IH1 _ IH2].
  - constructor.
  - cbn [filter]. destruct (f x); [now constructor|exact IH].
  - cbn [filter]. destruct (f x), (f y); try reflexivity. apply perm_swap.
  - etransitivity; eassumption.
Qed.

Lemma count_clues_perm l l' g :
  Permutation l l' -> count_clues l g = count_clues l' g.
Proof.
  intros H. unfold count_clues. now apply Permutation_length, filter_perm.
Qed.

Lemma count_clues_le l g : count_clues l g <= length l.
Proof. unfold count_clues. apply filter_length_le. Qed.

Lemma is_cell_empty_other g r c v r' c' :
  (r', c') <> (r, c) ->
  is_cell_empty (set_cell g r c v) r' c' = is_cell_empty g r' c'.
Proof. intros H. unfold is_cell_empty. now rewrite cell_set_cell_other. Qed.

Lemma cell_cleared g r c : cell (set_cell g r c None) r c = None.
Proof.
  unfold cell, set_cell.
  destruct (Nat.lt_ge_cases r (length g)) as [Hr|Hr].
  - rewrite nth_list_set_same by exact Hr.
    destruct (Nat.lt_ge_cases c (length (nth r g []))) as [Hc|Hc].
    + now apply nth_list_set_same.
    + apply nth_overflow. now rewrite list_set_length.
  - rewrite list_set_out by exact Hr.
    rewrite (nth_overflow g) by exact Hr. now destruct c.
Qed.

Lemma count_clues_clear l g r c :
  NoDup l -> count_clues l g <= S (count_clues l (set_cell g r c None)).
Proof.
  unfold count_clues. intros Hnd. induction l as [|[r' c'] l IH]; [simpl; lia|].
  inversion Hnd as [|? ? Hnotin Hnd']; subst. cbn [filter fst snd].
  destruct (cell_eq_dec (r', c') (r, c)) as [E|Hne].
  - injection E as -> ->.
    assert (Hrest : filter (fun rc => negb (is_cell_empty (set_cell g r c None) (fst rc) (snd rc))) l
                    = filter (fun rc => negb (is_cell_empty g (fst rc) (snd rc))) l).
    { apply filter_ext_in. intros [r1 c1] Hin. cbn [fst snd].
      rewrite is_cell_empty_other; [reflexivity|]. intros E. now rewrite E in Hin. }
    rewrite Hrest.
    destruct (negb (is_cell_empty g r c)), (negb (is_cell_empty (set_cell g r c None) r c));
      simpl; lia.
  - rewrite (is_cell_empty_other g r c None r' c' Hne). specialize (IH Hnd').
    destruct (negb (is_cell_empty g r' c')); simpl; lia.
Qed.

Lemma count_clues_clear_le l g r c :
  count_clues l (set_cell g r c None) <= count_clues l g.
Proof.
  unfold count_clues. induction l as [|[r' c'] l IH]; [simpl; lia|].
  cbn [filter fst snd].
  destruct (cell_eq_dec (r', c') (r, c)) as [E|Hne].
  - injection E as -> ->.
    assert (E : is_cell_empty (set_cell g r c None) r c = true)
      by (unfold is_cell_empty; now rewrite cell_cleared).
    rewrite E. cbn [negb]. destruct (negb (is_cell_empty g r c)); simpl; lia.
  - rewrite (is_cell_empty_other g r c None r' c' Hne).
    destruct (negb (is_cell_empty g r' c')); simpl; lia.
Qed.

Lemma full_grid_count g : full_grid g -> clue_count g = length active_cells.
Proof.
  intros H. unfold clue_count, count_clues.
  rewrite forallb_filter_id; [reflexivity|].
  apply forallb_forall. intros [r c] Hin. cbn [fst snd]. unfold is_cell_empty.
  specialize (H r c Hin). now destruct (cell g r c).
Qed.

(** ** What digging preserves *)

Lemma dug_wf actives target p p' : dug actives target p p' -> wf_grid p -> wf_grid p'.
Proof.
  induction 1 as [p|p r c p' _ _ _ IH]; intros Hwf; [exact Hwf|].
  apply IH. now apply set_cell_wf.
Qed.

Lemma dug_certified actives target p p' :
  dug actives target p p' -> certified p -> certified p'.
Proof. induction 1; auto. Qed.

Lemma cell_clear_subset p r c r' c' :
  cell (set_cell p r c None) r' c' = None
  \/ cell (set_cell p r c None) r' c' = cell p r' c'.
Proof.
  destruct (cell_eq_dec (r', c') (r, c)) as [E|Hne].
  - injection E as -> ->. left. apply cell_cleared.
  - right. now apply cell_set_cell_other.
Qed.

Lemma dug_subset actives target p p' : dug actives target p p' -> subset_of p' p.
Proof.
  induction 1 as [p|p r c p' _ _ _ IH]; intros r' c'; [now right|].
  destruct (IH r' c') as [H|H]; [now left|].
  rewrite H. apply cell_clear_subset.
Qed.

Lemma dug_count actives target p p' :
  NoDup actives -> dug actives target p p' ->
  count_clues actives p' <= count_clues actives p
  /\ (target <= count_clues actives p -> target <= count_clues actives p').
Proof.
  intros Hnd. induction 1 as [p|p r c p' Hgt _ _ IH]; [lia|].
  pose proof (count_clues_clear actives p r c Hnd).
  pose proof (count_clues_clear_le actives p r c). lia.
Qed.

Lemma dug_trans actives target p q s :
  dug actives target p q -> dug actives target q s -> dug actives target p s.
Proof.
  induction 1 as [p|p r c p' Hgt Hc _ IH]; intros H; [exact H|].
  eapply dug_clear; eauto.
Qed.

(** ** One pass of the digging loop *)

Lemma time_twice clk :
  let '(start, clk1) := time.time clk in
  let '(now, clk2) := time.time clk1 in
  (now - start)%Z
  = (time.readings clk (S (time.reads clk)) - time.readings clk (time.reads clk))%Z
  /\ clk2 = clock_after 2 clk.
Proof. destruct clk as [rd n]. simpl. auto. Qed.

Lemma dig_body_spec actives target timeout r c puzzle amb :
  wf_grid puzzle ->
  (count_clues actives puzzle <= target ->
     dig_body actives target timeout r c (puzzle, amb) = Ok Break)
  /\ (target < count_clues actives puzzle -> cell puzzle r c = None ->
        dig_body actives target timeout r c (puzzle, amb) = Ok (Continue (puzzle, amb)))
  /\ (target < count_clues actives puzzle -> cell puzzle r c <> None ->
        exists s,
          solve_unique (global_random amb) (copy_grid (set_cell puzzle r c None)) 2
          = Ok (unique_answer (set_cell puzzle r c None) 2, s)
          /\ dig_body actives target timeout r c (puzzle, amb)
             = Ok (Continue
                     (if timed_out timeout (wall_clock amb)
                         || (negb (fst (unique_answer (set_cell puzzle r c None) 2))
                             || negb (snd (unique_answer (set_cell puzzle r c None) 2) =? 1)%Z)
                      then puzzle else set_cell puzzle r c None,
                      mkAmbient (grand s) (clock_after 2 (wall_clock amb))))).
Proof.
  intros Hwf. unfold dig_body. split; [|split].
  - intros H. now rewrite (proj2 (Nat.leb_le _ _) H).
  - intros H E. rewrite (proj2 (Nat.leb_gt _ _) H). now rewrite E.
  - intros H E. rewrite (proj2 (Nat.leb_gt _ _) H).
    destruct (cell puzzle r c) as [v|] eqn:Ev; [|contradiction].
    rewrite copy_grid_id.
    destruct (solve_unique_spec (global_random amb) (set_cell puzzle r c None) 2)
      as (s & Es & _); [now apply set_cell_wf|lia|].
    exists s. split; [exact Es|].
    pose proof (time_twice (wall_clock amb)) as Ht.
    destruct (time.time (wall_clock amb)) as [start clk1].
    rewrite Es. cbn [bind].
    destruct (unique_answer (set_cell puzzle r c None) 2) as [has nsol].
    destruct (time.time clk1) as [now clk2]. destruct Ht as [Hel ->].
    cbn [fst snd]. unfold timed_out. rewrite <- Hel.
    rewrite set_cell_twice, (set_cell_same_value puzzle r c (Some v) Ev).
    reflexivity.
Qed.

(** ** The digging loop *)

Lemma dig_loop_spec actives target timeout cells :
  forall puzzle amb,
    wf_grid puzzle ->
    exists grand',
      dig_loop actives target timeout cells (puzzle, amb)
      = Ok (fst (dig_outcome actives target timeout cells puzzle (wall_clock amb)),
            mkAmbient grand'
              (snd (dig_outcome actives target timeout cells puzzle (wall_clock amb))))
      /\ dug actives target puzzle
             (fst (dig_outcome actives target timeout cells puzzle (wall_clock amb))).
Proof.
  induction cells as [|[r c] rest IH]; intros puzzle amb Hwf.
  - exists (global_random amb). destruct amb. split; [reflexivity|constructor].
  - cbn [dig_loop dig_outcome].
    destruct (dig_body_spec actives target timeout r c puzzle amb Hwf)
      as (Hbreak & Hskip & Hcheck).
    destruct (Nat.leb_spec (count_clues actives puzzle) target) as [Hle|Hgt].
    + rewrite (Hbreak Hle). cbn [bind]. exists (global_random amb). destruct amb.
      split; [reflexivity|constructor].
    + destruct (cell puzzle r c) as [v|] eqn:Ev.
      * destruct (Hcheck Hgt ltac:(discriminate)) as (s & _ & Ebody).
        rewrite Ebody. cbn [bind].
        destruct (unique_answer (set_cell puzzle r c None) 2) as [has nsol] eqn:Eans.
        cbn [fst snd] in *.
        set (restore := timed_out timeout (wall_clock amb)
                        || (negb has || negb (nsol =? 1)%Z)) in *.
        destruct restore eqn:Erest.
        -- destruct (IH puzzle (mkAmbient (grand s) (clock_after 2 (wall_clock amb))) Hwf)
             as (g' & E & Hdug).
           exists g'. split; [exact E|exact Hdug].
        -- destruct (IH (set_cell puzzle r c None)
                        (mkAmbient (grand s) (clock_after 2 (wall_clock amb)))
                        (set_cell_wf _ _ _ _ Hwf))
             as (g' & E & Hdug).
           exists g'. split; [exact E|].
           apply dug_clear with (r := r) (c := c); auto.
           unfold certified. rewrite Eans. subst restore.
           apply orb_false_iff in Erest. destruct Erest as [_ Erest].
           apply orb_false_iff in Erest. destruct Erest as [Eh En].
           apply negb_false_iff in Eh, En. apply Z.eqb_eq in En. now subst.
      * rewrite (Hskip Hgt eq_refl). cbn [bind]. apply IH. exact Hwf.
Qed.

(** ** [_dig_holes_to_target] *)

Lemma dig_holes_spec rng0 solved target timeout amb :
  wf_grid solved ->
  let actives := fst (shuffle rng0 active_cells) in
  let out := dig_outcome actives target timeout actives solved (wall_clock amb) in
  exists grand',
    _dig_holes_to_target rng0 solved target timeout amb
    = Ok (fst out, snd (shuffle rng0 active_cells), mkAmbient grand' (snd out))
    /\ dug actives target solved (fst out).
Proof.
  intros Hwf. cbn zeta. unfold _dig_holes_to_target. rewrite copy_grid_id.
  destruct (shuffle rng0 active_cells) as [actives rng1]. cbn [fst snd].
  destruct (dig_loop_spec actives target timeout actives solved amb Hwf)
    as (grand' & E & Hdug).
  rewrite E. cbn [bind]. exists grand'. split; [reflexivity|exact Hdug].
Qed.

Lemma shuffled_actives rng0 :
  Permutation (fst (shuffle rng0 active_cells)) active_cells
  /\ NoDup (fst (shuffle rng0 active_cells)).
Proof.
  pose proof (shuffle_perm rng0 active_cells) as Hperm. split; [exact Hperm|].
  apply (Permutation_NoDup (Permutation_sym Hperm)).
  apply (nodupb_NoDup cell_eqb); [apply cell_eqb_eq|]. vm_compute. reflexivity.
Qed.

(** ** The attempts of [generate_samurai] *)

(** The first attempt already returns: the dug puzzle is certified because
    every kept removal was, so the re-verification succeeds. *)
Lemma attempts_spec k todo rng0 solved target timeout adapt amb :
  wf_grid solved -> certified solved ->
  let actives := fst (shuffle rng0 active_cells) in
  let out := dig_outcome actives target timeout actives solved (wall_clock amb) in
  exists grand',
    attempts (k :: todo) rng0 solved target timeout adapt amb
    = Ok (Some (fst out), snd (shuffle rng0 active_cells), mkAmbient grand' (snd out))
    /\ dug actives target solved (fst out).
Proof.
  intros Hwf Hcert. cbn zeta. cbn [attempts].
  destruct (dig_holes_spec rng0 solved target timeout amb Hwf) as (g1 & E & Hdug).
  rewrite E. cbn [bind global_random wall_clock].
  rewrite copy_grid_id.
  destruct (certified_answer g1 _ (dug_wf _ _ _ _ Hdug Hwf)
              (dug_certified _ _ _ _ Hdug Hcert)) as (s & Es).
  rewrite Es. cbn [bind andb]. rewrite Z.eqb_refl.
  exists (grand s). split; [reflexivity|exact Hdug].
Qed.

(** ** [generate_samurai] *)

Lemma generate_spec rng0 difficulty timeout adapt amb base :
  lookup (lower difficulty) DIFFICULTY_CLUES = Some base ->
  exists solved rng1 grand',
    _solve_samurai_by_composition rng0 = Ok (solved, rng1)
    /\ wf_grid solved /\ full_grid solved /\ samurai_valid solved
    /\ let actives := fst (shuffle rng1 active_cells) in
       let out := dig_outcome actives base timeout actives solved (wall_clock amb) in
       generate_samurai rng0 difficulty timeout adapt amb
       = Ok (fst out, solved, snd (shuffle rng1 active_cells), mkAmbient grand' (snd out))
       /\ dug actives base solved (fst out).
Proof.
  intros Hbase.
  destruct (composition_spec rng0) as (solved & rng1 & Ec & Hwf & Hfull & Hvalid & _).
  destruct (attempts_spec 0 (seq 1 2) rng1 solved base timeout adapt amb Hwf
              (full_grid_certified solved Hfull)) as (grand' & Ea & Hdug).
  exists solved, rng1, grand'.
  split; [exact Ec|]. split; [exact Hwf|]. split; [exact Hfull|].
  split; [exact Hvalid|]. cbn zeta. split; [|exact Hdug].
  unfold generate_samurai. rewrite Hbase, Ec. cbn [bind].
  change (seq 0 3) with (0 :: seq 1 2). rewrite Ea. reflexivity.
Qed.

Lemma lookup_difficulty d base :
  lookup d DIFFICULTY_CLUES = Some base ->
  In d DIFFICULTIES /\ In base [170; 140; 110; 80].
Proof.
  unfold DIFFICULTY_CLUES, DIFFICULTIES. cbn [lookup map fst].
  repeat match goal with
  | |- context [String.eqb d ?s] =>
      destruct (String.eqb_spec d s);
      [intros E; injection E as <-; subst; cbn; tauto|]
  end.
  discriminate.
Qed.

Lemma lookup_none d :
  lookup d DIFFICULTY_CLUES = None <-> ~ In d DIFFICULTIES.
Proof.
  unfold DIFFICULTIES, DIFFICULTY_CLUES. cbn [lookup map fst In].
  repeat match goal with
  | |- context [String.eqb d ?s] =>
      destruct (String.eqb_spec d s); [split; [discriminate|intros H; exfalso; apply H; subst; tauto]|]
  end.
  split; [|reflexivity]. intros _ H.
  repeat (destruct H as [H|H]; [congruence|]). exact H.
Qed.
(* ================================================================== *)
(** * Grids as objects: who writes where *)
(* ================================================================== *)

Import geometry model random solver dlx9 generator.

(** ** The heap *)

Lemma frame_refl n h : frame n h h.
Proof. split; auto. Qed.

Lemma frame_trans n h1 h2 h3 : frame n h1 h2 -> frame n h2 h3 -> frame n h1 h3.
Proof.
  intros [L1 F1] [L2 F2]. split; [lia|].
  intros a Ha. rewrite F2, F1 by assumption. reflexivity.
Qed.

Lemma frame_weaken m n h h' : m <= n -> frame n h h' -> frame m h h'.
Proof. intros Hle [L F]. split; [exact L|]. intros a Ha. apply F. lia. Qed.

Lemma read_frame n h h' g :
  frame n h h' -> (forall a, In a g -> a < n) -> objects.read h' g = objects.read h g.
Proof.
  intros [_ F] Hg. unfold objects.read. apply map_ext_in.
  intros a Ha. apply F. now apply Hg.
Qed.

Lemma valid_ref_frame n h h' g :
  frame n h h' -> valid_ref h g -> valid_ref h' g.
Proof.
  intros [L _] [Hnd Hlt]. split; [exact Hnd|].
  intros a Ha. specialize (Hlt a Ha). lia.
Qed.

Lemma read_length h g : length (objects.read h g) = length g.
Proof. unfold objects.read. apply length_map. Qed.

Lemma nth_read h g i : i < length g -> nth i (objects.read h g) [] = nth (nth i g 0) h [].
Proof.
  intros Hi. unfold objects.read.
  rewrite (nth_indep _ [] (nth 0 h [])) by (rewrite length_map; exact Hi).
  apply (map_nth (fun a => nth a h []) g 0 i).
Qed.

Lemma store_cell_length h g r c v : length (objects.store_cell h g r c v) = length h.
Proof.
  unfold objects.store_cell. destruct (nth_error g r); [apply list_set_length|reflexivity].
Qed.

Lemma store_cell_frame n h g r c v :
  above n g -> frame n h (objects.store_cell h g r c v).
Proof.
  intros Hab. split; [now rewrite store_cell_length|].
  intros a Ha. unfold objects.store_cell.
  destruct (nth_error g r) as [a'|] eqn:E; [|reflexivity].
  apply nth_list_set_other. apply nth_error_In in E. specialize (Hab a' E). lia.
Qed.

Lemma store_cell_valid h g g' r c v :
  valid_ref h g' -> valid_ref (objects.store_cell h g r c v) g'.
Proof.
  intros [Hnd Hlt]. split; [exact Hnd|]. intros a Ha.
  rewrite store_cell_length. now apply Hlt.
Qed.

Lemma store_cell_read h g r c v :
  valid_ref h g ->
  objects.read (objects.store_cell h g r c v) g = set_cell (objects.read h g) r c v.
Proof.
  intros [Hnd Hlt]. unfold objects.store_cell, set_cell.
  destruct (nth_error g r) as [a|] eqn:E.
  - assert (Hr : r < length g) by (apply nth_error_Some; congruence).
    assert (Ea : nth r g 0 = a) by (now apply nth_error_nth).
    apply nth_ext with (d := []) (d' := []).
    + now rewrite list_set_length, !read_length.
    + intros i Hi. rewrite read_length in Hi. rewrite nth_read by exact Hi.
      rewrite (nth_read h g r Hr), Ea.
      destruct (Nat.eq_dec i r) as [->|Hne].
      * rewrite Ea. rewrite nth_list_set_same by (apply Hlt; rewrite <- Ea; now apply nth_In).
        now rewrite nth_list_set_same by (now rewrite read_length).
      * rewrite (nth_list_set_other (objects.read h g)) by exact Hne.
        rewrite nth_read by exact Hi.
        apply nth_list_set_other. intros Eq. apply Hne.
        apply (proj1 (NoDup_nth g 0) Hnd); auto. congruence.
  - apply nth_error_None in E.
    now rewrite list_set_out by (now rewrite read_length).
Qed.

Lemma read_fresh h rows :
  objects.read (h ++ rows) (seq (length h) (length rows)) = rows.
Proof.
  apply nth_ext with (d := []) (d' := []).
  - now rewrite read_length, length_seq.
  - intros i Hi. rewrite read_length, length_seq in Hi.
    rewrite nth_read by (now rewrite length_seq).
    rewrite seq_nth by exact Hi. rewrite app_nth2 by lia. f_equal. lia.
Qed.

Lemma frame_app n h rows : n <= length h -> frame n h (h ++ rows).
Proof.
  intros Hn. split; [rewrite length_app; lia|].
  intros a Ha. apply app_nth1. lia.
Qed.

Lemma fresh_valid h rows : valid_ref (h ++ rows) (seq (length h) (length rows)).
Proof.
  split; [apply seq_NoDup|]. intros a Ha. apply in_seq in Ha.
  rewrite length_app. lia.
Qed.

Lemma fresh_above (h : objects.Heap) n : above (length h) (seq (length h) n).
Proof. intros a Ha. apply in_seq in Ha. lia. Qed.

Lemma copy_rows_spec h g :
  valid_ref h g ->
  let h' := fst (objects.copy_rows h g) in
  let g' := snd (objects.copy_rows h g) in
  objects.read h' g' = objects.read h g
  /\ frame (length h) h h' /\ valid_ref h' g' /\ above (length h) g'
  /\ length g' = length g.
Proof.
  intros Hv. unfold objects.copy_rows. cbn [fst snd].
  rewrite <- (read_length h g). split; [apply read_fresh|].
  split; [now apply frame_app|]. split; [apply fresh_valid|].
  split; [apply fresh_above|]. now rewrite length_seq.
Qed.

Lemma write_rows_frame n ws h :
  (forall ar, In ar ws -> n <= fst ar) -> frame n h (write_rows ws h).
Proof.
  revert h. induction ws as [|[a row] ws IH]; intros h Hab; [apply frame_refl|].
  cbn [write_rows fold_left fst snd].
  apply frame_trans with (h2 := list_set h a row).
  - split; [now rewrite list_set_length|]. intros a' Ha'.
    apply nth_list_set_other. specialize (Hab (a, row) (or_introl eq_refl)).
    simpl in Hab. lia.
  - apply IH. intros ar Har. apply Hab. now right.
Qed.

Lemma write_back_frame n h g rows :
  above n g -> frame n h (objects.write_back h g rows).
Proof.
  intros Hab. apply (write_rows_frame n (combine g rows) h).
  intros [a row] Hin. apply in_combine_l in Hin. simpl. now apply Hab.
Qed.

(** ** The uniqueness check works on a copy *)

Lemma check_unique_spec puzzle h rng0 gr clk answer s :
  valid_ref h puzzle ->
  solve_unique gr (objects.read h puzzle) 2 = Ok (answer, s) ->
  exists h',
    objects.check_unique puzzle (objects.mkWorld h rng0 (mkAmbient gr clk))
    = (Ok answer, objects.mkWorld h' rng0 (mkAmbient (grand s) clk))
    /\ frame (length h) h h'.
Proof.
  intros Hv Es. unfold objects.check_unique.
  cbn [objects.heap objects.source objects.ambient global_random wall_clock].
  destruct (copy_rows_spec h puzzle Hv) as (Hread & Hframe & Hv' & Hab & _).
  rewrite Hread, Es. cbn [fst snd].
  eexists. split; [reflexivity|].
  eapply frame_trans; [exact Hframe|].
  apply frame_weaken with (n := length h); [lia|].
  eapply frame_weaken; [|apply write_back_frame; exact Hab]. lia.
Qed.

(** ** The digging loop writes to the puzzle and to fresh copies only *)

Lemma dig_body_sim actives target timeout puzzle n r c w step :
  valid_ref (objects.heap w) puzzle -> above n puzzle -> n <= length (objects.heap w) ->
  generator.dig_body actives target timeout r c
    (objects.read (objects.heap w) puzzle, objects.ambient w) = Ok step ->
  match step with
  | Break => objects.dig_body actives target timeout puzzle r c w = (Ok Break, w)
  | Continue (P', amb') =>
      exists w', objects.dig_body actives target timeout puzzle r c w
                 = (Ok (Continue tt), w')
                 /\ dig_result n puzzle w w' P' amb'
  end.
Proof.
  intros Hv Hab Hn. destruct w as [h rng0 [gr clk]].
  unfold generator.dig_body, objects.dig_body.
  cbn [objects.heap objects.source objects.ambient global_random wall_clock].
  destruct (count_clues actives (objects.read h puzzle) <=? target).
  - intros E. injection E as <-. reflexivity.
  - destruct (cell (objects.read h puzzle) r c) as [v|] eqn:Ecell.
    + rewrite copy_grid_id. unfold objects.tick.
      cbn [objects.heap objects.source objects.ambient global_random wall_clock].
      destruct (time.time clk) as [start clk1]. cbn [fst snd].
      pose proof (store_cell_read h puzzle r c None Hv) as Hstore.
      pose proof (store_cell_valid h puzzle puzzle r c None Hv) as Hv1.
      pose proof (store_cell_frame n h puzzle r c None Hab) as Hf1.
      set (h1 := objects.store_cell h puzzle r c None) in *.
      destruct (solve_unique gr (set_cell (objects.read h puzzle) r c None) 2)
        as [[[has nsol] s]|e] eqn:Es; [|discriminate].
      cbn [bind]. rewrite <- Hstore in Es.
      destruct (check_unique_spec puzzle h1 rng0 gr clk1 (has, nsol) s Hv1 Es)
        as (h2 & Echeck & Hf2).
      rewrite Echeck. unfold objects.and_then. cbn [fst snd].
      cbn [objects.heap objects.source objects.ambient global_random wall_clock].
      destruct (time.time clk1) as [now clk2]. cbn [fst snd].
      assert (Hread2 : objects.read h2 puzzle = set_cell (objects.read h puzzle) r c None).
      { rewrite <- Hstore. apply (read_frame (length h1) h1 h2 puzzle Hf2).
        apply (proj2 Hv1). }
      assert (Hv2 : valid_ref h2 puzzle) by (eapply valid_ref_frame; eauto).
      assert (Hf12 : frame n h h2).
      { eapply frame_trans; [exact Hf1|].
        apply frame_weaken with (n := length h1); [|exact Hf2].
        subst h1. rewrite store_cell_length. exact Hn. }
      intros E. injection E as <-.
      destruct ((timeout <? now - start)%Z || (negb has || negb (nsol =? 1)%Z)).
      * eexists. split; [reflexivity|].
        unfold dig_result. cbn [objects.heap objects.source objects.ambient].
        split; [|split; [reflexivity|split; [reflexivity|split]]].
        -- rewrite store_cell_read by exact Hv2. now rewrite Hread2.
        -- eapply frame_trans; [exact Hf12|]. now apply store_cell_frame.
        -- now apply store_cell_valid.
      * eexists. split; [reflexivity|].
        unfold dig_result. cbn [objects.heap objects.source objects.ambient].
        split; [exact Hread2|]. split; [reflexivity|]. split; [reflexivity|].
        split; [exact Hf12|exact Hv2].
    + intros E. injection E as <-. eexists. split; [reflexivity|].
      unfold dig_result. cbn [objects.heap objects.source objects.ambient].
      split; [reflexivity|]. split; [reflexivity|]. split; [reflexivity|].
      split; [apply frame_refl|exact Hv].
Qed.

Lemma dig_loop_sim actives target timeout puzzle n cells :
  forall w P' amb',
    valid_ref (objects.heap w) puzzle -> above n puzzle ->
    n <= length (objects.heap w) ->
    generator.dig_loop actives target timeout cells
      (objects.read (objects.heap w) puzzle, objects.ambient w) = Ok (P', amb') ->
    exists w', objects.dig_loop actives target timeout puzzle cells w = (Ok tt, w')
               /\ dig_result n puzzle w w' P' amb'.
Proof.
  induction cells as [|[r c] rest IH]; intros w P' amb' Hv Hab Hn E.
  - cbn [generator.dig_loop] in E. injection E as <- <-.
    exists w. split; [reflexivity|].
    unfold dig_result. split; [reflexivity|]. split; [reflexivity|].
    split; [reflexivity|]. split; [apply frame_refl|exact Hv].
  - cbn [generator.dig_loop objects.dig_loop fst snd] in *.
    destruct (generator.dig_body actives target timeout r c
                (objects.read (objects.heap w) puzzle, objects.ambient w))
      as [step|e] eqn:Ebody; [|discriminate].
    cbn [bind] in E.
    pose proof (dig_body_sim actives target timeout puzzle n r c w step Hv Hab Hn Ebody)
      as Hsim.
    destruct step as [|[P1 amb1]].
    + rewrite Hsim. unfold objects.and_then. cbn [fst snd].
      injection E as <- <-. exists w. split; [reflexivity|].
      unfold dig_result. split; [reflexivity|]. split; [reflexivity|].
      split; [reflexivity|]. split; [apply frame_refl|exact Hv].
    + destruct Hsim as (w1 & E1 & Hr1 & Ha1 & Hs1 & Hf1 & Hv1).
      rewrite E1. unfold objects.and_then. cbn [fst snd].
      rewrite <- Hr1, <- Ha1 in E.
      destruct (IH w1 P' amb' Hv1 Hab) as (w' & E' & Hr' & Ha' & Hs' & Hf' & Hv').
      * destruct Hf1 as [Hlen _]. lia.
      * exact E.
      * exists w'. split; [exact E'|].
        unfold dig_result. split; [exact Hr'|]. split; [exact Ha'|].
        split; [congruence|]. split; [eapply frame_trans; eauto|exact Hv'].
Qed.

Lemma dig_holes_sim solved target timeout w P' rng' amb' :
  valid_ref (objects.heap w) solved ->
  generator._dig_holes_to_target (objects.source w)
    (objects.read (objects.heap w) solved) target timeout (objects.ambient w)
  = Ok (P', rng', amb') ->
  exists puzzle w',
    objects._dig_holes_to_target solved target timeout w = (Ok puzzle, w')
    /\ returns_fresh w w' puzzle P' rng' amb'.
Proof.
  destruct w as [h rng0 amb].
  unfold generator._dig_holes_to_target, objects._dig_holes_to_target.
  cbn [objects.heap objects.source objects.ambient].
  rewrite copy_grid_id. intros Hv.
  destruct (copy_rows_spec h solved Hv) as (Hread & Hframe & Hv1 & Hab & _).
  destruct (shuffle rng0 active_cells) as [actives rng1]. cbn [fst snd].
  set (h1 := fst (objects.copy_rows h solved)) in *.
  set (puzzle := snd (objects.copy_rows h solved)) in *.
  rewrite <- Hread. intros E.
  destruct (generator.dig_loop actives target timeout actives
              (objects.read h1 puzzle, amb)) as [[P1 amb1]|e] eqn:Eloop;
    [|discriminate].
  cbn [bind] in E. injection E as <- <- <-.
  destruct (dig_loop_sim actives target timeout puzzle (length h) actives
              (objects.mkWorld h1 rng1 amb) P1 amb1 Hv1 Hab) as (w' & E' & H').
  - cbn [objects.heap]. destruct Hframe. lia.
  - exact Eloop.
  - rewrite E'. unfold objects.and_then. cbn [fst snd].
    exists puzzle, w'. split; [reflexivity|].
    destruct H' as (Hr & Ha & Hs & Hf & Hv').
    cbn [objects.heap objects.source objects.ambient] in *.
    unfold returns_fresh. cbn [objects.heap].
    split; [exact Hr|]. split; [exact Hs|]. split; [exact Ha|].
    split; [eapply frame_trans; eauto|]. split; [exact Hv'|exact Hab].
Qed.

(** ** Loops of stores *)

Lemma fold_sim {X : Type} (xs : list X) (fo : objects.Heap -> X -> objects.Heap)
      (fv : Grid -> X -> Grid) g n :
  (forall h x, valid_ref h g ->
     objects.read (fo h x) g = fv (objects.read h g) x
     /\ frame n h (fo h x) /\ valid_ref (fo h x) g) ->
  forall h, valid_ref h g ->
    objects.read (fold_left fo xs h) g = fold_left fv xs (objects.read h g)
    /\ frame n h (fold_left fo xs h) /\ valid_ref (fold_left fo xs h) g.
Proof.
  intros Hstep. induction xs as [|x xs IH]; intros h Hv.
  - simpl. split; [reflexivity|]. split; [apply frame_refl|exact Hv].
  - cbn [fold_left]. destruct (Hstep h x Hv) as (Hr1 & Hf1 & Hv1).
    destruct (IH (fo h x) Hv1) as (Hr2 & Hf2 & Hv2).
    split; [now rewrite Hr2, Hr1|]. split; [eapply frame_trans; eauto|exact Hv2].
Qed.

Lemma store_cell_sim g n r c v h :
  above n g -> valid_ref h g ->
  objects.read (objects.store_cell h g r c v) g = set_cell (objects.read h g) r c v
  /\ frame n h (objects.store_cell h g r c v)
  /\ valid_ref (objects.store_cell h g r c v) g.
Proof.
  intros Hab Hv. split; [now apply store_cell_read|].
  split; [now apply store_cell_frame|now apply store_cell_valid].
Qed.

Lemma embed_sim b g n r0 c0 h :
  above n g -> valid_ref h g ->
  objects.read (objects._embed b h g r0 c0) g = generator._embed b (objects.read h g) r0 c0
  /\ frame n h (objects._embed b h g r0 c0)
  /\ valid_ref (objects._embed b h g r0 c0) g.
Proof.
  intros Hab Hv. unfold objects._embed, generator._embed.
  apply (fold_sim (seq 0 9)
           (fun h r => fold_left (fun h c => objects.store_cell h g (r0 + r) (c0 + c)
                                               (Some (board_get b r c))) (seq 0 9) h)
           (fun gr r => fold_left (fun gr c => set_cell gr (r0 + r) (c0 + c)
                                                 (Some (board_get b r c))) (seq 0 9) gr));
    [|exact Hv].
  intros h1 r Hv1.
  apply (fold_sim (seq 0 9)
           (fun h c => objects.store_cell h g (r0 + r) (c0 + c) (Some (board_get b r c)))
           (fun gr c => set_cell gr (r0 + r) (c0 + c) (Some (board_get b r c))));
    [|exact Hv1].
  intros h2 c Hv2. now apply store_cell_sim.
Qed.

Lemma empty_grid_sim (h : objects.Heap) :
  let h' := fst (objects.empty_samurai_grid h) in
  let g := snd (objects.empty_samurai_grid h) in
  objects.read h' g = model.empty_samurai_grid
  /\ frame (length h) h h' /\ valid_ref h' g /\ above (length h) g.
Proof.
  cbn zeta. unfold objects.empty_samurai_grid. cbn [fst snd].
  set (g := seq (length h) BOARD_SIZE).
  set (h0 := h ++ repeat (repeat None BOARD_SIZE) BOARD_SIZE).
  assert (Hab : above (length h) g) by apply fresh_above.
  assert (Hv0 : valid_ref h0 g).
  { pose proof (fresh_valid h (repeat (repeat (@None Z) BOARD_SIZE) BOARD_SIZE)) as H.
    rewrite repeat_length in H. exact H. }
  assert (Hr0 : objects.read h0 g = repeat (repeat None BOARD_SIZE) BOARD_SIZE).
  { pose proof (read_fresh h (repeat (repeat (@None Z) BOARD_SIZE) BOARD_SIZE)) as H.
    rewrite repeat_length in H. exact H. }
  destruct (fold_sim (seq 0 BOARD_SIZE)
              (fun h r => fold_left
                 (fun h c => if is_active_cell r c then objects.store_cell h g r c None
                             else objects.store_cell h g r c None) (seq 0 BOARD_SIZE) h)
              (fun gr r => fold_left
                 (fun gr c => if is_active_cell r c then set_cell gr r c None
                              else set_cell gr r c None) (seq 0 BOARD_SIZE) gr)
              g (length h)) with (h := h0) as (Hr & Hf & Hv).
  - intros h1 r Hv1.
    apply (fold_sim (seq 0 BOARD_SIZE)
             (fun h c => if is_active_cell r c then objects.store_cell h g r c None
                         else objects.store_cell h g r c None)
             (fun gr c => if is_active_cell r c then set_cell gr r c None
                          else set_cell gr r c None)); [|exact Hv1].
    intros h2 c Hv2. destruct (is_active_cell r c); now apply store_cell_sim.
  - exact Hv0.
  - split; [|split; [|split; [exact Hv|exact Hab]]].
    + rewrite Hr, Hr0. unfold model.empty_samurai_grid. reflexivity.
    + eapply frame_trans; [|exact Hf]. apply frame_app. lia.
Qed.

(** ** The composed solution is built in a fresh grid object *)

Lemma embed5_sim b1 b2 b3 b4 b5 g n h :
  above n g -> valid_ref h g ->
  let h' := objects._embed b5 (objects._embed b4 (objects._embed b3
              (objects._embed b2 (objects._embed b1 h g 0 0) g 0 12) g 6 6) g 12 0)
              g 12 12 in
  objects.read h' g
  = generator._embed b5 (generator._embed b4 (generator._embed b3
      (generator._embed b2 (generator._embed b1 (objects.read h g) 0 0) 0 12) 6 6) 12 0)
      12 12
  /\ frame n h h' /\ valid_ref h' g.
Proof.
  intros Hab Hv. cbn zeta.
  destruct (embed_sim b1 g n 0 0 h Hab Hv) as (R1 & F1 & V1).
  destruct (embed_sim b2 g n 0 12 _ Hab V1) as (R2 & F2 & V2).
  destruct (embed_sim b3 g n 6 6 _ Hab V2) as (R3 & F3 & V3).
  destruct (embed_sim b4 g n 12 0 _ Hab V3) as (R4 & F4 & V4).
  destruct (embed_sim b5 g n 12 12 _ Hab V4) as (R5 & F5 & V5).
  split; [now rewrite R5, R4, R3, R2, R1|].
  split; [|exact V5].
  eapply frame_trans; [exact F1|]. eapply frame_trans; [exact F2|].
  eapply frame_trans; [exact F3|]. eapply frame_trans; [exact F4|exact F5].
Qed.

Lemma and_then_ok {A B : Type} (m : objects.Run A)
      (k : A -> objects.World -> objects.Run B) a w r :
  m = (Ok a, w) -> k a w = r -> objects.and_then m k = r.
Proof. intros -> <-. reflexivity. Qed.

Lemma call_solve_random_ok gs h rng amb b rng' :
  solve_random rng gs = Ok (b, rng') ->
  objects.call_solve_random gs (objects.mkWorld h rng amb)
  = (Ok b, objects.mkWorld h rng' amb).
Proof.
  intros E. unfold objects.call_solve_random.
  cbn [objects.heap objects.source objects.ambient]. rewrite E. reflexivity.
Qed.

Lemma solve_corner_ok c corner gs h rng amb b rng' :
  _extract_overlap_givens c corner = Ok gs ->
  solve_random rng gs = Ok (b, rng') ->
  objects.solve_corner c corner (objects.mkWorld h rng amb)
  = (Ok b, objects.mkWorld h rng' amb).
Proof.
  intros Eg E. unfold objects.solve_corner. rewrite Eg.
  now apply call_solve_random_ok.
Qed.

Lemma composition_sim w G rng' :
  generator._solve_samurai_by_composition (objects.source w) = Ok (G, rng') ->
  exists g w',
    objects._solve_samurai_by_composition w = (Ok g, w')
    /\ returns_fresh w w' g G rng' (objects.ambient w).
Proof.
  destruct w as [h rng0 amb].
  unfold generator._solve_samurai_by_composition, objects._solve_samurai_by_composition.
  cbn [objects.heap objects.source objects.ambient].
  destruct (empty_grid_sim h) as (Hr0 & Hf0 & Hv0 & Hab). cbn zeta.
  set (h0 := fst (objects.empty_samurai_grid h)) in *.
  set (g := snd (objects.empty_samurai_grid h)) in *.
  destruct (solve_random rng0 []) as [[c rng1]|e] eqn:E0; cbn [bind]; [|discriminate].
  destruct (_extract_overlap_givens c "TL") as [gtl|e] eqn:G1; cbn [bind]; [|discriminate].
  destruct (solve_random rng1 gtl) as [[tl rng2]|e] eqn:E1; cbn [bind]; [|discriminate].
  destruct (_extract_overlap_givens c "TR") as [gtr|e] eqn:G2; cbn [bind]; [|discriminate].
  destruct (solve_random rng2 gtr) as [[tr rng3]|e] eqn:E2; cbn [bind]; [|discriminate].
  destruct (_extract_overlap_givens c "BL") as [gbl|e] eqn:G3; cbn [bind]; [|discriminate].
  destruct (solve_random rng3 gbl) as [[bl rng4]|e] eqn:E3; cbn [bind]; [|discriminate].
  destruct (_extract_overlap_givens c "BR") as [gbr|e] eqn:G4; cbn [bind]; [|discriminate].
  destruct (solve_random rng4 gbr) as [[br rng5]|e] eqn:E4; cbn [bind]; [|discriminate].
  destruct (embed5_sim tl tr c bl br g (length h) h0 Hab Hv0) as (R & F & V).
  cbn zeta in R, F, V. rewrite Hr0 in R. rewrite <- R.
  remember (objects.read
              (objects._embed br (objects._embed bl (objects._embed c
                 (objects._embed tr (objects._embed tl h0 g 0 0) g 0 12) g 6 6)
                 g 12 0) g 12 12) g) as Gv eqn:HG.
  clear R. intros E. injection E as -> <-.
  eexists _, _. split.
  - eapply and_then_ok; [apply call_solve_random_ok; exact E0|cbv beta].
    eapply and_then_ok; [eapply solve_corner_ok; [exact G1|exact E1]|cbv beta].
    eapply and_then_ok; [eapply solve_corner_ok; [exact G2|exact E2]|cbv beta].
    eapply and_then_ok; [eapply solve_corner_ok; [exact G3|exact E3]|cbv beta].
    eapply and_then_ok; [eapply solve_corner_ok; [exact G4|exact E4]|cbv beta].
    cbn [objects.heap objects.source objects.ambient]. reflexivity.
  - unfold returns_fresh. cbn [objects.heap objects.source objects.ambient].
    split; [symmetry; exact HG|]. split; [reflexivity|]. split; [reflexivity|].
    split; [exact (frame_trans _ _ _ _ Hf0 F)|]. split; [exact V|exact Hab].
Qed.

(** ** The attempts and the generator *)

Lemma above_weaken m n g : m <= n -> above n g -> above m g.
Proof. intros Hle Hab a Ha. specialize (Hab a Ha). lia. Qed.

Lemma read_kept h h' g :
  valid_ref h g -> frame (length h) h h' -> objects.read h' g = objects.read h g.
Proof. intros [_ Hlt] Hf. exact (read_frame _ _ _ _ Hf Hlt). Qed.

Lemma attempts_sim solved timeout adapt todo :
  forall target w found rng' amb',
    valid_ref (objects.heap w) solved ->
    generator.attempts todo (objects.source w) (objects.read (objects.heap w) solved)
                       target timeout adapt (objects.ambient w)
    = Ok (found, rng', amb') ->
    exists fref w',
      objects.attempts todo solved target timeout adapt w = (Ok fref, w')
      /\ found_fresh w w' fref found rng' amb'.
Proof.
  induction todo as [|k rest IH]; intros target w found rng' amb' Hv.
  - cbn [generator.attempts objects.attempts]. intros E. injection E as <- <- <-.
    exists None, w. split; [reflexivity|].
    repeat split; auto using frame_refl.
  - cbn [generator.attempts].
    destruct (generator._dig_holes_to_target (objects.source w)
                (objects.read (objects.heap w) solved) target timeout
                (objects.ambient w)) as [[[P rng1] amb1]|e] eqn:Ed;
      cbn [bind]; [|discriminate].
    destruct (dig_holes_sim solved target timeout w P rng1 amb1 Hv Ed)
      as (p & w1 & E1 & Hr1 & Hs1 & Ha1 & Hf1 & Hv1 & Hab1).
    rewrite copy_grid_id.
    destruct (solve_unique (global_random amb1) P 2) as [[[has nsol] s]|e] eqn:Es;
      cbn [bind]; [|discriminate].
    destruct w1 as [h1 rng1' [gr1 clk1]].
    cbn [objects.heap objects.source objects.ambient] in Hr1, Hs1, Ha1, Hf1, Hv1.
    subst rng1' amb1 P. cbn [global_random wall_clock] in *.
    destruct (check_unique_spec p h1 rng1 gr1 clk1 (has, nsol) s Hv1 Es)
      as (h2 & E2 & Hf2).
    set (w2 := objects.mkWorld h2 rng1 (mkAmbient (grand s) clk1)) in *.
    assert (Hobj : objects.attempts (k :: rest) solved target timeout adapt w
                   = if has && (nsol =? 1)%Z then (Ok (Some p), w2)
                     else if negb adapt then (Ok None, w2)
                     else objects.attempts rest solved (target + 10) timeout adapt w2).
    { cbn [objects.attempts].
      eapply and_then_ok; [exact E1|cbv beta].
      eapply and_then_ok; [exact E2|cbv beta]. reflexivity. }
    rewrite Hobj. clear Hobj.
    assert (Hf : frame (length (objects.heap w)) (objects.heap w) h2).
    { eapply frame_trans; [exact Hf1|].
      eapply frame_weaken; [|exact Hf2]. destruct Hf1. lia. }
    destruct (has && (nsol =? 1)%Z); [|destruct (negb adapt)].
    + intros E. injection E as <- <- <-. exists (Some p), w2.
      split; [reflexivity|]. unfold found_fresh, w2.
      cbn [objects.heap objects.source objects.ambient].
      split; [reflexivity|]. split; [reflexivity|]. split; [exact Hf|].
      split; [|split; [|exact Hab1]].
      * exact (read_kept _ _ _ Hv1 Hf2).
      * exact (valid_ref_frame _ _ _ _ Hf2 Hv1).
    + intros E. injection E as <- <- <-. exists None, w2.
      split; [reflexivity|]. unfold found_fresh, w2.
      cbn [objects.heap objects.source objects.ambient].
      split; [reflexivity|]. split; [reflexivity|]. split; [exact Hf|exact I].
    + intros E.
      destruct (IH (target + 10) w2 found rng' amb') as (fref & w' & E' & H').
      * exact (valid_ref_frame _ _ _ _ Hf Hv).
      * unfold w2. cbn [objects.heap objects.source objects.ambient].
        rewrite (read_kept _ _ _ Hv Hf). exact E.
      * exists fref, w'. split; [exact E'|].
        destruct H' as (Hs' & Ha' & Hf' & Hm').
        unfold w2 in Hf', Hm'. cbn [objects.heap] in Hf', Hm'.
        assert (Hle : length (objects.heap w) <= length h2) by (destruct Hf; lia).
        split; [exact Hs'|]. split; [exact Ha'|].
        split; [eapply frame_trans; [exact Hf|];
                eapply frame_weaken; [|exact Hf']; exact Hle|].
        destruct found as [P|], fref as [q|]; try exact Hm'.
        destruct Hm' as (Hq1 & Hq2 & Hq3).
        split; [exact Hq1|]. split; [exact Hq2|].
        eapply above_weaken; [|exact Hq3]. exact Hle.
Qed.

(** The object-level generator returns what the value-level one returns,
    and from the composition on it writes to fresh rows only. *)
Lemma generate_sim difficulty timeout adapt w P S rng' amb' :
  generator.generate_samurai (objects.source w) difficulty timeout adapt
                             (objects.ambient w) = Ok (P, S, rng', amb') ->
  exists sref wc pref w',
    objects._solve_samurai_by_composition w = (Ok sref, wc)
    /\ objects.generate_samurai difficulty timeout adapt w = (Ok (pref, sref), w')
    /\ generated wc w' pref sref P S rng' amb'.
Proof.
  unfold generator.generate_samurai, objects.generate_samurai. cbv zeta.
  destruct (lookup (lower difficulty) DIFFICULTY_CLUES) as [base|]; [|discriminate].
  destruct (generator._solve_samurai_by_composition (objects.source w))
    as [[Sv rng1]|e] eqn:Ec; cbn [bind]; [|discriminate].
  destruct (composition_sim w Sv rng1 Ec) as (sref & wc & Eo & Hr & Hs & Ha & Hf & Hv & Hab).
  destruct (generator.attempts (seq 0 3) rng1 Sv base timeout adapt (objects.ambient w))
    as [[[found rng2] amb2]|e] eqn:Et; cbn [bind]; [|discriminate].
  rewrite <- Hs, <- Hr, <- Ha in Et.
  destruct (attempts_sim sref timeout adapt (seq 0 3) base wc found rng2 amb2 Hv Et)
    as (fref & w2 & Eo2 & Hs2 & Ha2 & Hf2 & Hm).
  destruct found as [Pv|], fref as [p|]; try contradiction.
  - intros E. injection E as <- <- <- <-. destruct Hm as (Hp1 & Hp2 & Hp3).
    exists sref, wc, p, w2. split; [exact Eo|]. split.
    + eapply and_then_ok; [exact Eo|cbv beta].
      eapply and_then_ok; [exact Eo2|cbv beta]. reflexivity.
    + unfold generated. rewrite (read_kept _ _ _ Hv Hf2).
      split; [exact Hp1|]. split; [exact Hr|]. split; [exact Hr|].
      split; [exact Hs2|]. split; [exact Ha2|]. split; [exact Hf2|].
      split; [exact Hv|]. split; [exact Hp2|exact Hp3].
  - destruct (generator._dig_holes_to_target rng2 Sv (Nat.max base 210) timeout amb2)
      as [[[Pv rng3] amb3]|e] eqn:Ed; cbn [bind]; [|discriminate].
    intros E. injection E as <- <- <- <-.
    assert (Hv2 : valid_ref (objects.heap w2) sref)
      by exact (valid_ref_frame _ _ _ _ Hf2 Hv).
    rewrite <- Hs2, <- Ha2, <- Hr, <- (read_kept _ _ _ Hv Hf2) in Ed.
    destruct (dig_holes_sim sref (Nat.max base 210) timeout w2 Pv rng3 amb3 Hv2 Ed)
      as (p & w3 & Eo3 & Hp1 & Hs3 & Ha3 & Hf3 & Hp2 & Hp3).
    assert (Hle : length (objects.heap wc) <= length (objects.heap w2))
      by (destruct Hf2; lia).
    assert (Hf' : frame (length (objects.heap wc)) (objects.heap wc) (objects.heap w3)).
    { eapply frame_trans; [exact Hf2|]. eapply frame_weaken; [|exact Hf3]. exact Hle. }
    exists sref, wc, p, w3. split; [exact Eo|]. split.
    + eapply and_then_ok; [exact Eo|cbv beta].
      eapply and_then_ok; [exact Eo2|cbv beta].
      eapply and_then_ok; [exact Eo3|cbv beta]. reflexivity.
    + unfold generated. rewrite (read_kept _ _ _ Hv Hf').
      split; [exact Hp1|]. split; [exact Hr|]. split; [exact Hr|].
      split; [exact Hs3|]. split; [exact Ha3|]. split; [exact Hf'|].
      split; [exact Hv|]. split; [exact Hp2|].
      eapply above_weaken; [|exact Hp3]. exact Hle.
Qed.

(** An unknown difficulty raises before anything is allocated or drawn. *)
Lemma generate_raises difficulty timeout adapt w :
  lookup (lower difficulty) DIFFICULTY_CLUES = None ->
  objects.generate_samurai difficulty timeout adapt w = (Raise ValueError, w).
Proof. intros E. unfold objects.generate_samurai. cbv zeta. rewrite E. reflexivity. Qed.
(* ================================================================== *)
(** * The properties of the generator *)
(* ================================================================== *)

Import geometry model random solver dlx9 generator.

(** ** Topology *)

(** C9: every cell of the canvas is covered by at most two boards; a cell
    covered by exactly two boards is covered by the center board and one
    corner board, and the cells those two boards share are exactly the 3x3
    block of the canvas around it, which is one box of the corner board and
    one box of the center board; two different corner boards share no
    cell. *)
Theorem five_board_topology :
  (forall r c, length (boards_covering_cell r c) <= 2)
  /\ (forall r c, length (boards_covering_cell r c) = 2 ->
        exists b, In b CORNERS
          /\ (boards_covering_cell r c = [b; CENTER]
              \/ boards_covering_cell r c = [CENTER; b])
          /\ overlap_block b CENTER (3 * (r / 3)) (3 * (c / 3)))
  /\ (forall b1 b2 r c, In b1 CORNERS -> In b2 CORNERS -> b1 <> b2 ->
        covers b1 r c && covers b2 r c = false).
Proof.
  split; [exact covering_at_most_two|].
  split; [exact covering_two|].
  intros b1 b2 r c. apply corners_disjoint.
Qed.

(** ** The solution counter *)

Lemma ones_with_hole_wf : wf_grid ones_with_hole.
Proof. apply wf_gridb_wf. vm_compute. reflexivity. Qed.

Lemma ones_grid_wf : wf_grid ones_grid.
Proof. apply wf_gridb_wf. vm_compute. reflexivity. Qed.

(** C10: on a 21x21 grid and with a limit of at least 1, [solve_unique]
    returns, and when the count it returns is below the limit the grid it
    worked on is the grid it was given. *)
Theorem solve_unique_exhausted_restores grand g limit :
  wf_grid g -> (1 <= limit)%Z ->
  exists has n s,
    solve_unique grand g limit = Ok (has, n, s)
    /\ ((n < limit)%Z -> grid s = g).
Proof.
  intros Hwf Hl.
  destruct (solve_unique_spec grand g limit Hwf) as (s & E & Hkeep); [lia|].
  exists (fst (unique_answer g limit)), (snd (unique_answer g limit)), s.
  split; [|exact Hkeep].
  rewrite E. destruct (unique_answer g limit). reflexivity.
Qed.

Lemma solve_unique_exhausted_restores_hole :
  wf_grid ones_with_hole /\ (1 <= 9)%Z
  /\ exists has n s,
       solve_unique rng_zero ones_with_hole 9 = Ok (has, n, s)
       /\ ((n < 9)%Z -> grid s = ones_with_hole).
Proof.
  split; [exact ones_with_hole_wf|]. split; [lia|].
  apply (solve_unique_exhausted_restores rng_zero ones_with_hole 9);
    [exact ones_with_hole_wf|lia].
Defined.

(** When the count reaches the limit the search returns at once, and the
    value it tried last stays in the grid. *)
Lemma solve_unique_capped_leaves_value :
  exists s, solve_unique rng_zero ones_with_hole 1 = Ok (true, 1%Z, s)
            /\ cell ones_with_hole 20 20 = None
            /\ cell (grid s) 20 20 = Some 3%Z.
Proof. eexists. split; [vm_compute; reflexivity|]. split; reflexivity. Qed.

(** ** The composed solution *)

(** C2: for every random source the composition returns a 21x21 grid in
    which every active cell holds a value, every inactive cell is empty,
    and each of the five boards, read off the grid, has each digit exactly
    once in every row, every column and every box; the overlap blocks were
    written by two boards and satisfy both. *)
Theorem composition_is_valid rng :
  exists g rng',
    _solve_samurai_by_composition rng = Ok (g, rng')
    /\ wf_grid g
    /\ full_grid g
    /\ (forall r c, is_active_cell r c = false -> cell g r c = None)
    /\ (forall b, In b BOARDS ->
          valid_board9 (window g (board_r0 b) (board_c0 b)) = true)
    /\ (forall r c b, In b (boards_covering_cell r c) ->
          valid_board9 (window g (board_r0 b) (board_c0 b)) = true).
Proof.
  destruct (composition_spec rng) as (g & rng' & E & Hwf & Hfull & Hval & Hin).
  exists g, rng'. split; [exact E|]. split; [exact Hwf|]. split; [exact Hfull|].
  split; [exact Hin|]. split; [exact Hval|].
  intros r c b Hb. apply Hval. unfold boards_covering_cell in Hb.
  apply filter_In in Hb. exact (proj1 Hb).
Qed.

(** ** The single-board solver *)

(** C3: on valid givens (cells and digits in range, no cell and no digit
    given twice, all cells in one box) [solve_random] returns a 9x9 board
    in which every row, every column and every box has each digit exactly
    once and every given cell [(r, c, d)] holds [d + 1]; so does the
    backtracker it falls back on, [_solve_from_scratch]; and the givens
    extracted from a valid center board for a corner are such givens. *)
Theorem solve_random_returns_valid_board rng gs :
  valid_givens gs = true ->
  (exists b rng',
     solve_random rng gs = Ok (b, rng')
     /\ shape9 b /\ valid_board9 b = true /\ honors gs b)
  /\ (exists b rng',
        _solve_from_scratch rng gs = Ok (b, rng')
        /\ shape9 b /\ valid_board9 b = true /\ honors gs b)
  /\ (forall center pr0 pc0 sr0 sc0 rng1,
        consistent center -> In (pr0, pc0, sr0, sc0) OVERLAPS ->
        exists b rng',
          solve_random rng1 (overlap_givens center pr0 pc0 sr0 sc0) = Ok (b, rng')
          /\ shape9 b /\ valid_board9 b = true
          /\ honors (overlap_givens center pr0 pc0 sr0 sc0) b).
Proof.
  intros Hv. apply valid_givens_ok in Hv.
  split; [|split].
  - destruct (solve_random_spec rng gs Hv) as (b & rng' & E & Hs & Hc & Hh).
    exists b, rng'. repeat split; auto using consistent_valid; apply Hs.
  - destruct (solve_from_scratch_spec rng gs Hv) as (b & rng' & E & Hs & Hc & Hh).
    exists b, rng'. repeat split; auto using consistent_valid; apply Hs.
  - intros center pr0 pc0 sr0 sc0 rng1 Hcen Hin.
    pose proof (overlap_givens_ok center pr0 pc0 sr0 sc0 Hcen Hin) as Hok.
    destruct (solve_random_spec rng1 _ Hok) as (b & rng' & E & Hs & Hc & Hh).
    exists b, rng'. repeat split; auto using consistent_valid; apply Hs.
Qed.

Lemma solve_random_returns_valid_board_one_given :
  valid_givens [(6, 7, 4%Z); (7, 8, 0%Z)] = true
  /\ exists b rng',
       solve_random rng_zero [(6, 7, 4%Z); (7, 8, 0%Z)] = Ok (b, rng')
       /\ shape9 b /\ valid_board9 b = true
       /\ honors [(6, 7, 4%Z); (7, 8, 0%Z)] b.
Proof.
  split; [reflexivity|].
  exact (proj1 (solve_random_returns_valid_board
                  rng_zero [(6, 7, 4%Z); (7, 8, 0%Z)] eq_refl)).
Defined.

(** ** One pass of the digging loop *)

Lemma unique_answer_range g limit :
  (0 < limit)%Z ->
  (0 <= snd (unique_answer g limit) <= limit)%Z
  /\ fst (unique_answer g limit) = (0 <? snd (unique_answer g limit))%Z.
Proof.
  intros Hl. unfold unique_answer. cbn [fst snd].
  pose proof (completions_nonneg search_depth g). split; [lia|reflexivity].
Qed.

(** C5: one pass of the loop of [_dig_holes_to_target] on the cell
    [(r, c)].  With the clue count at most the target the loop ends and
    the puzzle is returned as it is.  Otherwise, when the cell holds a
    value, the cell is cleared, [solve_unique] runs with limit 2 on a copy
    and the clock is read before and after; the pass ends with the puzzle
    as it was before the pass when the two readings are more than the
    budget apart or the count is 0 or the count is above 1, and with the
    cell cleared otherwise.  (A cell that is already empty is passed over.) *)
Theorem dig_pass_restores_or_keeps actives target timeout r c puzzle amb :
  wf_grid puzzle ->
  (count_clues actives puzzle <= target ->
     forall rest,
       dig_body actives target timeout r c (puzzle, amb) = Ok Break
       /\ dig_loop actives target timeout ((r, c) :: rest) (puzzle, amb)
          = Ok (puzzle, amb))
  /\ (target < count_clues actives puzzle ->
      forall v, cell puzzle r c = Some v ->
      exists has nsol s puzzle',
        solve_unique (global_random amb) (copy_grid (set_cell puzzle r c None)) 2
        = Ok (has, nsol, s)
        /\ dig_body actives target timeout r c (puzzle, amb)
           = Ok (Continue (puzzle',
                           mkAmbient (grand s) (clock_after 2 (wall_clock amb))))
        /\ (0 <= nsol <= 2)%Z
        /\ has = (0 <? nsol)%Z
        /\ set_cell puzzle r c None <> puzzle
        /\ (timed_out timeout (wall_clock amb) = true \/ nsol = 0%Z \/ (1 < nsol)%Z ->
              puzzle' = puzzle)
        /\ (~ (timed_out timeout (wall_clock amb) = true \/ nsol = 0%Z \/ (1 < nsol)%Z) ->
              puzzle' = set_cell puzzle r c None))
  /\ (target < count_clues actives puzzle -> cell puzzle r c = None ->
        dig_body actives target timeout r c (puzzle, amb)
        = Ok (Continue (puzzle, amb))).
Proof.
  intros Hwf.
  destruct (dig_body_spec actives target timeout r c puzzle amb Hwf)
    as (Hstop & Hskip & Hdig).
  split; [|split; [|exact Hskip]].
  - intros Hle rest. split; [exact (Hstop Hle)|].
    cbn [dig_loop]. rewrite (Hstop Hle). reflexivity.
  - intros Hgt v Hv.
    destruct (Hdig Hgt) as (s & Es & Eb); [rewrite Hv; discriminate|].
    destruct (unique_answer_range (set_cell puzzle r c None) 2) as [Hr Hh]; [lia|].
    destruct (unique_answer (set_cell puzzle r c None) 2) as [has nsol] eqn:Ea.
    cbn [fst snd] in *.
    eexists has, nsol, s, _. split; [exact Es|]. split; [exact Eb|].
    split; [exact Hr|]. split; [exact Hh|].
    split.
    { intros Heq. pose proof (cell_cleared puzzle r c) as Hc.
      rewrite Heq, Hv in Hc. discriminate. }
    subst has.
    destruct (timed_out timeout (wall_clock amb)); cbn [orb].
    { split; [reflexivity|]. intros Hn. exfalso. apply Hn. now left. }
    destruct (Z.ltb_spec 0 nsol) as [Hpos|Hpos]; cbn [negb orb].
    + destruct (Z.eqb_spec nsol 1) as [H1|H1]; cbn [negb].
      * split; [|reflexivity]. intros [H|[H|H]]; [discriminate|lia|lia].
      * split; [reflexivity|]. intros Hn. exfalso. apply Hn. right. right. lia.
    + split; [reflexivity|]. intros Hn. exfalso. apply Hn. right. left. lia.
Qed.

Lemma dig_pass_restores_or_keeps_ones :
  wf_grid ones_grid
  /\ (170 < count_clues active_cells ones_grid ->
      forall v, cell ones_grid 0 0 = Some v ->
      exists has nsol s puzzle',
        solve_unique (global_random amb_slow) (copy_grid (set_cell ones_grid 0 0 None)) 2
        = Ok (has, nsol, s)
        /\ dig_body active_cells 170 5 0 0 (ones_grid, amb_slow)
           = Ok (Continue (puzzle',
                           mkAmbient (grand s) (clock_after 2 (wall_clock amb_slow))))
        /\ (0 <= nsol <= 2)%Z
        /\ has = (0 <? nsol)%Z
        /\ set_cell ones_grid 0 0 None <> ones_grid
        /\ (timed_out 5 (wall_clock amb_slow) = true \/ nsol = 0%Z \/ (1 < nsol)%Z ->
              puzzle' = ones_grid)
        /\ (~ (timed_out 5 (wall_clock amb_slow) = true \/ nsol = 0%Z \/ (1 < nsol)%Z) ->
              puzzle' = set_cell ones_grid 0 0 None)).
Proof.
  split; [exact ones_grid_wf|].
  exact (proj1 (proj2 (dig_pass_restores_or_keeps
                         active_cells 170 5 0 0 ones_grid amb_slow ones_grid_wf))).
Defined.

(** ** The generator *)

Lemma known_difficulty d :
  In d DIFFICULTIES -> exists base, lookup d DIFFICULTY_CLUES = Some base.
Proof.
  intros Hin. destruct (lookup d DIFFICULTY_CLUES) as [base|] eqn:E; [eauto|].
  apply lookup_none in E. contradiction.
Qed.

Lemma easy_is_known : In (lower "easy") DIFFICULTIES.
Proof. vm_compute. auto. Qed.

Lemma certified_copy grand g :
  wf_grid g -> certified g ->
  exists s, solve_unique grand (copy_grid g) 2 = Ok (true, 1%Z, s).
Proof. intros Hwf Hc. rewrite copy_grid_id. now apply certified_answer. Qed.

Lemma dug_clue_count rng solved target timeout amb :
  wf_grid solved -> full_grid solved ->
  exists puzzle rng' amb',
    _dig_holes_to_target rng solved target timeout amb = Ok (puzzle, rng', amb')
    /\ clue_count puzzle <= 369
    /\ (target <= 369 -> target <= clue_count puzzle).
Proof.
  intros Hwf Hfull.
  destruct (dig_holes_spec rng solved target timeout amb Hwf) as (g & E & Hdug).
  cbv zeta in E, Hdug.
  destruct (shuffled_actives rng) as [Hperm Hnd].
  destruct (dug_count _ _ _ _ Hnd Hdug) as [Hle Hge].
  match type of Hdug with dug _ _ _ ?p => set (P := p) in * end.
  pose proof (count_clues_perm _ _ solved Hperm) as P1.
  pose proof (count_clues_perm _ _ P Hperm) as P2.
  pose proof (full_grid_count solved Hfull) as Hc.
  rewrite active_cells_length in Hc. unfold clue_count in *.
  eexists P, _, _. split; [exact E|]. split; [lia|]. intros Ht. lia.
Qed.

(** C6: the clue table is easy 170, medium 140, hard 110, evil 80; for a
    known difficulty the returned solution has 369 clues and the returned
    puzzle has at least the base target of the difficulty and at most 369;
    and a dig of the solution to any target up to 369 ends with at least
    that target, in particular with the fallback target, which is at least
    the base target. *)
Theorem puzzle_clue_count_bounds rng difficulty timeout adapt amb :
  In (lower difficulty) DIFFICULTIES ->
  DIFFICULTY_CLUES
  = [("easy"%string, 170); ("medium"%string, 140);
     ("hard"%string, 110); ("evil"%string, 80)]
  /\ exists base puzzle solution rng' amb',
       lookup (lower difficulty) DIFFICULTY_CLUES = Some base
       /\ generate_samurai rng difficulty timeout adapt amb
          = Ok (puzzle, solution, rng', amb')
       /\ clue_count solution = 369
       /\ base <= clue_count puzzle <= 369
       /\ base <= Nat.max base 210 <= 369
       /\ (forall rng1 target timeout1 amb1, target <= 369 ->
             exists dug_puzzle rng2 amb2,
               _dig_holes_to_target rng1 solution target timeout1 amb1
               = Ok (dug_puzzle, rng2, amb2)
               /\ target <= clue_count dug_puzzle <= 369).
Proof.
  intros Hin. split; [reflexivity|].
  destruct (known_difficulty _ Hin) as [base Hbase].
  destruct (generate_spec rng difficulty timeout adapt amb base Hbase)
    as (solved & rng1 & grand' & Ec & Hwf & Hfull & Hval & Eg & Hdug).
  cbv zeta in Eg, Hdug.
  destruct (shuffled_actives rng1) as [Hperm Hnd].
  destruct (dug_count _ _ _ _ Hnd Hdug) as [Hle Hge].
  match type of Hdug with dug _ _ _ ?p => set (P := p) in * end.
  pose proof (count_clues_perm _ _ solved Hperm) as P1.
  pose proof (count_clues_perm _ _ P Hperm) as P2.
  pose proof (full_grid_count solved Hfull) as Hc.
  rewrite active_cells_length in Hc. unfold clue_count in *.
  destruct (lookup_difficulty _ _ Hbase) as [_ Hb].
  assert (Hb' : base <= 170) by (cbn [In] in Hb; lia).
  eexists base, P, solved, _, _. split; [exact Hbase|]. split; [exact Eg|].
  split; [exact Hc|]. split; [lia|]. split; [lia|].
  intros rng2 target timeout1 amb1 Ht.
  destruct (dug_clue_count rng2 solved target timeout1 amb1 Hwf Hfull)
    as (p & r & a & E & H1 & H2).
  exists p, r, a. split; [exact E|]. unfold clue_count in *. split; [auto|lia].
Qed.

Lemma puzzle_clue_count_bounds_easy :
  In (lower "easy") DIFFICULTIES
  /\ exists base puzzle solution rng' amb',
       lookup (lower "easy") DIFFICULTY_CLUES = Some base
       /\ generate_samurai rng_zero "easy" 5 true amb_slow
          = Ok (puzzle, solution, rng', amb')
       /\ clue_count solution = 369
       /\ base <= clue_count puzzle <= 369
       /\ base <= Nat.max base 210 <= 369
       /\ (forall rng1 target timeout1 amb1, target <= 369 ->
             exists dug_puzzle rng2 amb2,
               _dig_holes_to_target rng1 solution target timeout1 amb1
               = Ok (dug_puzzle, rng2, amb2)
               /\ target <= clue_count dug_puzzle <= 369).
Proof.
  split; [exact easy_is_known|].
  exact (proj2 (puzzle_clue_count_bounds rng_zero "easy" 5 true amb_slow easy_is_known)).
Defined.

(** ** Puzzle and solution as objects *)

Lemma generate_objects difficulty timeout adapt w :
  In (lower difficulty) DIFFICULTIES ->
  exists P S rng' amb' sref wc pref w',
    generator.generate_samurai (objects.source w) difficulty timeout adapt
                               (objects.ambient w) = Ok (P, S, rng', amb')
    /\ subset_of P S
    /\ objects._solve_samurai_by_composition w = (Ok sref, wc)
    /\ objects.generate_samurai difficulty timeout adapt w = (Ok (pref, sref), w')
    /\ generated wc w' pref sref P S rng' amb'.
Proof.
  intros Hin. destruct (known_difficulty _ Hin) as [base Hbase].
  destruct (generate_spec (objects.source w) difficulty timeout adapt
              (objects.ambient w) base Hbase)
    as (solved & rng1 & grand' & Ec & Hwf & Hfull & Hval & Eg & Hdug).
  cbv zeta in Eg, Hdug.
  match type of Hdug with dug _ _ _ ?p => set (P := p) in * end.
  destruct (generate_sim difficulty timeout adapt w _ _ _ _ Eg)
    as (sref & wc & pref & w' & Eo & Eobj & Hgen).
  exists P, solved. eexists _, _. exists sref, wc, pref, w'.
  split; [exact Eg|]. split; [exact (dug_subset _ _ _ _ Hdug)|].
  split; [exact Eo|]. split; [exact Eobj|exact Hgen].
Qed.

(** C4: in the run of [generate_samurai] with grids as objects, for a
    known difficulty: the solution object returned is the one the
    composition returned, and its rows hold at the return what they held
    when the composition returned; no row that existed at that moment has
    changed, and the puzzle object consists of rows allocated later, none
    of them a row of the solution; every cell of the puzzle is empty or
    equal to the cell of the solution; and the two grids are the ones of
    the run with grids as values. *)
Theorem puzzle_subset_solution_untouched difficulty timeout adapt w :
  In (lower difficulty) DIFFICULTIES ->
  exists sref wc pref w',
    objects._solve_samurai_by_composition w = (Ok sref, wc)
    /\ objects.generate_samurai difficulty timeout adapt w = (Ok (pref, sref), w')
    /\ subset_of (objects.read (objects.heap w') pref)
                 (objects.read (objects.heap w') sref)
    /\ objects.read (objects.heap w') sref = objects.read (objects.heap wc) sref
    /\ frame (length (objects.heap wc)) (objects.heap wc) (objects.heap w')
    /\ above (length (objects.heap wc)) pref
    /\ (forall a, In a pref -> ~ In a sref)
    /\ generator.generate_samurai (objects.source w) difficulty timeout adapt
                                  (objects.ambient w)
       = Ok (objects.read (objects.heap w') pref,
             objects.read (objects.heap w') sref,
             objects.source w', objects.ambient w').
Proof.
  intros Hin.
  destruct (generate_objects difficulty timeout adapt w Hin)
    as (P & S & rng' & amb' & sref & wc & pref & w' & Eg & Hsub & Eo & Eobj
        & HP & HS & HSc & Hs & Ha & Hf & Hvs & Hvp & Hab).
  exists sref, wc, pref, w'.
  split; [exact Eo|]. split; [exact Eobj|].
  split; [rewrite HP, HS; exact Hsub|].
  split; [now rewrite HS, HSc|]. split; [exact Hf|]. split; [exact Hab|].
  split.
  - intros a Hp Hsr. specialize (Hab a Hp). destruct Hvs as [_ Hlt].
    specialize (Hlt a Hsr). lia.
  - rewrite HP, HS, Hs, Ha. exact Eg.
Qed.

Lemma puzzle_subset_solution_untouched_easy :
  In (lower "easy") DIFFICULTIES
  /\ exists sref wc pref w',
       objects._solve_samurai_by_composition world_zero = (Ok sref, wc)
       /\ objects.generate_samurai "easy" 5 true world_zero = (Ok (pref, sref), w')
       /\ subset_of (objects.read (objects.heap w') pref)
                    (objects.read (objects.heap w') sref)
       /\ objects.read (objects.heap w') sref = objects.read (objects.heap wc) sref
       /\ frame (length (objects.heap wc)) (objects.heap wc) (objects.heap w')
       /\ above (length (objects.heap wc)) pref
       /\ (forall a, In a pref -> ~ In a sref)
       /\ generator.generate_samurai (objects.source world_zero) "easy" 5 true
                                     (objects.ambient world_zero)
          = Ok (objects.read (objects.heap w') pref,
                objects.read (objects.heap w') sref,
                objects.source w', objects.ambient w').
Proof.
  split; [exact easy_is_known|].
  exact (puzzle_subset_solution_untouched "easy" 5 true world_zero easy_is_known).
Defined.

(** ** The difficulty argument *)

(** C7, as the code has it: the difficulty is lower-cased before it is
    looked up, and [generate_samurai] raises [ValueError] exactly when the
    lower-cased argument is none of easy, medium, hard, evil; it then
    raises in the world it was called in: no grid was allocated, and
    neither the random source nor the global generator nor the clock was
    used. *)
Theorem unknown_difficulty_raises_first difficulty timeout adapt w :
  (fst (objects.generate_samurai difficulty timeout adapt w) = Raise ValueError
   <-> ~ In (lower difficulty) DIFFICULTIES)
  /\ (generator.generate_samurai (objects.source w) difficulty timeout adapt
                                 (objects.ambient w) = Raise ValueError
      <-> ~ In (lower difficulty) DIFFICULTIES)
  /\ (~ In (lower difficulty) DIFFICULTIES ->
        objects.generate_samurai difficulty timeout adapt w = (Raise ValueError, w)).
Proof.
  assert (Hraise : ~ In (lower difficulty) DIFFICULTIES ->
                   objects.generate_samurai difficulty timeout adapt w
                   = (Raise ValueError, w)).
  { intros Hn. apply generate_raises. now apply lookup_none. }
  assert (Hok : In (lower difficulty) DIFFICULTIES ->
                exists out w' res,
                  objects.generate_samurai difficulty timeout adapt w = (Ok out, w')
                  /\ generator.generate_samurai (objects.source w) difficulty timeout
                                                adapt (objects.ambient w) = Ok res).
  { intros Hin.
    destruct (generate_objects difficulty timeout adapt w Hin)
      as (P & S & rng' & amb' & sref & wc & pref & w' & Eg & _ & _ & Eobj & _).
    eauto. }
  assert (Hdec : In (lower difficulty) DIFFICULTIES \/ ~ In (lower difficulty) DIFFICULTIES).
  { destruct (in_dec string_dec (lower difficulty) DIFFICULTIES); auto. }
  split; [|split; [|exact Hraise]].
  - split.
    + intros E Hin. destruct (Hok Hin) as (out & w' & res & E1 & _).
      rewrite E1 in E. discriminate.
    + intros Hn. now rewrite (Hraise Hn).
  - split.
    + intros E Hin. destruct (Hok Hin) as (out & w' & res & _ & E2).
      rewrite E2 in E. discriminate.
    + intros Hn. unfold generator.generate_samurai. cbv zeta.
      apply lookup_none in Hn. now rewrite Hn.
Qed.

(** C7, as stated, fails on an argument in capitals: the string EASY is
    none of the four names, and the call returns a pair of grids. *)
Lemma uppercase_difficulty_accepted :
  ~ In "EASY"%string DIFFICULTIES
  /\ (exists res, generator.generate_samurai rng_zero "EASY" 5 true amb_slow = Ok res)
  /\ (exists out w', objects.generate_samurai "EASY" 5 true world_zero = (Ok out, w')).
Proof.
  assert (Hin : In (lower "EASY") DIFFICULTIES) by (vm_compute; auto).
  destruct (generate_objects "EASY" 5 true world_zero Hin)
    as (P & S & rng' & amb' & sref & wc & pref & w' & Eg & _ & _ & Eobj & _).
  split; [|split].
  - unfold DIFFICULTIES, DIFFICULTY_CLUES. cbn [map fst In].
    intros [H|[H|[H|[H|[]]]]]; discriminate H.
  - eexists. exact Eg.
  - eexists _, _. exact Eobj.
Qed.

(** ** Determinism *)

(** C8, as the code has it: two runs from the same state of the random
    source, with the same arguments and the same clock readings, return
    the same puzzle, the same solution and the same state of the random
    source, whatever the states of the global random generator are. *)
Theorem generate_deterministic_given_clock rng difficulty timeout adapt clk grand1 grand2 :
  In (lower difficulty) DIFFICULTIES ->
  exists puzzle solution rng' amb1 amb2,
    generate_samurai rng difficulty timeout adapt (mkAmbient grand1 clk)
    = Ok (puzzle, solution, rng', amb1)
    /\ generate_samurai rng difficulty timeout adapt (mkAmbient grand2 clk)
       = Ok (puzzle, solution, rng', amb2)
    /\ wall_clock amb1 = wall_clock amb2.
Proof.
  intros Hin. destruct (known_difficulty _ Hin) as [base Hbase].
  destruct (generate_spec rng difficulty timeout adapt (mkAmbient grand1 clk) base Hbase)
    as (solved & rng1 & g1 & Ec & _ & _ & _ & Eg1 & _).
  destruct (generate_spec rng difficulty timeout adapt (mkAmbient grand2 clk) base Hbase)
    as (solved' & rng1' & g2 & Ec' & _ & _ & _ & Eg2 & _).
  cbv zeta in Eg1, Eg2. cbn [wall_clock] in Eg1, Eg2.
  rewrite Ec in Ec'. injection Ec' as <- <-.
  eexists _, _, _, _, _. split; [exact Eg1|]. split; [exact Eg2|].
  cbn [wall_clock]. reflexivity.
Qed.

Lemma generate_deterministic_given_clock_easy :
  In (lower "easy") DIFFICULTIES
  /\ exists puzzle solution rng' amb1 amb2,
       generate_samurai rng_zero "easy" 5 true (mkAmbient rng_zero clock_slow)
       = Ok (puzzle, solution, rng', amb1)
       /\ generate_samurai rng_zero "easy" 5 true
            (mkAmbient (mkRandom (fun k => k) 0) clock_slow)
          = Ok (puzzle, solution, rng', amb2)
       /\ wall_clock amb1 = wall_clock amb2.
Proof.
  split; [exact easy_is_known|].
  exact (generate_deterministic_given_clock
           rng_zero "easy" 5 true clock_slow rng_zero (mkRandom (fun k => k) 0)
           easy_is_known).
Defined.

(** C8, as stated, fails: from the same state of the random source and
    with the same arguments, the run on the slow clock returns a puzzle
    with 369 clues and the run on the clock whose first two readings
    coincide returns one with 368; and [solve_unique] takes the numbers
    for its shuffle from the global generator, seven of them on the grid
    of ones with one hole. *)
Lemma generate_depends_on_clock :
  (exists p1 s1 r1 a1 p2 s2 r2 a2,
     generate_samurai rng_zero "easy" 5 true amb_slow = Ok (p1, s1, r1, a1)
     /\ generate_samurai rng_zero "easy" 5 true amb_fast_once = Ok (p2, s2, r2, a2)
     /\ clue_count p1 = 369 /\ clue_count p2 = 368
     /\ p1 <> p2)
  /\ (exists s, solve_unique rng_zero ones_with_hole 2 = Ok (true, 2%Z, s)
                /\ cursor rng_zero = 0 /\ cursor (grand s) = 7).
Proof.
  split.
  - assert (H1 : clues_returned (generate_samurai rng_zero "easy" 5 true amb_slow)
                 = Some 369) by (vm_compute; reflexivity).
    assert (H2 : clues_returned (generate_samurai rng_zero "easy" 5 true amb_fast_once)
                 = Some 368) by (vm_compute; reflexivity).
    destruct (generate_samurai rng_zero "easy" 5 true amb_slow)
      as [[[[p1 s1] r1] a1]|e1]; [|discriminate H1].
    destruct (generate_samurai rng_zero "easy" 5 true amb_fast_once)
      as [[[[p2 s2] r2] a2]|e2]; [|discriminate H2].
    cbn [clues_returned fst] in H1, H2.
    injection H1 as H1. injection H2 as H2.
    exists p1, s1, r1, a1, p2, s2, r2, a2.
    split; [reflexivity|]. split; [reflexivity|]. split; [exact H1|]. split; [exact H2|].
    intros Heq. rewrite Heq in H1. rewrite H1 in H2. discriminate H2.
  - eexists. split; [vm_compute; reflexivity|]. split; reflexivity.
Qed.
(* ================================================================== *)
(** * More on the geometry of the canvas *)
(* ================================================================== *)

Import geometry.

Lemma existsb_filter {A : Type} (f : A -> bool) (l : list A) :
  existsb f l = true <-> filter f l <> [].
Proof.
  induction l as [|x l IH]; cbn [existsb filter].
  - split; [discriminate|intros H; now contradiction H].
  - destruct (f x); cbn [orb]; [split; [discriminate|reflexivity]|exact IH].
Qed.

Lemma active_in_canvas r c : is_active_cell r c = true -> r < 21 /\ c < 21.
Proof.
  unfold is_active_cell, BOARDS. cbn [existsb]. rewrite !orb_true_iff, !in_board_true.
  lia.
Qed.

(** X1: a cell is active exactly when some board covers it; [active_cells]
    lists exactly the active cells, each once, 369 in all. *)
Theorem active_cells_exact :
  (forall r c, is_active_cell r c = true <-> boards_covering_cell r c <> [])
  /\ (forall r c, In (r, c) active_cells <-> is_active_cell r c = true)
  /\ NoDup active_cells
  /\ length active_cells = 369.
Proof.
  split; [|split; [|split]].
  - intros r c. unfold is_active_cell, boards_covering_cell. apply existsb_filter.
  - intros r c. rewrite active_cells_In. split; [tauto|].
    intros H. destruct (active_in_canvas r c H). tauto.
  - apply (nodupb_NoDup cell_eqb); [apply cell_eqb_eq|]. vm_compute. reflexivity.
  - exact active_cells_length.
Qed.

Lemma third k x : x / 3 = k <-> 3 * k <= x < 3 * k + 3.
Proof.
  split.
  - intros <-. pose proof (Nat.div_mod_eq x 3). pose proof (Nat.mod_upper_bound x 3). lia.
  - intros H. symmetry. apply Nat.div_unique with (r := x - 3 * k); lia.
Qed.

Lemma row_cells_In r0 c0 rr r c :
  rr < 9 ->
  (In (r, c) (row_cells_in_board r0 c0 rr)
   <-> in_board r c r0 c0 = true /\ r - r0 = rr).
Proof.
  intros Hrr. unfold row_cells_in_board. rewrite in_map_iff, in_board_true. split.
  - intros (cc & E & Hin). apply in_seq in Hin. injection E as <- <-. lia.
  - intros [Hb <-]. exists (c - c0). split; [f_equal; lia|apply in_seq; lia].
Qed.

Lemma col_cells_In r0 c0 cc r c :
  cc < 9 ->
  (In (r, c) (col_cells_in_board r0 c0 cc)
   <-> in_board r c r0 c0 = true /\ c - c0 = cc).
Proof.
  intros Hcc. unfold col_cells_in_board. rewrite in_map_iff, in_board_true. split.
  - intros (rr & E & Hin). apply in_seq in Hin. injection E as <- <-. lia.
  - intros [Hb <-]. exists (r - r0). split; [f_equal; lia|apply in_seq; lia].
Qed.

Lemma box_cells_In r0 c0 br bc r c :
  br < 3 -> bc < 3 ->
  (In (r, c) (box_cells_in_board r0 c0 br bc)
   <-> in_board r c r0 c0 = true /\ subgrid_index r c r0 c0 = (br, bc)).
Proof.
  intros Hbr Hbc. unfold box_cells_in_board, subgrid_index.
  rewrite in_flat_map, in_board_true. split.
  - intros (rr & Hrr & Hin). apply in_map_iff in Hin. destruct Hin as (cc & E & Hcc).
    apply in_seq in Hrr, Hcc. injection E as <- <-.
    split; [lia|]. f_equal; apply third; lia.
  - intros [Hb E]. injection E as E1 E2. apply third in E1, E2.
    exists (r - r0). split; [apply in_seq; lia|].
    apply in_map_iff. exists (c - c0). split; [f_equal; lia|apply in_seq; lia].
Qed.

(** X2: the cells that [row_cells_in_board], [col_cells_in_board] and
    [box_cells_in_board] yield for a row, a column or a box inside the
    board are exactly the cells of the board in that row, column or box,
    the box of a cell being the one [subgrid_index] names. *)
Theorem board_cells_exact r0 c0 :
  (forall rr r c, rr < 9 ->
     (In (r, c) (row_cells_in_board r0 c0 rr)
      <-> in_board r c r0 c0 = true /\ r - r0 = rr))
  /\ (forall cc r c, cc < 9 ->
        (In (r, c) (col_cells_in_board r0 c0 cc)
         <-> in_board r c r0 c0 = true /\ c - c0 = cc))
  /\ (forall br bc r c, br < 3 -> bc < 3 ->
        (In (r, c) (box_cells_in_board r0 c0 br bc)
         <-> in_board r c r0 c0 = true /\ subgrid_index r c r0 c0 = (br, bc))).
Proof.
  split; [|split].
  - intros rr r c. apply row_cells_In.
  - intros cc r c. apply col_cells_In.
  - intros br bc r c. apply box_cells_In.
Qed.

(** The cells a cell sees in a board covering it. *)
Lemma unit_cells_In b r c r' c' :
  In b (boards_covering_cell r c) ->
  (In (r', c') (unit_cells b r c)
   <-> covers b r' c' = true
       /\ (r' = r \/ c' = c
           \/ subgrid_index r' c' (board_r0 b) (board_c0 b)
              = subgrid_index r c (board_r0 b) (board_c0 b))).
Proof.
  unfold boards_covering_cell. rewrite filter_In. intros [_ Hb].
  destruct b as [[name r0] c0]. apply in_board_true in Hb.
  unfold unit_cells, covers. cbn [board_r0 board_c0 fst snd].
  assert (Hq : (r - r0) / 3 < 3 /\ (c - c0) / 3 < 3).
  { split; apply Nat.Div0.div_lt_upper_bound; lia. }
  rewrite !in_app_iff, row_cells_In, col_cells_In by lia.
  rewrite box_cells_In by (unfold subgrid_index; cbn [fst snd]; lia).
  unfold subgrid_index. cbn [fst snd]. split.
  - intros [[H E]|[[H E]|[H E]]]; (split; [exact H|]);
      apply in_board_true in H.
    + left. lia.
    + right. left. lia.
    + right. right. exact E.
  - intros [H [E|[E|E]]]; pose proof (proj1 (in_board_true _ _ _ _) H) as H'.
    + left. split; [exact H|]. lia.
    + right. left. split; [exact H|]. lia.
    + right. right. split; [exact H|exact E].
Qed.

Lemma seen_from_In r c r' c' :
  In (r', c') (seen_from r c)
  <-> exists b, In b BOARDS /\ covers b r c = true /\ covers b r' c' = true
                /\ (r' = r \/ c' = c
                    \/ subgrid_index r' c' (board_r0 b) (board_c0 b)
                       = subgrid_index r c (board_r0 b) (board_c0 b)).
Proof.
  unfold seen_from. rewrite in_flat_map. split.
  - intros (b & Hb & Hin). exists b.
    pose proof Hb as Hb'. unfold boards_covering_cell in Hb'.
    apply filter_In in Hb'. destruct Hb' as [HB Hcov].
    apply (unit_cells_In b r c r' c' Hb) in Hin.
    split; [exact HB|]. split; [|exact Hin].
    destruct b as [[name r0] c0]. exact Hcov.
  - intros (b & HB & Hc & Hc' & Hrel).
    assert (Hb : In b (boards_covering_cell r c)).
    { unfold boards_covering_cell. apply filter_In. split; [exact HB|].
      destruct b as [[name r0] c0]. exact Hc. }
    exists b. split; [exact Hb|]. apply (unit_cells_In b r c r' c' Hb). auto.
Qed.

Lemma seen_from_sym r c r' c' :
  In (r', c') (seen_from r c) -> In (r, c) (seen_from r' c').
Proof.
  rewrite !seen_from_In. intros (b & HB & Hc & Hc' & Hrel).
  exists b. split; [exact HB|]. split; [exact Hc'|]. split; [exact Hc|].
  destruct Hrel as [->|[->|E]]; auto.
Qed.

Lemma seen_from_active r c r' c' :
  In (r', c') (seen_from r c) -> In (r', c') active_cells.
Proof.
  rewrite seen_from_In. intros (b & HB & _ & Hc' & _).
  assert (Ha : is_active_cell r' c' = true).
  { unfold is_active_cell. apply existsb_exists. exists b. split; [exact HB|].
    destruct b as [[name r0] c0]. exact Hc'. }
  apply active_cells_In. destruct (active_in_canvas r' c' Ha). auto.
Qed.
(* ================================================================== *)
(** * Candidates and valid assignments *)
(* ================================================================== *)

Import geometry model.

Lemma fold_left_mapped {A B C : Type} (f : A -> C -> A) (h : B -> C) (l : list B) (a : A) :
  fold_left f (map h l) a = fold_left (fun a x => f a (h x)) l a.
Proof. revert a. induction l as [|x l IH]; intros a; cbn; [reflexivity|apply IH]. Qed.

Lemma fold_left_flat_mapped {A B C : Type} (f : A -> C -> A) (h : B -> list C)
      (l : list B) (a : A) :
  fold_left f (flat_map h l) a = fold_left (fun a x => fold_left f (h x) a) l a.
Proof.
  revert a. induction l as [|x l IH]; intros a; cbn [flat_map fold_left]; [reflexivity|].
  rewrite fold_left_app. apply IH.
Qed.

Lemma fold_left_same {A B : Type} (f h : A -> B -> A) (l : list B) (a : A) :
  (forall a x, f a x = h a x) -> fold_left f l a = fold_left h l a.
Proof.
  intros E. revert a. induction l as [|x l IH]; intros a; cbn; [reflexivity|].
  rewrite E. apply IH.
Qed.

Lemma used_in_app g l1 l2 used :
  used_in g (l1 ++ l2) used = used_in g l2 (used_in g l1 used).
Proof. unfold used_in. apply fold_left_app. Qed.

Lemma used_in_In g cells : forall used d,
  In d (used_in g cells used)
  <-> In d used \/ exists rc, In rc cells /\ cell g (fst rc) (snd rc) = Some d.
Proof.
  induction cells as [|rc cells IH]; intros used d.
  - cbn. split; [auto|]. intros [H|(rc & [] & _)]. exact H.
  - change (used_in g (rc :: cells) used)
      with (used_in g cells (add_value (cell g (fst rc) (snd rc)) used)).
    rewrite IH. unfold add_value. destruct (cell g (fst rc) (snd rc)) as [x|] eqn:E.
    + rewrite zadd_In. split.
      * intros [[->|H]|(rc' & Hin & E')].
        -- right. exists rc. split; [now left|exact E].
        -- now left.
        -- right. exists rc'. split; [now right|exact E'].
      * intros [H|(rc' & [<-|Hin] & E')].
        -- left. now right.
        -- left. left. congruence.
        -- right. exists rc'. split; assumption.
    + split.
      * intros [H|(rc' & Hin & E')]; [now left|].
        right. exists rc'. split; [now right|exact E'].
      * intros [H|(rc' & [<-|Hin] & E')]; [now left|congruence|].
        right. exists rc'. split; assumption.
Qed.

(** The loops of [candidates] over one board collect the values of the
    cells of [unit_cells]. *)
Lemma candidates_board g r c b used :
  (let '(_, r0, c0) := b in
   let rr := r - r0 in
   let used :=
     fold_left (fun used cc => add_value (cell g (r0 + rr) (c0 + cc)) used)
               (seq 0 9) used in
   let cc := c - c0 in
   let used :=
     fold_left (fun used rr2 => add_value (cell g (r0 + rr2) (c0 + cc)) used)
               (seq 0 9) used in
   let '(br, bc) := subgrid_index r c r0 c0 in
   fold_left
     (fun used rr3 =>
        fold_left
          (fun used cc3 => add_value (cell g (r0 + rr3) (c0 + cc3)) used)
          (seq (bc * 3) 3) used)
     (seq (br * 3) 3) used)
  = used_in g (unit_cells b r c) used.
Proof.
  destruct b as [[name r0] c0]. unfold unit_cells, subgrid_index.
  cbn [board_r0 board_c0 fst snd].
  rewrite !used_in_app. unfold used_in, row_cells_in_board, col_cells_in_board,
    box_cells_in_board.
  rewrite !fold_left_mapped, fold_left_flat_mapped. cbv zeta. cbn [fst snd].
  apply fold_left_same. intros a x. rewrite fold_left_mapped. reflexivity.
Qed.

Lemma candidates_boards g r c bs : forall used,
  fold_left
    (fun used b =>
       let '(_, r0, c0) := b in
       let rr := r - r0 in
       let used :=
         fold_left (fun used cc => add_value (cell g (r0 + rr) (c0 + cc)) used)
                   (seq 0 9) used in
       let cc := c - c0 in
       let used :=
         fold_left (fun used rr2 => add_value (cell g (r0 + rr2) (c0 + cc)) used)
                   (seq 0 9) used in
       let '(br, bc) := subgrid_index r c r0 c0 in
       fold_left
         (fun used rr3 =>
            fold_left
              (fun used cc3 => add_value (cell g (r0 + rr3) (c0 + cc3)) used)
              (seq (bc * 3) 3) used)
         (seq (br * 3) 3) used)
    bs used
  = used_in g (flat_map (fun b => unit_cells b r c) bs) used.
Proof.
  induction bs as [|b bs IH]; intros used; [reflexivity|].
  cbn [fold_left flat_map]. rewrite used_in_app, <- IH. f_equal.
  exact (candidates_board g r c b used).
Qed.

Lemma candidates_used g r c :
  candidates g r c
  = filter (fun d => negb (zmem d (used_in g (seen_from r c) [])))
           (map Z.of_nat (seq 1 9)).
Proof.
  unfold candidates, seen_from. rewrite candidates_boards. reflexivity.
Qed.

(** X3: on a 21x21 grid the digits [candidates] returns for a cell are the
    digits 1..9 that no cell in the row, the column or the box of the cell
    holds, in any board covering it (the cell itself counts). *)
Theorem candidates_exact g r c v :
  wf_grid g ->
  (In v (candidates g r c)
   <-> (1 <= v <= 9)%Z
       /\ forall rc, In rc (seen_from r c) -> cell g (fst rc) (snd rc) <> Some v).
Proof.
  intros _.
  rewrite candidates_used, filter_In. fold digits. rewrite digits_In.
  rewrite negb_true_iff, zmem_false, used_in_In. split.
  - intros [Hv Hn]. split; [exact Hv|]. intros rc Hin E. apply Hn. right. eauto.
  - intros [Hv Hn]. split; [exact Hv|]. intros [[]|(rc & Hin & E)].
    exact (Hn rc Hin E).
Qed.

Lemma candidates_exact_hole :
  wf_grid ones_with_hole
  /\ (In 3%Z (candidates ones_with_hole 20 20)
      <-> (1 <= 3 <= 9)%Z
          /\ forall rc, In rc (seen_from 20 20) ->
                        cell ones_with_hole (fst rc) (snd rc) <> Some 3%Z).
Proof.
  split; [exact ones_with_hole_wf|].
  exact (candidates_exact ones_with_hole 20 20 3 ones_with_hole_wf).
Defined.

Lemma holds_true x v : holds x v = true <-> x = Some v.
Proof.
  unfold holds. destruct x as [d|]; [|split; discriminate].
  rewrite Z.eqb_eq. split; congruence.
Qed.

Lemma check_cells g r c v (h : nat -> nat * nat) (guard : nat -> bool) l :
  (forall x, In x l -> (guard x = true <-> h x = (r, c))) ->
  forallb (fun x => negb (negb (guard x) && holds (cell g (fst (h x)) (snd (h x))) v)) l
  = true
  <-> forall rc, In rc (map h l) -> rc <> (r, c) -> cell g (fst rc) (snd rc) <> Some v.
Proof.
  intros Hg. rewrite forallb_forall. split.
  - intros H rc Hin Hne E. apply in_map_iff in Hin. destruct Hin as (x & <- & Hx).
    specialize (H x Hx). apply negb_true_iff, andb_false_iff in H.
    destruct H as [H|H].
    + apply negb_false_iff, (Hg x Hx) in H. contradiction.
    + apply holds_true in E. congruence.
  - intros H x Hx. apply negb_true_iff, andb_false_iff.
    destruct (guard x) eqn:G; [|right].
    + now left.
    + destruct (holds (cell g (fst (h x)) (snd (h x))) v) eqn:E; [|reflexivity].
      exfalso. apply holds_true in E. apply (H (h x)); [now apply in_map|  |exact E].
      intros Heq. apply (Hg x Hx) in Heq. congruence.
Qed.

Lemma covering_origin r c b :
  In b (boards_covering_cell r c) ->
  board_r0 b <= r < board_r0 b + 9 /\ board_c0 b <= c < board_c0 b + 9.
Proof.
  unfold boards_covering_cell. rewrite filter_In. intros [_ H].
  destruct b as [[name r0] c0]. apply in_board_true in H. exact H.
Qed.

(** What [is_valid_assignment] checks on one board covering the cell. *)
Lemma valid_on_board g r c v b :
  In b (boards_covering_cell r c) ->
  (let '(_, r0, c0) := b in
   let rr := r - r0 in
   let cc := c - c0 in
   forallb (fun x => negb (negb (c0 + x =? c) && holds (cell g (r0 + rr) (c0 + x)) v))
           (seq 0 9)
   && forallb (fun y => negb (negb (r0 + y =? r) && holds (cell g (r0 + y) (c0 + cc)) v))
              (seq 0 9)
   && (let br := (rr / 3) * 3 in
       let bc := (cc / 3) * 3 in
       forallb
         (fun y =>
            forallb
              (fun x =>
                 let R := r0 + br + y in
                 let C := c0 + bc + x in
                 negb (negb ((R =? r) && (C =? c)) && holds (cell g R C) v))
              (seq 0 3))
         (seq 0 3))) = true
  <-> forall rc, In rc (unit_cells b r c) -> rc <> (r, c) ->
                 cell g (fst rc) (snd rc) <> Some v.
Proof.
  intros Hb. apply covering_origin in Hb. destruct b as [[name r0] c0].
  cbn [board_r0 board_c0 fst snd] in Hb. cbv zeta.
  unfold unit_cells, subgrid_index. cbn [board_r0 board_c0 fst snd].
  rewrite !andb_true_iff.
  rewrite (check_cells g r c v (fun x => (r0 + (r - r0), c0 + x))
                       (fun x => c0 + x =? c)).
  2:{ intros x _. rewrite Nat.eqb_eq. split; [intros <-; f_equal; lia|].
      intros E. injection E as _ E. exact E. }
  rewrite (check_cells g r c v (fun y => (r0 + y, c0 + (c - c0)))
                       (fun y => r0 + y =? r)).
  2:{ intros y _. rewrite Nat.eqb_eq. split; [intros <-; f_equal; lia|].
      intros E. injection E as E _. exact E. }
  fold (row_cells_in_board r0 c0 (r - r0)). fold (col_cells_in_board r0 c0 (c - c0)).
  assert (Hbox :
    forallb
      (fun y =>
         forallb
           (fun x =>
              negb (negb ((r0 + (r - r0) / 3 * 3 + y =? r)
                          && (c0 + (c - c0) / 3 * 3 + x =? c))
                    && holds (cell g (r0 + (r - r0) / 3 * 3 + y)
                                   (c0 + (c - c0) / 3 * 3 + x)) v))
           (seq 0 3))
      (seq 0 3) = true
    <-> forall rc, In rc (box_cells_in_board r0 c0 ((r - r0) / 3) ((c - c0) / 3)) ->
                   rc <> (r, c) -> cell g (fst rc) (snd rc) <> Some v).
  { rewrite forallb_forall. split.
    - intros H rc Hin. unfold box_cells_in_board in Hin.
      apply in_flat_map in Hin. destruct Hin as (rr & Hrr & Hin).
      apply in_seq in Hrr.
      specialize (H (rr - (r - r0) / 3 * 3)).
      rewrite (check_cells g r c v
                 (fun x => (r0 + (r - r0) / 3 * 3 + (rr - (r - r0) / 3 * 3),
                            c0 + (c - c0) / 3 * 3 + x))
                 (fun x => (r0 + (r - r0) / 3 * 3 + (rr - (r - r0) / 3 * 3) =? r)
                           && (c0 + (c - c0) / 3 * 3 + x =? c))) in H.
      2:{ intros x _. rewrite andb_true_iff, !Nat.eqb_eq. split.
          - intros [-> ->]. reflexivity.
          - intros E. injection E as E1 E2. split; assumption. }
      apply H; [apply in_seq; lia|].
      apply in_map_iff in Hin. destruct Hin as (cc & <- & Hcc). apply in_seq in Hcc.
      apply in_map_iff. exists (cc - (c - c0) / 3 * 3).
      split; [f_equal; lia|apply in_seq; lia].
    - intros H y Hy. apply in_seq in Hy.
      rewrite (check_cells g r c v
                 (fun x => (r0 + (r - r0) / 3 * 3 + y, c0 + (c - c0) / 3 * 3 + x))
                 (fun x => (r0 + (r - r0) / 3 * 3 + y =? r)
                           && (c0 + (c - c0) / 3 * 3 + x =? c))).
      2:{ intros x _. rewrite andb_true_iff, !Nat.eqb_eq. split.
          - intros [-> ->]. reflexivity.
          - intros E. injection E as E1 E2. split; assumption. }
      intros rc Hin. apply H. apply in_map_iff in Hin.
      destruct Hin as (x & <- & Hx). apply in_seq in Hx.
      unfold box_cells_in_board. apply in_flat_map.
      exists ((r - r0) / 3 * 3 + y). split; [apply in_seq; lia|].
      apply in_map_iff. exists ((c - c0) / 3 * 3 + x).
      split; [f_equal; lia|apply in_seq; lia]. }
  rewrite Hbox. split.
  - intros [[H1 H2] H3] rc Hin. rewrite !in_app_iff in Hin.
    destruct Hin as [Hin|[Hin|Hin]]; auto.
  - intros H. repeat split; intros rc Hin; apply H; rewrite !in_app_iff; auto.
Qed.

Lemma valid_assignment_seen g r c v :
  is_valid_assignment g r c v = true
  <-> forall rc, In rc (seen_from r c) -> rc <> (r, c) ->
                 cell g (fst rc) (snd rc) <> Some v.
Proof.
  unfold is_valid_assignment. rewrite forallb_forall. split.
  - intros H rc Hin Hne. apply in_flat_map in Hin. destruct Hin as (b & Hb & Hin).
    exact (proj1 (valid_on_board g r c v b Hb) (H b Hb) rc Hin Hne).
  - intros H b Hb. apply (valid_on_board g r c v b Hb).
    intros rc Hin. apply H. apply in_flat_map. eauto.
Qed.

Lemma not_used_seen g r c v :
  ~ In v (used_in g (seen_from r c) [])
  <-> forall rc, In rc (seen_from r c) -> cell g (fst rc) (snd rc) <> Some v.
Proof.
  rewrite used_in_In. split.
  - intros Hn rc Hin E. apply Hn. right. eauto.
  - intros Hn [[]|(rc & Hin & E)]. exact (Hn rc Hin E).
Qed.

(** X4: on a 21x21 grid [is_valid_assignment g r c v] holds exactly when no
    other cell in the row, the column or the box of the cell holds [v], in
    any board covering the cell; what the cell itself holds does not matter. *)
Theorem valid_assignment_exact g r c v :
  wf_grid g ->
  (is_valid_assignment g r c v = true
   <-> forall rc, In rc (seen_from r c) -> rc <> (r, c) ->
                  cell g (fst rc) (snd rc) <> Some v)
  /\ (forall x, is_valid_assignment (set_cell g r c x) r c v
                = is_valid_assignment g r c v).
Proof.
  intros _.
  split; [apply valid_assignment_seen|].
  intros x. apply eq_true_iff_eq. rewrite !valid_assignment_seen.
  split; intros H rc Hin Hne.
  - rewrite <- (cell_set_cell_other g r c x (fst rc) (snd rc)).
    + now apply H.
    + destruct rc. exact Hne.
  - rewrite (cell_set_cell_other g r c x (fst rc) (snd rc)).
    + now apply H.
    + destruct rc. exact Hne.
Qed.

Lemma valid_assignment_exact_hole :
  wf_grid ones_with_hole
  /\ (is_valid_assignment ones_with_hole 20 20 3 = true
      <-> forall rc, In rc (seen_from 20 20) -> rc <> (20, 20) ->
                     cell ones_with_hole (fst rc) (snd rc) <> Some 3%Z)
  /\ (forall x, is_valid_assignment (set_cell ones_with_hole 20 20 x) 20 20 3
                = is_valid_assignment ones_with_hole 20 20 3).
Proof.
  split; [exact ones_with_hole_wf|].
  exact (valid_assignment_exact ones_with_hole 20 20 3 ones_with_hole_wf).
Defined.

(** X5: on an empty cell of a 21x21 grid, the digits [candidates] returns
    are the digits 1..9 that [is_valid_assignment] accepts. *)
Theorem candidates_are_valid g r c v :
  wf_grid g -> cell g r c = None ->
  (In v (candidates g r c)
   <-> (1 <= v <= 9)%Z /\ is_valid_assignment g r c v = true).
Proof.
  intros _.
  intros Hempty. rewrite candidates_used, filter_In. fold digits.
  rewrite digits_In, negb_true_iff, zmem_false, not_used_seen, valid_assignment_seen.
  split; intros [Hv H]; (split; [exact Hv|]).
  - intros rc Hin _. now apply H.
  - intros rc Hin E. destruct rc as [r' c'].
    destruct (cell_eq_dec (r', c') (r, c)) as [Heq|Hne].
    + injection Heq as -> ->. cbn [fst snd] in E. congruence.
    + exact (H (r', c') Hin Hne E).
Qed.

Lemma candidates_are_valid_hole :
  wf_grid ones_with_hole
  /\ cell ones_with_hole 20 20 = None
  /\ (In 3%Z (candidates ones_with_hole 20 20)
      <-> (1 <= 3 <= 9)%Z /\ is_valid_assignment ones_with_hole 20 20 3 = true).
Proof.
  split; [exact ones_with_hole_wf|]. split; [reflexivity|].
  exact (candidates_are_valid ones_with_hole 20 20 3 ones_with_hole_wf eq_refl).
Defined.
(* ================================================================== *)
(** * More on the solution counter *)
(* ================================================================== *)

Import geometry model random solver.

Lemma scan_result g cells : forall seen best,
  scan_inv g seen best ->
  match find_next_cell_from cells g best with
  | Some (r, c, cand) => fair_choice g (seen ++ cells) r c cand
  | None => no_choice g (seen ++ cells)
  end.
Proof.
  induction cells as [|[r c] rest IH]; intros seen best Hinv.
  - cbn [find_next_cell_from]. rewrite app_nil_r.
    destruct best as [[[r c] cand]|]; cbn [scan_inv] in Hinv.
    + destruct Hinv as (Hin & He & Hc & Hne & Hmin).
      repeat split; auto.
    + left. exact Hinv.
  - assert (Happ : seen ++ (r, c) :: rest = (seen ++ [(r, c)]) ++ rest)
      by (rewrite <- app_assoc; reflexivity).
    cbn [find_next_cell_from]. destruct (cell g r c) as [x|] eqn:Ecell.
    + rewrite Happ. apply IH.
      destruct best as [[[r' c'] cand']|]; cbn [scan_inv] in *.
      * destruct Hinv as (Hin & He & Hc & Hne & Hmin).
        rewrite in_app_iff. repeat split; auto.
        intros rc Hrc Hemp. apply in_app_iff in Hrc.
        destruct Hrc as [Hrc|[<-|[]]]; [auto|]. cbn [fst snd] in Hemp. congruence.
      * intros rc Hrc. apply in_app_iff in Hrc.
        destruct Hrc as [Hrc|[<-|[]]]; [auto|]. cbn [fst snd]. congruence.
    + destruct (candidates g r c) as [|d ds] eqn:Ecand.
      * right. exists (r, c). rewrite in_app_iff. cbn [In fst snd]. auto.
      * cbv beta zeta iota. set (cand := d :: ds) in *.
        assert (Hcand : cand <> []) by discriminate.
        assert (Hnew : (match best with
                        | None => True
                        | Some (_, _, bc) => length cand < length bc
                        end) ->
                       scan_inv g (seen ++ [(r, c)]) (Some (r, c, cand))).
        { intros Hlt. cbn [scan_inv]. rewrite in_app_iff. cbn [In].
          repeat split; auto.
          intros rc Hrc Hemp. apply in_app_iff in Hrc.
          destruct Hrc as [Hrc|[<-|[]]]; [|cbn [fst snd]; rewrite Ecand; lia].
          destruct best as [[[r' c'] cand']|]; cbn [scan_inv] in Hinv.
          - destruct Hinv as (_ & _ & _ & _ & Hmin). specialize (Hmin rc Hrc Hemp). lia.
          - exfalso. exact (Hinv rc Hrc Hemp). }
        destruct (match best with
                  | Some (_, _, bc) => length cand <? length bc
                  | None => true
                  end) eqn:Ebetter.
        -- assert (Hlt : match best with
                         | None => True
                         | Some (_, _, bc) => length cand < length bc
                         end).
           { destruct best as [[[r' c'] cand']|]; [now apply Nat.ltb_lt|exact I]. }
           destruct (length cand =? 1) eqn:Eone.
           ++ apply Nat.eqb_eq in Eone. unfold fair_choice.
              rewrite in_app_iff. cbn [In]. repeat split; auto.
              intros rc _ _. destruct (candidates g (fst rc) (snd rc)); [now left|].
              right. cbn [length]. lia.
           ++ rewrite Happ. apply IH. exact (Hnew Hlt).
        -- rewrite Happ. apply IH.
           destruct best as [[[r' c'] cand']|]; [|discriminate].
           apply Nat.ltb_ge in Ebetter. cbn [scan_inv] in *.
           destruct Hinv as (Hin & He & Hc & Hne & Hmin).
           rewrite in_app_iff. repeat split; auto.
           intros rc Hrc Hemp. apply in_app_iff in Hrc.
           destruct Hrc as [Hrc|[<-|[]]]; [auto|]. cbn [fst snd]. rewrite Ecand. exact Ebetter.
Qed.

(** X6: what [find_next_cell] returns on a 21x21 grid.  A cell it returns is
    an empty active cell, with the non-empty list [candidates] gives for it,
    and no empty active cell that has candidates has fewer.  It returns
    [None] only when no active cell is empty or some empty active cell has
    no candidate, and always when no active cell is empty. *)
Theorem find_next_cell_exact g :
  wf_grid g ->
  match find_next_cell g with
  | Some (r, c, cand) => fair_choice g active_cells r c cand
  | None => no_choice g active_cells
  end
  /\ (full_grid g -> find_next_cell g = None).
Proof.
  intros _.
  split.
  - unfold find_next_cell.
    apply (scan_result g active_cells [] None). intros rc [].
  - intros Hfull. unfold find_next_cell. apply find_next_cell_from_full.
    exact Hfull.
Qed.

Lemma find_next_cell_exact_hole :
  wf_grid ones_with_hole
  /\ match find_next_cell ones_with_hole with
     | Some (r, c, cand) => fair_choice ones_with_hole active_cells r c cand
     | None => no_choice ones_with_hole active_cells
     end
  /\ (full_grid ones_with_hole -> find_next_cell ones_with_hole = None).
Proof.
  split; [exact ones_with_hole_wf|].
  exact (find_next_cell_exact ones_with_hole ones_with_hole_wf).
Defined.
(* ================================================================== *)
(** * What the solution counter counts *)
(* ================================================================== *)

Import geometry model random solver.

Lemma grid_ext g g' :
  wf_grid g -> wf_grid g' -> (forall r c, cell g r c = cell g' r c) -> g = g'.
Proof.
  intros Hwf Hwf' Hcell.
  apply (nth_ext g g' [] []).
  - destruct Hwf as [-> _], Hwf' as [-> _]. reflexivity.
  - intros r Hr. destruct Hwf as [Hl Hrows]. rewrite Hl in Hr.
    apply (nth_ext _ _ None None).
    + transitivity 21; [apply (square_row 21 g r)|symmetry; apply (square_row 21 g' r)];
        auto; split; assumption.
    + intros c _. exact (Hcell r c).
Qed.

Lemma leaves_count fuel : forall g,
  completions fuel g = Z.of_nat (length (leaves fuel g)).
Proof.
  induction fuel as [|fuel IH]; intros g; cbn [completions leaves]; [reflexivity|].
  destruct (find_next_cell g) as [[[r c] cand]|].
  - induction cand as [|v cand IHc]; cbn [fold_right flat_map]; [reflexivity|].
    rewrite length_app, Nat2Z.inj_add, <- IHc.
    destruct (is_valid_assignment g r c v); [rewrite IH; reflexivity|reflexivity].
  - destruct (existsb _ active_cells); reflexivity.
Qed.

(** The value a completion holds in an empty active cell is one of the
    candidates of the cell, and a valid assignment. *)
Lemma completes_candidate g g' r c :
  completes g g' -> In (r, c) active_cells -> cell g r c = None ->
  exists v, cell g' r c = Some v
            /\ In v (candidates g r c)
            /\ is_valid_assignment g r c v = true.
Proof.
  intros (Hwf' & Hagree & Hfill) Hin Hempty.
  destruct (Hfill r c Hin Hempty) as (v & Ev & Hv & Hvalid).
  assert (Hfree : forall rc, In rc (seen_from r c) -> cell g (fst rc) (snd rc) <> Some v).
  { intros [r1 c1] Hrc E. cbn [fst snd] in E.
    destruct (cell_eq_dec (r1, c1) (r, c)) as [Heq|Hne].
    - injection Heq as -> ->. congruence.
    - apply (Hvalid (r1, c1) Hrc Hne). cbn [fst snd].
      rewrite (Hagree r1 c1); [exact E|]. left. congruence. }
  exists v. split; [exact Ev|]. split.
  - rewrite candidates_used, filter_In. fold digits.
    rewrite digits_In, negb_true_iff, zmem_false, not_used_seen. auto.
  - apply valid_assignment_seen. intros rc Hrc _. now apply Hfree.
Qed.

Lemma completes_step g g' r c :
  wf_grid g -> In (r, c) active_cells -> cell g r c = None ->
  (completes g g'
   <-> exists v, In v (candidates g r c)
                 /\ is_valid_assignment g r c v = true
                 /\ completes (set_cell g r c (Some v)) g').
Proof.
  intros Hwf Hin Hempty. destruct (active_cells_bound r c Hin) as [Hr Hc]. split.
  - intros Hcomp.
    destruct (completes_candidate g g' r c Hcomp Hin Hempty) as (v & Ev & Hcand & Hval).
    exists v. split; [exact Hcand|]. split; [exact Hval|].
    destruct Hcomp as (Hwf' & Hagree & Hfill).
    split; [exact Hwf'|]. split.
    + intros r1 c1 H1. destruct (cell_eq_dec (r1, c1) (r, c)) as [Heq|Hne].
      * injection Heq as -> ->. now rewrite cell_set_cell_same.
      * rewrite cell_set_cell_other in * by exact Hne. now apply Hagree.
    + intros r1 c1 H1 E1. destruct (cell_eq_dec (r1, c1) (r, c)) as [Heq|Hne].
      * injection Heq as -> ->. rewrite cell_set_cell_same in E1 by assumption.
        discriminate.
      * rewrite cell_set_cell_other in E1 by exact Hne. now apply Hfill.
  - intros (v & Hcand & Hval & Hwf' & Hagree & Hfill).
    assert (Ev : cell g' r c = Some v).
    { rewrite (Hagree r c); [now apply cell_set_cell_same|].
      left. rewrite cell_set_cell_same by assumption. discriminate. }
    rewrite candidates_used, filter_In in Hcand. fold digits in Hcand.
    rewrite digits_In, negb_true_iff, zmem_false, not_used_seen in Hcand.
    destruct Hcand as [Hv Hfree].
    split; [exact Hwf'|]. split.
    + intros r1 c1 H1.
      assert (Hne : (r1, c1) <> (r, c)).
      { intros Heq. injection Heq as -> ->. destruct H1 as [H1|H1]; auto. }
      rewrite <- (cell_set_cell_other g r c (Some v) r1 c1 Hne).
      apply Hagree. now rewrite cell_set_cell_other.
    + intros r1 c1 H1 E1. destruct (cell_eq_dec (r1, c1) (r, c)) as [Heq|Hne].
      * injection Heq as -> ->. exists v. split; [exact Ev|]. split; [exact Hv|].
        intros [r2 c2] Hseen Hne2. cbn [fst snd].
        destruct (cell g r2 c2) as [w|] eqn:E2.
        -- rewrite (Hagree r2 c2).
           ++ rewrite cell_set_cell_other by exact Hne2. rewrite E2.
              intros Heq. apply (Hfree (r2, c2) Hseen). cbn [fst snd]. congruence.
           ++ left. rewrite cell_set_cell_other by exact Hne2. congruence.
        -- destruct (Hfill r2 c2) as (w & Ew & _ & Hw).
           ++ exact (seen_from_active r c r2 c2 Hseen).
           ++ now rewrite cell_set_cell_other.
           ++ rewrite Ew. intros Heq. injection Heq as ->.
              apply (Hw (r, c)); [now apply seen_from_sym|congruence|exact Ev].
      * apply Hfill; [exact H1|]. now rewrite cell_set_cell_other.
Qed.

Lemma completes_full g g' :
  wf_grid g ->
  (forall rc, In rc active_cells -> cell g (fst rc) (snd rc) <> None) ->
  (completes g g' <-> g = g').
Proof.
  intros Hwf Hfull. split.
  - intros (Hwf' & Hagree & _). apply grid_ext; [assumption|assumption|].
    intros r c. symmetry. apply Hagree.
    destruct (in_dec cell_eq_dec (r, c) active_cells) as [Hin|Hout]; [|now right].
    left. exact (Hfull (r, c) Hin).
  - intros <-. split; [exact Hwf|]. split; [reflexivity|].
    intros r c Hin E. exfalso. exact (Hfull (r, c) Hin E).
Qed.

Lemma no_empty_cell g :
  existsb (fun rc => is_cell_empty g (fst rc) (snd rc)) active_cells = false
  <-> forall rc, In rc active_cells -> cell g (fst rc) (snd rc) <> None.
Proof.
  split.
  - intros H rc Hin E. apply not_true_iff_false in H. apply H.
    apply existsb_exists. exists rc. split; [exact Hin|].
    unfold is_cell_empty. now rewrite E.
  - intros H. apply not_true_iff_false. intros E.
    apply existsb_exists in E. destruct E as (rc & Hin & E).
    unfold is_cell_empty in E. specialize (H rc Hin).
    destruct (cell g (fst rc) (snd rc)); [discriminate|contradiction].
Qed.

Lemma leaves_In fuel : forall g g',
  wf_grid g -> empties g < fuel ->
  (In g' (leaves fuel g) <-> completes g g').
Proof.
  induction fuel as [|fuel IH]; intros g g' Hwf Hfuel; [lia|].
  cbn [leaves].
  pose proof (scan_result g active_cells [] None) as Hscan.
  change (find_next_cell_from active_cells g None) with (find_next_cell g) in Hscan.
  cbn [app] in Hscan.
  destruct (find_next_cell g) as [[[r c] cand]|].
  - destruct Hscan as (Hin & Hempty & -> & _); [intros rc []|].
    rewrite (completes_step g g' r c Hwf Hin Hempty), in_flat_map.
    split; intros (v & Hv & H).
    + destruct (is_valid_assignment g r c v) eqn:Eval; [|contradiction].
      exists v. split; [exact Hv|]. split; [exact Eval|].
      apply IH; [now apply set_cell_wf| |exact H].
      pose proof (empties_set_cell g r c v Hwf Hin Hempty). lia.
    + destruct H as [Eval H]. exists v. split; [exact Hv|]. rewrite Eval.
      apply IH; [now apply set_cell_wf| |exact H].
      pose proof (empties_set_cell g r c v Hwf Hin Hempty). lia.
  - destruct (existsb _ active_cells) eqn:Eex.
    + split; [intros []|]. intros Hcomp.
      destruct Hscan as [Hfull|((r, c) & Hin & Hempty & Hdead)]; [intros rc []| |].
      * pose proof (proj2 (no_empty_cell g) Hfull). congruence.
      * cbn [fst snd] in *.
        destruct (completes_candidate g g' r c Hcomp Hin Hempty) as (v & _ & Hv & _).
        rewrite Hdead in Hv. exact Hv.
    + pose proof (proj1 (no_empty_cell g) Eex) as Hfull.
      rewrite (completes_full g g' Hwf Hfull).
      cbn [In]. tauto.
Qed.

Lemma NoDup_flat_map {A B : Type} (f : A -> list B) (l : list A) :
  NoDup l ->
  (forall x, In x l -> NoDup (f x)) ->
  (forall x y b, In x l -> In y l -> In b (f x) -> In b (f y) -> x = y) ->
  NoDup (flat_map f l).
Proof.
  induction l as [|x l IH]; intros Hnd Hf Hdisj; cbn [flat_map]; [constructor|].
  inversion Hnd as [|? ? Hx Hl]; subst.
  apply NoDup_app.
  - apply Hf. now left.
  - apply IH; [exact Hl| |].
    + intros y Hy. apply Hf. now right.
    + intros y z b Hy Hz. apply Hdisj; now right.
  - intros b Hb Hb'. apply in_flat_map in Hb'. destruct Hb' as (y & Hy & Hb').
    assert (x = y) by (apply (Hdisj x y b); auto; [now left|now right]).
    subst. contradiction.
Qed.

Lemma candidates_NoDup g r c : NoDup (candidates g r c).
Proof.
  rewrite candidates_used. apply NoDup_filter.
  apply (nodupb_NoDup Z.eqb); [intros x y; apply Z.eqb_eq|]. reflexivity.
Qed.

Lemma leaves_NoDup fuel : forall g,
  wf_grid g -> empties g < fuel -> NoDup (leaves fuel g).
Proof.
  induction fuel as [|fuel IH]; intros g Hwf Hfuel; [lia|].
  cbn [leaves].
  pose proof (scan_result g active_cells [] None) as Hscan.
  change (find_next_cell_from active_cells g None) with (find_next_cell g) in Hscan.
  cbn [app] in Hscan.
  destruct (find_next_cell g) as [[[r c] cand]|].
  - destruct Hscan as (Hin & Hempty & -> & _); [intros rc []|].
    destruct (active_cells_bound r c Hin) as [Hr Hc].
    assert (Hlt : forall v, empties (set_cell g r c (Some v)) < fuel).
    { intros v. pose proof (empties_set_cell g r c v Hwf Hin Hempty). lia. }
    apply NoDup_flat_map; [apply candidates_NoDup| |].
    + intros v _. destruct (is_valid_assignment g r c v); [|constructor].
      apply IH; [now apply set_cell_wf|apply Hlt].
    + intros v w g' _ _ Hv Hw.
      destruct (is_valid_assignment g r c v); [|contradiction].
      destruct (is_valid_assignment g r c w); [|contradiction].
      apply (leaves_In fuel _ g' (set_cell_wf g r c (Some v) Hwf) (Hlt v)) in Hv.
      apply (leaves_In fuel _ g' (set_cell_wf g r c (Some w) Hwf) (Hlt w)) in Hw.
      destruct Hv as (_ & Hv & _), Hw as (_ & Hw & _).
      specialize (Hv r c). specialize (Hw r c).
      rewrite cell_set_cell_same in Hv, Hw by assumption.
      assert (Some v = Some w) as Heq; [|congruence].
      rewrite <- Hv, <- Hw; [reflexivity|left; discriminate|left; discriminate].
  - destruct (existsb _ active_cells); repeat constructor. intros [].
Qed.

Lemma depth_suffices g : empties g < search_depth.
Proof. unfold search_depth. pose proof (empties_bound g). lia. Qed.

(** X7: what [solve_unique] counts.  The grids that complete a 21x21
    grid (same clues, every empty active cell filled with a digit that no
    cell it shares a row, column or box with holds) form a finite list
    without repetition, and for every limit of at least 1 and every state
    of the global generator [solve_unique] returns whether the list is
    non-empty and its length, capped at the limit. *)
Theorem solve_unique_counts_completions g limit :
  wf_grid g -> (1 <= limit)%Z ->
  exists sols : list Grid,
    NoDup sols
    /\ (forall g', In g' sols <-> completes g g')
    /\ forall grand, exists s,
         solve_unique grand g limit
         = Ok ((0 <? Z.of_nat (length sols))%Z,
               Z.min (Z.of_nat (length sols)) limit, s).
Proof.
  intros Hwf Hl. exists (leaves search_depth g).
  split; [apply leaves_NoDup; [exact Hwf|apply depth_suffices]|].
  split; [intros g'; apply leaves_In; [exact Hwf|apply depth_suffices]|].
  intros grand.
  destruct (solve_unique_spec grand g limit Hwf) as (s & E & _); [lia|].
  exists s. rewrite E. unfold unique_answer. rewrite leaves_count.
  f_equal. f_equal.
  destruct (Z.ltb_spec 0 (Z.of_nat (length (leaves search_depth g))));
    destruct (Z.ltb_spec 0 (Z.min (Z.of_nat (length (leaves search_depth g))) limit));
    (reflexivity || lia).
Qed.

Lemma solve_unique_counts_completions_hole :
  wf_grid ones_with_hole /\ (1 <= 2)%Z
  /\ exists sols : list Grid,
       NoDup sols
       /\ (forall g', In g' sols <-> completes ones_with_hole g')
       /\ forall grand, exists s,
            solve_unique grand ones_with_hole 2
            = Ok ((0 <? Z.of_nat (length sols))%Z,
                  Z.min (Z.of_nat (length sols)) 2, s).
Proof.
  split; [exact ones_with_hole_wf|]. split; [lia|].
  exact (solve_unique_counts_completions ones_with_hole 2 ones_with_hole_wf
           ltac:(lia)).
Defined.

Lemma ones_grid_full : full_grid ones_grid.
Proof.
  assert (H : forallb (fun rc => negb (is_cell_empty ones_grid (fst rc) (snd rc)))
                      active_cells = true) by (vm_compute; reflexivity).
  revert H. generalize ones_grid. intros g H.
  rewrite forallb_forall in H. intros r c Hin E. specialize (H (r, c) Hin).
  unfold is_cell_empty in H. cbn [fst snd] in H. rewrite E in H. discriminate H.
Qed.

(** X8: on a 21x21 grid without empty active cell [solve_unique] returns
    (true, 1) for any limit, whatever the clues are: it does not check
    them against each other; the grid is not written to and nothing is
    drawn from the global generator. *)
Theorem solve_unique_full_grid grand g limit :
  wf_grid g -> full_grid g ->
  solve_unique grand g limit = Ok (true, 1%Z, mkSearch 1 g grand).
Proof.
  intros _.
  intros Hfull. unfold solve_unique. cbn [solver.backtrack solver.grid solver.count solver.grand].
  unfold find_next_cell. rewrite (find_next_cell_from_full active_cells g Hfull).
  rewrite (full_grid_no_empty g Hfull). reflexivity.
Qed.

Lemma solve_unique_full_grid_ones :
  wf_grid ones_grid /\ full_grid ones_grid
  /\ solve_unique rng_zero ones_grid 2 = Ok (true, 1%Z, mkSearch 1 ones_grid rng_zero).
Proof.
  split; [exact ones_grid_wf|]. split; [exact ones_grid_full|].
  exact (solve_unique_full_grid rng_zero ones_grid 2 ones_grid_wf ones_grid_full).
Defined.

(** X9: when some empty active cell has no candidate, [solve_unique]
    returns (false, 0) and leaves the grid as it was. *)
Theorem solve_unique_dead_cell grand g limit r c :
  wf_grid g -> (1 <= limit)%Z ->
  In (r, c) active_cells -> cell g r c = None -> candidates g r c = [] ->
  exists s, solve_unique grand g limit = Ok (false, 0%Z, s) /\ grid s = g.
Proof.
  intros Hwf Hl Hin Hempty Hdead.
  assert (Hnone : leaves search_depth g = []).
  { destruct (leaves search_depth g) as [|g' rest] eqn:E; [reflexivity|].
    assert (Hc : completes g g').
    { apply (leaves_In search_depth g g' Hwf (depth_suffices g)). rewrite E. now left. }
    destruct (completes_candidate g g' r c Hc Hin Hempty) as (v & _ & Hv & _).
    rewrite Hdead in Hv. contradiction. }
  destruct (solve_unique_spec grand g limit Hwf) as (s & E & Hkeep); [lia|].
  unfold unique_answer in E, Hkeep. rewrite leaves_count, Hnone in E, Hkeep.
  cbn [length snd] in E, Hkeep.
  assert (Hmin : Z.min (Z.of_nat 0) limit = 0%Z) by lia.
  rewrite Hmin in E, Hkeep. exists s. split; [exact E|]. apply Hkeep. lia.
Qed.

Lemma dead_grid_wf : wf_grid dead_grid.
Proof. apply wf_gridb_wf. vm_compute. reflexivity. Qed.

Lemma solve_unique_dead_cell_first :
  wf_grid dead_grid /\ (1 <= 2)%Z /\ In (0, 0) active_cells
  /\ cell dead_grid 0 0 = None /\ candidates dead_grid 0 0 = []
  /\ exists s, solve_unique rng_zero dead_grid 2 = Ok (false, 0%Z, s)
               /\ grid s = dead_grid.
Proof.
  assert (Hin : In (0, 0) active_cells) by (vm_compute; auto).
  split; [exact dead_grid_wf|]. split; [lia|]. split; [exact Hin|].
  split; [reflexivity|]. split; [reflexivity|].
  exact (solve_unique_dead_cell rng_zero dead_grid 2 0 0 dead_grid_wf ltac:(lia)
           Hin eq_refl eq_refl).
Defined.
(* ================================================================== *)
(** * The solution is the one completion of the puzzle *)
(* ================================================================== *)

Import geometry model random solver dlx9 generator.

(** ** Valid boards have no conflicts *)

Lemma peers_checked : peers_share_unit = true.
Proof. vm_compute. reflexivity. Qed.

Lemma peers_in_unit r1 c1 r2 c2 :
  r1 < 9 -> c1 < 9 -> r2 < 9 -> c2 < 9 -> peers r1 c1 r2 c2 = true ->
  exists u, In u units9 /\ In (r1, c1) u /\ In (r2, c2) u.
Proof.
  intros Hr1 Hc1 Hr2 Hc2 Hp. pose proof peers_checked as H.
  unfold peers_share_unit in H. rewrite forallb_forall in H.
  specialize (H (r1, c1) (proj2 (all_cells9_In r1 c1) (conj Hr1 Hc1))).
  rewrite forallb_forall in H.
  specialize (H (r2, c2) (proj2 (all_cells9_In r2 c2) (conj Hr2 Hc2))).
  cbn [fst snd] in H. rewrite Hp in H. cbn [negb orb] in H.
  apply existsb_exists in H. destruct H as (u & Hu & H).
  apply andb_true_iff in H. destruct H as [Ha Hb].
  apply existsb_exists in Ha, Hb.
  destruct Ha as (a & Ha & Ea), Hb as (b & Hb & Eb).
  apply cell_eqb_eq in Ea, Eb. subst a b. exists u. auto.
Qed.

Lemma digits_NoDup : NoDup digits.
Proof. apply (nodupb_NoDup Z.eqb); [intros x y; apply Z.eqb_eq|]. reflexivity. Qed.

Lemma complete_unit_NoDup vals :
  length vals = 9 -> complete_unit vals = true ->
  NoDup vals /\ forall v, In v vals -> In v digits.
Proof.
  intros Hlen Hc. unfold complete_unit in Hc. rewrite forallb_forall in Hc.
  assert (Hincl : incl digits vals).
  { intros d Hd. apply (count_occ_In Z.eq_dec). specialize (Hc d Hd).
    apply Nat.eqb_eq in Hc. lia. }
  assert (Hle : length vals <= length digits) by (rewrite Hlen; reflexivity).
  split.
  - exact (NoDup_incl_NoDup digits_NoDup Hle Hincl).
  - exact (NoDup_length_incl digits_NoDup Hle Hincl).
Qed.

Lemma NoDup_map_neq {A B : Type} (f : A -> B) (l : list A) a b :
  NoDup (map f l) -> In a l -> In b l -> a <> b -> f a <> f b.
Proof.
  induction l as [|x l IH]; intros Hnd Ha Hb Hne; [contradiction|].
  cbn [map] in Hnd. inversion Hnd as [|? ? Hx Hl]; subst.
  destruct Ha as [->|Ha], Hb as [->|Hb].
  - contradiction.
  - intros E. apply Hx. rewrite E. now apply in_map.
  - intros E. apply Hx. rewrite <- E. now apply in_map.
  - now apply IH.
Qed.

Lemma valid_consistent b : valid_board9 b = true -> consistent b.
Proof.
  intros Hv. unfold valid_board9 in Hv. rewrite forallb_forall in Hv.
  assert (Hunit : forall u, In u units9 ->
            NoDup (unit_values b u) /\ forall v, In v (unit_values b u) -> In v digits).
  { intros u Hu. apply complete_unit_NoDup; [|now apply Hv].
    unfold unit_values. rewrite length_map. now destruct (unit_facts u Hu). }
  split.
  - intros r c Hr Hc.
    destruct (peers_in_unit r c r c Hr Hc Hr Hc) as (u & Hu & Hin & _).
    { unfold peers. now rewrite Nat.eqb_refl. }
    apply digits_In. apply (proj2 (Hunit u Hu)).
    unfold unit_values. apply in_map_iff. exists (r, c). auto.
  - intros r1 c1 r2 c2 Hr1 Hc1 Hr2 Hc2 Hne Hp.
    destruct (peers_in_unit r1 c1 r2 c2 Hr1 Hc1 Hr2 Hc2 Hp) as (u & Hu & H1 & H2).
    exact (NoDup_map_neq (fun rc => board_get b (fst rc) (snd rc)) u (r1, c1) (r2, c2)
             (proj1 (Hunit u Hu)) H1 H2 Hne).
Qed.

(** ** A valid full grid completes every grid it extends *)

Lemma valid_cell s r c :
  samurai_valid s -> full_grid s -> In (r, c) active_cells ->
  exists v, cell s r c = Some v /\ (1 <= v <= 9)%Z
            /\ forall rc, In rc (seen_from r c) -> rc <> (r, c) ->
                          cell s (fst rc) (snd rc) <> Some v.
Proof.
  intros Hval Hfull Hin.
  destruct (cell s r c) as [v|] eqn:Ev; [|exfalso; exact (Hfull r c Hin Ev)].
  exists v. split; [reflexivity|].
  assert (Hlocal : forall b, In b BOARDS -> covers b r c = true ->
            consistent (window s (board_r0 b) (board_c0 b))
            /\ board_get (window s (board_r0 b) (board_c0 b))
                         (r - board_r0 b) (c - board_c0 b) = v
            /\ r - board_r0 b < 9 /\ c - board_c0 b < 9).
  { intros b HB Hc. split; [apply valid_consistent, Hval, HB|].
    apply covers_iff in Hc.
    rewrite window_get by lia.
    replace (board_r0 b + (r - board_r0 b)) with r by lia.
    replace (board_c0 b + (c - board_c0 b)) with c by lia.
    rewrite Ev. cbn [value_or_zero]. split; [reflexivity|lia]. }
  split.
  - apply active_cells_In in Hin. destruct Hin as (_ & _ & Hact).
    unfold is_active_cell in Hact. apply existsb_exists in Hact.
    destruct Hact as (b & HB & Hc).
    assert (Hc' : covers b r c = true) by (destruct b as [[n r0] c0]; exact Hc).
    destruct (Hlocal b HB Hc') as ([Hdig _] & E & Hr & Hcc).
    rewrite <- E. now apply Hdig.
  - intros [r' c'] Hseen Hne E. cbn [fst snd] in E.
    apply seen_from_In in Hseen.
    destruct Hseen as (b & HB & Hc & Hc' & Hrel).
    destruct (Hlocal b HB Hc) as ([_ Hdiff] & E1 & Hr & Hcc).
    pose proof (proj1 (covers_iff b r c) Hc) as Hb.
    pose proof (proj1 (covers_iff b r' c') Hc') as Hb'.
    apply (Hdiff (r - board_r0 b) (c - board_c0 b)
                 (r' - board_r0 b) (c' - board_c0 b)); try lia.
    + intros Heq. injection Heq as E3 E4. apply Hne. f_equal; lia.
    + unfold peers. unfold subgrid_index in Hrel.
      destruct Hrel as [->|[->|Hrel]].
      * now rewrite Nat.eqb_refl.
      * rewrite (Nat.eqb_refl (c - board_c0 b)). now rewrite orb_true_r.
      * injection Hrel as E3 E4. apply orb_true_iff. right.
        apply andb_true_iff. split; apply Nat.eqb_eq; symmetry; assumption.
    + rewrite E1. rewrite window_get by lia.
      replace (board_r0 b + (r' - board_r0 b)) with r' by lia.
      replace (board_c0 b + (c' - board_c0 b)) with c' by lia.
      rewrite E. reflexivity.
Qed.

Lemma valid_grid_completes p s :
  wf_grid s -> samurai_valid s -> full_grid s ->
  (forall r c, cell p r c <> None \/ ~ In (r, c) active_cells ->
               cell s r c = cell p r c) ->
  completes p s.
Proof.
  intros Hwf Hval Hfull Hagree. split; [exact Hwf|]. split; [exact Hagree|].
  intros r c Hin _. now apply valid_cell.
Qed.

Lemma certified_one_leaf p :
  certified p -> exists x, leaves search_depth p = [x].
Proof.
  unfold certified, unique_answer. rewrite leaves_count.
  generalize (leaves search_depth p). intros l E.
  assert (H : Z.min (Z.of_nat (length l)) 2 = 1%Z) by congruence.
  destruct l as [|x [|y rest]]; cbn [length] in H.
  - exfalso. lia.
  - exists x. reflexivity.
  - exfalso. lia.
Qed.

(** A grid dug out of a valid full grid has that grid as its one
    completion: the solution completes it, and the count of 1 that
    certified every removal leaves room for no other. *)
Lemma dug_one_completion actives target solved p :
  wf_grid solved -> full_grid solved -> samurai_valid solved ->
  (forall r c, is_active_cell r c = false -> cell solved r c = None) ->
  dug actives target solved p ->
  completes p solved /\ forall g', completes p g' -> g' = solved.
Proof.
  intros Hwf Hfull Hval Hinactive Hdug.
  pose proof (dug_wf _ _ _ _ Hdug Hwf) as HwfP.
  pose proof (dug_certified _ _ _ _ Hdug (full_grid_certified solved Hfull)) as Hcert.
  pose proof (dug_subset _ _ _ _ Hdug) as Hsub.
  assert (Hcomp : completes p solved).
  { apply valid_grid_completes; try assumption.
    intros r c H. destruct (Hsub r c) as [E|E]; [|now symmetry].
    destruct H as [H|H]; [contradiction|].
    rewrite E. apply Hinactive.
    destruct (is_active_cell r c) eqn:Ea; [|reflexivity].
    exfalso. apply H. apply active_cells_In.
    destruct (active_in_canvas r c Ea). auto. }
  split; [exact Hcomp|].
  intros g' Hg'.
  destruct (certified_one_leaf p Hcert) as [x Hx].
  apply (leaves_In search_depth p _ HwfP (depth_suffices p)) in Hcomp, Hg'.
  rewrite Hx in Hcomp, Hg'. cbn [In] in Hcomp, Hg'.
  destruct Hcomp as [<-|[]], Hg' as [<-|[]]. reflexivity.
Qed.

(** X10: for a known difficulty, the solution that [generate_samurai]
    returns completes the puzzle it returns (same clues, every hole filled
    with a digit that no cell sharing a row, column or box with it holds),
    and no other grid does. *)
Theorem generated_puzzle_one_completion rng difficulty timeout adapt amb :
  In (lower difficulty) DIFFICULTIES ->
  exists puzzle solution rng' amb',
    generate_samurai rng difficulty timeout adapt amb
    = Ok (puzzle, solution, rng', amb')
    /\ completes puzzle solution
    /\ forall g', completes puzzle g' -> g' = solution.
Proof.
  intros Hin. destruct (known_difficulty _ Hin) as [base Hbase].
  destruct (generate_spec rng difficulty timeout adapt amb base Hbase)
    as (solved & rng1 & grand' & Ec & Hwf & Hfull & Hval & Eg & Hdug).
  cbv zeta in Eg, Hdug.
  match type of Hdug with dug _ _ _ ?p => set (P := p) in * end.
  destruct (composition_spec rng) as (g & rng2 & Ec' & _ & _ & _ & Hinactive).
  rewrite Ec in Ec'. injection Ec' as <- <-.
  destruct (dug_one_completion _ _ solved P Hwf Hfull Hval Hinactive Hdug)
    as [Hcomp Honly].
  exists P, solved. eexists _, _. split; [exact Eg|]. split; [exact Hcomp|].
  exact Honly.
Qed.

Lemma generated_puzzle_one_completion_easy :
  In (lower "easy") DIFFICULTIES
  /\ exists puzzle solution rng' amb',
       generate_samurai rng_zero "easy" 5 true amb_slow
       = Ok (puzzle, solution, rng', amb')
       /\ completes puzzle solution
       /\ forall g', completes puzzle g' -> g' = solution.
Proof.
  split; [exact easy_is_known|].
  exact (generated_puzzle_one_completion rng_zero "easy" 5 true amb_slow easy_is_known).
Defined.

(** ** The returned puzzle has exactly one completion *)

(** C1: for a difficulty that (lower-cased) is one of the four names,
    [generate_samurai] returns, and the puzzle it returns has exactly one
    completion under the constraints of all five boards: the returned
    solution completes it (same clues, every hole filled with a digit
    1..9 that no other cell holds in the row, the column or the box of the
    hole, in any board covering it), and every grid that completes it is
    that solution.  Accordingly [solve_unique] with limit 2 on a copy of
    the puzzle answers (true, 1), whatever the state of the global random
    generator.  The same holds of every puzzle that [_dig_holes_to_target]
    digs out of the returned solution, for any target, which covers the
    retries and the final fallback. *)
Theorem generate_samurai_puzzle_unique rng difficulty timeout adapt amb :
  In (lower difficulty) DIFFICULTIES ->
  exists puzzle solution rng' amb',
    generate_samurai rng difficulty timeout adapt amb
    = Ok (puzzle, solution, rng', amb')
    /\ completes puzzle solution
    /\ (forall g', completes puzzle g' -> g' = solution)
    /\ (forall grand, exists s,
          solve_unique grand (copy_grid puzzle) 2 = Ok (true, 1%Z, s))
    /\ (forall rng1 target timeout1 amb1, exists dug_puzzle rng2 amb2,
          _dig_holes_to_target rng1 solution target timeout1 amb1
          = Ok (dug_puzzle, rng2, amb2)
          /\ completes dug_puzzle solution
          /\ (forall g', completes dug_puzzle g' -> g' = solution)
          /\ forall grand, exists s,
               solve_unique grand (copy_grid dug_puzzle) 2 = Ok (true, 1%Z, s)).
Proof.
  intros Hin. destruct (known_difficulty _ Hin) as [base Hbase].
  destruct (generate_spec rng difficulty timeout adapt amb base Hbase)
    as (solved & rng1 & grand' & Ec & Hwf & Hfull & Hval & Eg & Hdug).
  cbv zeta in Eg, Hdug.
  match type of Hdug with dug _ _ _ ?p => set (P := p) in * end.
  destruct (composition_spec rng) as (g & rng2 & Ec' & _ & _ & _ & Hinactive).
  rewrite Ec in Ec'. injection Ec' as <- <-.
  pose proof (full_grid_certified solved Hfull) as Hcert.
  destruct (dug_one_completion _ _ solved P Hwf Hfull Hval Hinactive Hdug)
    as [Hcomp Honly].
  exists P, solved. eexists _, _. split; [exact Eg|].
  split; [exact Hcomp|]. split; [exact Honly|]. split.
  - intros grand. apply certified_copy.
    + exact (dug_wf _ _ _ _ Hdug Hwf).
    + exact (dug_certified _ _ _ _ Hdug Hcert).
  - intros rng3 target timeout1 amb1.
    destruct (dig_holes_spec rng3 solved target timeout1 amb1 Hwf)
      as (g2 & E2 & Hdug2).
    cbv zeta in E2, Hdug2.
    match type of Hdug2 with dug _ _ _ ?p => set (P2 := p) in * end.
    destruct (dug_one_completion _ _ solved P2 Hwf Hfull Hval Hinactive Hdug2)
      as [Hcomp2 Honly2].
    exists P2. eexists _, _. split; [exact E2|].
    split; [exact Hcomp2|]. split; [exact Honly2|].
    intros grand. apply certified_copy.
    + exact (dug_wf _ _ _ _ Hdug2 Hwf).
    + exact (dug_certified _ _ _ _ Hdug2 Hcert).
Qed.

Lemma generate_samurai_puzzle_unique_easy :
  In (lower "easy") DIFFICULTIES
  /\ exists puzzle solution rng' amb',
       generate_samurai rng_zero "easy" 5 true amb_slow
       = Ok (puzzle, solution, rng', amb')
       /\ completes puzzle solution
       /\ (forall g', completes puzzle g' -> g' = solution)
       /\ (forall grand, exists s,
             solve_unique grand (copy_grid puzzle) 2 = Ok (true, 1%Z, s))
       /\ (forall rng1 target timeout1 amb1, exists dug_puzzle rng2 amb2,
             _dig_holes_to_target rng1 solution target timeout1 amb1
             = Ok (dug_puzzle, rng2, amb2)
             /\ completes dug_puzzle solution
             /\ (forall g', completes dug_puzzle g' -> g' = solution)
             /\ forall grand, exists s,
                  solve_unique grand (copy_grid dug_puzzle) 2 = Ok (true, 1%Z, s)).
Proof.
  split; [exact easy_is_known|].
  exact (generate_samurai_puzzle_unique rng_zero "easy" 5 true amb_slow easy_is_known).
Defined.
(* ================================================================== *)
(** * More on the exact-cover matrix *)
(* ================================================================== *)

Import random dlx9.

Lemma box_index_bound r c : (r < 9)%N -> (c < 9)%N -> (_box_index r c < 9)%N.
Proof.
  intros Hr Hc. unfold _box_index.
  assert (r / 3 < 3)%N by (apply N.Div0.div_lt_upper_bound; lia).
  assert (c / 3 < 3)%N by (apply N.Div0.div_lt_upper_bound; lia).
  lia.
Qed.

(** X11: a candidate [(r, c, d)] with [r], [c], [d] below 9 has a row id
    below 729, from which the decoding at the end of [solve_random] gets
    [r], [c] and [d] back; the table [cols_for_row] built by the loops
    holds at that row id the four columns of the candidate, one in each of
    the ranges 0..80, 81..161, 162..242 and 243..323. *)
Theorem row_id_round_trip r c d :
  (r < 9)%N -> (c < 9)%N -> (d < 9)%N ->
  (row_id r c d < 729)%N
  /\ ((row_id r c d / 9) / 9 = r /\ (row_id r c d / 9) mod 9 = c
      /\ row_id r c d mod 9 = d)%N
  /\ idx cols_for_row (row_id r c d) [] = _col_ids_for_candidate r c d
  /\ exists k1 k2 k3 k4,
       _col_ids_for_candidate r c d = [k1; k2; k3; k4]
       /\ (k1 < 81 /\ 81 <= k2 < 162 /\ 162 <= k3 < 243 /\ 243 <= k4 < 324)%N.
Proof.
  intros Hr Hc Hd.
  destruct (rid_decode r c d Hr Hc Hd) as (Hlt & E1 & E2 & E3).
  split; [exact Hlt|]. split; [exact (conj E1 (conj E2 E3))|]. split.
  - rewrite (proj1 (row_layout _ Hlt)). unfold cols_of. now rewrite E1, E2, E3.
  - pose proof (box_index_bound r c Hr Hc) as Hb.
    unfold _col_ids_for_candidate. cbv zeta.
    eexists _, _, _, _. split; [reflexivity|]. lia.
Qed.

Lemma row_id_round_trip_example :
  (4 < 9)%N /\ (7 < 9)%N /\ (2 < 9)%N
  /\ (row_id 4 7 2 < 729)%N
  /\ ((row_id 4 7 2 / 9) / 9 = 4 /\ (row_id 4 7 2 / 9) mod 9 = 7
      /\ row_id 4 7 2 mod 9 = 2)%N
  /\ idx cols_for_row (row_id 4 7 2) [] = _col_ids_for_candidate 4 7 2
  /\ exists k1 k2 k3 k4,
       _col_ids_for_candidate 4 7 2 = [k1; k2; k3; k4]
       /\ (k1 < 81 /\ 81 <= k2 < 162 /\ 162 <= k3 < 243 /\ 243 <= k4 < 324)%N.
Proof.
  split; [reflexivity|]. split; [reflexivity|]. split; [reflexivity|].
  exact (row_id_round_trip 4 7 2 eq_refl eq_refl eq_refl).
Defined.

(** X12: two candidates share a column of the matrix exactly when they
    conflict: same cell, or same digit in the same row, the same column or
    the same box. *)
Theorem shared_column_is_conflict r c d r' c' d' :
  (r < 9)%N -> (c < 9)%N -> (d < 9)%N ->
  (r' < 9)%N -> (c' < 9)%N -> (d' < 9)%N ->
  ((exists col, In col (_col_ids_for_candidate r c d)
                /\ In col (_col_ids_for_candidate r' c' d'))
   <-> (r = r' /\ c = c')
       \/ (d = d' /\ (r = r' \/ c = c' \/ _box_index r c = _box_index r' c'))).
Proof.
  intros Hr Hc Hd Hr' Hc' Hd'.
  pose proof (box_index_bound r c Hr Hc) as Hb.
  pose proof (box_index_bound r' c' Hr' Hc') as Hb'.
  unfold _col_ids_for_candidate. cbv zeta.
  generalize dependent (_box_index r c). generalize dependent (_box_index r' c').
  intros b' Hb' b Hb. cbn [In]. split.
  - intros (col & H1 & H2).
    destruct H1 as [<-|[<-|[<-|[<-|[]]]]];
      destruct H2 as [E|[E|[E|[E|[]]]]]; lia.
  - intros [[<- <-]|[<- [<-|[<-|<-]]]].
    + exists (243 + r * 9 + c)%N. auto 10.
    + exists (0 + r * 9 + d)%N. auto 10.
    + exists (81 + c * 9 + d)%N. auto 10.
    + exists (162 + b * 9 + d)%N. auto 10.
Qed.

Lemma shared_column_is_conflict_example :
  (0 < 9)%N /\ (1 < 9)%N /\ (5 < 9)%N /\ (2 < 9)%N /\ (2 < 9)%N /\ (5 < 9)%N
  /\ ((exists col, In col (_col_ids_for_candidate 0 1 5)
                   /\ In col (_col_ids_for_candidate 2 2 5))
      <-> (0 = 2 /\ 1 = 2)%N
          \/ (5 = 5 /\ (0 = 2 \/ 1 = 2 \/ _box_index 0 1 = _box_index 2 2))%N).
Proof.
  repeat (split; [reflexivity|]).
  exact (shared_column_is_conflict 0 1 5 2 2 5 eq_refl eq_refl eq_refl
           eq_refl eq_refl eq_refl).
Defined.

(** X13: [cover(col)] on a matrix that satisfies the invariant (active rows
    touch active columns only, and the set of an active column holds the
    active rows touching it) keeps the invariant, removes [col] and nothing
    else from the active columns, and removes from the active rows exactly
    those that touch [col]. *)
Theorem cover_removes_column_and_rows col m :
  matrix_inv m ->
  matrix_inv (cover col m)
  /\ (forall c, In c (active_cols (cover col m)) <-> In c (active_cols m) /\ c <> col)
  /\ (forall r, In r (active_rows (cover col m))
                <-> In r (active_rows m) /\ ~ In col (idx cols_for_row r [])).
Proof.
  intros Hinv. destruct (cover_spec col m Hinv) as (H1 & H2 & H3).
  split; [exact H1|]. split; [exact H2|]. exact H3.
Qed.

Lemma cover_removes_column_and_rows_initial :
  matrix_inv initial_matrix
  /\ matrix_inv (cover 0 initial_matrix)
  /\ (forall c, In c (active_cols (cover 0 initial_matrix))
                <-> In c (active_cols initial_matrix) /\ c <> 0%N)
  /\ (forall r, In r (active_rows (cover 0 initial_matrix))
                <-> In r (active_rows initial_matrix)
                    /\ ~ In 0%N (idx cols_for_row r [])).
Proof.
  split; [exact initial_matrix_inv|].
  exact (cover_removes_column_and_rows 0 initial_matrix initial_matrix_inv).
Defined.
(* ================================================================== *)
(** * More on digging and generating *)
(* ================================================================== *)

Import geometry model random solver dlx9 generator.

(** ** Nothing to dig *)

Lemma dig_loop_at_target actives target timeout cells p amb :
  count_clues actives p <= target ->
  dig_loop actives target timeout cells (p, amb) = Ok (p, amb).
Proof.
  intros Hle. destruct cells as [|[r c] rest]; [reflexivity|].
  cbn [dig_loop]. unfold dig_body.
  rewrite (proj2 (Nat.leb_le _ _) Hle). reflexivity.
Qed.

(** X14: when the 21x21 grid has no more clues than the target,
    [_dig_holes_to_target] returns a copy of it with no cell removed; the
    random source has been used for the shuffle, the clock has not been
    read and [solve_unique] has not run. *)
Theorem dig_with_enough_clues rng solved target timeout amb :
  wf_grid solved -> clue_count solved <= target ->
  _dig_holes_to_target rng solved target timeout amb
  = Ok (solved, snd (shuffle rng active_cells), amb).
Proof.
  intros _.
  intros Hle. unfold _dig_holes_to_target. rewrite copy_grid_id.
  pose proof (shuffle_perm rng active_cells) as Hperm.
  destruct (shuffle rng active_cells) as [actives rng1]. cbn [fst snd] in *.
  rewrite dig_loop_at_target; [reflexivity|].
  rewrite (count_clues_perm _ _ solved Hperm). exact Hle.
Qed.

Lemma ones_grid_clues : clue_count ones_grid <= 369.
Proof. apply Nat.leb_le. vm_compute. reflexivity. Qed.

Lemma dig_with_enough_clues_ones :
  wf_grid ones_grid /\ clue_count ones_grid <= 369
  /\ _dig_holes_to_target rng_zero ones_grid 369 5 amb_slow
     = Ok (ones_grid, snd (shuffle rng_zero active_cells), amb_slow).
Proof.
  split; [exact ones_grid_wf|]. split; [exact ones_grid_clues|].
  exact (dig_with_enough_clues rng_zero ones_grid 369 5 amb_slow
           ones_grid_wf ones_grid_clues).
Defined.

(** ** The first attempt returns *)

Lemma attempts_first k todo rng solved target timeout amb :
  wf_grid solved -> certified solved ->
  exists P rng' amb1 s,
    _dig_holes_to_target rng solved target timeout amb = Ok (P, rng', amb1)
    /\ solve_unique (global_random amb1) (copy_grid P) 2 = Ok (true, 1%Z, s)
    /\ forall adapt,
         attempts (k :: todo) rng solved target timeout adapt amb
         = Ok (Some P, rng', mkAmbient (grand s) (wall_clock amb1)).
Proof.
  intros Hwf Hcert.
  destruct (dig_holes_spec rng solved target timeout amb Hwf) as (g1 & E & Hdug).
  cbv zeta in E, Hdug.
  match type of Hdug with dug _ _ _ ?p => set (P := p) in * end.
  destruct (certified_copy g1 P (dug_wf _ _ _ _ Hdug Hwf)
              (dug_certified _ _ _ _ Hdug Hcert)) as (s & Es).
  eexists P, _, _, s. split; [exact E|]. split; [exact Es|].
  intros adapt. cbn [attempts]. rewrite E. cbn [bind global_random wall_clock].
  rewrite Es. cbn [bind andb]. rewrite Z.eqb_refl. reflexivity.
Qed.

(** X15: the [adapt] flag does not change what [generate_samurai]
    returns.  For a known difficulty the call is the composition followed
    by one dig at the base target of the difficulty: the check after the
    first dig always succeeds, so the target is never raised and the
    fallback dig never runs. *)
Theorem adapt_has_no_effect rng difficulty timeout amb :
  generate_samurai rng difficulty timeout true amb
  = generate_samurai rng difficulty timeout false amb
  /\ (In (lower difficulty) DIFFICULTIES ->
      exists base solution rng1 puzzle rng' amb1 amb2,
        lookup (lower difficulty) DIFFICULTY_CLUES = Some base
        /\ _solve_samurai_by_composition rng = Ok (solution, rng1)
        /\ _dig_holes_to_target rng1 solution base timeout amb
           = Ok (puzzle, rng', amb1)
        /\ wall_clock amb2 = wall_clock amb1
        /\ forall adapt,
             generate_samurai rng difficulty timeout adapt amb
             = Ok (puzzle, solution, rng', amb2)).
Proof.
  assert (Hrun : forall base,
            lookup (lower difficulty) DIFFICULTY_CLUES = Some base ->
            exists solution rng1 puzzle rng' amb1 amb2,
              _solve_samurai_by_composition rng = Ok (solution, rng1)
              /\ _dig_holes_to_target rng1 solution base timeout amb
                 = Ok (puzzle, rng', amb1)
              /\ wall_clock amb2 = wall_clock amb1
              /\ forall adapt,
                   generate_samurai rng difficulty timeout adapt amb
                   = Ok (puzzle, solution, rng', amb2)).
  { intros base Hbase.
    destruct (composition_spec rng) as (S & rng1 & Ec & Hwf & Hfull & _).
    destruct (attempts_first 0 (seq 1 2) rng1 S base timeout amb Hwf
                (full_grid_certified S Hfull)) as (P & rng' & amb1 & s & Ed & _ & Ea).
    exists S, rng1, P, rng', amb1, (mkAmbient (grand s) (wall_clock amb1)).
    split; [exact Ec|]. split; [exact Ed|]. split; [reflexivity|].
    intros adapt. unfold generate_samurai. rewrite Hbase, Ec. cbn [bind].
    change (seq 0 3) with (0 :: seq 1 2). rewrite Ea. reflexivity. }
  split.
  - destruct (lookup (lower difficulty) DIFFICULTY_CLUES) as [base|] eqn:Hbase.
    + destruct (Hrun base eq_refl) as (S & rng1 & P & rng' & amb1 & amb2 & _ & _ & _ & E).
      now rewrite !E.
    + unfold generate_samurai. now rewrite Hbase.
  - intros Hin. destruct (known_difficulty _ Hin) as [base Hbase].
    destruct (Hrun base Hbase) as (S & rng1 & P & rng' & amb1 & amb2 & H).
    exists base, S, rng1, P, rng', amb1, amb2. split; [exact Hbase|exact H].
Qed.

(** ** A budget that is never met *)

Lemma dig_outcome_over_budget actives target timeout readings cells :
  (forall k, (timeout < readings (S k) - readings k)%Z) ->
  forall p n,
    fst (dig_outcome actives target timeout cells p (time.mkClock readings n)) = p.
Proof.
  intros Hover. induction cells as [|[r c] rest IH]; intros p n; [reflexivity|].
  cbn [dig_outcome]. destruct (count_clues actives p <=? target); [reflexivity|].
  destruct (cell p r c) as [v|]; [|apply IH].
  destruct (unique_answer (set_cell p r c None) 2) as [has nsol].
  assert (Hto : timed_out timeout (time.mkClock readings n) = true).
  { unfold timed_out. cbn [time.readings time.reads]. apply Z.ltb_lt. apply Hover. }
  rewrite Hto. cbn [orb]. unfold clock_after. cbn [time.readings time.reads].
  apply IH.
Qed.

(** X16: when every reading of the clock is more than the budget after
    the reading before it (so with any negative budget on a clock that
    does not run backwards), every removal is undone: for a known
    difficulty the puzzle that [generate_samurai] returns is the solution
    itself, with all 369 clues. *)
Theorem over_budget_returns_solution rng difficulty timeout adapt grand readings n :
  (forall k, (timeout < readings (S k) - readings k)%Z) ->
  In (lower difficulty) DIFFICULTIES ->
  exists solution rng' amb',
    generate_samurai rng difficulty timeout adapt
                     (mkAmbient grand (time.mkClock readings n))
    = Ok (solution, solution, rng', amb')
    /\ clue_count solution = 369.
Proof.
  intros Hover Hin. destruct (known_difficulty _ Hin) as [base Hbase].
  destruct (generate_spec rng difficulty timeout adapt
              (mkAmbient grand (time.mkClock readings n)) base Hbase)
    as (solved & rng1 & grand' & Ec & Hwf & Hfull & Hval & Eg & Hdug).
  cbv zeta in Eg. cbn [wall_clock] in Eg.
  rewrite (dig_outcome_over_budget _ base timeout readings _ Hover solved n) in Eg.
  exists solved. eexists _, _. split; [exact Eg|].
  rewrite (full_grid_count solved Hfull). exact active_cells_length.
Qed.

Lemma over_budget_returns_solution_slow :
  (forall k, (5 < 10 * Z.of_nat (S k) - 10 * Z.of_nat k)%Z)
  /\ In (lower "easy") DIFFICULTIES
  /\ exists solution rng' amb',
       generate_samurai rng_zero "easy" 5 true
                        (mkAmbient rng_zero
                           (time.mkClock (fun k => (10 * Z.of_nat k)%Z) 0))
       = Ok (solution, solution, rng', amb')
       /\ clue_count solution = 369.
Proof.
  assert (H : forall k, (5 < 10 * Z.of_nat (S k) - 10 * Z.of_nat k)%Z) by (intros k; lia).
  split; [exact H|]. split; [exact easy_is_known|].
  exact (over_budget_returns_solution rng_zero "easy" 5 true rng_zero
           (fun k => (10 * Z.of_nat k)%Z) 0 H easy_is_known).
Defined.

(** ** The grids returned *)

(** X17: for a known difficulty the two grids that [generate_samurai]
    returns are 21x21; the solution holds a digit in every active cell
    and each of its five boards is a valid Sudoku board; both grids are
    empty outside the five boards. *)
Theorem generated_grids_well_formed rng difficulty timeout adapt amb :
  In (lower difficulty) DIFFICULTIES ->
  exists puzzle solution rng' amb',
    generate_samurai rng difficulty timeout adapt amb
    = Ok (puzzle, solution, rng', amb')
    /\ wf_grid puzzle /\ wf_grid solution
    /\ full_grid solution /\ samurai_valid solution
    /\ forall r c, is_active_cell r c = false ->
                   cell puzzle r c = None /\ cell solution r c = None.
Proof.
  intros Hin. destruct (known_difficulty _ Hin) as [base Hbase].
  destruct (generate_spec rng difficulty timeout adapt amb base Hbase)
    as (solved & rng1 & grand' & Ec & Hwf & Hfull & Hval & Eg & Hdug).
  cbv zeta in Eg, Hdug.
  match type of Hdug with dug _ _ _ ?p => set (P := p) in * end.
  destruct (composition_spec rng) as (g & rng2 & Ec' & _ & _ & _ & Hinactive).
  rewrite Ec in Ec'. injection Ec' as <- <-.
  exists P, solved. eexists _, _. split; [exact Eg|].
  split; [exact (dug_wf _ _ _ _ Hdug Hwf)|]. split; [exact Hwf|].
  split; [exact Hfull|]. split; [exact Hval|].
  intros r c Ha. pose proof (Hinactive r c Ha) as Hs. split; [|exact Hs].
  destruct (dug_subset _ _ _ _ Hdug r c) as [E|E]; [exact E|congruence].
Qed.

Lemma generated_grids_well_formed_easy :
  In (lower "easy") DIFFICULTIES
  /\ exists puzzle solution rng' amb',
       generate_samurai rng_zero "easy" 5 true amb_slow
       = Ok (puzzle, solution, rng', amb')
       /\ wf_grid puzzle /\ wf_grid solution
       /\ full_grid solution /\ samurai_valid solution
       /\ forall r c, is_active_cell r c = false ->
                      cell puzzle r c = None /\ cell solution r c = None.
Proof.
  split; [exact easy_is_known|].
  exact (generated_grids_well_formed rng_zero "easy" 5 true amb_slow easy_is_known).
Defined.

(** ** The givens of a corner *)

Lemma overlap_givens_exact center pr0 pc0 sr0 sc0 r c d :
  In (r, c, d) (overlap_givens center pr0 pc0 sr0 sc0)
  <-> (pr0 <= r < pr0 + 3 /\ pc0 <= c < pc0 + 3
       /\ d = (board_get center (sr0 + (r - pr0)) (sc0 + (c - pc0)) - 1)%Z).
Proof.
  unfold overlap_givens. rewrite in_flat_map. split.
  - intros (dr & Hdr & H). apply in_map_iff in H. destruct H as (dc & E & Hdc).
    apply in_seq in Hdr, Hdc. injection E as <- <- <-.
    replace (pr0 + dr - pr0) with dr by lia. replace (pc0 + dc - pc0) with dc by lia.
    split; [lia|]. split; [lia|reflexivity].
  - intros (Hr & Hc & ->). exists (r - pr0). split; [apply in_seq; lia|].
    apply in_map_iff. exists (c - pc0). split; [|apply in_seq; lia].
    f_equal; try f_equal; lia.
Qed.

(** X18: on a 9x9 center board [_extract_overlap_givens] raises [KeyError]
    for a name that is not one of TL, TR, BL, BR.  For a corner board of
    [BOARDS] it returns nine givens: one for each cell of the corner that
    the center board covers too, at the cell's position in the corner, with
    the digit the center holds at that cell of the canvas, less one. *)
Theorem extract_overlap_givens_exact center corner :
  shape9 center ->
  (~ In corner ["TL"; "TR"; "BL"; "BR"]%string ->
   _extract_overlap_givens center corner = Raise KeyError)
  /\ (forall b, In b CORNERS -> board_name b = corner ->
        exists gs,
          _extract_overlap_givens center corner = Ok gs
          /\ length gs = 9
          /\ forall r c d,
               In (r, c, d) gs
               <-> (r < 9 /\ c < 9
                    /\ covers CENTER (board_r0 b + r) (board_c0 b + c) = true
                    /\ d = (board_get center (board_r0 b + r - 6)
                                      (board_c0 b + c - 6) - 1)%Z)).
Proof.
  intros _.
  split.
  - intros Hn. unfold _extract_overlap_givens. cbv zeta. cbn [lookup].
    destruct (String.eqb_spec corner "TL") as [->|_]; [exfalso; apply Hn; cbn; auto|].
    destruct (String.eqb_spec corner "TR") as [->|_]; [exfalso; apply Hn; cbn; auto|].
    destruct (String.eqb_spec corner "BL") as [->|_]; [exfalso; apply Hn; cbn; auto|].
    destruct (String.eqb_spec corner "BR") as [->|_]; [exfalso; apply Hn; cbn; auto 6|].
    reflexivity.
  - intros b Hb <-. rewrite corners_list in Hb. cbn [In] in Hb.
    destruct (extract_overlap_givens_eq center) as (Etl & Etr & Ebl & Ebr).
    destruct Hb as [<-|[<-|[<-|[<-|[]]]]];
      cbn [board_name board_r0 board_c0 fst snd];
      [rewrite Etl|rewrite Etr|rewrite Ebl|rewrite Ebr];
      (eexists; split; [reflexivity|]; split; [reflexivity|]);
      intros r c d; rewrite overlap_givens_exact, covers_iff;
      cbn [board_r0 board_c0 CENTER fst snd];
      (split; [intros (Hr & Hc & ->)|intros (Hr & Hc & Hcov & ->)]);
      repeat split; try lia; do 2 f_equal; lia.
Qed.

Lemma extract_overlap_givens_exact_base :
  shape9 base_board
  /\ (~ In "TL"%string ["TL"; "TR"; "BL"; "BR"]%string ->
      _extract_overlap_givens base_board "TL" = Raise KeyError)
  /\ (forall b, In b CORNERS -> board_name b = "TL"%string ->
        exists gs,
          _extract_overlap_givens base_board "TL" = Ok gs
          /\ length gs = 9
          /\ forall r c d,
               In (r, c, d) gs
               <-> (r < 9 /\ c < 9
                    /\ covers CENTER (board_r0 b + r) (board_c0 b + c) = true
                    /\ d = (board_get base_board (board_r0 b + r - 6)
                                      (board_c0 b + c - 6) - 1)%Z)).
Proof.
  split; [exact base_board_shape|].
  exact (extract_overlap_givens_exact base_board "TL" base_board_shape).
Defined.

(** ** Writing a board and reading it back *)

Lemma board_ext b b' :
  shape9 b -> shape9 b' ->
  (forall r c, r < 9 -> c < 9 -> board_get b r c = board_get b' r c) -> b = b'.
Proof.
  intros [Hl Hrows] [Hl' Hrows'] Hget.
  rewrite Forall_forall in Hrows, Hrows'.
  apply (nth_ext b b' [] []); [congruence|].
  intros r Hr. rewrite Hl in Hr.
  assert (H1 : length (nth r b []) = 9) by (apply Hrows, nth_In; lia).
  assert (H2 : length (nth r b' []) = 9) by (apply Hrows', nth_In; lia).
  apply (nth_ext _ _ 0%Z 0%Z); [congruence|].
  intros c Hc. rewrite H1 in Hc. exact (Hget r c Hr Hc).
Qed.

Lemma window_shape g r0 c0 : shape9 (window g r0 c0).
Proof.
  unfold window. split; [now rewrite length_map|].
  apply Forall_forall. intros row Hin. apply in_map_iff in Hin.
  destruct Hin as (r & <- & _). now rewrite length_map.
Qed.

(** X19: [_embed] writes a 9x9 board into the grid at an origin that
    leaves the board inside the canvas: the grid stays 21x21, the 9x9
    window read back at that origin is the board, and the cells outside
    the window are as they were. *)
Theorem embed_then_window b g r0 c0 :
  wf_grid g -> r0 + 9 <= 21 -> c0 + 9 <= 21 -> shape9 b ->
  wf_grid (_embed b g r0 c0)
  /\ window (_embed b g r0 c0) r0 c0 = b
  /\ forall r c, in_board r c r0 c0 = false ->
                 cell (_embed b g r0 c0) r c = cell g r c.
Proof.
  intros Hwf Hr0 Hc0 Hb.
  destruct (embed_spec b g r0 c0 Hwf Hr0 Hc0) as [Hwf' Hcell].
  split; [exact Hwf'|]. split.
  - apply board_ext; [apply window_shape|exact Hb|].
    intros r c Hr Hc. rewrite window_get, Hcell by assumption.
    rewrite (proj2 (in_board_true (r0 + r) (c0 + c) r0 c0)) by lia.
    cbn [value_or_zero]. f_equal; lia.
  - intros r c Hout. now rewrite Hcell, Hout.
Qed.

Lemma embed_then_window_center :
  wf_grid empty_samurai_grid /\ 6 + 9 <= 21 /\ 6 + 9 <= 21 /\ shape9 base_board
  /\ wf_grid (_embed base_board empty_samurai_grid 6 6)
  /\ window (_embed base_board empty_samurai_grid 6 6) 6 6 = base_board
  /\ forall r c, in_board r c 6 6 = false ->
                 cell (_embed base_board empty_samurai_grid 6 6) r c
                 = cell empty_samurai_grid r c.
Proof.
  assert (H1 : 6 + 9 <= 21) by lia.
  split; [exact empty_samurai_grid_wf|]. split; [exact H1|]. split; [exact H1|].
  split; [exact base_board_shape|].
  exact (embed_then_window base_board empty_samurai_grid 6 6
           empty_samurai_grid_wf H1 H1 base_board_shape).
Defined.
(* ================================================================== *)
(** * The command line: what it counts and what it schedules *)
(* ================================================================== *)

Import geometry model random solver dlx9 generator.

(** ** Counting over the canvas and over the active cells *)

Lemma sum_cons (x : nat) (l : list nat) : list_sum (x :: l) = x + list_sum l.
Proof. reflexivity. Qed.

Lemma ones_sum {A : Type} (l : list A) : list_sum (map (fun _ => 1) l) = length l.
Proof.
  induction l as [|x l IH]; [reflexivity|].
  cbn [map length]. now rewrite sum_cons, IH.
Qed.

Lemma filter_length_sum {A : Type} (p : A -> bool) (l : list A) :
  length (filter p l) = list_sum (map (fun v => if p v then 1 else 0) l).
Proof.
  induction l as [|x l IH]; [reflexivity|]. cbn [filter map]. rewrite sum_cons.
  destruct (p x); cbn [length]; rewrite IH; reflexivity.
Qed.

Lemma flat_map_length_sum {A B : Type} (f : A -> list B) (l : list A) :
  length (flat_map f l) = list_sum (map (fun x => length (f x)) l).
Proof.
  induction l as [|x l IH]; [reflexivity|]. cbn [flat_map map].
  now rewrite sum_cons, length_app, IH.
Qed.

Lemma map_nth_seq {A B : Type} (f : A -> B) (l : list A) (d : A) :
  map f l = map (fun i => f (nth i l d)) (seq 0 (length l)).
Proof.
  induction l as [|x l IH]; [reflexivity|].
  cbn [length seq map nth]. f_equal.
  rewrite <- seq_shift, map_map. exact IH.
Qed.

Lemma list_sum_ext_in {A : Type} (f g : A -> nat) (l : list A) :
  (forall x, In x l -> f x = g x) -> list_sum (map f l) = list_sum (map g l).
Proof. intros H. f_equal. now apply map_ext_in. Qed.

Lemma list_sum_le_in {A : Type} (f g : A -> nat) (l : list A) :
  (forall x, In x l -> f x <= g x) -> list_sum (map f l) <= list_sum (map g l).
Proof.
  induction l as [|x l IH]; intros H; [apply Nat.le_refl|].
  cbn [map]. rewrite !sum_cons. apply Nat.add_le_mono.
  - apply H. now left.
  - apply IH. intros y Hy. apply H. now right.
Qed.

(** The count of the command line, cell by cell over the canvas. *)
Lemma cli_count_by_cell g :
  wf_grid g ->
  cli._count_clues g
  = list_sum
      (map (fun r =>
              list_sum
                (map (fun c => match cell g r c with Some _ => 1 | None => 0 end)
                     (seq 0 BOARD_SIZE)))
           (seq 0 BOARD_SIZE)).
Proof.
  intros [Hl Hrows]. rewrite Forall_forall in Hrows.
  unfold cli._count_clues. rewrite ones_sum, flat_map_length_sum.
  rewrite (map_nth_seq _ g []), Hl.
  apply list_sum_ext_in. intros r Hr. apply in_seq in Hr.
  assert (Hrow : length (nth r g []) = BOARD_SIZE) by (apply Hrows, nth_In; lia).
  rewrite filter_length_sum, (map_nth_seq _ (nth r g []) None), Hrow.
  apply list_sum_ext_in. intros c _. unfold cell.
  now destruct (nth c (nth r g []) None).
Qed.

(** The count of the generator, cell by cell over the canvas. *)
Lemma active_count_by_cell (rs cs : list nat) (q : nat * nat -> bool) :
  length
    (filter q
       (flat_map (fun r =>
          flat_map (fun c => if is_active_cell r c then [(r, c)] else []) cs) rs))
  = list_sum
      (map (fun r =>
              list_sum
                (map (fun c => if is_active_cell r c && q (r, c) then 1 else 0) cs))
           rs).
Proof.
  induction rs as [|r rs IH]; [reflexivity|].
  cbn [flat_map map]. rewrite sum_cons, filter_app, length_app, IH. f_equal.
  clear IH. induction cs as [|c cs IH]; [reflexivity|].
  cbn [flat_map map]. rewrite sum_cons, filter_app, length_app, IH. f_equal.
  destruct (is_active_cell r c); [|reflexivity].
  cbn [filter andb]. now destruct (q (r, c)).
Qed.

Lemma count_clues_by_cell g :
  count_clues active_cells g
  = list_sum
      (map (fun r =>
              list_sum
                (map (fun c => if is_active_cell r c
                                  && negb (is_cell_empty g r c) then 1 else 0)
                     (seq 0 BOARD_SIZE)))
           (seq 0 BOARD_SIZE)).
Proof.
  unfold count_clues, active_cells.
  exact (active_count_by_cell (seq 0 BOARD_SIZE) (seq 0 BOARD_SIZE)
           (fun rc => negb (is_cell_empty g (fst rc) (snd rc)))).
Qed.

Lemma cli_count_eq g :
  wf_grid g ->
  (forall r c, is_active_cell r c = false -> cell g r c = None) ->
  cli._count_clues g = count_clues active_cells g.
Proof.
  intros Hwf Hout. rewrite (cli_count_by_cell g Hwf), count_clues_by_cell.
  apply list_sum_ext_in. intros r _.
  apply list_sum_ext_in. intros c _. unfold is_cell_empty.
  destruct (is_active_cell r c) eqn:Ea.
  - now destruct (cell g r c).
  - now rewrite (Hout r c Ea).
Qed.

(** X20: on a 21x21 grid the clue count of the command line
    ([_count_clues] of [cli], over all rows) is never below the count of
    the generator (over the active cells), and the two agree when the
    cells outside the five boards are empty. *)
Theorem cli_count_is_active_count g :
  wf_grid g ->
  count_clues active_cells g <= cli._count_clues g
  /\ ((forall r c, is_active_cell r c = false -> cell g r c = None) ->
      cli._count_clues g = count_clues active_cells g).
Proof.
  intros Hwf. split.
  - rewrite (cli_count_by_cell g Hwf), count_clues_by_cell.
    apply list_sum_le_in. intros r _. apply list_sum_le_in. intros c _.
    unfold is_cell_empty.
    destruct (is_active_cell r c), (cell g r c); cbn [andb negb]; lia.
  - exact (cli_count_eq g Hwf).
Qed.

Lemma cli_count_is_active_count_empty :
  wf_grid empty_samurai_grid
  /\ count_clues active_cells empty_samurai_grid <= cli._count_clues empty_samurai_grid
  /\ ((forall r c, is_active_cell r c = false -> cell empty_samurai_grid r c = None) ->
      cli._count_clues empty_samurai_grid = count_clues active_cells empty_samurai_grid).
Proof.
  split; [exact empty_samurai_grid_wf|].
  exact (cli_count_is_active_count empty_samurai_grid empty_samurai_grid_wf).
Defined.

(** X21: for a known difficulty the clue count that the command line
    reports for the puzzle [generate_samurai] returns lies between the
    base target of the difficulty and 369, and for the solution it is
    369. *)
Theorem cli_count_of_generated rng difficulty timeout adapt amb :
  In (lower difficulty) DIFFICULTIES ->
  exists base puzzle solution rng' amb',
    lookup (lower difficulty) DIFFICULTY_CLUES = Some base
    /\ generate_samurai rng difficulty timeout adapt amb
       = Ok (puzzle, solution, rng', amb')
    /\ base <= cli._count_clues puzzle <= 369
    /\ cli._count_clues solution = 369.
Proof.
  intros Hin. destruct (known_difficulty _ Hin) as [base Hbase].
  destruct (generate_spec rng difficulty timeout adapt amb base Hbase)
    as (solved & rng1 & grand' & Ec & Hwf & Hfull & Hval & Eg & Hdug).
  cbv zeta in Eg, Hdug.
  destruct (shuffled_actives rng1) as [Hperm Hnd].
  destruct (dug_count _ _ _ _ Hnd Hdug) as [Hle Hge].
  match type of Hdug with dug _ _ _ ?p => set (P := p) in * end.
  pose proof (count_clues_perm _ _ solved Hperm) as P1.
  pose proof (count_clues_perm _ _ P Hperm) as P2.
  pose proof (full_grid_count solved Hfull) as Hc.
  rewrite active_cells_length in Hc. unfold clue_count in Hc.
  destruct (lookup_difficulty _ _ Hbase) as [_ Hb].
  assert (Hb' : base <= 170) by (cbn [In] in Hb; lia).
  destruct (composition_spec rng) as (g & rng2 & Ec' & _ & _ & _ & Hinactive).
  rewrite Ec in Ec'. injection Ec' as <- <-.
  assert (HoutP : forall r c, is_active_cell r c = false -> cell P r c = None).
  { intros r c Ha. pose proof (Hinactive r c Ha) as Hs.
    destruct (dug_subset _ _ _ _ Hdug r c) as [E|E]; [exact E|congruence]. }
  pose proof (cli_count_eq P (dug_wf _ _ _ _ Hdug Hwf) HoutP) as EP.
  pose proof (cli_count_eq solved Hwf Hinactive) as ES.
  exists base, P, solved. eexists _, _.
  split; [exact Hbase|]. split; [exact Eg|].
  rewrite EP, ES. split; [lia|exact Hc].
Qed.

Lemma cli_count_of_generated_easy :
  In (lower "easy") DIFFICULTIES
  /\ exists base puzzle solution rng' amb',
       lookup (lower "easy") DIFFICULTY_CLUES = Some base
       /\ generate_samurai rng_zero "easy" 5 true amb_slow
          = Ok (puzzle, solution, rng', amb')
       /\ base <= cli._count_clues puzzle <= 369
       /\ cli._count_clues solution = 369.
Proof.
  split; [exact easy_is_known|].
  exact (cli_count_of_generated rng_zero "easy" 5 true amb_slow easy_is_known).
Defined.

(** ** The schedule *)

Lemma to_nat_or_zero (x : option Z) :
  Z.to_nat (Z.max 0 (cli.or_zero x))
  = match x with Some n => Z.to_nat n | None => 0 end.
Proof.
  destruct x as [n|]; [|reflexivity]. unfold cli.or_zero.
  destruct (Z.eqb_spec n 0) as [->|_]; [reflexivity|]. lia.
Qed.

Lemma mix_counts (e m h v : nat) :
  let s := repeat "easy"%string e ++ repeat "medium"%string m
           ++ repeat "hard"%string h ++ repeat "evil"%string v in
  count_occ string_dec s "easy"%string = e
  /\ count_occ string_dec s "medium"%string = m
  /\ count_occ string_dec s "hard"%string = h
  /\ count_occ string_dec s "evil"%string = v
  /\ length s = e + m + h + v
  /\ forall d, In d s -> In d DIFFICULTIES.
Proof.
  cbv zeta. rewrite !count_occ_app, !length_app, !repeat_length.
  repeat match goal with
         | |- context [count_occ string_dec (repeat ?y ?n) ?x] =>
             first [ rewrite (count_occ_repeat_eq string_dec (x := x) (y := y) n eq_refl)
                   | rewrite (count_occ_repeat_neq string_dec (x := x) (y := y) n)
                       by discriminate ]
         end.
  repeat (split; [lia|]).
  intros d Hd. rewrite !in_app_iff in Hd.
  unfold DIFFICULTIES, DIFFICULTY_CLUES. cbn [map fst In].
  destruct Hd as [H|[H|[H|H]]]; apply repeat_spec in H; subst d; tauto.
Qed.

(** X22: the schedule that [main] builds from its arguments.  It has as
    many entries as the page count has after the block (none when that is
    zero or negative), so an empty schedule and a page count of at most
    zero are the same thing.  Without per-level counts it is the one
    difficulty, once per page, and the page count is kept.  With any
    per-level count the page count and the single difficulty are ignored:
    every entry is one of easy, medium, hard, evil, and each level occurs
    as often as its count says, a missing or negative count being zero. *)
Theorem schedule_matches_pages pages difficulty easy medium hard evil :
  let count := fun x : option Z => match x with Some n => Z.to_nat n | None => 0 end in
  let out := cli.build_schedule pages difficulty easy medium hard evil in
  length (fst out) = Z.to_nat (snd out)
  /\ ((snd out <= 0)%Z <-> fst out = [])
  /\ (easy = None /\ medium = None /\ hard = None /\ evil = None ->
        snd out = pages /\ fst out = repeat difficulty (Z.to_nat pages))
  /\ (~ (easy = None /\ medium = None /\ hard = None /\ evil = None) ->
        snd out = Z.of_nat (count easy + count medium + count hard + count evil)
        /\ count_occ string_dec (fst out) "easy"%string = count easy
        /\ count_occ string_dec (fst out) "medium"%string = count medium
        /\ count_occ string_dec (fst out) "hard"%string = count hard
        /\ count_occ string_dec (fst out) "evil"%string = count evil
        /\ forall d, In d (fst out) -> In d DIFFICULTIES).
Proof.
  cbv zeta. unfold cli.build_schedule.
  destruct (existsb _ [easy; medium; hard; evil]) eqn:Emix.
  - cbv zeta. cbn [fst snd]. rewrite !to_nat_or_zero.
    destruct (mix_counts
                (match easy with Some n => Z.to_nat n | None => 0 end)
                (match medium with Some n => Z.to_nat n | None => 0 end)
                (match hard with Some n => Z.to_nat n | None => 0 end)
                (match evil with Some n => Z.to_nat n | None => 0 end))
      as (C1 & C2 & C3 & C4 & Hlen & Hin).
    cbv zeta in C1, C2, C3, C4, Hlen, Hin.
    split; [now rewrite Nat2Z.id|]. split.
    + split.
      * intros Hle. apply length_zero_iff_nil. lia.
      * intros ->. cbn [length]. lia.
    + split.
      * intros (-> & -> & -> & ->). discriminate Emix.
      * intros _. rewrite Hlen. repeat (split; [assumption || reflexivity|]). exact Hin.
  - cbn [fst snd]. split; [apply repeat_length|]. split.
    + split.
      * intros Hle. replace (Z.to_nat pages) with 0 by lia. reflexivity.
      * intros H. apply (f_equal (@length string)) in H.
        rewrite repeat_length in H. cbn [length] in H. lia.
    + split; [intros _; split; reflexivity|].
      intros Hsome. exfalso. apply Hsome.
      destruct easy, medium, hard, evil; try discriminate Emix. repeat split.
Qed.
(* ================================================================== *)
(** * The uniqueness check and the puzzle object *)
(* ================================================================== *)

Import geometry model random solver dlx9 generator.

(** A heap that holds the rows of one grid and nothing else. *)
Lemma whole_heap_ref (g : Grid) :
  wf_grid g ->
  valid_ref g (seq 0 BOARD_SIZE) /\ objects.read g (seq 0 BOARD_SIZE) = g.
Proof.
  intros [Hl _]. rewrite <- Hl. split.
  - exact (fresh_valid [] g).
  - exact (read_fresh [] g).
Qed.

(** X23: the check [solve_unique([row[:] for row in puzzle], 2)] of the
    generator, on a puzzle object whose rows are distinct row objects
    holding a 21x21 grid: the call returns the answer of [solve_unique]
    on the value of the puzzle, and afterwards the puzzle holds what it
    held before, as does every row object that existed before (also when
    the search stops at the limit and leaves its own grid filled in); the
    random source of the caller and the clock are not used. *)
Theorem check_unique_keeps_puzzle puzzle w :
  valid_ref (objects.heap w) puzzle ->
  wf_grid (objects.read (objects.heap w) puzzle) ->
  exists answer s w',
    solve_unique (global_random (objects.ambient w))
                 (objects.read (objects.heap w) puzzle) 2 = Ok (answer, s)
    /\ objects.check_unique puzzle w = (Ok answer, w')
    /\ objects.read (objects.heap w') puzzle = objects.read (objects.heap w) puzzle
    /\ frame (length (objects.heap w)) (objects.heap w) (objects.heap w')
    /\ objects.source w' = objects.source w
    /\ wall_clock (objects.ambient w') = wall_clock (objects.ambient w)
    /\ global_random (objects.ambient w') = grand s.
Proof.
  intros Hv Hwf. destruct w as [h rng0 [gr clk]].
  cbn [objects.heap objects.source objects.ambient global_random wall_clock] in *.
  destruct (solve_unique_spec gr (objects.read h puzzle) 2 Hwf) as (s & Es & _); [lia|].
  destruct (check_unique_spec puzzle h rng0 gr clk _ s Hv Es) as (h' & Ec & Hframe).
  eexists _, s, _. split; [exact Es|]. split; [exact Ec|].
  cbn [objects.heap objects.source objects.ambient global_random wall_clock].
  split; [|split; [exact Hframe|split; [reflexivity|split; reflexivity]]].
  apply (read_frame (length h) h h' puzzle Hframe). exact (proj2 Hv).
Qed.

Lemma check_unique_keeps_puzzle_hole :
  valid_ref (objects.heap (objects.mkWorld ones_with_hole rng_zero amb_slow))
            (seq 0 BOARD_SIZE)
  /\ wf_grid (objects.read
                (objects.heap (objects.mkWorld ones_with_hole rng_zero amb_slow))
                (seq 0 BOARD_SIZE))
  /\ exists answer s w',
       solve_unique
         (global_random
            (objects.ambient (objects.mkWorld ones_with_hole rng_zero amb_slow)))
         (objects.read
            (objects.heap (objects.mkWorld ones_with_hole rng_zero amb_slow))
            (seq 0 BOARD_SIZE)) 2 = Ok (answer, s)
       /\ objects.check_unique (seq 0 BOARD_SIZE)
            (objects.mkWorld ones_with_hole rng_zero amb_slow) = (Ok answer, w')
       /\ objects.read (objects.heap w') (seq 0 BOARD_SIZE)
          = objects.read
              (objects.heap (objects.mkWorld ones_with_hole rng_zero amb_slow))
              (seq 0 BOARD_SIZE)
       /\ frame
            (length (objects.heap (objects.mkWorld ones_with_hole rng_zero amb_slow)))
            (objects.heap (objects.mkWorld ones_with_hole rng_zero amb_slow))
            (objects.heap w')
       /\ objects.source w'
          = objects.source (objects.mkWorld ones_with_hole rng_zero amb_slow)
       /\ wall_clock (objects.ambient w')
          = wall_clock
              (objects.ambient (objects.mkWorld ones_with_hole rng_zero amb_slow))
       /\ global_random (objects.ambient w') = grand s.
Proof.
  destruct (whole_heap_ref ones_with_hole ones_with_hole_wf) as [Hv Hr].
  assert (Hwf : wf_grid (objects.read
                           (objects.heap
                              (objects.mkWorld ones_with_hole rng_zero amb_slow))
                           (seq 0 BOARD_SIZE))).
  { cbn [objects.heap]. rewrite Hr. exact ones_with_hole_wf. }
  split; [exact Hv|]. split; [exact Hwf|].
  exact (check_unique_keeps_puzzle (seq 0 BOARD_SIZE)
           (objects.mkWorld ones_with_hole rng_zero amb_slow) Hv Hwf).
Defined.
